(** * dysgu: coverage scanning and read-association graph

    A shallow embedding of the two Cython sources of the structural-variant
    caller,

      - [dysgu/coverage.pyx]: insert-size statistics, the binned coverage
        array and the high-coverage filter of [GenomeScanner];
      - [dysgu/graph.pyx]: the paired-end scope ([PairedEndScoper]), the
        construction of graph nodes and edges and the partitioning of
        components;

    followed by the properties established about them.

    Conventions.  C [int] values are integers of [Z]; the models are exact
    as long as no signed overflow occurs in the source.  C [float] is IEEE
    binary32 and C [double] / Python [float] is binary64, both through the
    standard library's [spec_float].  A result [None] stands for a run that
    does not return normally: a Python exception, or an access the source
    makes outside a buffer with bounds checking switched off. *)

From Stdlib Require Import ZArith QArith SpecFloat Lia Lqa.
From stdpp Require Import gmap list sorting strings.

Local Open Scope Z_scope.

(** ** Floating point as the sources use it *)

Module CFloat.

(** [(double) z] *)
Definition double_of_Z (z : Z) : spec_float := binary_normalize 53 1024 z 0 false.

(** [(float) z] *)
Definition float_of_Z (z : Z) : spec_float := binary_normalize 24 128 z 0 false.

(** Narrowing conversion [double -> float], round to nearest even. *)
Definition float_of_double (x : spec_float) : spec_float :=
  match x with
  | S754_finite s m e => binary_normalize 24 128 (cond_Zopp s (Zpos m)) e s
  | _ => x
  end.

(** Widening conversion [float -> double]; exact. *)
Definition double_of_float (x : spec_float) : spec_float :=
  match x with
  | S754_finite s m e => binary_normalize 53 1024 (cond_Zopp s (Zpos m)) e s
  | _ => x
  end.

(** The C cast [<int> x]: truncation toward zero.  (The cast of a NaN or
    of an infinity is undefined in C; it is 0 here.) *)
Definition int_of_float (x : spec_float) : Z :=
  match x with
  | S754_finite s m e =>
      cond_Zopp s (match e with
                   | Zneg p => Z.shiftr (Zpos m) (Zpos p)
                   | _ => Z.shiftl (Zpos m) e
                   end)
  | _ => 0
  end.

(** The rational a finite float stands for (0 for the others). *)
Definition Q_of_float (x : spec_float) : Q :=
  match x with
  | S754_finite s m e =>
      match e with
      | Zneg p => Qmake (cond_Zopp s (Zpos m)) (2 ^ p)
      | _ => inject_Z (cond_Zopp s (Zpos m) * 2 ^ e)
      end
  | _ => 0%Q
  end.

Definition fadd32 := SFadd 24 128.
Definition fsub32 := SFsub 24 128.
Definition fdiv32 := SFdiv 24 128.
Definition fadd64 := SFadd 53 1024.
Definition fdiv64 := SFdiv 53 1024.

(** [n / 100] on two C ints under [language_level=3]: true division, done
    in double precision. *)
Definition true_div (n d : Z) : spec_float := fdiv64 (double_of_Z n) (double_of_Z d).

End CFloat.

(** ** Alignment records

    The fields of pysam's [AlignedSegment] that the two sources read.
    [sa] is the SA tag when the record has one. *)

Record AlignedSegment := {
  qname : string;
  flag : Z;
  rname : Z;
  pos : Z;
  rnext : Z;
  pnext : Z;
  mapq : Z;
  tlen : Z;
  cigartuples : option (list (Z * Z));
  seq : option string;
  reference_end : Z;
  query_alignment_start : Z;
  sa : option string
}.

(** * coverage.pyx *)

Module Coverage.
Import CFloat.

(** ** Insert-size statistics

    The insert sizes are Python ints.  The medians are halves or quarters
    of sums of them, which binary64 holds exactly for the 32-bit sizes of
    alignment records, so the Python floats are rationals here.  The sum
    of squared deviations is the exact value of what the source
    accumulates with rounding, and [** 0.5] is left to the C library. *)

#[export] Instance Qlt_dec : RelDecision Qlt.
Proof.
  intros x y. destruct (Qlt_le_dec x y) as [H|H].
  - left. exact H.
  - right. apply Qle_not_lt. exact H.
Defined.

(** [median(L)], on an already sorted list.  Indexing an empty list raises
    [IndexError]. *)
Definition median (L : list Q) : option Q :=
  let n := length L in
  if Nat.odd n then L !! (n / 2)%nat
  else
    match n with
    | O => None
    | _ =>
        let mid := (n / 2 - 1)%nat in
        a ← L !! mid;
        b ← L !! S mid;
        Some ((a + b) / 2)%Q
    end.

(** [xs.sort()] on a list of Python ints. *)
Definition sort (xs : list Z) : list Z := merge_sort Z.le xs.

(** [unscaled_upper_mad(xs)]: the list is sorted in place, so the sorted
    list is part of the result. *)
Definition unscaled_upper_mad (xs : list Z) : option (list Z * Q * Q) :=
  let xs := sort xs in
  med ← median (inject_Z <$> xs);
  umad ← median ((λ x, x - med)%Q <$>
                 filter (λ x, med < x)%Q (inject_Z <$> xs));
  Some (xs, med, umad).

(** [np.median(L)]: numpy orders the data itself. *)
Definition np_median (L : list Z) : option Q := median (inject_Z <$> sort L).

Section InsertParams.

(** [x ** 0.5] is the C library's [pow]. *)
Variable pow_half : Q → Q.

(** The accumulation [sq_sum += (v - mean)**2.0]. *)
Definition sq_sum (mean : Q) (L : list Z) : Q :=
  foldl (λ acc v, acc + (inject_Z v - mean) * (inject_Z v - mean))%Q 0%Q L.

(** [mean_std(L)]; the division by [float(len(L))] raises on an empty
    list. *)
Definition mean_std (L : list Z) : option (Q * Q) :=
  mean ← np_median L;
  match L with
  | [] => None
  | _ =>
      let var := (sq_sum mean L / inject_Z (Z.of_nat (length L)))%Q in
      Some (mean, pow_half var)
  end.

(** The first lines of [get_insert_params]: the values that stay. *)
Definition trim_outliers (L : list Z) (mads : Z) : option (list Z) :=
  '(L, med, umad) ← unscaled_upper_mad L;
  let upper_cutoff := (med + inject_Z mads * umad)%Q in
  Some (filter (λ v, inject_Z v < upper_cutoff)%Q L).

(** [get_insert_params(L, mads=8)] *)
Definition get_insert_params (L : list Z) (mads : Z) : option (Q * Q) :=
  L ← trim_outliers L mads;
  mean_std L.

End InsertParams.

(** ** The coverage array *)

(** Position of index [i] in a buffer of [n] cells.  Bounds checking is
    off in this file but Cython still wraps a negative index once; any
    other index leaves the buffer. *)
Definition buf_index (n : nat) (i : Z) : option nat :=
  let i := if i <? 0 then i + Z.of_nat n else i in
  if (0 <=? i) && (i <? Z.of_nat n) then Some (Z.to_nat i) else None.

(** [chrom_depth[i] += x] on a buffer of doubles. *)
Definition buf_add (x : spec_float) (i : Z) (chrom_depth : list spec_float)
  : option (list spec_float) :=
  k ← buf_index (length chrom_depth) i;
  Some (alter (λ y, fadd64 y x) k chrom_depth).

(** [for i in range(...): chrom_depth[i] += 1] *)
Fixpoint fill_between (range : list Z) (chrom_depth : list spec_float)
  : option (list spec_float) :=
  match range with
  | [] => Some chrom_depth
  | i :: range =>
      d ← buf_add (double_of_Z 1) i chrom_depth;
      fill_between range d
  end.

(** [cdef float fs = start / 100] *)
Definition frac_index (p : Z) : spec_float := float_of_double (true_div p 100).

Definition bin_start_of (start : Z) : Z :=
  let bin_start := int_of_float (frac_index start) in
  if bin_start <? 0 then 0 else bin_start.

Definition bin_end_of (end_ : Z) (len : nat) : Z :=
  let bin_end := int_of_float (frac_index end_) in
  if Z.of_nat len - 1 <? bin_end then Z.of_nat len - 1 else bin_end.

(** [ol_start = <float> bin_start + 1 - fs] *)
Definition ol_start_of (start : Z) : spec_float :=
  fsub32 (fadd32 (float_of_Z (bin_start_of start)) (float_of_Z 1)) (frac_index start).

(** [ol_end = fe - (<float> bin_end)] *)
Definition ol_end_of (end_ : Z) (len : nat) : spec_float :=
  fsub32 (frac_index end_) (float_of_Z (bin_end_of end_ len)).

(** [add_coverage(start, end, chrom_depth)]: the value returned and the
    array after the call. *)
Definition add_coverage (start end_ : Z) (chrom_depth : list spec_float)
  : option (spec_float * list spec_float) :=
  let len := length chrom_depth in
  let bin_start := bin_start_of start in
  let bin_end := bin_end_of end_ len in
  d ← buf_add (double_of_float (ol_start_of start)) bin_start chrom_depth;
  d ← (if bin_start =? bin_end then Some d
       else
         d ← buf_add (double_of_float (ol_end_of end_ len)) bin_end d;
         if 1 <? bin_end - bin_start
         then fill_between (seqZ (bin_start + 1) (bin_end - bin_start - 1)) d
         else Some d);
  k ← buf_index (length d) bin_start;
  y ← d !! k;
  Some (float_of_double y, d).

(** ** GenomeScanner *)

(** The attributes of [GenomeScanner] that [_add_to_bin_buffer] and
    [add_to_buffer] use.  [reference_length] is the input file's
    [get_reference_length] after [get_reference_name];
    [overlap_regions] is [None] when no region was given and otherwise
    the test [io_funcs.intersecter_int_chrom] answers on the regions.
    [current_cov_array] aliases an array of [depth_d]: it holds the key
    of that array. *)
Record GenomeScanner := {
  reference_length : Z → Z;
  max_cov : Z;
  overlap_regions : option (Z → Z → Z → bool);
  staged_reads : list (list (AlignedSegment * Z));
  current_bin : list (AlignedSegment * Z);
  current_chrom : Z;
  current_pos : Z;
  current_cov_array : option Z;
  reads_dropped : Z;
  depth_d : gmap Z (list spec_float);
  first : Z;
  read_buffer : gmap Z AlignedSegment;
  buff_size : Z;
  no_tell : bool
}.

Definition set_depth (s : GenomeScanner) (d : gmap Z (list spec_float)) : GenomeScanner :=
  {| reference_length := reference_length s; max_cov := max_cov s;
     overlap_regions := overlap_regions s; staged_reads := staged_reads s;
     current_bin := current_bin s; current_chrom := current_chrom s;
     current_pos := current_pos s; current_cov_array := current_cov_array s;
     reads_dropped := reads_dropped s; depth_d := d; first := first s;
     read_buffer := read_buffer s; buff_size := buff_size s; no_tell := no_tell s |}.

Definition set_cov_array (s : GenomeScanner) (chrom : Z) (arr : option Z) : GenomeScanner :=
  {| reference_length := reference_length s; max_cov := max_cov s;
     overlap_regions := overlap_regions s; staged_reads := staged_reads s;
     current_bin := current_bin s; current_chrom := chrom;
     current_pos := current_pos s; current_cov_array := arr;
     reads_dropped := reads_dropped s; depth_d := depth_d s; first := first s;
     read_buffer := read_buffer s; buff_size := buff_size s; no_tell := no_tell s |}.

Definition set_bin (s : GenomeScanner) (staged : list (list (AlignedSegment * Z)))
    (bin : list (AlignedSegment * Z)) (chrom bin_pos dropped : Z) : GenomeScanner :=
  {| reference_length := reference_length s; max_cov := max_cov s;
     overlap_regions := overlap_regions s; staged_reads := staged;
     current_bin := bin; current_chrom := chrom;
     current_pos := bin_pos; current_cov_array := current_cov_array s;
     reads_dropped := dropped; depth_d := depth_d s; first := first s;
     read_buffer := read_buffer s; buff_size := buff_size s; no_tell := no_tell s |}.

Definition set_buffer (s : GenomeScanner) (first' : Z) (buf : gmap Z AlignedSegment)
  : GenomeScanner :=
  {| reference_length := reference_length s; max_cov := max_cov s;
     overlap_regions := overlap_regions s; staged_reads := staged_reads s;
     current_bin := current_bin s; current_chrom := current_chrom s;
     current_pos := current_pos s; current_cov_array := current_cov_array s;
     reads_dropped := reads_dropped s; depth_d := depth_d s; first := first';
     read_buffer := buf; buff_size := buff_size s; no_tell := no_tell s |}.

(** [GenomeScanner.add_to_buffer(r, n1, tell)]; [None] is the
    [BufferError]. *)
Definition add_to_buffer (s : GenomeScanner) (r : AlignedSegment) (n1 tell : Z)
  : option GenomeScanner :=
  if (first s =? 1) || (tell =? -1) then Some (set_buffer s 0 (<[n1 := r]> (read_buffer s)))
  else if Z.of_nat (size (read_buffer s)) <? buff_size s
  then Some (set_buffer s (first s) (<[n1 := r]> (read_buffer s)))
  else if no_tell s then None
  else Some s.

(** The records [_add_to_bin_buffer] drops at once:
    [flag & 1540 or a.cigartuples is None or a.seq is None]. *)
Definition unusable (a : AlignedSegment) : bool :=
  negb (Z.land (flag a) 1540 =? 0) || negb (bool_decide (is_Some (cigartuples a)))
  || negb (bool_decide (is_Some (seq a))).

(** [int(x / 100)] on Python ints: the double quotient, truncated; for
    the magnitudes of positions this is the truncated integer quotient. *)
Definition int_div100 (x : Z) : Z := int_of_float (true_div x 100).

(** [GenomeScanner._add_to_bin_buffer(a, tell)] *)
Definition _add_to_bin_buffer (s : GenomeScanner) (a : AlignedSegment) (tell : Z)
  : option GenomeScanner :=
  if unusable a then Some s
  else
    let rname := rname a in
    let apos := pos a in
    let bin_pos := int_div100 apos in
    let aend := reference_end a in
    s ← (match depth_d s !! rname with
         | Some _ => Some s
         | None =>
             let ref_length := int_div100 (reference_length s rname) in
             if ref_length + 1 <? 0 then None
             else Some (set_depth s (<[rname := replicate (Z.to_nat (ref_length + 1))
                                                   (S754_zero false)]> (depth_d s)))
         end);
    let s :=
      if negb (current_chrom s =? rname) then set_cov_array s rname (Some rname)
      else match current_cov_array s with
           | None => set_cov_array s (current_chrom s) (Some rname)
           | Some _ => s
           end in
    key ← current_cov_array s;
    arr ← depth_d s !! key;
    '(cov, arr) ← add_coverage apos aend arr;
    let s := set_depth s (<[key := arr]> (depth_d s)) in
    let current_cov := double_of_float cov in
    let in_roi :=
      match overlap_regions s with
      | Some intersecter => intersecter rname apos (apos + 1)
      | None => false
      end in
    if (rname =? current_chrom s) && (bin_pos =? current_pos s) then
      if SFleb (double_of_Z (max_cov s)) current_cov && negb in_roi then
        let '(bin, dropped) :=
          if 0 <? Z.of_nat (length (current_bin s))
          then (let bin := [] in (bin, reads_dropped s + Z.of_nat (length bin)))
          else (current_bin s, reads_dropped s) in
        Some (set_bin s (staged_reads s) bin (current_chrom s) (current_pos s) (dropped + 1))
      else
        Some (set_bin s (staged_reads s) (current_bin s ++ [(a, tell)])
                (current_chrom s) (current_pos s) (reads_dropped s))
    else
      let staged :=
        if negb (length (current_bin s) =? 0)%nat
           && (SFltb current_cov (double_of_Z (max_cov s)) || in_roi)
        then staged_reads s ++ [current_bin s]
        else staged_reads s in
      Some (set_bin s staged [(a, tell)] rname bin_pos (reads_dropped s)).

(** A record is held by the scanner when it is in the current bin or in
    a staged batch. *)
Definition held (s : GenomeScanner) (x : AlignedSegment * Z) : Prop :=
  x ∈ current_bin s ∨ ∃ batch, batch ∈ staged_reads s ∧ x ∈ batch.

Definition set_staged (s : GenomeScanner) (staged : list (list (AlignedSegment * Z)))
  : GenomeScanner :=
  set_bin s staged (current_bin s) (current_chrom s) (current_pos s) (reads_dropped s).

(** The batches [GenomeScanner._get_reads] yields when the whole genome
    is scanned and no coverage track is written.  [input_bam] is the
    record stream, each record with the value of [tell] the loop passes
    on with it. *)
Fixpoint _get_reads (s : GenomeScanner) (input_bam : list (AlignedSegment * Z))
  : option (list (list (AlignedSegment * Z))) :=
  match input_bam with
  | [] =>
      Some (staged_reads s
            ++ (if (0 <? length (current_bin s))%nat then [current_bin s] else []))
  | (aln, tell) :: input_bam =>
      s' ← _add_to_bin_buffer (set_staged s []) aln tell;
      out ← _get_reads s' input_bam;
      Some (staged_reads s ++ out)
  end.

End Coverage.

(** * graph.pyx *)

Module Graph.
Import CFloat.

Inductive ReadEnum_t := DISCORDANT | SPLIT | DELETION | INSERTION | BREAKEND.

#[global] Instance ReadEnum_eq_dec : EqDecision ReadEnum_t.
Proof. solve_decision. Defined.

Definition ReadEnum_value (e : ReadEnum_t) : Z :=
  match e with
  | DISCORDANT => 0 | SPLIT => 1 | DELETION => 2 | INSERTION => 3 | BREAKEND => 4
  end.

(** ** PairedEndScoper *)

Record LocalVal := {
  chrom2 : Z;
  pos2 : Z;
  node_name : Z;
  length_from_cigar : Z;
  read_enum : ReadEnum_t
}.

Definition make_local_val (chrom2 pos2 node_name : Z) (read_enum : ReadEnum_t)
    (length_from_cigar : Z) : LocalVal :=
  {| chrom2 := chrom2; pos2 := pos2; node_name := node_name;
     read_enum := read_enum; length_from_cigar := length_from_cigar |}.

(** [cpp_map] is [std::multimap] in this file: entries in key order,
    equal keys in the order of their insertion.  An iterator is a
    position in the list; [end()] is its length. *)
Definition multimap := list (Z * LocalVal).

Fixpoint mm_insert (pp : Z * LocalVal) (m : multimap) : multimap :=
  match m with
  | [] => [pp]
  | qq :: m' => if pp.1 <? qq.1 then pp :: m else qq :: mm_insert pp m'
  end.

Fixpoint lower_bound (m : multimap) (k : Z) : nat :=
  match m with
  | [] => O
  | qq :: m' => if qq.1 <? k then S (lower_bound m' k) else O
  end.

Record PairedEndScoper := {
  clst_dist : Z;
  max_dist : Z;
  local_chrom : Z;
  loci : multimap;
  chrom_scope : list multimap;
  norm : spec_float;
  thresh : spec_float;
  paired_end : bool
}.

Definition set_scopes (s : PairedEndScoper) (chrom : Z) (loci' : multimap)
    (scopes : list multimap) : PairedEndScoper :=
  {| clst_dist := clst_dist s; max_dist := max_dist s; local_chrom := chrom;
     loci := loci'; chrom_scope := scopes; norm := norm s; thresh := thresh s;
     paired_end := paired_end s |}.

(** [PairedEndScoper(max_dist, clst_dist, n_references, norm, thresh, paired_end)] *)
Definition PairedEndScoper_init (max_dist clst_dist : Z) (n_references : nat)
    (norm thresh : spec_float) (paired_end : bool) : PairedEndScoper :=
  {| clst_dist := clst_dist; max_dist := max_dist; local_chrom := -1;
     loci := []; chrom_scope := replicate (S n_references) [];
     norm := norm; thresh := thresh; paired_end := paired_end |}.

Definition empty_scopes (s : PairedEndScoper) : PairedEndScoper :=
  set_scopes s (local_chrom s) [] ((λ _, []) <$> chrom_scope s).

(** Which map of [chrom_scope] the pointer [forward_scope] designates:
    the last one for the insertion chromosome 10000000, else the one at
    index [chrom2].  [None] when the vector has no such element. *)
Definition forward_scope_index (s : PairedEndScoper) (chrom2 : Z) : option nat :=
  if chrom2 =? 10000000 then
    match length (chrom_scope s) with
    | O => None
    | S n => Some n
    end
  else if (0 <=? chrom2) && (chrom2 <? Z.of_nat (length (chrom_scope s)))
  then Some (Z.to_nat chrom2)
  else None.

(** [span_distance < 0.8], the quotient and [max_span] being C floats and
    the constant a double. *)
Definition double_0_8 : spec_float := S754_finite false 7205759403792794 (-53).

Definition span_distance (length_from_cigar len2 : Z) : spec_float :=
  let max_span := float_of_Z (Z.max length_from_cigar len2) in
  fdiv32 (float_of_Z (Z.abs (length_from_cigar - len2))) max_span.

Definition span_close (length_from_cigar len2 : Z) : bool :=
  SFltb (double_of_float (span_distance length_from_cigar len2)) double_0_8.

Definition ins_del_mismatch (e1 e2 : ReadEnum_t) : bool :=
  (bool_decide (e1 = DELETION) && bool_decide (e2 = INSERTION))
  || (bool_decide (e1 = INSERTION) && bool_decide (e2 = DELETION)).

(** The variables a walk of [find_other_nodes] carries from one neighbour
    to the next. *)
Record walk := {
  sep : Z;
  found_exact : list Z;
  found2 : list Z
}.

Section Scoper.

(** Both tests are declared in [dysgu/map_set_utils]. *)
Variable is_reciprocal_overlapping : Z → Z → Z → Z → bool.
Variable span_position_distance :
  Z → Z → Z → Z → spec_float → spec_float → ReadEnum_t → bool → Z → Z → bool → bool.

Section Walks.

Variable self : PairedEndScoper.
Variables (node_name current_chrom current_pos chrom2 pos2 : Z).
Variable read_enum : ReadEnum_t.
Variable length_from_cigar : Z.
Variable trust_ins_len : bool.

Definition spd (vitem : Z * LocalVal) : bool :=
  span_position_distance current_pos pos2 vitem.1 (vitem.2).(Graph.pos2)
    (norm self) (thresh self) read_enum (paired_end self)
    length_from_cigar (vitem.2).(Graph.length_from_cigar) trust_ins_len.

Definition push_found2 (w : walk) (sep' : Z) (vitem : Z * LocalVal) : walk :=
  {| sep := sep'; found_exact := found_exact w;
     found2 := if spd vitem then found2 w ++ [(vitem.2).(Graph.node_name)] else found2 w |}.

(** What the forward walk does with one neighbour that passed the
    insertion/deletion test. *)
Definition examine_forward (w : walk) (vitem : Z * LocalVal) : walk :=
  let node_name2 := (vitem.2).(Graph.node_name) in
  if bool_decide (node_name2 ≠ node_name) then
    if negb (current_chrom =? chrom2)
       || is_reciprocal_overlapping current_pos pos2 vitem.1 (vitem.2).(Graph.pos2) then
      let sep := Z.abs (vitem.1 - pos2) in
      let sep2 := Z.abs ((vitem.2).(Graph.pos2) - current_pos) in
      if (sep <? max_dist self) && (sep2 <? max_dist self) then
        if sep <? 35 then
          if (0 <? length_from_cigar) && (0 <? (vitem.2).(Graph.length_from_cigar)) then
            if span_close length_from_cigar (vitem.2).(Graph.length_from_cigar)
            then {| sep := sep; found_exact := found_exact w ++ [node_name2];
                    found2 := found2 w |}
            else {| sep := sep; found_exact := found_exact w; found2 := found2 w |}
          else {| sep := sep; found_exact := found_exact w ++ [node_name2];
                  found2 := found2 w |}
        else push_found2 w sep vitem
      else push_found2 w sep vitem
    else push_found2 w (sep w) vitem
  else w.

(** The same for the backward walk. *)
Definition examine_backward (w : walk) (vitem : Z * LocalVal) : walk :=
  let node_name2 := (vitem.2).(Graph.node_name) in
  if bool_decide (node_name2 ≠ node_name) then
    if negb (current_chrom =? chrom2)
       || is_reciprocal_overlapping current_pos pos2 vitem.1 (vitem.2).(Graph.pos2) then
      let sep := Z.abs (vitem.1 - pos2) in
      let sep2 := Z.abs ((vitem.2).(Graph.pos2) - current_pos) in
      if (sep <? max_dist self) && ((vitem.2).(Graph.chrom2) =? chrom2)
         && (sep2 <? max_dist self) then
        if sep <? 35 then
          let found_exact :=
            if (0 <? length_from_cigar) && (0 <? (vitem.2).(Graph.length_from_cigar)) then
              if span_close length_from_cigar (vitem.2).(Graph.length_from_cigar)
              then found_exact w ++ [node_name2]
              else found_exact w
            else found_exact w ++ [node_name2] in
          {| sep := sep; found_exact := found_exact ++ [node_name2]; found2 := found2 w |}
        else push_found2 w sep vitem
      else push_found2 w sep vitem
    else push_found2 w (sep w) vitem
  else w.

(** [while steps < 6] of the forward search; [n] is [6 - steps] and [it]
    the iterator.  The insertion/deletion test continues without moving
    the iterator. *)
Fixpoint forward_walk (n : nat) (forward_scope : multimap) (it : nat) (w : walk) : walk :=
  match n with
  | O => w
  | S n =>
      match forward_scope !! it with
      | None => w
      | Some vitem =>
          if ins_del_mismatch read_enum (vitem.2).(Graph.read_enum)
          then forward_walk n forward_scope it w
          else
            let w := examine_forward w vitem in
            if max_dist self <=? sep w then w
            else if bool_decide (S it = length forward_scope) then w
            else forward_walk n forward_scope (S it) w
      end
  end.

(** [while steps < 6] of the search towards lower positions. *)
Fixpoint backward_walk (n : nat) (forward_scope : multimap) (it : nat) (w : walk) : walk :=
  match n with
  | O => w
  | S n =>
      match forward_scope !! it with
      | None => w
      | Some vitem =>
          if ins_del_mismatch read_enum (vitem.2).(Graph.read_enum)
          then backward_walk n forward_scope it w
          else
            let w := examine_backward w vitem in
            if bool_decide (it = O) || (max_dist self <=? sep w) then w
            else backward_walk n forward_scope (pred it) w
      end
  end.

(** The two searches, from the state of the walk variables at the
    function's entry. *)
Definition search (forward_scope : multimap) : walk :=
  let w := {| sep := 0; found_exact := []; found2 := [] |} in
  let local_it := lower_bound forward_scope pos2 in
  let w := if bool_decide (local_it ≠ length forward_scope)
           then forward_walk 6 forward_scope local_it w else w in
  match found_exact w with
  | [] =>
      let local_it := lower_bound forward_scope pos2 in
      if bool_decide (local_it ≠ O)
      then backward_walk 6 forward_scope (pred local_it) w
      else w
  | _ => w
  end.

End Walks.

(** [PairedEndScoper.find_other_nodes]: the vector returned and the scoper
    after the call. *)
Definition find_other_nodes (self : PairedEndScoper)
    (node_name current_chrom current_pos chrom2 pos2 : Z) (read_enum : ReadEnum_t)
    (length_from_cigar : Z) (trust_ins_len : bool) : option (list Z * PairedEndScoper) :=
  idx ← forward_scope_index self chrom2;
  let self :=
    if negb (current_chrom =? local_chrom self)
    then empty_scopes (set_scopes self current_chrom (loci self) (chrom_scope self))
    else self in
  match loci self with
  | [] => Some ([], self)
  | _ =>
      let local_it := lower_bound (loci self) (current_pos - clst_dist self) in
      let self := set_scopes self (local_chrom self) (drop local_it (loci self))
                    (chrom_scope self) in
      forward_scope ← chrom_scope self !! idx;
      let w := search self node_name current_chrom current_pos chrom2 pos2 read_enum
                 length_from_cigar trust_ins_len forward_scope in
      Some (match found_exact w with [] => found2 w | _ => found_exact w end, self)
  end.

End Scoper.

(** [PairedEndScoper.add_item] *)
Definition add_item (self : PairedEndScoper)
    (node_name current_chrom current_pos chrom2 pos2 : Z) (read_enum : ReadEnum_t)
    (length_from_cigar : Z) : option PairedEndScoper :=
  idx ← forward_scope_index self chrom2;
  forward_scope ← chrom_scope self !! idx;
  let pp := (current_pos, make_local_val chrom2 pos2 node_name read_enum length_from_cigar) in
  let loci' := mm_insert pp (loci self) in
  let forward_scope :=
    if bool_decide (read_enum = DELETION) then mm_insert pp forward_scope
    else forward_scope in
  let pp := (pos2, make_local_val current_chrom current_pos node_name read_enum
                     length_from_cigar) in
  let forward_scope := mm_insert pp forward_scope in
  Some (set_scopes self (local_chrom self) loci' (<[idx := forward_scope]> (chrom_scope self))).

(** ** The graph

    Modelled from the spec: the class [Py_SimpleGraph] of
    [dysgu/map_set_utils] is not among the sources.  The specification
    gives it as an undirected weighted graph with dense integer node ids:
    [addNode()] returns a fresh id and [addEdge(u, v, w)] ignores a pair
    that is already linked.  It is an adjacency list here, [adjList[u]]
    holding the neighbours of [u] and the weights of their edges in the
    order of insertion; a node that is not in the graph has no
    neighbour. *)
Record Py_SimpleGraph := { adjList : list (list (Z * Z)) }.

Definition empty_graph : Py_SimpleGraph := {| adjList := [] |}.

Definition adj_of (G : Py_SimpleGraph) (u : Z) : list (Z * Z) :=
  if u <? 0 then [] else default [] (adjList G !! Z.to_nat u).

Definition neighbors (G : Py_SimpleGraph) (u : Z) : list Z := fst <$> adj_of G u.

Fixpoint assoc_weight (v : Z) (l : list (Z * Z)) : Z :=
  match l with
  | [] => 0
  | (v', w) :: l => if v' =? v then w else assoc_weight v l
  end.

Definition weight (G : Py_SimpleGraph) (u v : Z) : Z := assoc_weight v (adj_of G u).

Definition hasEdge (G : Py_SimpleGraph) (u v : Z) : bool := bool_decide (v ∈ neighbors G u).

Definition addNode (G : Py_SimpleGraph) : Z * Py_SimpleGraph :=
  (Z.of_nat (length (adjList G)), {| adjList := adjList G ++ [[]] |}).

Definition has_node (G : Py_SimpleGraph) (u : Z) : bool :=
  (0 <=? u) && (u <? Z.of_nat (length (adjList G))).

Definition addEdge (G : Py_SimpleGraph) (u v w : Z) : Py_SimpleGraph :=
  if hasEdge G u v || negb (has_node G u && has_node G v) then G
  else
    let adj := alter (λ l, l ++ [(v, w)]) (Z.to_nat u) (adjList G) in
    {| adjList := if u =? v then adj else alter (λ l, l ++ [(u, w)]) (Z.to_nat v) adj |}.

(** The graph is undirected and holds each pair once. *)
Definition wf_graphb (G : Py_SimpleGraph) : bool :=
  forallb (λ u,
      bool_decide (NoDup (neighbors G u))
      && forallb (λ vw : Z * Z, bool_decide ((u, vw.2) ∈ adj_of G vw.1)) (adj_of G u))
    (seqZ 0 (Z.of_nat (length (adjList G)))).

(** ** Partitions of a component *)

(** The body of [for v in G.neighbors(u)] in [BFS_local]. *)
Definition BFS_visit (G : Py_SimpleGraph) (visited : gset Z) (u : Z)
    (st : list Z * list Z) (v : Z) : list Z * list Z :=
  let '(queue, nodes_found) := st in
  if bool_decide (v ∈ visited) then st
  else if 1 <? weight G u v then
    let nodes_found :=
      if bool_decide (u ∈ nodes_found) then nodes_found else nodes_found ++ [u] in
    if bool_decide (v ∈ nodes_found) then (queue, nodes_found)
    else (queue ++ [v], nodes_found ++ [v])
  else st.

(** [while queue] of [BFS_local]; [None] when the fuel runs out. *)
Fixpoint BFS_loop (fuel : nat) (G : Py_SimpleGraph) (queue nodes_found : list Z)
    (visited : gset Z) : option (list Z * gset Z) :=
  match fuel with
  | O => None
  | S fuel =>
      match queue with
      | [] => Some (nodes_found, visited)
      | u :: queue =>
          let '(queue, nodes_found) :=
            foldl (BFS_visit G visited u) (queue, nodes_found) (neighbors G u) in
          BFS_loop fuel G queue nodes_found ({[u]} ∪ visited)
      end
  end.

(** [BFS_local(G, source, visited)]: the nodes found and the set
    [visited], which the caller shares.  [nodes_found] is a Python set;
    the list keeps its elements in the order they were added, the order
    Python hands them out in is not modelled.  The loop pops each node
    once, so two more rounds than the graph has nodes are enough. *)
Definition BFS_local (G : Py_SimpleGraph) (source : Z) (visited : gset Z)
  : option (list Z * gset Z) :=
  BFS_loop (2 + length (adjList G)) G [source] [] visited.

(** The body of [for v in G.neighbors(u)] in [get_partitions]. *)
Definition get_partitions_visit (G : Py_SimpleGraph) (u : Z)
    (st : option (gset Z * list (list Z))) (v : Z) : option (gset Z * list (list Z)) :=
  '(seen, parts) ← st;
  if bool_decide (v ∈ seen) then Some (seen, parts)
  else if 1 <? weight G u v then
    '(found, seen) ← BFS_local G u seen;
    Some (seen, if bool_decide (found = []) then parts else parts ++ [found])
  else Some (seen, parts).

(** The body of [for u in nodes]. *)
Definition get_partitions_node (G : Py_SimpleGraph)
    (st : option (gset Z * list (list Z))) (u : Z) : option (gset Z * list (list Z)) :=
  '(seen, parts) ← st;
  if bool_decide (u ∈ seen) then Some (seen, parts)
  else
    '(seen, parts) ← foldl (get_partitions_visit G u) (Some (seen, parts)) (neighbors G u);
    Some ({[u]} ∪ seen, parts).

Definition get_partitions (G : Py_SimpleGraph) (nodes : list Z) : option (list (list Z)) :=
  snd <$> foldl (get_partitions_node G) (Some (∅, [])) nodes.

(** An edge the partitioning follows: [v] is a neighbour of [u] and the
    weight of the edge is 2 or more. *)
Definition strong (G : Py_SimpleGraph) (u v : Z) : Prop :=
  v ∈ neighbors G u ∧ 2 ≤ weight G u v.

(** ** Node table *)

(** The seven vectors of [NodeToName], one row per node. *)
Record NodeToName := {
  h : list Z;
  f : list Z;
  p : list Z;
  c : list Z;
  t : list Z;
  cigar_index : list Z;
  event_pos : list Z
}.

Definition NodeToName_empty : NodeToName :=
  {| h := []; f := []; p := []; c := []; t := []; cigar_index := []; event_pos := [] |}.

(** [NodeToName.append(a, b, c, d, e, f, g)]; the vectors hold unsigned
    64, 16, 32, 16 and 64 bit values, a signed 32 bit cigar index and an
    unsigned 32 bit event position. *)
Definition NodeToName_append (n : NodeToName) (a b c0 d e f0 g : Z) : NodeToName :=
  let e := if e =? -1 then 0 else e in
  {| h := h n ++ [a mod 2 ^ 64];
     f := f n ++ [b mod 2 ^ 16];
     p := p n ++ [c0 mod 2 ^ 32];
     c := c n ++ [d mod 2 ^ 16];
     t := t n ++ [e mod 2 ^ 64];
     cigar_index := cigar_index n ++ [f0];
     event_pos := event_pos n ++ [g mod 2 ^ 32] |}.

Definition node_key : Type := Z * Z * Z * Z * Z * Z * Z.

(** [NodeToName.__getitem__(idx)]; reading past the vectors is not
    defined. *)
Definition NodeToName_getitem (n : NodeToName) (idx : Z) : option node_key :=
  if idx <? 0 then None
  else
    let i := Z.to_nat idx in
    a ← h n !! i; b ← f n !! i; c0 ← p n !! i; d ← c n !! i; e ← t n !! i;
    f0 ← cigar_index n !! i; g ← event_pos n !! i;
    Some (a, b, c0, d, e, f0, g).

(** [key[5]] *)
Definition key_cigar_index (key : node_key) : Z := key.1.2.

(** ** Support of a component *)

Section ProcComponent.

(** The type of the records kept for the variants given with [--sites]. *)
Variable Site : Type.

(** The variables of [proc_component] that its loop over the component
    updates. *)
Record scan := {
  info : option (gmap Z Site);
  min_support : Z;
  reads : gmap Z AlignedSegment;
  n2n : gmap Z node_key;
  support_estimate : Z
}.

(** The body of [for v in component].  [sites_index] is [None] when the
    argument is false in the Python sense. *)
Definition proc_component_node (node_to_name : NodeToName)
    (read_buffer : gmap Z AlignedSegment) (procs : Z) (sites_index : option (gmap Z Site))
    (st : option scan) (v : Z) : option scan :=
  st ← st;
  match sites_index ≫= (λ m, m !! v) with
  | Some site =>
      let info' := <[v := site]> (default ∅ (info st)) in
      Some {| info := Some info'; min_support := Z.of_nat (size info') + 1;
              reads := reads st; n2n := n2n st; support_estimate := support_estimate st |}
  | None =>
      let reads' :=
        match (if procs =? 1 then read_buffer !! v else None) with
        | Some r => <[v := r]> (reads st)
        | None => reads st
        end in
      key ← NodeToName_getitem node_to_name v;
      let support_estimate' :=
        if negb (key_cigar_index key =? -1) then support_estimate st + 2
        else support_estimate st + 1 in
      Some {| info := info st; min_support := min_support st; reads := reads';
              n2n := <[v := key]> (n2n st); support_estimate := support_estimate' |}
  end.

(** [proc_component] up to the test [support_estimate < min_support]:
    the state of its variables there, for a call that has not returned
    before the loop. *)
Definition proc_component_scan (node_to_name : NodeToName) (component : list Z)
    (read_buffer : gmap Z AlignedSegment) (min_support procs : Z)
    (sites_index : option (gmap Z Site)) : option scan :=
  foldl (proc_component_node node_to_name read_buffer procs sites_index)
    (Some {| info := None; min_support := min_support; reads := ∅; n2n := ∅;
             support_estimate := 0 |})
    component.

(** What a node adds to the support estimate: nothing when it is a
    site, 2 when its row has a cigar index, 1 when the index is -1. *)
Definition contribution (node_to_name : NodeToName) (sites_index : option (gmap Z Site))
    (v : Z) : Z :=
  match sites_index ≫= (λ m, m !! v) with
  | Some _ => 0
  | None =>
      match NodeToName_getitem node_to_name v with
      | Some key => if key_cigar_index key =? -1 then 1 else 2
      | None => 0
      end
  end.

End ProcComponent.

Arguments info {Site} _.
Arguments min_support {Site} _.
Arguments reads {Site} _.
Arguments n2n {Site} _.
Arguments support_estimate {Site} _.
Arguments proc_component_node {Site} _ _ _ _ _ _.
Arguments proc_component_scan {Site} _ _ _ _ _ _.
Arguments contribution {Site} _ _ _.

(** ** From an alignment to a node *)

(** An entry of the list [alignments_from_sa_tag] builds:
    [(query_start, query_end, ref_start, ref_end, chrom, mapq, tag)].
    The tag is the string ["input"] for the record itself, [None] here,
    and for a block of the SA tag whether it lies on the record's
    strand. *)
Record query_align := {
  query_start : Z;
  query_end : Z;
  ref_start : Z;
  ref_end : Z;
  align_chrom : Z;
  align_mapq : Z;
  same_strand : option bool
}.

Definition breakpoint : Type := Z * Z * Z * Z * ReadEnum_t.

(** [connect_right(a, b, r, paired, max_dist, mq_thresh)]; the last
    component 0 of the source is [DISCORDANT]. *)
Definition connect_right (a b : query_align) (r : AlignedSegment) (paired : bool)
    (max_dist mq_thresh : Z) : breakpoint :=
  let event_pos := ref_end a in
  let chrom := align_chrom a in
  let pos2 := ref_start b in
  let pos2_end := ref_end b in
  let chrom2 := align_chrom b in
  if align_mapq b <? mq_thresh then (event_pos, chrom, event_pos, chrom, BREAKEND)
  else if paired
          && (Z.land (flag r) 2304 =? 0) && negb (Z.land (flag r) 2 =? 0)
          && (event_pos <=? pnext r)
          && (negb (chrom =? chrom2) || (max_dist <? Z.abs (pos2 - event_pos)))
  then (event_pos, chrom, event_pos, chrom, BREAKEND)
  else if default true (same_strand b) then (event_pos, chrom, pos2, chrom2, DISCORDANT)
  else (event_pos, chrom, pos2_end, chrom2, DISCORDANT).

(** [connect_left(a, b, r, paired, max_dist, mq_thresh)] *)
Definition connect_left (a b : query_align) (r : AlignedSegment) (paired : bool)
    (max_dist mq_thresh : Z) : breakpoint :=
  let event_pos := ref_start a in
  let chrom := align_chrom a in
  let pos2 := ref_end b in
  let chrom2 := align_chrom b in
  if align_mapq b <? mq_thresh then (event_pos, chrom, event_pos, chrom, BREAKEND)
  else if paired
          && (Z.land (flag r) 2304 =? 0) && negb (Z.land (flag r) 2 =? 0)
          && (pnext r <=? event_pos)
          && (negb (chrom =? chrom2) || (max_dist <? Z.abs (pos2 - event_pos)))
  then (event_pos, chrom, event_pos, chrom, BREAKEND)
  else (event_pos, chrom, pos2, chrom2, DISCORDANT).

(** [TemplateEdges.add(template_name, flag, node, query_start)] *)
Definition TemplateEdges_add (templates_s : gmap string (list Z)) (template_name : string)
    (flag node query_start : Z) : gmap string (list Z) :=
  <[template_name := default [] (templates_s !! template_name) ++ [query_start; node; flag]]>
    templates_s.

(** [for other_node in ...: if not G.hasEdge(node_name, other_node):
    G.addEdge(node_name, other_node, 2)] *)
Definition add_local_edges (G : Py_SimpleGraph) (node_name : Z) (other_nodes : list Z)
  : Py_SimpleGraph :=
  foldl (λ G other_node,
           if hasEdge G node_name other_node then G else addEdge G node_name other_node 2)
    G other_nodes.

(** [seq[i]] on a Python sequence: a negative index counts from the end;
    [None] is the [IndexError]. *)
Definition py_index {A} (l : list A) (i : Z) : option A :=
  let i := if i <? 0 then i + Z.of_nat (length l) else i in
  if i <? 0 then None else l !! Z.to_nat i.

Section Engine.

Variable is_reciprocal_overlapping : Z → Z → Z → Z → bool.
Variable span_position_distance :
  Z → Z → Z → Z → spec_float → spec_float → ReadEnum_t → bool → Z → Z → bool → bool.

(** The hash of a read name ([xxhasher] with seed 42) and the test
    [cigar_clip] are declared in [dysgu/map_set_utils]; [gettid] and the
    region test [io_funcs.intersecter_int_chrom(overlap_regions, ...)]
    come with the input.  [good_quality_clip] and
    [alignments_from_sa_tag] read the base qualities, the packed bases
    and the SA tag through pysam: they are functions of the record
    here. *)
Variable xxhasher : string → Z.
Variable cigar_clip : AlignedSegment → Z → bool.
Variable overlap_regions : Z → Z → Z → bool.
Variable good_quality_clip : AlignedSegment → Z → bool.
Variable alignments_from_sa_tag :
  AlignedSegment → Z → bool → Z → list query_align * Z.

(** The clip scope, the site adder and the counter of bad clips are
    objects the engine owns and hands on; what their methods do to them
    and to the graph is given by these functions.  A clip scope reports
    the nodes it clustered, a site adder may add nodes to the graph and
    items to the scope. *)
Variables ClipScoper_t SiteAdder_t BadClipCounter_t : Type.
Variable ClipScoper_update :
  ClipScoper_t → AlignedSegment → Z → Z → Z → ClipScoper_t * list Z.
Variable add_any_sites :
  SiteAdder_t → Z → Z → Py_SimpleGraph → PairedEndScoper → NodeToName → Z →
  option (SiteAdder_t * Py_SimpleGraph * PairedEndScoper * NodeToName).
Variable find_nearest_site : SiteAdder_t → Z → Z → SiteAdder_t * Z.
Variable BadClipCounter_add : BadClipCounter_t → Z → Z → BadClipCounter_t.

(** The objects [process_alignment] and [add_to_graph] update. *)
Record Engine := {
  G : Py_SimpleGraph;
  pe_scope : PairedEndScoper;
  template_edges : gmap string (list Z);
  node_to_name : NodeToName;
  genome_scanner : Coverage.GenomeScanner;
  clip_scope : ClipScoper_t;
  site_adder : option SiteAdder_t;
  bad_clip_counter : BadClipCounter_t
}.

(** The arguments of [process_alignment] that stay the same over a
    scan. *)
Record Config := {
  clip_l : Z;
  loci_dist : Z;
  clustering_dist : Z;
  cfg_paired_end : bool;
  mapq_thresh : Z;
  mm_only : bool;
  trust_ins_len : bool
}.

(** [cluster_clipped(G, r, clip_scope, chrom, pos, node_name)] *)
Definition cluster_clipped (G : Py_SimpleGraph) (r : AlignedSegment)
    (clip_scope : ClipScoper_t) (chrom pos node_name : Z) : Py_SimpleGraph * ClipScoper_t :=
  let '(clip_scope, clustered_nodes) := ClipScoper_update clip_scope r node_name chrom pos in
  (add_local_edges G node_name clustered_nodes, clip_scope).

(** The edges of weight 0 [add_to_graph] draws to the nearest sites. *)
Definition add_site_edges (G : Py_SimpleGraph) (sites : SiteAdder_t)
    (node_name chrom event_pos chrom2 pos2 : Z) : Py_SimpleGraph * SiteAdder_t :=
  let '(sites, bnd_site_node) := find_nearest_site sites chrom event_pos in
  let G := if (0 <=? bnd_site_node) && negb (hasEdge G node_name bnd_site_node)
           then addEdge G node_name bnd_site_node 0 else G in
  let '(sites, bnd_site_node2) := find_nearest_site sites chrom2 pos2 in
  let G := if negb (bnd_site_node =? bnd_site_node2) && (0 <=? bnd_site_node2)
              && negb (hasEdge G node_name bnd_site_node2)
           then addEdge G node_name bnd_site_node2 0 else G in
  (G, sites).

(** [add_to_graph] *)
Definition add_to_graph (st : Engine) (cfg : Config) (r : AlignedSegment)
    (flag chrom tell cigar_index event_pos chrom2 pos2 : Z) (read_enum : ReadEnum_t)
    (length_from_cigar : Z) : option Engine :=
  let '(node_name, G) := addNode (G st) in
  let v := xxhasher (qname r) in
  let node_to_name :=
    NodeToName_append (node_to_name st) v flag (pos r) chrom tell cigar_index event_pos in
  genome_scanner ← Coverage.add_to_buffer (genome_scanner st) r node_name tell;
  let template_edges :=
    if ReadEnum_value read_enum <? 2
    then TemplateEdges_add (template_edges st) (qname r) flag node_name
           (query_alignment_start r)
    else template_edges st in
  '(G, pe_scope, clip_scope) ←
    (if bool_decide (read_enum ≠ BREAKEND) && negb (mm_only cfg) then
       '(other_nodes, pe_scope) ←
         find_other_nodes is_reciprocal_overlapping span_position_distance (pe_scope st)
           node_name chrom event_pos chrom2 pos2 read_enum length_from_cigar
           (trust_ins_len cfg);
       Some (add_local_edges G node_name other_nodes, pe_scope, clip_scope st)
     else if negb (chrom =? chrom2) && negb (clip_l cfg =? -1) then
       let '(G, clip_scope) := cluster_clipped G r (clip_scope st) chrom event_pos node_name in
       Some (G, pe_scope st, clip_scope)
     else Some (G, pe_scope st, clip_scope st));
  pe_scope ←
    (if negb (mm_only cfg) && bool_decide (read_enum ≠ BREAKEND)
     then add_item pe_scope node_name chrom event_pos chrom2 pos2 read_enum length_from_cigar
     else Some pe_scope);
  let '(G, site_adder) :=
    match site_adder st with
    | Some sites =>
        if bool_decide (read_enum = BREAKEND) || bool_decide (read_enum = SPLIT)
        then let '(G, sites) := add_site_edges G sites node_name chrom event_pos chrom2 pos2 in
             (G, Some sites)
        else (G, Some sites)
    | None => (G, None)
    end in
  Some {| G := G; pe_scope := pe_scope; template_edges := template_edges;
          node_to_name := node_to_name; genome_scanner := genome_scanner;
          clip_scope := clip_scope; site_adder := site_adder;
          bad_clip_counter := bad_clip_counter st |}.

(** [r.cigartuples[cigar_index][0]] *)
Definition cigar_op (r : AlignedSegment) (cigar_index : Z) : option Z :=
  ct ← cigartuples r;
  fst <$> py_index ct cigar_index.

(** The position of the second break of an event within the read. *)
Definition within_read_pos2 (r : AlignedSegment) (cigar_index event_pos cigar_pos2 : Z)
  : option Z :=
  op ← cigar_op r cigar_index;
  Some (if negb (op =? 1) then cigar_pos2 else event_pos).

(** The call [site_adder.add_any_sites(r.rname, event_pos, G, pe_scope,
    node_to_name, clustering_dist)] *)
Definition call_add_any_sites (st : Engine) (cfg : Config) (r : AlignedSegment)
    (event_pos : Z) : option Engine :=
  match site_adder st with
  | None => Some st
  | Some sites =>
      '(sites, G', pe_scope', node_to_name') ←
        add_any_sites sites (rname r) event_pos (G st) (pe_scope st) (node_to_name st)
          (clustering_dist cfg);
      Some {| G := G'; pe_scope := pe_scope'; template_edges := template_edges st;
              node_to_name := node_to_name'; genome_scanner := genome_scanner st;
              clip_scope := clip_scope st; site_adder := Some sites;
              bad_clip_counter := bad_clip_counter st |}
  end.

Definition set_bad_clip_counter (st : Engine) (b : BadClipCounter_t) : Engine :=
  {| G := G st; pe_scope := pe_scope st; template_edges := template_edges st;
     node_to_name := node_to_name st; genome_scanner := genome_scanner st;
     clip_scope := clip_scope st; site_adder := site_adder st; bad_clip_counter := b |}.

(** The branch of [process_alignment] for paired reads, after the sites
    are added. *)
Definition process_paired (st : Engine) (cfg : Config) (r : AlignedSegment)
    (cigar_index event_pos tell cigar_pos2 : Z) (read_enum : ReadEnum_t)
    (length_from_cigar : Z) : option Engine :=
  let chrom := rname r in
  let flag := flag r in
  let chrom2 := rnext r in
  let pos2 := pnext r in
  let current_overlaps_roi := overlap_regions (rname r) event_pos (event_pos + 1) in
  let next_overlaps_roi :=
    if current_overlaps_roi then overlap_regions chrom2 pos2 (pnext r + 1) else false in
  let good_clip := good_quality_clip r 15 in
  let st := if good_clip then st
            else set_bad_clip_counter st (BadClipCounter_add (bad_clip_counter st) chrom (pos r)) in
  (* read_enum == SPLIT: the SA tag decides the partner *)
  split ←
    (if bool_decide (read_enum = SPLIT) && bool_decide (is_Some (sa r)) && good_clip then
       let '(all_aligns, index) :=
         alignments_from_sa_tag r (loci_dist cfg) (cfg_paired_end cfg) (mapq_thresh cfg) in
       event ← py_index all_aligns index;
       if bool_decide (length all_aligns = 1%nat) then Some None
       else
         let cur := (event_pos, chrom, pos2, chrom2, cigar_index, read_enum) in
         cur ←
           (if index <? Z.of_nat (length all_aligns) - 1 then
              b ← py_index all_aligns (index + 1);
              ct ← cigartuples r;
              let '(event_pos, chrom, pos2, chrom2, inferred) :=
                connect_right event b r (cfg_paired_end cfg) (loci_dist cfg) (mapq_thresh cfg) in
              Some (event_pos, chrom, pos2, chrom2, Z.of_nat (length ct) - 1,
                    if bool_decide (inferred = BREAKEND) then BREAKEND else read_enum)
            else Some cur);
         cur ←
           (if 0 <? index then
              b ← py_index all_aligns (index - 1);
              let '(event_pos, chrom, pos2, chrom2, inferred) :=
                connect_left event b r (cfg_paired_end cfg) (loci_dist cfg) (mapq_thresh cfg) in
              Some (event_pos, chrom, pos2, chrom2, 0,
                    if bool_decide (inferred = BREAKEND) then BREAKEND else cur.2)
            else Some cur);
         Some (Some cur)
     else Some (Some (event_pos, chrom, pos2, chrom2, cigar_index, read_enum)));
  match split with
  | None => Some st
  | Some (event_pos, chrom, pos2, chrom2, cigar_index, read_enum) =>
      if bool_decide (read_enum = BREAKEND) && mm_only cfg
         && current_overlaps_roi && next_overlaps_roi
      then Some st
      else
        let '(chrom2, pos2) :=
          if bool_decide (read_enum = BREAKEND) && good_clip && cigar_clip r (clip_l cfg)
          then (10000000, event_pos) else (chrom2, pos2) in
        '(chrom2, pos2) ←
          (if bool_decide (read_enum = DELETION) || bool_decide (read_enum = INSERTION)
           then pos2 ← within_read_pos2 r cigar_index event_pos cigar_pos2; Some (chrom, pos2)
           else Some (chrom2, pos2));
        add_to_graph st cfg r flag chrom tell cigar_index event_pos chrom2 pos2 read_enum
          length_from_cigar
  end.

(** The branch for single-end reads. *)
Definition process_single (st : Engine) (cfg : Config) (r : AlignedSegment)
    (cigar_index event_pos tell cigar_pos2 : Z) (read_enum : ReadEnum_t)
    (length_from_cigar : Z) : option Engine :=
  let chrom := rname r in
  let flag := flag r in
  if bool_decide (read_enum = SPLIT) then
    if bool_decide (is_Some (sa r)) then
      let '(all_aligns, index) :=
        alignments_from_sa_tag r (loci_dist cfg) (cfg_paired_end cfg) (mapq_thresh cfg) in
      event ← py_index all_aligns index;
      if bool_decide (length all_aligns = 1%nat) then Some st
      else
        st ←
          (if index <? Z.of_nat (length all_aligns) - 1 then
             b ← py_index all_aligns (index + 1);
             let '(event_pos, chrom, pos2, chrom2, _) :=
               connect_right event b r (cfg_paired_end cfg) (loci_dist cfg) (mapq_thresh cfg) in
             add_to_graph st cfg r flag chrom tell 0 event_pos chrom2 pos2 read_enum 0
           else Some st);
        if 0 <? index then
          b ← py_index all_aligns (index - 1);
          ct ← cigartuples r;
          let '(event_pos, chrom, pos2, chrom2, _) :=
            connect_left event b r (cfg_paired_end cfg) (loci_dist cfg) (mapq_thresh cfg) in
          add_to_graph st cfg r flag chrom tell (Z.of_nat (length ct) - 1) event_pos chrom2 pos2
            read_enum length_from_cigar
        else Some st
    else Some st
  else if 2 <=? ReadEnum_value read_enum then
    pos2 ← within_read_pos2 r cigar_index event_pos cigar_pos2;
    add_to_graph st cfg r flag chrom tell cigar_index event_pos (rname r) pos2 read_enum
      length_from_cigar
  else Some st.

(** [process_alignment] *)
Definition process_alignment (st : Engine) (cfg : Config) (r : AlignedSegment)
    (cigar_index event_pos tell cigar_pos2 : Z) (read_enum : ReadEnum_t)
    (length_from_cigar : Z) : option Engine :=
  if cfg_paired_end cfg && bool_decide (read_enum = SPLIT) && negb (Z.land (flag r) 8 =? 0)
  then Some st
  else
    st ← call_add_any_sites st cfg r event_pos;
    if cfg_paired_end cfg || negb (Z.land (flag r) 1 =? 0)
    then process_paired st cfg r cigar_index event_pos tell cigar_pos2 read_enum
           length_from_cigar
    else process_single st cfg r cigar_index event_pos tell cigar_pos2 read_enum
           length_from_cigar.

End Engine.

Arguments G {ClipScoper_t SiteAdder_t BadClipCounter_t} _.
Arguments pe_scope {ClipScoper_t SiteAdder_t BadClipCounter_t} _.
Arguments template_edges {ClipScoper_t SiteAdder_t BadClipCounter_t} _.
Arguments node_to_name {ClipScoper_t SiteAdder_t BadClipCounter_t} _.
Arguments genome_scanner {ClipScoper_t SiteAdder_t BadClipCounter_t} _.
Arguments clip_scope {ClipScoper_t SiteAdder_t BadClipCounter_t} _.
Arguments site_adder {ClipScoper_t SiteAdder_t BadClipCounter_t} _.
Arguments bad_clip_counter {ClipScoper_t SiteAdder_t BadClipCounter_t} _.

End Graph.

(** * The wording of the specification

    The quantities the specification names, for comparison with what
    the sources compute. *)

Module Stated.

(** The arithmetic mean and the variance of a list of insert sizes. *)
Definition arithmetic_mean (L : list Z) : Q :=
  (inject_Z (foldr Z.add 0%Z L) / inject_Z (Z.of_nat (length L)))%Q.
Definition variance (L : list Z) : Q :=
  let mean := arithmetic_mean L in
  (foldr (λ v acc, (inject_Z v - mean) * (inject_Z v - mean) + acc) 0 L
   / inject_Z (Z.of_nat (length L)))%Q.

(** The share of the start bin, [(ceil(start/100)*100 - start)/100],
    and of the end bin, [(end - floor(end/100)*100)/100]. *)
Definition start_fraction (start : Z) : Q := Qmake (- ((- start) / 100) * 100 - start) 100.
Definition end_fraction (end_ : Z) : Q := Qmake (end_ - end_ / 100 * 100) 100.
End Stated.


Module MapSetUtils.

(** Modelled from the spec: [is_reciprocal_overlapping] is declared in
    [dysgu/map_set_utils], which is not among the sources.  The
    specification words it as: two intervals reciprocally overlap when
    each covers at least 50% of the other. *)
Definition is_reciprocal_overlapping (x1 x2 y1 y2 : Z) : bool :=
  let overlap :=
    Z.max 0 (Z.min (Z.max x1 x2) (Z.max y1 y2) - Z.max (Z.min x1 x2) (Z.min y1 y2)) in
  (Z.abs (x2 - x1) <=? 2 * overlap) && (Z.abs (y2 - y1) <=? 2 * overlap).

End MapSetUtils.

(** * Concrete inputs *)

Module Examples.
Import CFloat Coverage.

(** A mapped read with a sequence and one CIGAR operation. *)
Definition read_at (name : string) (flag pos reference_end : Z) : AlignedSegment :=
  {| qname := name; flag := flag; rname := 0; pos := pos; rnext := 0; pnext := pos + 300;
     mapq := 60; tlen := 450; cigartuples := Some [(0, reference_end - pos)];
     seq := Some "ACGT"; reference_end := reference_end; query_alignment_start := 0;
     sa := None |}.

(** A scanner before its first record: one reference of 1000 bases, no
    region of interest. *)
Definition new_scanner (max_cov : Z) : GenomeScanner :=
  {| reference_length := λ _, 1000; max_cov := max_cov; overlap_regions := None;
     staged_reads := []; current_bin := []; current_chrom := 0; current_pos := 0;
     current_cov_array := None; reads_dropped := 0; depth_d := ∅; first := 1;
     read_buffer := ∅; buff_size := 8; no_tell := false |}.

(** Reads starting at 500, 501, ... fed to the scanner one after the
    other. *)
Fixpoint feed (s : GenomeScanner) (pos : Z) (n : nat) : option GenomeScanner :=
  match n with
  | O => Some s
  | S n => s ← _add_to_bin_buffer s (read_at "r" 0 pos (pos + 150)) pos; feed s (pos + 1) n
  end.

Definition zeros (n : nat) : list spec_float := replicate n (S754_zero false).

(** A duplicate (flag bit 1024) of a mapped read. *)
Definition duplicate_read : AlignedSegment := read_at "dup" 1024 500 650.

(** A table of two nodes: node 0 stands for a whole read (cigar index
    -1), node 1 for the fourth CIGAR operation of a read. *)
Definition two_rows : Graph.NodeToName :=
  Graph.NodeToName_append
    (Graph.NodeToName_append Graph.NodeToName_empty 11 0 100 0 5 (-1) 100)
    12 0 200 0 9 3 250.

(** The component of the specification's sixth scenario: nodes 0 to 3,
    edges 0-1 and 2-3 of weight 2, edge 1-2 of weight 1. *)
Definition two_pairs : Graph.Py_SimpleGraph :=
  let G := (Graph.addNode Graph.empty_graph).2 in
  let G := (Graph.addNode G).2 in
  let G := (Graph.addNode G).2 in
  let G := (Graph.addNode G).2 in
  Graph.addEdge (Graph.addEdge (Graph.addEdge G 0 1 2) 2 3 2) 1 2 1.

(** Three insert sizes, none of them an outlier. *)
Definition inserts : list Z := [1; 2; 6].

End Examples.

Module ScopeExamples.
Import CFloat Graph.

(** A span test that never links two events; the runs below do not
    depend on it. *)
Definition no_span_match (x1 x2 y1 y2 : Z) (norm thresh : spec_float) (e : ReadEnum_t)
    (paired_end : bool) (len1 len2 : Z) (trust_ins_len : bool) : bool := false.

(** A scoper for three references. *)
Definition new_scoper : PairedEndScoper :=
  PairedEndScoper_init 1000 500 3 (float_of_Z 100) (float_of_Z 1) true.

(** The scoper after node 0, an insertion of 1000 bases at position
    [pos] of chromosome 0, went through [find_other_nodes] and
    [add_item]. *)
Definition one_insertion (pos : Z) : PairedEndScoper :=
  let item := make_local_val 0 pos 0 INSERTION 1000 in
  set_scopes new_scoper 0 [(pos, item)] [[(pos, item)]; []; []; []].

End ScopeExamples.

Module EngineExamples.
Import CFloat Graph ScopeExamples.

(** An engine before its first record, without sites.  The clip scope
    and the counter of bad clips carry no state here, the hash of a name
    is its length and no read name has an SA list. *)
Definition new_engine : Engine unit unit unit :=
  {| G := empty_graph; pe_scope := new_scoper; template_edges := ∅;
     node_to_name := NodeToName_empty; genome_scanner := Examples.new_scanner 4;
     clip_scope := (); site_adder := None; bad_clip_counter := () |}.

Definition paired_config : Config :=
  {| clip_l := 21; loci_dist := 1000; clustering_dist := 500; cfg_paired_end := true;
     mapq_thresh := 1; mm_only := false; trust_ins_len := true |}.

(** [process_alignment] with the functions it takes from elsewhere
    fixed: every clip is good, no region of interest, no SA list. *)
Definition run_alignment :=
  process_alignment MapSetUtils.is_reciprocal_overlapping no_span_match
    (λ name, Z.of_nat (String.length name)) (λ _ _, false) (λ _ _ _, false) (λ _ _, true)
    (λ _ _ _ _, ([], 0)) unit unit unit
    (λ c _ _ _ _, (c, [])) (λ _ _ _ _ _ _ _, None) (λ s _ _, (s, -1)) (λ b _ _, b).

(** A split read, paired, whose mate is unmapped (flag 2048 + 8 + 1),
    and a discordant read of a pair (flag 1). *)
Definition split_mate_unmapped : AlignedSegment := Examples.read_at "q1" 2057 700 850.
Definition discordant_read : AlignedSegment := Examples.read_at "q2" 1 700 850.

(** An engine with one node in scope on chromosome 0: node 0 of the
    graph is the insertion of [one_insertion 1000]. *)
Definition engine_on_chrom_0 : Engine unit unit unit :=
  {| G := (addNode empty_graph).2; pe_scope := one_insertion 1000; template_edges := ∅;
     node_to_name := NodeToName_append NodeToName_empty 2 0 1000 0 33 3 1000;
     genome_scanner := Examples.new_scanner 4;
     clip_scope := (); site_adder := None; bad_clip_counter := () |}.

End EngineExamples.

(** * More of the two sources *)

Module Python.

Section Sorted.

Context {A : Type}.

(** [a < b] as Python decides it on the elements. *)
Variable lt : A → A → bool.

(** [sorted(l)]: Python's sort is stable, an element goes behind the
    ones that are not above it. *)
Fixpoint sorted_insert (x : A) (l : list A) : list A :=
  match l with
  | [] => [x]
  | y :: l' => if lt x y then x :: l else y :: sorted_insert x l'
  end.

Definition sorted (l : list A) : list A := foldl (λ acc x, sorted_insert x acc) [] l.

End Sorted.

(** [enumerate(l)] *)
Definition enumerate {A : Type} (l : list A) : list (Z * A) :=
  imap (λ i x, (Z.of_nat i, x)) l.

End Python.

(** ** Packed pairs of the clip tables *)

Module Packing.

(** The conversions to [uint32_t] and [uint64_t]. *)
Definition uint32 (z : Z) : Z := z mod 2 ^ 32.
Definition uint64 (z : Z) : Z := z mod 2 ^ 64.

(** [pair_to_int64(left, right)]: [<uint64_t> left << 32 | right], the
    arguments being converted to [uint32_t] at the call. *)
Definition pair_to_int64 (left right : Z) : Z :=
  Z.lor (uint64 (Z.shiftl (uint32 left) 32)) (uint32 right).

(** [int64_left(item)]: [v = 0; v |= item >> 32] on a [uint32_t]. *)
Definition int64_left (item : Z) : Z :=
  let v := 0 in
  uint32 (Z.lor v (Z.shiftr (uint64 item) 32)).

(** [int64_right(item)]: [<uint32_t> item]. *)
Definition int64_right (item : Z) : Z := uint32 (uint64 item).

End Packing.

Module Minimizers.

Section Window.

(** [xxhasher(ptr, len, 42)] as a [long], on the [len] bytes at [ptr]. *)
Variable xxhasher : string → Z.

(** The elements behind the leading ones that [test] selects. *)
Fixpoint drop_while {A : Type} (test : A → bool) (l : list A) : list A :=
  match l with
  | [] => []
  | x :: l' => if test x then drop_while test l' else l
  end.

(** [while window2.size() != 0 and window2.back().first >= hx2:
    window2.pop_back()], the deque being a list with its front first. *)
Definition pop_back_above (hx2 : Z) (window2 : list (Z * Z)) : list (Z * Z) :=
  reverse (drop_while (λ p, hx2 <=? p.1) (reverse window2)).

(** [while window2.front().second <= bound: window2.pop_front()];
    [front()] of a deque that was emptied is undefined. *)
Fixpoint pop_front_old (bound : Z) (window2 : list (Z * Z)) : option (list (Z * Z)) :=
  match window2 with
  | [] => None
  | p :: window2' => if p.2 <=? bound then pop_front_old bound window2' else Some window2
  end.

(** The hash of the [m] bytes of [s] at offset [i], where [sub_ptr] is
    in the round [i] of the loop. *)
Definition hash_at (m : Z) (s : string) (i : Z) : Z :=
  xxhasher (String.substring (Z.to_nat i) (Z.to_nat m) s).

(** The body of [while i < end]. *)
Definition window_step (k m : Z) (s : string) (last_idx : Z)
    (st : option (list (Z * Z) * gset Z)) (i : Z) : option (list (Z * Z) * gset Z) :=
  '(window2, found) ← st;
  let hx2 := hash_at m s i in
  let found := if (i =? 0) || (i =? last_idx) then {[hx2]} ∪ found else found in
  let window2 := pop_back_above hx2 window2 ++ [(hx2, i)] in
  window2 ← pop_front_old (i - k) window2;
  front ← head window2;
  Some (window2, {[front.1]} ∪ found).

(** [sliding_window_minimum(k, m, s, found)]: the set [found] after the
    call, for a sequence of ASCII characters and [m] not negative. *)
Definition sliding_window_minimum (k m : Z) (s : string) (found : gset Z)
  : option (gset Z) :=
  let end_ := Z.of_nat (String.length s) - m + 1 in
  let last_idx := end_ - 1 in
  snd <$> foldl (window_step k m s last_idx) (Some ([], found)) (seqZ 0 end_).

End Window.

End Minimizers.

Module SaTag.
Import Graph.

(** The variables of the loop of [get_query_pos_from_cigarstring]. *)
Record query_pos := {
  qp_start : Z;
  qp_end : Z;
  qp_i : bool;
  qp_ref_end : Z
}.

(** [opp in "SH"] on Python strings: [opp] is a substring of ["SH"]. *)
Definition is_clip (opp : string) : bool :=
  bool_decide (opp ∈ [EmptyString; "S"; "H"; "SH"]%string).

(** The body of [for slen, opp in cigar]. *)
Definition query_pos_step (st : query_pos) (item : Z * string) : query_pos :=
  let '(slen, opp) := item in
  if negb (qp_i st) && is_clip opp then
    {| qp_start := qp_start st + slen; qp_end := qp_end st + slen; qp_i := true;
       qp_ref_end := qp_ref_end st |}
  else if bool_decide (opp = "M"%string) then
    {| qp_start := qp_start st; qp_end := qp_end st + slen; qp_i := true;
       qp_ref_end := qp_ref_end st + slen |}
  else if bool_decide (opp = "D"%string) then
    {| qp_start := qp_start st; qp_end := qp_end st; qp_i := true;
       qp_ref_end := qp_ref_end st + slen |}
  else if bool_decide (opp = "I"%string) then
    {| qp_start := qp_start st; qp_end := qp_end st + slen; qp_i := true;
       qp_ref_end := qp_ref_end st |}
  else
    {| qp_start := qp_start st; qp_end := qp_end st; qp_i := true;
       qp_ref_end := qp_ref_end st |}.

(** [get_query_pos_from_cigarstring(cigar, pos)]: the tuple
    [(start, end, pos, ref_end)]. *)
Definition get_query_pos_from_cigarstring (cigar : list (Z * string)) (pos : Z)
  : Z * Z * Z * Z :=
  let st := foldl query_pos_step
              {| qp_start := 0; qp_end := 0; qp_i := false; qp_ref_end := pos |} cigar in
  (qp_start st, qp_end st, pos, qp_ref_end st).

End SaTag.

Module CigarScan.

(** The struct [CigarEvent]. *)
Record CigarEvent := {
  opp : Z;
  cigar_index : Z;
  event_pos : Z;
  pos2 : Z;
  event_length : Z;
  cigar_skip : bool;
  read_enum : Graph.ReadEnum_t
}.

Definition make_cigar_event (opp cigar_index event_pos pos2 length : Z)
    (read_enum : Graph.ReadEnum_t) : CigarEvent :=
  {| opp := opp; cigar_index := cigar_index; event_pos := event_pos; pos2 := pos2;
     event_length := length; cigar_skip := false; read_enum := read_enum |}.

(** The variables the loop over [enumerate(r.cigartuples)] in
    [construct_graph] updates. *)
Record scan := {
  scan_event_pos : Z;
  scan_pos2 : Z;
  added : bool;
  clipped : bool;
  events_to_add : list CigarEvent
}.

(** The body of [for cigar_index, (opp, length) in
    enumerate(r.cigartuples)]. *)
Definition scan_step (min_sv_size clip_l : Z) (st : scan) (item : Z * (Z * Z)) : scan :=
  let '(cigar_index, (opp, length)) := item in
  if opp =? 1 then
    if min_sv_size <=? length then
      let pos2 := scan_event_pos st + length in
      {| scan_event_pos := scan_event_pos st; scan_pos2 := pos2; added := true;
         clipped := clipped st;
         events_to_add :=
           events_to_add st
           ++ [make_cigar_event opp cigar_index (scan_event_pos st) pos2 length
                 Graph.INSERTION] |}
    else st
  else if opp =? 2 then
    let st :=
      if min_sv_size <=? length then
        let pos2 := scan_event_pos st + length in
        {| scan_event_pos := scan_event_pos st; scan_pos2 := pos2; added := true;
           clipped := clipped st;
           events_to_add :=
             events_to_add st
             ++ [make_cigar_event opp cigar_index (scan_event_pos st) pos2 length
                   Graph.DELETION] |}
      else st in
    {| scan_event_pos := scan_event_pos st + length; scan_pos2 := scan_pos2 st;
       added := added st; clipped := clipped st; events_to_add := events_to_add st |}
  else if negb (opp =? 4) && negb (opp =? 5) then
    {| scan_event_pos := scan_event_pos st + length; scan_pos2 := scan_pos2 st;
       added := added st; clipped := clipped st; events_to_add := events_to_add st |}
  else if (opp =? 4) && (clip_l <=? length) then
    {| scan_event_pos := scan_event_pos st; scan_pos2 := scan_pos2 st;
       added := added st; clipped := true; events_to_add := events_to_add st |}
  else st.

(** The loop for a record at [r_pos], [added] being set when the record
    has an SA tag. *)
Definition scan_cigar (min_sv_size clip_l r_pos : Z) (added0 : bool)
    (cigartuples : list (Z * Z)) : scan :=
  foldl (scan_step min_sv_size clip_l)
    {| scan_event_pos := r_pos; scan_pos2 := -1; added := added0; clipped := false;
       events_to_add := [] |}
    (Python.enumerate cigartuples).

End CigarScan.

Module Intervals.

Section MergeIntervals.

(** The chromosome names, with Python's [<] on them. *)
Context {C : Type} `{EqDecision C}.
Variable C_lt : C → C → Prop.
Context `{!RelDecision C_lt}.

(** A tuple [(chrom, start, end)]. *)
Definition interval : Type := C * Z * Z.
Definition chrom (iv : interval) : C := iv.1.1.
Definition lo (iv : interval) : Z := iv.1.2.
Definition hi (iv : interval) : Z := iv.2.

(** [(a[0], a[1]) < (b[0], b[1])] on Python tuples: the first elements
    that differ decide. *)
Definition key_lt (a b : interval) : bool :=
  if decide (chrom a = chrom b) then lo a <? lo b
  else bool_decide (C_lt (chrom a) (chrom b)).

(** [sorted(intervals, key=lambda tup: (tup[0], tup[1]))] *)
Definition sorted (intervals : list interval) : list interval :=
  Python.sorted key_lt intervals.

(** [[c, 0 if i - pad < 0 else i - pad, j + pad]] *)
Definition pad_interval (pad : Z) (iv : interval) : interval :=
  (chrom iv, if lo iv - pad <? 0 then 0 else lo iv - pad, hi iv + pad).

(** The body of [for higher in sorted_by_lower_bound], without indexes. *)
Definition merge_step (merged : list interval) (higher : interval) : list interval :=
  match last merged with
  | None => merged ++ [higher]
  | Some lower =>
      if bool_decide (chrom higher ≠ chrom lower) then merged ++ [higher]
      else if lo higher <=? hi lower
      then <[pred (length merged) := (chrom lower, lo lower, Z.max (hi higher) (hi lower))]>
             merged
      else merged ++ [higher]
  end.

(** [merge_intervals(intervals, srt, pad, add_indexes=False)] *)
Definition merge_intervals (intervals : list interval) (srt : bool) (pad : Z)
  : list interval :=
  let sorted_by_lower_bound := if srt then sorted intervals else intervals in
  let sorted_by_lower_bound :=
    if pad =? 0 then sorted_by_lower_bound
    else pad_interval pad <$> sorted_by_lower_bound in
  foldl merge_step [] sorted_by_lower_bound.

End MergeIntervals.

End Intervals.

Module ScanExamples.
Import CFloat Coverage.

(** A mapped read of 150 bases at [pos] of reference [chrom]. *)
Definition read_on (chrom pos : Z) : AlignedSegment :=
  {| qname := "r"; flag := 0; rname := chrom; pos := pos; rnext := chrom; pnext := pos + 300;
     mapq := 60; tlen := 450; cigartuples := Some [(0, 150)]; seq := Some "ACGT";
     reference_end := pos + 150; query_alignment_start := 0; sa := None |}.

(** Calls of [add_to_buffer] one after the other, each with a record, a
    node name and the value of [tell]. *)
Fixpoint add_all_to_buffer (s : GenomeScanner) (calls : list (AlignedSegment * Z * Z))
  : option GenomeScanner :=
  match calls with
  | [] => Some s
  | (r, n1, tell) :: calls => s ← add_to_buffer s r n1 tell; add_all_to_buffer s calls
  end.

End ScanExamples.

Module Templates.
Import Graph.

(** An entry [arr[ii:ii + 3]] of a template: query start, node, flag. *)
Definition align : Type := Z * Z * Z.

(** The slices [arr[ii:ii + 3]] for [ii in range(0, len(arr), 3)];
    [arr[ii + 2]] raises when the last slice is not whole. *)
Fixpoint slices (arr : list Z) : option (list align) :=
  match arr with
  | [] => Some []
  | query_start :: node :: flag :: arr => cons (query_start, node, flag) <$> slices arr
  | _ => None
  end.

(** [x < y] on two lists of three ints. *)
Definition align_lt (x y : align) : bool :=
  let '(a1, b1, c1) := x in
  let '(a2, b2, c2) := y in
  if negb (a1 =? a2) then a1 <? a2
  else if negb (b1 =? b2) then b1 <? b2
  else c1 <? c2.

(** [not flag & 2304] *)
Definition is_primary (flag : Z) : bool := Z.land flag 2304 =? 0.

(** The body of [for ii in range(len(aligns) - 1)]. *)
Definition join_step (st : Py_SimpleGraph * option Z) (uv : align * align)
  : Py_SimpleGraph * option Z :=
  let '(G, primary) := st in
  let '((_, u, uflag), (_, v, _)) := uv in
  let primary := if is_primary uflag then Some u else primary in
  (if hasEdge G u v then G else addEdge G u v 1, primary).

(** The block [if len(read1_aligns) > 0: ...] for the alignments of one
    read: the graph and [primary1]. *)
Definition join_aligns (G : Py_SimpleGraph) (aligns : list align)
  : Py_SimpleGraph * option Z :=
  match aligns with
  | [] => (G, None)
  | [(_, node, flag)] => (G, if is_primary flag then Some node else None)
  | _ =>
      let aligns := if (2 <? length aligns)%nat then Python.sorted align_lt aligns else aligns in
      let '(G, primary) := foldl join_step (G, None) (zip aligns (tail aligns)) in
      let primary :=
        match primary with
        | Some u => Some u
        | None =>
            match last aligns with
            | Some (_, node, flag) => if is_primary flag then Some node else None
            | None => None
            end
        end in
      (G, primary)
  end.

(** The body of [for qname, arr in template_edges.iterate_map()]. *)
Definition add_template (G : Py_SimpleGraph) (arr : list Z) : option Py_SimpleGraph :=
  aligns ← slices arr;
  let read1_aligns := filter (λ x, Z.land x.2 64 ≠ 0) aligns in
  let read2_aligns := filter (λ x, Z.land x.2 64 = 0) aligns in
  let '(G, primary1) := join_aligns G read1_aligns in
  let '(G, primary2) := join_aligns G read2_aligns in
  Some match primary1, primary2 with
       | Some primary1, Some primary2 =>
           if hasEdge G primary1 primary2 then G else addEdge G primary1 primary2 1
       | _, _ => G
       end.

(** [add_template_edges(G, template_edges)].  [items] are the entries of
    [templates_s] in the order [iterate_map] hands them out, which for
    an [unordered_map] is not fixed. *)
Definition add_template_edges (G : Py_SimpleGraph) (items : list (string * list Z))
  : option Py_SimpleGraph :=
  foldl (λ G item, G ← G; add_template G item.2) (Some G) items.

End Templates.

Module SupportBetween.
Import Graph.

(** The tables [count_support_between] fills.  [counts[t]] is a pair of
    sets, turned into two arrays once the partition is done; the model
    keeps their elements.  [self_counts[i]] is an array, in the order of
    its [append]s. *)
Record tally := {
  counts : gmap (Z * Z) (gset Z * gset Z);
  self_counts : gmap Z (list Z);
  seen_t : gset (Z * Z);
  current_t : gset (Z * Z)
}.

(** The table [p2i]: [p2i.insert(node, i)] for the nodes of the
    partition number [i], an insertion being taken as an assignment;
    with disjoint partitions no node is inserted twice. *)
Definition fill_p2i (parts : list (list Z)) : gmap Z Z :=
  foldl (λ p2i ip, foldl (λ p2i node, <[node := ip.1]> p2i) p2i ip.2) ∅
    (Python.enumerate parts).

(** The body of [for child in G.neighbors(node)], with [any_out_edges]. *)
Definition visit_child (p2i : gmap Z Z) (i node : Z) (st : tally * bool) (child : Z)
  : tally * bool :=
  let '(s, any_out_edges) := st in
  match p2i !! child with
  | None => st
  | Some j =>
      if j =? i then st
      else
        let t := if j <? i then (j, i) else (i, j) in
        if bool_decide (t ∈ seen_t s) then (s, true)
        else
          let c := default (∅, ∅) (counts s !! t) in
          let c := if j <? i then ({[child]} ∪ c.1, {[node]} ∪ c.2)
                   else ({[node]} ∪ c.1, {[child]} ∪ c.2) in
          ({| counts := <[t := c]> (counts s); self_counts := self_counts s;
              seen_t := seen_t s; current_t := {[t]} ∪ current_t s |}, true)
  end.

(** The body of [for node in p]. *)
Definition visit_node (G : Py_SimpleGraph) (p2i : gmap Z Z) (i : Z) (s : tally) (node : Z)
  : tally :=
  let '(s, any_out_edges) := foldl (visit_child p2i i node) (s, false) (neighbors G node) in
  if any_out_edges then s
  else
    {| counts := counts s;
       self_counts := <[i := default [] (self_counts s !! i) ++ [node]]> (self_counts s);
       seen_t := seen_t s; current_t := current_t s |}.

(** The body of [for i, p in enumerate(parts)]. *)
Definition visit_part (G : Py_SimpleGraph) (p2i : gmap Z Z) (s : tally) (ip : Z * list Z)
  : tally :=
  let '(i, p) := ip in
  let s := {| counts := counts s; self_counts := self_counts s; seen_t := seen_t s;
              current_t := ∅ |} in
  let s := foldl (visit_node G p2i i) s p in
  {| counts := counts s; self_counts := self_counts s;
     seen_t := seen_t s ∪ current_t s; current_t := current_t s |}.

(** [count_support_between(G, parts, min_support)]: the pair
    [(counts, self_counts)]. *)
Definition count_support_between (G : Py_SimpleGraph) (parts : list (list Z))
    (min_support : Z) : gmap (Z * Z) (gset Z * gset Z) * gmap Z (list Z) :=
  match parts with
  | [] => (∅, ∅)
  | [p] => (∅, {[0 := p]})
  | _ =>
      let s := foldl (visit_part G (fill_p2i parts))
                 {| counts := ∅; self_counts := ∅; seen_t := ∅; current_t := ∅ |}
                 (Python.enumerate parts) in
      (counts s, self_counts s)
  end.

End SupportBetween.

Module BreakComponent.
Import Graph.

(** [d[k] += 1] on a [defaultdict(int)], the keys in the order they were
    first used. *)
Definition bump {K : Type} `{EqDecision K} (k : K) (d : list (K * Z)) : list (K * Z) :=
  if bool_decide (k ∈ d.*1)
  then (λ kv, if decide (kv.1 = k) then (k, kv.2 + 1) else kv) <$> d
  else d ++ [(k, 1)].

(** The tables of the first loop of [break_large_component]. *)
Record tally := {
  counts : list ((Z * Z) * Z);
  self_counts : list (Z * Z);
  seen_t : gset (Z * Z);
  current_t : gset (Z * Z)
}.

(** The body of [for child in G.neighbors(node)]. *)
Definition visit_child (p2i : gmap Z Z) (i : Z) (s : tally) (child : Z) : tally :=
  match p2i !! child with
  | None => s
  | Some j =>
      if negb (j =? i) then
        let t := if j <? i then (j, i) else (i, j) in
        if bool_decide (t ∈ seen_t s) then s
        else {| counts := bump t (counts s); self_counts := self_counts s;
                seen_t := seen_t s; current_t := {[t]} ∪ current_t s |}
      else {| counts := counts s; self_counts := bump i (self_counts s);
              seen_t := seen_t s; current_t := current_t s |}
  end.

(** The body of [for i, p in enumerate(parts)]. *)
Definition visit_part (G : Py_SimpleGraph) (p2i : gmap Z Z) (s : tally) (ip : Z * list Z)
  : tally :=
  let '(i, p) := ip in
  let s := {| counts := counts s; self_counts := self_counts s; seen_t := seen_t s;
              current_t := ∅ |} in
  let s := foldl (λ s node, foldl (visit_child p2i i) s (neighbors G node)) s p in
  {| counts := counts s; self_counts := self_counts s;
     seen_t := seen_t s ∪ current_t s; current_t := current_t s |}.

(** The tables after the first loop. *)
Definition count_links (G : Py_SimpleGraph) (parts : list (list Z)) : tally :=
  foldl (visit_part G (SupportBetween.fill_p2i parts))
    {| counts := []; self_counts := []; seen_t := ∅; current_t := ∅ |}
    (Python.enumerate parts).

(** The arrays of [parts], which [b.extend] changes in place, and the
    jobs: a job is the array of [parts] at the index given, so two jobs
    of one index are one array. *)
Record merging := {
  f : gset Z;
  store : list (list Z);
  jobs : list nat
}.

(** The body of [for (u, v), sup in counts.items()]; [None] stands for
    an index that is not one of [parts], which the keys never are. *)
Definition merge_pair (min_support : Z) (st : option merging) (item : (Z * Z) * Z)
  : option merging :=
  st ← st;
  let '((u, v), sup) := item in
  if min_support <=? sup then
    if (u <? 0) || (v <? 0) then None
    else
      b ← store st !! Z.to_nat u;
      pv ← store st !! Z.to_nat v;
      Some {| f := {[v]} ∪ ({[u]} ∪ f st);
              store := <[Z.to_nat u := b ++ pv]> (store st);
              jobs := jobs st ++ [Z.to_nat u] |}
  else Some st.

(** The body of [for k, v in self_counts.items()]. *)
Definition keep_part (min_support : Z) (st : option merging) (item : Z * Z) : option merging :=
  st ← st;
  let '(k, v) := item in
  if (min_support <=? v) && bool_decide (k ∉ f st) then
    if k <? 0 then None
    else
      _ ← store st !! Z.to_nat k;
      Some {| f := f st; store := store st; jobs := jobs st ++ [Z.to_nat k] |}
  else Some st.

(** What [break_large_component] returns: two dicts for fewer than two
    partitions, the jobs otherwise. *)
Inductive result :=
  | Dicts (between : list ((Z * Z) * Z)) (within : list (Z * list Z))
  | Jobs (store : list (list Z)) (jobs : list nat).

(** [break_large_component(G, component, min_support)] *)
Definition break_large_component (G : Py_SimpleGraph) (component : list Z) (min_support : Z)
  : option result :=
  parts ← get_partitions G component;
  match parts with
  | [] => Some (Dicts [] [])
  | [p] => Some (Dicts [] [(0, p)])
  | _ =>
      let s := count_links G parts in
      st ← foldl (merge_pair min_support)
             (Some {| f := ∅; store := parts; jobs := [] |}) (counts s);
      st ← foldl (keep_part min_support) (Some st) (self_counts s);
      Some (Jobs (store st) (jobs st))
  end.

(** The arrays of the jobs, as the caller reads them. *)
Definition job_arrays (store : list (list Z)) (jobs : list nat) : list (list Z) :=
  omap (λ r, store !! r) jobs.

End BreakComponent.

Module Sites.
Import Graph.

(** A record of the [--sites] input, with the attributes [SiteAdder]
    reads. *)
Record Site := {
  site_chrom : Z;
  site_start : Z;
  site_chrom2 : Z;
  site_end : Z;
  svtype : string;
  svlen : Z
}.

#[global] Instance Site_eq_dec : EqDecision Site.
Proof. solve_decision. Defined.

(** The attributes of [SiteAdder] that [add_any_sites] and
    [add_to_scope] use.  [sites_queue] maps a chromosome to its deque;
    [sites_index_r] is a dict whose keys are sites, kept as the list of
    its assignments, the latest first; [scope] is the [SortedList], in
    the order of its key [start]. *)
Record SiteAdder := {
  sites_queue : gmap Z (list Site);
  sites_index : gmap Z Site;
  sites_index_r : list (Site * Z);
  count : Z;
  scope : list Site;
  current_chrom : Z
}.

(** [SiteAdder(sites)] *)
Definition SiteAdder_init (sites : gmap Z (list Site)) : SiteAdder :=
  {| sites_queue := sites; sites_index := ∅; sites_index_r := []; count := 0;
     scope := []; current_chrom := -1 |}.

(** [SiteAdder.add_to_scope(site)]: [SortedList.add] puts the site behind
    the sites that do not start after it. *)
Definition add_to_scope (self : SiteAdder) (site : Site) : SiteAdder :=
  if site_chrom site =? current_chrom self then
    {| sites_queue := sites_queue self; sites_index := sites_index self;
       sites_index_r := sites_index_r self; count := count self;
       scope := Python.sorted_insert (λ a b, site_start a <? site_start b) site (scope self);
       current_chrom := current_chrom self |}
  else
    {| sites_queue := sites_queue self; sites_index := sites_index self;
       sites_index_r := sites_index_r self; count := count self;
       scope := [site]; current_chrom := site_chrom site |}.

(** The objects a call of [add_any_sites] updates. *)
Definition world : Type := SiteAdder * Py_SimpleGraph * PairedEndScoper * NodeToName.

(** The type and the length a site is put in scope with. *)
Definition site_event (site : Site) : ReadEnum_t * Z :=
  if bool_decide (svtype site = "DEL") then (DELETION, svlen site)
  else if bool_decide (svtype site = "INS") then (INSERTION, svlen site)
  else (BREAKEND, 0).

(** The body of the second loop of [add_any_sites] up to
    [self.add_to_scope(site)], the deque apart. *)
Definition add_site (chrom : Z) (site : Site) (w : world) : option world :=
  let '(self, G, pe_scope, node_to_name) := w in
  let '(read_enum, length) := site_event site in
  let '(node_name, G) := addNode G in
  let self :=
    {| sites_queue := sites_queue self; sites_index := <[node_name := site]> (sites_index self);
       sites_index_r := (site, node_name) :: sites_index_r self; count := count self;
       scope := scope self; current_chrom := current_chrom self |} in
  pe_scope ← add_item pe_scope node_name (site_chrom site) (site_start site)
               (site_chrom2 site) (site_end site) read_enum length;
  let pe_scope := set_scopes pe_scope chrom (loci pe_scope) (chrom_scope pe_scope) in
  let node_to_name := NodeToName_append node_to_name 0 0 0 0 0 0 0 in
  let self :=
    {| sites_queue := sites_queue self; sites_index := sites_index self;
       sites_index_r := sites_index_r self; count := count self + 1;
       scope := scope self; current_chrom := current_chrom self |} in
  Some (add_to_scope self site, G, pe_scope, node_to_name).

(** [while p.start < pos - cluster_dist and len(s) > 0: s.popleft();
    p = s[0]]: the site [p] and the deque [s] after the loop.  [s[0]]
    raises [IndexError] on a deque that [popleft] has emptied. *)
Fixpoint drop_behind (pos cluster_dist : Z) (p : Site) (s : list Site)
  : option (Site * list Site) :=
  if (site_start p <? pos - cluster_dist) && (0 <? length s)%nat then
    match s with
    | [] => Some (p, s)
    | _ :: s =>
        match s with
        | [] => None
        | p :: _ => drop_behind pos cluster_dist p s
        end
    end
  else Some (p, s).

(** [while abs(p.start - pos) < cluster_dist and len(s) > 0: ...]: the
    deque and the objects after the loop. *)
Fixpoint add_in_reach (chrom pos cluster_dist : Z) (p : Site) (s : list Site) (w : world)
  : option (list Site * world) :=
  if (Z.abs (site_start p - pos) <? cluster_dist) && (0 <? length s)%nat then
    match s with
    | [] => Some (s, w)
    | _ :: s =>
        w ← add_site chrom p w;
        match s with
        | [] => Some (s, w)
        | p :: _ => add_in_reach chrom pos cluster_dist p s w
        end
    end
  else Some (s, w).

Definition set_queue (self : SiteAdder) (chrom : Z) (s : list Site) : SiteAdder :=
  {| sites_queue := <[chrom := s]> (sites_queue self); sites_index := sites_index self;
     sites_index_r := sites_index_r self; count := count self;
     scope := scope self; current_chrom := current_chrom self |}.

(** [SiteAdder.add_any_sites(chrom, pos, G, pe_scope, node_to_name,
    cluster_dist)] *)
Definition add_any_sites (self : SiteAdder) (chrom pos : Z) (G : Py_SimpleGraph)
    (pe_scope : PairedEndScoper) (node_to_name : NodeToName) (cluster_dist : Z)
  : option world :=
  match sites_queue self !! chrom with
  | None => Some (self, G, pe_scope, node_to_name)
  | Some s =>
      match s with
      | [] => Some (self, G, pe_scope, node_to_name)
      | p :: _ =>
          if pos + cluster_dist <? site_start p then Some (self, G, pe_scope, node_to_name)
          else
            '(p, s) ← drop_behind pos cluster_dist p s;
            '(s, w) ← add_in_reach chrom pos cluster_dist p s
                        (self, G, pe_scope, node_to_name);
            let '(self, G, pe_scope, node_to_name) := w in
            Some (set_queue self chrom s, G, pe_scope, node_to_name)
      end
  end.

End Sites.

Module SiteSearch.
Import Graph Sites.

(** [self.scope.bisect_left(self.lookup(start))] on the sorted list: the
    number of leading sites that start before [start]. *)
Fixpoint bisect_left (scope : list Site) (start : Z) : nat :=
  match scope with
  | [] => 0
  | q :: scope' => if site_start q <? start then S (bisect_left scope' start) else 0
  end.

(** [self.sites_index_r[p]]: the node of the latest assignment for the
    site, [None] for the [KeyError]. *)
Fixpoint site_node (p : Site) (index_r : list (Site * Z)) : option Z :=
  match index_r with
  | [] => None
  | (q, node) :: index_r' => if decide (q = p) then Some node else site_node p index_r'
  end.

Definition set_scope (self : SiteAdder) (scope' : list Site) : SiteAdder :=
  {| sites_queue := sites_queue self; sites_index := sites_index self;
     sites_index_r := sites_index_r self; count := count self;
     scope := scope'; current_chrom := current_chrom self |}.

(** [SiteAdder.find_nearest_site(chrom, pos)]: the adder, whose scope
    the call trims, and the node returned. *)
Definition find_nearest_site (self : SiteAdder) (chrom pos : Z) : option (SiteAdder * Z) :=
  let cluster_dist := 50 in
  let scope_dist := 500 in
  if (length (scope self) =? 0)%nat then Some (self, -1)
  else
    let left_index := Z.of_nat (bisect_left (scope self) (pos - scope_dist)) - 1 in
    let self :=
      if 0 <? left_index then set_scope self (drop (Z.to_nat left_index) (scope self))
      else self in
    let left_index := bisect_left (scope self) pos in
    p ← (if (left_index =? length (scope self))%nat then scope self !! (left_index - 1)%nat
         else if negb (left_index =? length (scope self) - 1)%nat then
           left_p ← scope self !! left_index;
           right_p ← scope self !! (left_index + 1)%nat;
           let left_dis := Z.abs (site_start left_p - pos) in
           let right_dis := Z.abs (site_start right_p - pos) in
           Some (if left_dis <=? right_dis then left_p else right_p)
         else scope self !! left_index);
    if Z.abs (site_start p - pos) <=? cluster_dist then
      node ← site_node p (sites_index_r self);
      Some (self, node)
    else Some (self, -1).

End SiteSearch.

Module SiteExamples.
Import Graph Sites.

(** A deletion of 300 bases that starts at [start] of chromosome
    [chrom]. *)
Definition deletion_at (chrom start : Z) : Site :=
  {| site_chrom := chrom; site_start := start; site_chrom2 := chrom;
     site_end := start + 300; svtype := "DEL"; svlen := 300 |}.

(** A [SiteAdder] with one site queued for chromosome 1, one with a
    site queued for chromosome 0 and one with three sites queued for
    chromosome 1. *)
Definition one_site : SiteAdder := SiteAdder_init {[1 := [deletion_at 1 100]]}.

Definition near_site : SiteAdder := SiteAdder_init {[0 := [deletion_at 0 600]]}.

Definition three_sites : SiteAdder :=
  SiteAdder_init {[1 := [deletion_at 1 100; deletion_at 1 4900; deletion_at 1 9000]]}.

(** An adder with two sites of chromosome 1 in scope, nodes 0 and 1. *)
Definition two_in_scope : SiteAdder :=
  {| sites_queue := ∅;
     sites_index := {[0 := deletion_at 1 990; 1 := deletion_at 1 1100]};
     sites_index_r := [(deletion_at 1 1100, 1); (deletion_at 1 990, 0)];
     count := 2; scope := [deletion_at 1 990; deletion_at 1 1100]; current_chrom := 1 |}.

End SiteExamples.

Module MoreExamples.
Import CFloat Graph Sites.

(** A hash for the examples: the code of the first character. *)
Definition first_code (s : string) : Z :=
  match s with
  | EmptyString => 0
  | String a _ => Z.of_nat (Ascii.nat_of_ascii a)
  end.

(** The intervals of the docstring of [merge_intervals], the chromosomes
    numbered. *)
Definition docstring_intervals : list (@Intervals.interval Z) :=
  [(1, 1, 4); (1, 2, 5); (2, 3, 5)].

(** Three pairs of nodes, 0-1, 2-3 and 4-5, each joined by an edge of
    weight 2; edges of weight 1 link node 1 to the nodes 2 and 4. *)
Definition three_pairs : Py_SimpleGraph :=
  let G := (addNode empty_graph).2 in
  let G := (addNode G).2 in
  let G := (addNode G).2 in
  let G := (addNode G).2 in
  let G := (addNode G).2 in
  let G := (addNode G).2 in
  addEdge (addEdge (addEdge (addEdge (addEdge G 0 1 2) 2 3 2) 4 5 2) 1 2 1) 1 4 1.

(** A scoper on chromosome 0 with nothing in scope. *)
Definition on_chrom_0 : PairedEndScoper :=
  set_scopes ScopeExamples.new_scoper 0 [] (chrom_scope ScopeExamples.new_scoper).

(** An engine before its first record, with one site queued near
    position 600 of chromosome 0. *)
Definition engine_with_site : Engine unit SiteAdder unit :=
  {| G := empty_graph; pe_scope := ScopeExamples.new_scoper; template_edges := ∅;
     node_to_name := NodeToName_empty; genome_scanner := Examples.new_scanner 4;
     clip_scope := (); site_adder := Some SiteExamples.near_site; bad_clip_counter := () |}.

(** [add_to_graph] and [process_alignment] with the functions they take
    from elsewhere fixed: every clip is good, no region of interest, no
    SA list, no site near an event. *)
Definition add_event :=
  Graph.add_to_graph MapSetUtils.is_reciprocal_overlapping ScopeExamples.no_span_match
    (λ name, Z.of_nat (String.length name)) unit SiteAdder unit
    (λ c _ _ _ _, (c, [])) (λ s _ _, (s, -1)).

Definition run_alignment :=
  Graph.process_alignment MapSetUtils.is_reciprocal_overlapping ScopeExamples.no_span_match
    (λ name, Z.of_nat (String.length name)) (λ _ _, false) (λ _ _ _, false) (λ _ _, true)
    (λ _ _ _ _, ([], 0)) unit SiteAdder unit
    (λ c _ _ _ _, (c, [])) add_any_sites (λ s _ _, (s, -1)) (λ b _ _, b).

End MoreExamples.

(** * Properties of coverage.pyx *)

Module InsertFacts.
Import Coverage.

Lemma median_is_Some (l : list Q) : l ≠ [] → is_Some (median l).
Proof.
  intros Hl. unfold median.
  assert (Hn : (0 < length l)%nat) by (destruct l; [done|cbn; lia]).
  destruct (Nat.odd (length l)) eqn:Hodd.
  - apply lookup_lt_is_Some_2. apply Nat.div_lt; lia.
  - destruct (length l) as [|n] eqn:Hlen; [lia|].
    assert (Hev : Nat.even (S n) = true) by (rewrite <- Nat.negb_odd, Hodd; done).
    apply Nat.even_spec in Hev as [k Hk].
    assert (Hdiv : (S n / 2 = k)%nat).
    { rewrite Hk. rewrite Nat.mul_comm. apply Nat.div_mul. lia. }
    rewrite Hdiv.
    destruct (lookup_lt_is_Some_2 l (k - 1)%nat) as [a Ha]; [lia|].
    destruct (lookup_lt_is_Some_2 l (S (k - 1))%nat) as [b Hb]; [lia|].
    rewrite Ha, Hb. cbn. eauto.
Qed.

Lemma median_between (l : list Q) (m : Q) :
  median l = Some m → ∃ a b, a ∈ l ∧ b ∈ l ∧ (2 * m == a + b)%Q.
Proof.
  unfold median. destruct (Nat.odd (length l)).
  - intros H. exists m, m. split_and!; [by eapply list_elem_of_lookup_2..|]. ring.
  - destruct (length l); [done|]. intros H.
    apply bind_Some in H as (a & Ha & H). apply bind_Some in H as (b & Hb & [= <-]).
    exists a, b. split_and!; [by eapply list_elem_of_lookup_2..|]. field.
Qed.

Lemma sort_elem_of (L : list Z) (x : Z) : x ∈ sort L ↔ x ∈ L.
Proof. unfold sort. by rewrite merge_sort_Permutation. Qed.

Lemma sort_nil_inv (L : list Z) : sort L = [] → L = [].
Proof.
  intros H. apply Permutation_nil_r. rewrite <- H. unfold sort.
  by rewrite merge_sort_Permutation.
Qed.

(** C4, as amended: when some insert size lies above the median,
    [get_insert_params] returns; the values below [med + 8 * upper_mad]
    stay, the first component returned is their median and the second
    is [** 0.5] of their mean squared deviation from that median. *)
Theorem get_insert_params_median (pow_half : Q → Q) (L : list Z) (med : Q) :
  median (inject_Z <$> sort L) = Some med →
  (∃ x, x ∈ L ∧ (med < inject_Z x)%Q) →
  ∃ umad kept m,
    unscaled_upper_mad L = Some (sort L, med, umad)
    ∧ (0 < umad)%Q
    ∧ trim_outliers L 8 = Some kept
    ∧ kept = filter (λ v, inject_Z v < med + inject_Z 8 * umad)%Q (sort L)
    ∧ kept ≠ []
    ∧ np_median kept = Some m
    ∧ get_insert_params pow_half L 8
      = Some (m, pow_half (sq_sum m kept / inject_Z (Z.of_nat (length kept)))%Q).
Proof.
  intros Hmed (x & Hx & Hlt).
  set (above := filter (λ y, med < y)%Q (inject_Z <$> sort L)).
  assert (Habove : inject_Z x ∈ above).
  { apply list_elem_of_filter. split; [done|].
    apply list_elem_of_fmap. exists x. by rewrite sort_elem_of. }
  destruct (median_is_Some ((λ y, y - med)%Q <$> above)) as [umad Humad].
  { intros Hnil. apply fmap_nil_inv in Hnil. rewrite Hnil in Habove.
    by apply elem_of_nil in Habove. }
  assert (Hpos : (0 < umad)%Q).
  { destruct (median_between _ _ Humad) as (a & b & Ha & Hb & Hab).
    apply list_elem_of_fmap in Ha as (a' & -> & Ha'), Hb as (b' & -> & Hb').
    apply list_elem_of_filter in Ha' as [Ha' _], Hb' as [Hb' _]. lra. }
  assert (Hmad : unscaled_upper_mad L = Some (sort L, med, umad)).
  { unfold unscaled_upper_mad. rewrite Hmed. cbn [mbind option_bind].
    fold above. by rewrite Humad. }
  set (kept := filter (λ v, inject_Z v < med + inject_Z 8 * umad)%Q (sort L)).
  assert (Hkept : kept ≠ []).
  { destruct (median_between _ _ Hmed) as (a & b & Ha & Hb & Hab).
    apply list_elem_of_fmap in Ha as (a' & -> & Ha'), Hb as (b' & -> & Hb').
    assert (Hsmall : (inject_Z a' < med + inject_Z 8 * umad
                      ∨ inject_Z b' < med + inject_Z 8 * umad)%Q).
    { change (inject_Z 8) with 8%Q.
      destruct (Qlt_le_dec (inject_Z a') (inject_Z b')); [left|right]; lra. }
    intros Hnil.
    destruct Hsmall as [Hs|Hs];
      [assert (Hin : a' ∈ kept) by (by apply list_elem_of_filter)
      |assert (Hin : b' ∈ kept) by (by apply list_elem_of_filter)];
      rewrite Hnil in Hin; by apply elem_of_nil in Hin. }
  destruct (median_is_Some (inject_Z <$> sort kept)) as [m Hm].
  { intros Hnil. apply fmap_nil_inv, sort_nil_inv in Hnil. done. }
  exists umad, kept, m.
  assert (Htrim : trim_outliers L 8 = Some kept).
  { unfold trim_outliers. by rewrite Hmad. }
  split_and!; try done.
  unfold get_insert_params. rewrite Htrim. cbn [mbind option_bind].
  unfold mean_std, np_median. rewrite Hm. cbn [mbind option_bind].
  by destruct kept.
Qed.

Lemma get_insert_params_median_witness :
  ∃ umad kept m,
    unscaled_upper_mad Examples.inserts = Some (sort Examples.inserts, 2%Q, umad)
    ∧ (0 < umad)%Q
    ∧ trim_outliers Examples.inserts 8 = Some kept
    ∧ kept = filter (λ v, inject_Z v < 2 + inject_Z 8 * umad)%Q (sort Examples.inserts)
    ∧ kept ≠ []
    ∧ np_median kept = Some m
    ∧ get_insert_params (λ var, var) Examples.inserts 8
      = Some (m, (sq_sum m kept / inject_Z (Z.of_nat (length kept)))%Q).
Proof.
  apply (get_insert_params_median (λ var, var) Examples.inserts 2%Q).
  - vm_compute. reflexivity.
  - exists 6. split; [apply (bool_decide_unpack _); vm_compute; exact I|vm_compute; reflexivity].
Defined.

End InsertFacts.

Module CoverageArray.
Import CFloat Coverage.

Lemma buf_index_in (n : nat) (i : Z) :
  0 ≤ i < Z.of_nat n → buf_index n i = Some (Z.to_nat i).
Proof.
  intros Hi. unfold buf_index.
  destruct (Z.ltb_spec i 0); [lia|].
  destruct (Z.leb_spec 0 i); [|lia]. destruct (Z.ltb_spec i (Z.of_nat n)); [done|lia].
Qed.

Lemma buf_add_in (x : spec_float) (i : Z) (d : list spec_float) :
  0 ≤ i < Z.of_nat (length d) →
  buf_add x i d = Some (alter (λ y, fadd64 y x) (Z.to_nat i) d).
Proof. intros Hi. unfold buf_add. by rewrite buf_index_in. Qed.

Lemma fill_between_in (range : list Z) :
  ∀ d : list spec_float,
    Forall (λ i, 0 ≤ i < Z.of_nat (length d)) range → NoDup range →
    ∃ d', fill_between range d = Some d' ∧ length d' = length d
      ∧ ∀ i : nat, d' !! i =
          (λ x, if bool_decide (Z.of_nat i ∈ range) then fadd64 x (double_of_Z 1) else x)
            <$> d !! i.
Proof.
  induction range as [|j range IH]; intros d Hr Hnd; cbn [fill_between].
  - exists d. split_and!; [done..|]. intros i. rewrite bool_decide_eq_false_2.
    + by destruct (d !! i).
    + apply not_elem_of_nil.
  - apply Forall_cons in Hr as [Hj Hr]. apply NoDup_cons in Hnd as [Hjr Hnd].
    rewrite buf_add_in by done. cbn [mbind option_bind].
    destruct (IH (alter (λ y, fadd64 y (double_of_Z 1)) (Z.to_nat j) d)) as (d' & Hfill & Hlen & Hd').
    { by rewrite length_alter. } { done. }
    rewrite Hfill.
    exists d'. split_and!; [done|by rewrite Hlen, length_alter|].
    intros i. rewrite Hd', list_lookup_alter.
    destruct (decide (Z.to_nat j = i)) as [<-|Hne].
    + rewrite Z2Nat.id by lia. rewrite (bool_decide_eq_false_2 _ Hjr).
      rewrite bool_decide_eq_true_2 by left. by destruct (d !! Z.to_nat j).
    + destruct (d !! i) as [x|]; [cbn|done]. f_equal.
      apply (f_equal (λ b : bool, if b then _ else _)).
      apply bool_decide_ext. rewrite elem_of_cons. split; [tauto|].
      intros [Hij|?]; [|done]. subst j. by rewrite Nat2Z.id in Hne.
Qed.

(** The start bin is the integer quotient for the positions of a short
    reference; it is not for every position: the single-precision
    quotient of 26214499 by 100 is 262145.0. *)
Lemma bin_start_small :
  forallb (λ start, bin_start_of start =? start / 100) (seqZ 0 1000) = true.
Proof. vm_compute. reflexivity. Qed.

Lemma bin_start_large : bin_start_of 26214499 = 262145 ∧ 26214499 / 100 = 262144.
Proof. split; vm_compute; reflexivity. Qed.

(** A float that is not a finite value below zero; the quotient of a
    position that is not negative is one, so its bin index is not
    negative. *)
Definition not_negative (x : spec_float) : Prop :=
  match x with
  | S754_finite true _ _ => False
  | _ => True
  end.

Lemma binary_round_aux_sign (prec emax : Z) (m e : Z) (l : location) :
  not_negative (binary_round_aux prec emax false m e l).
Proof.
  unfold binary_round_aux.
  destruct (shr_fexp prec emax m e l) as [mrs' e'].
  destruct (shr_fexp prec emax _ e' loc_Exact) as [mrs'' e''].
  destruct (shr_m mrs''); [done| |done]. by destruct (_ <=? _).
Qed.

Lemma binary_normalize_sign (prec emax : Z) (m e : Z) :
  0 ≤ m → not_negative (binary_normalize prec emax m e false).
Proof.
  intros Hm. destruct m as [|p|p]; [done| |lia].
  cbn [binary_normalize]. unfold binary_round.
  destruct (shl_align _ _ _) as [mz ez]. apply binary_round_aux_sign.
Qed.

Lemma frac_index_sign (p : Z) : 0 ≤ p → not_negative (frac_index p).
Proof.
  intros Hp. unfold frac_index, true_div, fdiv64.
  pose proof (binary_normalize_sign 53 1024 p 0 Hp) as Hn. fold (double_of_Z p) in Hn.
  assert (Hq : not_negative (SFdiv 53 1024 (double_of_Z p) (double_of_Z 100))).
  { change (double_of_Z 100) with (S754_finite false 7036874417766400 (-46)).
    destruct (double_of_Z p) as [[]|[]| |[] m e]; try exact I; try done.
    cbn [SFdiv xorb].
      destruct (SFdiv_core_binary _ _ _ _ _ _) as [[mz ez] lz].
      apply binary_round_aux_sign. }
  destruct (SFdiv 53 1024 _ _) as [s|s| |s m e]; try done.
  destruct s; [done|]. cbn [float_of_double cond_Zopp].
  by apply binary_normalize_sign.
Qed.

Lemma int_of_float_sign (x : spec_float) : not_negative x → 0 ≤ int_of_float x.
Proof.
  destruct x as [s|s| |s m e]; try done. destruct s; [done|]. intros _.
  cbn [int_of_float cond_Zopp]. destruct e as [|q|q].
  - rewrite Z.shiftl_0_r. lia.
  - apply Z.shiftl_nonneg. lia.
  - apply Z.shiftr_nonneg. lia.
Qed.

Lemma bin_end_of_nonneg (end_ : Z) (len : nat) :
  0 ≤ end_ → (0 < len)%nat → 0 ≤ bin_end_of end_ len.
Proof.
  intros He Hlen. unfold bin_end_of.
  pose proof (int_of_float_sign _ (frac_index_sign end_ He)).
  destruct (_ <? _); lia.
Qed.



End CoverageArray.

Module CoverageFacts.
Import CFloat Coverage.

Lemma unusable_spec (a : AlignedSegment) :
  unusable a = true ↔ Z.land (flag a) 1540 ≠ 0 ∨ cigartuples a = None ∨ seq a = None.
Proof.
  unfold unusable. rewrite !orb_true_iff, !negb_true_iff, !bool_decide_eq_false.
  rewrite Z.eqb_neq, <- !eq_None_not_Some. tauto.
Qed.

(** What a call leaves in the current bin and in the staged batches was
    there before, or is the record of the call, which is then usable. *)
Lemma add_to_bin_buffer_held (s s' : GenomeScanner) (a : AlignedSegment) (tell : Z)
    (x : AlignedSegment * Z) :
  _add_to_bin_buffer s a tell = Some s' →
  held s' x → held s x ∨ (x = (a, tell) ∧ unusable a = false).
Proof.
  unfold _add_to_bin_buffer, held.
  destruct (unusable a) eqn:Hu; [intros [= <-]; tauto|].
  intros H. apply bind_Some in H as (s1 & H1 & H).
  assert (Hs1 : current_bin s1 = current_bin s ∧ staged_reads s1 = staged_reads s).
  { destruct (depth_d s !! rname a); [by injection H1 as <-|].
    destruct (_ <? 0); [done|]. by injection H1 as <-. }
  destruct Hs1 as [Hb Hst].
  set (s2 := if negb (current_chrom s1 =? rname a) then _ else _) in H.
  assert (Hs2 : current_bin s2 = current_bin s ∧ staged_reads s2 = staged_reads s).
  { subst s2. destruct (negb _); [done|]. by destruct (current_cov_array s1). }
  clearbody s2. destruct Hs2 as [Hb2 Hst2].
  apply bind_Some in H as (key & _ & H).
  apply bind_Some in H as (arr & _ & H).
  apply bind_Some in H as ([cov arr'] & _ & H).
  cbn [set_depth current_bin staged_reads overlap_regions current_chrom current_pos
       max_cov reads_dropped] in H.
  rewrite Hb2, Hst2 in H.
  repeat case_match; simplify_eq; cbn [set_bin current_bin staged_reads];
    rewrite ?elem_of_app, ?elem_of_nil, ?list_elem_of_singleton;
    intros [Hx|(batch & Hbatch & Hx)];
    rewrite ?elem_of_app, ?elem_of_nil, ?list_elem_of_singleton in *;
    try tauto; try (left; right; eauto; fail).
  all: destruct Hbatch as [Hbatch| ->]; [left; right; eauto| tauto].
Qed.


(** A call for a usable record has one of three outcomes. *)
Lemma add_to_bin_buffer_outcome (s s' : GenomeScanner) (a : AlignedSegment) (tell : Z) :
  unusable a = false → _add_to_bin_buffer s a tell = Some s' →
  (current_bin s' = [] ∧ staged_reads s' = staged_reads s
   ∧ reads_dropped s' = reads_dropped s + 1)
  ∨ (current_bin s' = current_bin s ++ [(a, tell)] ∧ staged_reads s' = staged_reads s
     ∧ reads_dropped s' = reads_dropped s)
  ∨ (current_bin s' = [(a, tell)]
     ∧ (staged_reads s' = staged_reads s ∨ staged_reads s' = staged_reads s ++ [current_bin s])
     ∧ reads_dropped s' = reads_dropped s).
Proof.
  unfold _add_to_bin_buffer. intros -> H.
  apply bind_Some in H as (s1 & H1 & H).
  assert (Hs1 : current_bin s1 = current_bin s ∧ staged_reads s1 = staged_reads s
                ∧ reads_dropped s1 = reads_dropped s).
  { destruct (depth_d s !! rname a); [by injection H1 as <-|].
    destruct (_ <? 0); [done|]. by injection H1 as <-. }
  destruct Hs1 as (Hb & Hst & Hrd).
  set (s2 := if negb (current_chrom s1 =? rname a) then _ else _) in H.
  assert (Hs2 : current_bin s2 = current_bin s ∧ staged_reads s2 = staged_reads s
                ∧ reads_dropped s2 = reads_dropped s).
  { subst s2. destruct (negb _); [done|]. by destruct (current_cov_array s1). }
  clearbody s2. destruct Hs2 as (Hb2 & Hst2 & Hrd2).
  apply bind_Some in H as (key & _ & H).
  apply bind_Some in H as (arr & _ & H).
  apply bind_Some in H as ([cov arr'] & _ & H).
  cbn [set_depth current_bin staged_reads overlap_regions current_chrom current_pos
       max_cov reads_dropped] in H.
  rewrite Hb2, Hst2, Hrd2 in H.
  repeat case_match; simplify_eq; cbn [set_bin current_bin staged_reads reads_dropped];
    cbn [length]; try tauto.
  all: try (left; split_and!; [done..|lia]).
  all: left; split_and!; [|done..].
  all: match goal with H : (0 <? Z.of_nat (length ?l)) = false |- ?l = [] =>
         destruct l; [done|cbn in H; apply Z.ltb_ge in H; lia] end.
Qed.
Lemma get_reads_origin (input : list (AlignedSegment * Z)) :
  ∀ (s : GenomeScanner) out batch x,
    _get_reads s input = Some out → batch ∈ out → x ∈ batch →
    held s x ∨ (x ∈ input ∧ unusable x.1 = false).
Proof.
  induction input as [|[aln tell] input IH]; intros s out batch x; cbn [_get_reads].
  - intros [= <-] Hb Hx. left. apply elem_of_app in Hb as [Hb|Hb].
    + right. eauto.
    + destruct (0 <? _)%nat; [|by apply elem_of_nil in Hb].
      apply list_elem_of_singleton in Hb as ->. by left.
  - intros H Hb Hx.
    apply bind_Some in H as (s' & Hs' & H).
    apply bind_Some in H as (out' & Hout & [= <-]).
    apply elem_of_app in Hb as [Hb|Hb]; [left; right; eauto|].
    destruct (IH _ _ _ _ Hout Hb Hx) as [Hheld|[Hin Hu]].
    + destruct (add_to_bin_buffer_held _ _ _ _ _ Hs' Hheld) as [[Hc|(b & Hb' & _)]|[-> Hu]].
      * left. by left.
      * by apply elem_of_nil in Hb'.
      * right. split; [left|done].
    + right. split; [by right|done].
Qed.

(** C8: a record with a flag bit of 0x604 (1540) set, or without CIGAR or
    sequence, leaves [_add_to_bin_buffer] with the scanner as it was, so
    it is neither in the current bin nor staged; and a batch the scan
    yields holds such a record only if it was held before the scan. *)
Theorem unusable_record_never_staged (s : GenomeScanner) (a : AlignedSegment) (tell : Z) :
  Z.land (flag a) 1540 ≠ 0 ∨ cigartuples a = None ∨ seq a = None →
  _add_to_bin_buffer s a tell = Some s
  ∧ ∀ (s0 : GenomeScanner) input out batch t,
      _get_reads s0 input = Some out → batch ∈ out → (a, t) ∈ batch → held s0 (a, t).
Proof.
  intros Hbad. apply unusable_spec in Hbad. split.
  - unfold _add_to_bin_buffer. by rewrite Hbad.
  - intros s0 input out batch t Hout Hb Hx.
    destruct (get_reads_origin _ _ _ _ _ Hout Hb Hx) as [?|[_ Hu]]; [done|].
    cbn in Hu. congruence.
Qed.

Lemma unusable_record_never_staged_witness :
  _add_to_bin_buffer (Examples.new_scanner 4) Examples.duplicate_read 7
  = Some (Examples.new_scanner 4)
  ∧ ∀ (s0 : GenomeScanner) input out batch t,
      _get_reads s0 input = Some out → batch ∈ out →
      (Examples.duplicate_read, t) ∈ batch → held s0 (Examples.duplicate_read, t).
Proof.
  apply (unusable_record_never_staged (Examples.new_scanner 4) Examples.duplicate_read 7).
  left. vm_compute. discriminate.
Defined.

End CoverageFacts.

Module CoverageCases.
Import CFloat Coverage Examples.

(** C3: with [max_cov = 4] and reads at 500, 501, ..., the fifth read
    raises the depth of its bin to 4.9.  The four reads of the current
    bin and the fifth are discarded, and [reads_dropped] goes from 0 to
    1, not to 5: the bin is emptied before its length is added. *)
Theorem over_coverage_counts_one_read :
  ∃ s4 s5,
    feed (new_scanner 4) 500 4 = Some s4
    ∧ length (current_bin s4) = 4%nat ∧ reads_dropped s4 = 0
    ∧ _add_to_bin_buffer s4 (read_at "r" 0 504 654) 504 = Some s5
    ∧ current_bin s5 = [] ∧ staged_reads s5 = [] ∧ reads_dropped s5 = 1.
Proof.
  eexists _, _. split; [vm_compute; reflexivity|].
  split; [reflexivity|]. split; [reflexivity|].
  split; [vm_compute; reflexivity|]. done.
Qed.


(** C4 as stated fails: nothing is trimmed from the insert sizes 1, 2, 6;
    their arithmetic mean is 3 and their variance 14/3, but the first
    component returned is 2 and (with the identity for [** 0.5]) the
    second 17/3. *)
Lemma insert_params_not_mean :
  ∃ m s,
    trim_outliers inserts 8 = Some inserts
    ∧ get_insert_params (λ var, var) inserts 8 = Some (m, s)
    ∧ (m == 2)%Q ∧ (Stated.arithmetic_mean inserts == 3)%Q
    ∧ (s == 17 # 3)%Q ∧ (Stated.variance inserts == 14 # 3)%Q
    ∧ ¬ (m == Stated.arithmetic_mean inserts)%Q
    ∧ ¬ (s == Stated.variance inserts)%Q.
Proof.
  eexists _, _. split; [vm_compute; reflexivity|]. split; [vm_compute; reflexivity|].
  split_and!; vm_compute; congruence.
Qed.

End CoverageCases.

(** * Properties of graph.pyx *)

Module SupportFacts.
Import Graph.

Section Support.
Context {Site : Type}.

Lemma proc_component_node_support node_to_name read_buffer procs
    (sites_index : option (gmap Z Site)) (st : scan Site) (v : Z) :
  is_Some (NodeToName_getitem node_to_name v) →
  ∃ st', proc_component_node node_to_name read_buffer procs sites_index (Some st) v
         = Some st'
    ∧ support_estimate st'
      = support_estimate st + contribution node_to_name sites_index v.
Proof.
  intros [key Hkey]. unfold proc_component_node, contribution.
  cbn [mbind option_bind]. rewrite Hkey.
  destruct (sites_index ≫= (λ m, m !! v)) as [site|]; cbn [mbind option_bind].
  - eexists. split; [done|]. cbn. lia.
  - eexists. split; [done|]. cbn [support_estimate].
    by destruct (key_cigar_index key =? -1).
Qed.

Lemma proc_component_fold node_to_name read_buffer procs
    (sites_index : option (gmap Z Site)) (component : list Z) :
  ∀ st : scan Site,
    Forall (λ v, is_Some (NodeToName_getitem node_to_name v)) component →
    ∃ st', foldl (proc_component_node node_to_name read_buffer procs sites_index)
             (Some st) component = Some st'
      ∧ support_estimate st'
        = support_estimate st
          + foldr (λ v acc, contribution node_to_name sites_index v + acc) 0 component.
Proof.
  induction component as [|v component IH]; intros st Hrows.
  - exists st. split; [done|]. cbn. lia.
  - apply Forall_cons in Hrows as [Hrow Hrows]. cbn [foldl foldr].
    destruct (proc_component_node_support node_to_name read_buffer procs sites_index st v Hrow)
      as (st1 & -> & Hst1).
    destruct (IH st1 Hrows) as (st' & -> & Hst'). exists st'. split; [done|]. lia.
Qed.


End Support.



End SupportFacts.

Module GraphFacts.
Import Graph.

Lemma adj_of_lookup (G : Py_SimpleGraph) (u : Z) :
  has_node G u = true → adjList G !! Z.to_nat u = Some (adj_of G u).
Proof.
  unfold has_node, adj_of. intros Hu. apply andb_true_iff in Hu as [H0 Hlt].
  apply Z.leb_le in H0. apply Z.ltb_lt in Hlt.
  destruct (Z.ltb_spec u 0); [lia|].
  destruct (lookup_lt_is_Some_2 (adjList G) (Z.to_nat u)) as [l Hl]; [lia|].
  by rewrite Hl.
Qed.

Lemma adj_of_no_node (G : Py_SimpleGraph) (u : Z) : has_node G u = false → adj_of G u = [].
Proof.
  unfold has_node, adj_of. intros Hu. destruct (Z.ltb_spec u 0); [done|].
  rewrite lookup_ge_None_2; [done|].
  apply andb_false_iff in Hu as [Hu|Hu]; [apply Z.leb_gt in Hu|apply Z.ltb_ge in Hu]; lia.
Qed.

(** The adjacency lists after [addEdge] has added a pair. *)
Lemma adj_of_addEdge (G : Py_SimpleGraph) (u v w x : Z) :
  hasEdge G u v = false → has_node G u = true → has_node G v = true →
  adj_of (addEdge G u v w) x
  = adj_of G x ++ (if bool_decide (x = u) then [(v, w)] else [])
      ++ (if bool_decide (x = v ∧ u ≠ v) then [(u, w)] else []).
Proof.
  intros Hedge Hu Hv. unfold addEdge. rewrite Hedge, Hu, Hv. cbn [orb andb negb].
  pose proof (adj_of_lookup G u Hu) as Hlu. pose proof (adj_of_lookup G v Hv) as Hlv.
  assert (Hu0 : 0 ≤ u) by (unfold has_node in Hu; apply andb_true_iff in Hu as [?%Z.leb_le _]; done).
  assert (Hv0 : 0 ≤ v) by (unfold has_node in Hv; apply andb_true_iff in Hv as [?%Z.leb_le _]; done).
  unfold adj_of at 1. cbn [adjList].
  destruct (Z.ltb_spec x 0) as [Hx|Hx].
  { unfold adj_of. destruct (Z.ltb_spec x 0); [|lia].
    rewrite !bool_decide_eq_false_2 by lia. done. }
  assert (Hxx : adj_of G x = default [] (adjList G !! Z.to_nat x)).
  { unfold adj_of. destruct (Z.ltb_spec x 0); [lia|done]. }
  destruct (Z.eqb_spec u v) as [->|Huv].
  - rewrite list_lookup_alter.
    destruct (decide (Z.to_nat v = Z.to_nat x)) as [Heq|Hne].
    + assert (x = v) as -> by lia. rewrite Hlv. cbn.
      rewrite bool_decide_eq_true_2 by done. rewrite bool_decide_eq_false_2 by tauto.
      by rewrite app_nil_r.
    + rewrite !bool_decide_eq_false_2 by (intros ?; lia). by rewrite Hxx, !app_nil_r.
  - rewrite !list_lookup_alter.
    destruct (decide (Z.to_nat v = Z.to_nat x)) as [Heq|Hne].
    + assert (x = v) as -> by lia.
      destruct (decide (Z.to_nat u = Z.to_nat v)); [lia|].
      rewrite Hlv. cbn. rewrite bool_decide_eq_false_2 by congruence.
      rewrite bool_decide_eq_true_2 by done. done.
    + destruct (decide (Z.to_nat u = Z.to_nat x)) as [Heq'|Hne'].
      * assert (x = u) as -> by lia. rewrite Hlu. cbn.
        rewrite bool_decide_eq_true_2 by done. rewrite bool_decide_eq_false_2 by tauto.
        by rewrite app_nil_r.
      * rewrite !bool_decide_eq_false_2 by (intros ?; lia). by rewrite Hxx, !app_nil_r.
Qed.

Lemma addEdge_unchanged (G : Py_SimpleGraph) (u v w : Z) :
  hasEdge G u v || negb (has_node G u && has_node G v) = true → addEdge G u v w = G.
Proof. intros H. unfold addEdge. by rewrite H. Qed.

(** An edge to another node adds no loop. *)
Lemma addEdge_no_loop (G : Py_SimpleGraph) (u v w : Z) :
  v ≠ u → hasEdge (addEdge G u v w) u u = hasEdge G u u.
Proof.
  intros Hne.
  destruct (hasEdge G u v || negb (has_node G u && has_node G v)) eqn:Hskip.
  { by rewrite addEdge_unchanged. }
  apply orb_false_iff in Hskip as [Hedge Hnodes].
  apply negb_false_iff, andb_true_iff in Hnodes as [Hu Hv].
  unfold hasEdge, neighbors. rewrite adj_of_addEdge by done.
  rewrite (bool_decide_eq_true_2 (u = u)) by done.
  rewrite (bool_decide_eq_false_2 (u = v ∧ u ≠ v)) by (intros [? ?]; congruence).
  apply bool_decide_ext. rewrite app_nil_r, fmap_app, elem_of_app. cbn.
  rewrite list_elem_of_singleton. intuition congruence.
Qed.

Lemma add_local_edges_no_loop (other_nodes : list Z) :
  ∀ (G : Py_SimpleGraph) (node_name : Z),
    node_name ∉ other_nodes →
    hasEdge (add_local_edges G node_name other_nodes) node_name node_name
    = hasEdge G node_name node_name.
Proof.
  unfold add_local_edges.
  induction other_nodes as [|v other_nodes IH]; intros G node_name Hnot; [done|].
  apply not_elem_of_cons in Hnot as [Hne Hnot]. cbn [foldl].
  rewrite IH by done. destruct (hasEdge G node_name v); [done|].
  apply addEdge_no_loop. congruence.
Qed.

End GraphFacts.

Module GraphBuilt.
Import Graph GraphFacts.

(** [wf_graphb] in words. *)
Lemma wf_graphb_iff (G : Py_SimpleGraph) :
  wf_graphb G = true
  ↔ ∀ u, NoDup (neighbors G u) ∧ ∀ v w, (v, w) ∈ adj_of G u → (u, w) ∈ adj_of G v.
Proof.
  unfold wf_graphb. rewrite forallb_forall. split.
  - intros Hwf u. destruct (has_node G u) eqn:Hu.
    + assert (Hin : In u (seqZ 0 (Z.of_nat (length (adjList G))))).
      { apply list_elem_of_In, elem_of_seqZ. unfold has_node in Hu.
        apply andb_true_iff in Hu as [?%Z.leb_le ?%Z.ltb_lt]. lia. }
      apply Hwf, andb_true_iff in Hin as [Hnd Hsym].
      apply bool_decide_eq_true in Hnd. split; [done|].
      intros v w Hvw. rewrite forallb_forall in Hsym.
      apply list_elem_of_In, Hsym in Hvw. by apply bool_decide_eq_true in Hvw.
    + unfold neighbors. rewrite (adj_of_no_node _ _ Hu). split; [constructor|].
      intros v w Hvw. by apply elem_of_nil in Hvw.
  - intros Hwf u _. destruct (Hwf u) as [Hnd Hsym]. apply andb_true_iff. split.
    + by apply bool_decide_eq_true.
    + apply forallb_forall. intros [v w] Hvw%list_elem_of_In.
      apply bool_decide_eq_true. by apply Hsym.
Qed.

Lemma adj_of_addNode (G : Py_SimpleGraph) (u : Z) : adj_of (addNode G).2 u = adj_of G u.
Proof.
  unfold adj_of, addNode. cbn. destruct (Z.ltb_spec u 0); [done|].
  destruct (decide (Z.to_nat u < length (adjList G))%nat) as [Hlt|Hge].
  - by rewrite lookup_app_l.
  - rewrite (lookup_ge_None_2 (adjList G)) by lia.
    destruct (decide (Z.to_nat u = length (adjList G))) as [Heq|Hne].
    + rewrite list_lookup_middle by done. done.
    + rewrite lookup_ge_None_2; [done|]. rewrite length_app. cbn. lia.
Qed.

Lemma wf_graphb_addNode (G : Py_SimpleGraph) :
  wf_graphb G = true → wf_graphb (addNode G).2 = true.
Proof.
  rewrite !wf_graphb_iff. intros Hwf u. unfold neighbors.
  rewrite adj_of_addNode. destruct (Hwf u) as [Hnd Hsym]. split; [done|].
  intros v w. rewrite adj_of_addNode. apply Hsym.
Qed.

Lemma wf_graphb_addEdge (G : Py_SimpleGraph) (u v w : Z) :
  wf_graphb G = true → wf_graphb (addEdge G u v w) = true.
Proof.
  intros Hwf.
  destruct (hasEdge G u v || negb (has_node G u && has_node G v)) eqn:Hskip.
  { by rewrite addEdge_unchanged. }
  apply orb_false_iff in Hskip as [Hedge Hnodes].
  apply negb_false_iff, andb_true_iff in Hnodes as [Hu Hv].
  pose proof Hwf as Hwf'. rewrite wf_graphb_iff in Hwf'. apply wf_graphb_iff.
  assert (Huv : v ∉ neighbors G u).
  { unfold hasEdge in Hedge. by apply bool_decide_eq_false in Hedge. }
  assert (Hvu : u ∉ neighbors G v).
  { intros Hin. apply Huv. apply list_elem_of_fmap in Hin as ([u' w'] & -> & Hin).
    apply (proj2 (Hwf' v)) in Hin. apply list_elem_of_fmap. by exists (v, w'). }
  intros x. split.
  - unfold neighbors. rewrite adj_of_addEdge by done. rewrite !fmap_app.
    destruct (Hwf' x) as [Hnd _]. unfold neighbors in Hnd.
    case_bool_decide as Hxu; case_bool_decide as Hxv; cbn; rewrite ?app_nil_r; try done.
    + destruct Hxv as [-> ?]. congruence.
    + subst x. apply NoDup_app. split_and!; [done| |apply NoDup_singleton].
      intros y Hy ->%list_elem_of_singleton. done.
    + destruct Hxv as [-> _]. apply NoDup_app. split_and!; [done| |apply NoDup_singleton].
      intros y Hy ->%list_elem_of_singleton. done.
  - intros a w'. rewrite !adj_of_addEdge by done. rewrite !elem_of_app.
    intros [Hin|[Hin|Hin]].
    + left. by apply (proj2 (Hwf' x)).
    + case_bool_decide as Hxu; [|by apply elem_of_nil in Hin].
      apply list_elem_of_singleton in Hin as [= -> ->]. subst x.
      destruct (decide (u = v)) as [->|Hne].
      * right. left. rewrite bool_decide_eq_true_2 by done. by left.
      * right. right. rewrite bool_decide_eq_true_2 by done. by left.
    + case_bool_decide as Hxv; [|by apply elem_of_nil in Hin].
      apply list_elem_of_singleton in Hin as [= -> ->]. destruct Hxv as [-> Hne].
      right. left. rewrite bool_decide_eq_true_2 by done. by left.
Qed.

(** The graphs the program builds: from the empty graph by [addNode]
    and [addEdge]. *)
Inductive built : Py_SimpleGraph → Prop :=
  | built_empty : built empty_graph
  | built_node G : built G → built (addNode G).2
  | built_edge G u v w : built G → built (addEdge G u v w).

Lemma built_wf (G : Py_SimpleGraph) : built G → wf_graphb G = true.
Proof.
  induction 1; [done|by apply wf_graphb_addNode|by apply wf_graphb_addEdge].
Qed.

End GraphBuilt.

Module ScoperFacts.
Import CFloat Graph.

Section Scoper.

Variable is_reciprocal_overlapping : Z → Z → Z → Z → bool.
Variable span_position_distance :
  Z → Z → Z → Z → spec_float → spec_float → ReadEnum_t → bool → Z → Z → bool → bool.

#[local] Abbreviation find_other_nodes := (find_other_nodes is_reciprocal_overlapping span_position_distance).
#[local] Abbreviation search := (search is_reciprocal_overlapping span_position_distance).
#[local] Abbreviation examine_forward := (examine_forward is_reciprocal_overlapping span_position_distance).
#[local] Abbreviation examine_backward := (examine_backward is_reciprocal_overlapping span_position_distance).
#[local] Abbreviation forward_walk := (forward_walk is_reciprocal_overlapping span_position_distance).
#[local] Abbreviation backward_walk := (backward_walk is_reciprocal_overlapping span_position_distance).
#[local] Abbreviation push_found2 := (push_found2 span_position_distance).

(** *** No node is its own partner *)

Definition others_only (node_name : Z) (w : walk) : Prop :=
  (node_name ∉ found_exact w) ∧ (node_name ∉ found2 w).

Section Walk.

Variable self : PairedEndScoper.
Variables (node_name current_chrom current_pos chrom2 pos2 : Z).
Variable read_enum : ReadEnum_t.
Variable length_from_cigar : Z.
Variable trust_ins_len : bool.

Lemma push_found2_others (w : walk) (sep' : Z) (vitem : Z * LocalVal) :
  Graph.node_name vitem.2 ≠ node_name → others_only node_name w →
  others_only node_name
    (push_found2 self current_pos pos2 read_enum length_from_cigar trust_ins_len w sep' vitem).
Proof.
  intros Hne [Hex Hf2]. unfold push_found2, others_only. cbn. split; [done|].
  destruct (spd _ _ _ _ _ _ _ _); [|done].
  rewrite elem_of_app, list_elem_of_singleton. intros [?|?]; congruence.
Qed.

Lemma examine_forward_others (w : walk) (vitem : Z * LocalVal) :
  others_only node_name w →
  others_only node_name
    (examine_forward self node_name current_chrom current_pos chrom2 pos2 read_enum
       length_from_cigar trust_ins_len w vitem).
Proof.
  intros Hw. unfold examine_forward.
  case_bool_decide as Hne; [|done].
  repeat case_match; try (by apply push_found2_others).
  all: destruct Hw as [Hex Hf2]; split; cbn; try done.
  all: rewrite !elem_of_app, !list_elem_of_singleton; intuition congruence.
Qed.

Lemma examine_backward_others (w : walk) (vitem : Z * LocalVal) :
  others_only node_name w →
  others_only node_name
    (examine_backward self node_name current_chrom current_pos chrom2 pos2 read_enum
       length_from_cigar trust_ins_len w vitem).
Proof.
  intros Hw. unfold examine_backward.
  case_bool_decide as Hne; [|done].
  repeat case_match; try (by apply push_found2_others).
  all: destruct Hw as [Hex Hf2]; split; cbn; try done.
  all: rewrite !elem_of_app, !list_elem_of_singleton; intuition congruence.
Qed.

Lemma forward_walk_others (n : nat) (forward_scope : multimap) :
  ∀ (it : nat) (w : walk),
    others_only node_name w →
    others_only node_name
      (forward_walk self node_name current_chrom current_pos chrom2 pos2 read_enum
         length_from_cigar trust_ins_len n forward_scope it w).
Proof.
  induction n as [|n IH]; intros it w Hw; cbn [Graph.forward_walk]; [done|].
  destruct (forward_scope !! it) as [vitem|]; [|done].
  destruct (ins_del_mismatch _ _); [by apply IH|].
  pose proof (examine_forward_others w vitem Hw) as Hw'.
  repeat case_match; auto.
Qed.

Lemma backward_walk_others (n : nat) (forward_scope : multimap) :
  ∀ (it : nat) (w : walk),
    others_only node_name w →
    others_only node_name
      (backward_walk self node_name current_chrom current_pos chrom2 pos2 read_enum
         length_from_cigar trust_ins_len n forward_scope it w).
Proof.
  induction n as [|n IH]; intros it w Hw; cbn [Graph.backward_walk]; [done|].
  destruct (forward_scope !! it) as [vitem|]; [|done].
  destruct (ins_del_mismatch _ _); [by apply IH|].
  pose proof (examine_backward_others w vitem Hw) as Hw'.
  repeat case_match; auto.
Qed.

Lemma search_others (forward_scope : multimap) :
  others_only node_name
    (search self node_name current_chrom current_pos chrom2 pos2 read_enum
       length_from_cigar trust_ins_len forward_scope).
Proof.
  unfold Graph.search.
  set (w0 := {| sep := 0; found_exact := []; found2 := [] |}).
  assert (Hw0 : others_only node_name w0) by (split; apply not_elem_of_nil).
  set (w1 := if bool_decide _ then _ else w0).
  assert (Hw1 : others_only node_name w1).
  { subst w1. case_bool_decide; [by apply forward_walk_others|done]. }
  clearbody w1. destruct (found_exact w1); [|done].
  case_bool_decide; [by apply backward_walk_others|done].
Qed.

End Walk.

Lemma find_other_nodes_others (self self' : PairedEndScoper)
    (node_name current_chrom current_pos chrom2 pos2 : Z) (read_enum : ReadEnum_t)
    (length_from_cigar : Z) (trust_ins_len : bool) (other_nodes : list Z) :
  find_other_nodes self node_name current_chrom current_pos chrom2 pos2 read_enum
    length_from_cigar trust_ins_len = Some (other_nodes, self') →
  node_name ∉ other_nodes.
Proof.
  unfold Graph.find_other_nodes. intros H.
  apply bind_Some in H as (idx & _ & H).
  set (s1 := if negb _ then _ else self) in H. clearbody s1.
  destruct (loci s1); [injection H as <- _; apply not_elem_of_nil|].
  apply bind_Some in H as (forward_scope & _ & H). injection H as <- _.
  match goal with |- _ ∉ match found_exact ?w with _ => _ end =>
    assert (Hw : others_only node_name w) by apply search_others;
    destruct Hw; by destruct (found_exact w) end.
Qed.

(** *** The exact bucket in the two walks *)

Section Exact.

Variable self : PairedEndScoper.
Variables (node_name current_chrom current_pos chrom2 pos2 : Z).
Variable read_enum : ReadEnum_t.
Variable length_from_cigar : Z.
Variable trust_ins_len : bool.

(** The tests a neighbour passes before the exact bucket is looked at. *)
Definition reaches_exact (vitem : Z * LocalVal) : bool :=
  bool_decide (Graph.node_name vitem.2 ≠ node_name)
  && (negb (current_chrom =? chrom2)
      || is_reciprocal_overlapping current_pos pos2 vitem.1 (Graph.pos2 vitem.2))
  && (Z.abs (vitem.1 - pos2) <? max_dist self)
  && (Z.abs (Graph.pos2 vitem.2 - current_pos) <? max_dist self)
  && (Z.abs (vitem.1 - pos2) <? 35).

(** The rule of the exact bucket: a length is absent, or the spans
    are close. *)
Definition exact_rule (vitem : Z * LocalVal) : bool :=
  negb ((0 <? length_from_cigar) && (0 <? Graph.length_from_cigar vitem.2))
  || span_close length_from_cigar (Graph.length_from_cigar vitem.2).

Lemma exact_bucket_forward (w : walk) (vitem : Z * LocalVal) :
  reaches_exact vitem = true →
  found_exact (examine_forward self node_name current_chrom current_pos chrom2 pos2
                 read_enum length_from_cigar trust_ins_len w vitem)
  = found_exact w ++ (if exact_rule vitem then [Graph.node_name vitem.2] else []).
Proof.
  unfold reaches_exact, exact_rule, Graph.examine_forward.
  rewrite !andb_true_iff. intros [[[[-> ->] ->] ->] ->]. cbn [andb].
  destruct ((0 <? length_from_cigar) && (0 <? Graph.length_from_cigar vitem.2)); cbn [negb orb].
  - destruct (span_close _ _); cbn; by rewrite ?app_nil_r.
  - done.
Qed.

Lemma exact_bucket_backward (w : walk) (vitem : Z * LocalVal) :
  reaches_exact vitem = true → Graph.chrom2 vitem.2 = chrom2 →
  found_exact (examine_backward self node_name current_chrom current_pos chrom2 pos2
                 read_enum length_from_cigar trust_ins_len w vitem)
  = (found_exact w ++ (if exact_rule vitem then [Graph.node_name vitem.2] else []))
      ++ [Graph.node_name vitem.2].
Proof.
  unfold reaches_exact, exact_rule, Graph.examine_backward.
  rewrite !andb_true_iff. intros [[[[-> ->] ->] ->] ->] ->. rewrite Z.eqb_refl. cbn [andb].
  destruct ((0 <? length_from_cigar) && (0 <? Graph.length_from_cigar vitem.2)); cbn [negb orb].
  - destruct (span_close _ _); cbn; by rewrite ?app_nil_r.
  - done.
Qed.

End Exact.

(** C9: the vector [find_other_nodes] returns for a node does not hold
    that node, so the loop of [add_to_graph] over it adds no edge from
    the node to itself. *)
Theorem find_other_nodes_not_self (self self' : PairedEndScoper)
    (node_name current_chrom current_pos chrom2 pos2 : Z) (read_enum : ReadEnum_t)
    (length_from_cigar : Z) (trust_ins_len : bool) (other_nodes : list Z)
    (G : Py_SimpleGraph) :
  find_other_nodes self node_name current_chrom current_pos chrom2 pos2 read_enum
    length_from_cigar trust_ins_len = Some (other_nodes, self') →
  (node_name ∉ other_nodes)
  ∧ hasEdge (add_local_edges G node_name other_nodes) node_name node_name
    = hasEdge G node_name node_name.
Proof.
  intros H. apply find_other_nodes_others in H.
  split; [done|]. by apply GraphFacts.add_local_edges_no_loop.
Qed.

(** *** Chromosome change *)

(** The scoper with every scope empty, on chromosome [chrom]. *)
Definition cleared (self : PairedEndScoper) (chrom : Z) : PairedEndScoper :=
  set_scopes self chrom [] ((λ _, []) <$> chrom_scope self).

Lemma find_other_nodes_clears (self : PairedEndScoper)
    (node_name current_chrom current_pos chrom2 pos2 : Z) (read_enum : ReadEnum_t)
    (length_from_cigar : Z) (trust_ins_len : bool) :
  current_chrom ≠ local_chrom self → is_Some (forward_scope_index self chrom2) →
  find_other_nodes self node_name current_chrom current_pos chrom2 pos2 read_enum
    length_from_cigar trust_ins_len = Some ([], cleared self current_chrom).
Proof.
  intros Hchrom [idx Hidx].
  unfold Graph.find_other_nodes. rewrite Hidx. cbn [mbind option_bind].
  destruct (Z.eqb_spec current_chrom (local_chrom self)) as [?|_]; [done|].
  reflexivity.
Qed.

Lemma cleared_empty (self : PairedEndScoper) (chrom : Z) :
  local_chrom (cleared self chrom) = chrom ∧ loci (cleared self chrom) = []
  ∧ Forall (λ scope, scope = []) (chrom_scope (cleared self chrom))
  ∧ length (chrom_scope (cleared self chrom)) = length (chrom_scope self).
Proof.
  cbn. split_and!; [done..| |by rewrite length_fmap].
  apply Forall_fmap, Forall_true. done.
Qed.

Lemma mm_insert_Permutation (pp : Z * LocalVal) (m : multimap) : mm_insert pp m ≡ₚ pp :: m.
Proof.
  induction m as [|qq m IH]; [done|]. cbn. destruct (pp.1 <? qq.1); [done|].
  rewrite IH. apply Permutation_swap.
Qed.

(** The entries a call of [add_item] puts into the forward scope: the
    event under its first position when it is a deletion, then the
    event under its second position. *)
Definition forward_items (node_name current_chrom current_pos chrom2 pos2 : Z)
    (read_enum : ReadEnum_t) (length_from_cigar : Z) : multimap :=
  (if bool_decide (read_enum = DELETION)
   then [(current_pos, make_local_val chrom2 pos2 node_name read_enum length_from_cigar)]
   else [])
  ++ [(pos2, make_local_val current_chrom current_pos node_name read_enum length_from_cigar)].

(** [add_item] keeps [local_chrom]; [loci] is the old one and the new
    entry; the forward scope is the old one and [forward_items]; every
    other map of [chrom_scope] is the old one. *)
Lemma add_item_only_inserts (self self' : PairedEndScoper)
    (node_name current_chrom current_pos chrom2 pos2 : Z) (read_enum : ReadEnum_t)
    (length_from_cigar : Z) :
  add_item self node_name current_chrom current_pos chrom2 pos2 read_enum
    length_from_cigar = Some self' →
  local_chrom self' = local_chrom self
  ∧ loci self'
    ≡ₚ (current_pos, make_local_val chrom2 pos2 node_name read_enum length_from_cigar)
       :: loci self
  ∧ length (chrom_scope self') = length (chrom_scope self)
  ∧ ∀ (idx : nat) scope, chrom_scope self !! idx = Some scope →
      ∃ scope', chrom_scope self' !! idx = Some scope'
        ∧ if bool_decide (forward_scope_index self chrom2 = Some idx)
          then scope' ≡ₚ forward_items node_name current_chrom current_pos chrom2 pos2
                           read_enum length_from_cigar ++ scope
          else scope' = scope.
Proof.
  intros H. unfold add_item in H.
  apply bind_Some in H as (idx & Hidx & H).
  apply bind_Some in H as (forward_scope & Hfs & [= <-]).
  cbn [local_chrom loci chrom_scope set_scopes].
  split; [reflexivity|]. split; [apply mm_insert_Permutation|].
  split; [by rewrite length_insert|].
  intros idx' scope Hscope. rewrite Hidx.
  destruct (decide (idx = idx')) as [<-|Hne].
  - rewrite list_lookup_insert_eq by (by eapply lookup_lt_Some).
    rewrite (bool_decide_eq_true_2 (Some idx = Some idx)) by done.
    eexists. split; [done|]. pose proof (eq_trans (eq_sym Hscope) Hfs) as [= ->].
    unfold forward_items. rewrite mm_insert_Permutation.
    case_bool_decide; [rewrite mm_insert_Permutation|]; cbn; [|done].
    apply Permutation_swap.
  - rewrite list_lookup_insert_ne by done.
    rewrite (bool_decide_eq_false_2 (Some idx = Some idx')) by congruence. by exists scope.
Qed.

Lemma add_item_returns (self : PairedEndScoper)
    (node_name current_chrom current_pos chrom2 pos2 : Z) (read_enum : ReadEnum_t)
    (length_from_cigar : Z) :
  is_Some (forward_scope_index self chrom2) →
  is_Some (add_item self node_name current_chrom current_pos chrom2 pos2 read_enum
             length_from_cigar).
Proof.
  intros [idx Hidx]. unfold add_item. rewrite Hidx. cbn [mbind option_bind].
  assert (Hlt : (idx < length (chrom_scope self))%nat).
  { unfold forward_scope_index in Hidx. destruct (chrom2 =? 10000000).
    - destruct (length (chrom_scope self)); [done|]. injection Hidx as <-. lia.
    - destruct (Z.leb_spec 0 chrom2); [|done].
      destruct (Z.ltb_spec chrom2 (Z.of_nat (length (chrom_scope self)))); [|done].
      injection Hidx as <-. lia. }
  apply lookup_lt_is_Some in Hlt as [forward_scope ->]. by eexists.
Qed.

End Scoper.

Import ScopeExamples.

(** C6: node 0, an insertion of 1000 bases, is in scope at position
    1000 when node 1, an insertion of 100 bases at position 1010, is
    looked up.  The spans differ by 0.9 of the larger, yet the walk
    towards lower positions returns node 0 from the exact bucket.  With
    the two positions exchanged, node 0 is met by the forward walk and
    not returned. *)
Theorem backward_walk_ignores_span (is_reciprocal_overlapping : Z → Z → Z → Z → bool)
    (span_position_distance :
       Z → Z → Z → Z → spec_float → spec_float → ReadEnum_t → bool → Z → Z → bool → bool) :
  is_reciprocal_overlapping 1010 1010 1000 1000 = true →
  is_reciprocal_overlapping 1000 1000 1010 1010 = true →
  (find_other_nodes is_reciprocal_overlapping span_position_distance new_scoper
     0 0 1000 0 1000 INSERTION 1000 true
   ≫= λ r, add_item r.2 0 0 1000 0 1000 INSERTION 1000) = Some (one_insertion 1000)
  ∧ span_close 100 1000 = false
  ∧ fst <$> find_other_nodes is_reciprocal_overlapping span_position_distance
              (one_insertion 1000) 1 0 1010 0 1010 INSERTION 100 true = Some [0]
  ∧ fst <$> find_other_nodes is_reciprocal_overlapping span_position_distance
              (one_insertion 1010) 1 0 1000 0 1000 INSERTION 100 true = Some [].
Proof.
  intros Hback Hfwd. split_and!.
  - vm_compute. reflexivity.
  - vm_compute. reflexivity.
  - vm_compute. rewrite Hback. reflexivity.
  - vm_compute. rewrite Hfwd. reflexivity.
Qed.

Lemma backward_walk_ignores_span_witness :
  (find_other_nodes MapSetUtils.is_reciprocal_overlapping no_span_match new_scoper
     0 0 1000 0 1000 INSERTION 1000 true
   ≫= λ r, add_item r.2 0 0 1000 0 1000 INSERTION 1000) = Some (one_insertion 1000)
  ∧ span_close 100 1000 = false
  ∧ fst <$> find_other_nodes MapSetUtils.is_reciprocal_overlapping no_span_match
              (one_insertion 1000) 1 0 1010 0 1010 INSERTION 100 true = Some [0]
  ∧ fst <$> find_other_nodes MapSetUtils.is_reciprocal_overlapping no_span_match
              (one_insertion 1010) 1 0 1000 0 1000 INSERTION 100 true = Some [].
Proof.
  apply (backward_walk_ignores_span MapSetUtils.is_reciprocal_overlapping no_span_match).
  - vm_compute. reflexivity.
  - vm_compute. reflexivity.
Defined.

Lemma find_other_nodes_not_self_witness :
  (1 ∉ [0; 0])
  ∧ hasEdge (add_local_edges Examples.two_pairs 1 [0; 0]) 1 1
    = hasEdge Examples.two_pairs 1 1.
Proof.
  apply (find_other_nodes_not_self MapSetUtils.is_reciprocal_overlapping no_span_match
           (one_insertion 1000) (one_insertion 1000) 1 0 1010 0 1010 INSERTION 0 true
           [0; 0] Examples.two_pairs).
  vm_compute. reflexivity.
Defined.

(** C2 as stated fails: node 0 is in scope on chromosome 0 when
    [add_item] is called for node 1 on chromosome 1.  The entries of
    node 0 stay in [loci] and in the map of chromosome 0, and
    [local_chrom] stays 0. *)
Lemma add_item_does_not_clear :
  ∃ self',
    local_chrom (one_insertion 1000) = 0
    ∧ add_item (one_insertion 1000) 1 1 500 1 900 DISCORDANT 0 = Some self'
    ∧ local_chrom self' = 0
    ∧ loci self'
      = [(500, make_local_val 1 900 1 DISCORDANT 0);
         (1000, make_local_val 0 1000 0 INSERTION 1000)]
    ∧ chrom_scope self' !! 0%nat = Some [(1000, make_local_val 0 1000 0 INSERTION 1000)]
    ∧ chrom_scope self' !! 1%nat = Some [(900, make_local_val 1 500 1 DISCORDANT 0)].
Proof. eexists. split_and!; vm_compute; reflexivity. Qed.

(** The fourth scenario of the specification: a deletion from 10000
    to 11000 is in scope as node 0; a deletion from 10003 to 11002
    finds it in the exact bucket (the walk towards lower positions
    lists it twice). *)
Lemma matching_deletion_found :
  (find_other_nodes MapSetUtils.is_reciprocal_overlapping no_span_match new_scoper
     0 0 10000 0 11000 DELETION 1000 true
   ≫= λ r, add_item r.2 0 0 10000 0 11000 DELETION 1000
   ≫= λ s, fst <$> find_other_nodes MapSetUtils.is_reciprocal_overlapping no_span_match
                     s 1 0 10003 0 11002 DELETION 999 true)
  = Some [0; 0].
Proof. vm_compute. reflexivity. Qed.

End ScoperFacts.

Module EngineFacts.
Import CFloat Graph.

Section Engine.

Variable is_reciprocal_overlapping : Z → Z → Z → Z → bool.
Variable span_position_distance :
  Z → Z → Z → Z → spec_float → spec_float → ReadEnum_t → bool → Z → Z → bool → bool.
Variable xxhasher : string → Z.
Variable cigar_clip : AlignedSegment → Z → bool.
Variable overlap_regions : Z → Z → Z → bool.
Variable good_quality_clip : AlignedSegment → Z → bool.
Variable alignments_from_sa_tag :
  AlignedSegment → Z → bool → Z → list query_align * Z.
Variables ClipScoper_t SiteAdder_t BadClipCounter_t : Type.
Variable ClipScoper_update :
  ClipScoper_t → AlignedSegment → Z → Z → Z → ClipScoper_t * list Z.
Variable add_any_sites :
  SiteAdder_t → Z → Z → Py_SimpleGraph → PairedEndScoper → NodeToName → Z →
  option (SiteAdder_t * Py_SimpleGraph * PairedEndScoper * NodeToName).
Variable find_nearest_site : SiteAdder_t → Z → Z → SiteAdder_t * Z.
Variable BadClipCounter_add : BadClipCounter_t → Z → Z → BadClipCounter_t.

(** C10: in paired-end mode [process_alignment] returns at once for a
    [SPLIT] event of a record whose mate is unmapped (flag bit 8): the
    graph, the scopes, the template edges, the node table and the other
    objects of the engine are those of before the call, and no node was
    made. *)
Theorem split_mate_unmapped_returns (st : Engine ClipScoper_t SiteAdder_t BadClipCounter_t)
    (cfg : Config) (r : AlignedSegment) (cigar_index event_pos tell cigar_pos2 : Z)
    (length_from_cigar : Z) :
  cfg_paired_end cfg = true → Z.land (flag r) 8 ≠ 0 →
  process_alignment is_reciprocal_overlapping span_position_distance xxhasher cigar_clip
    overlap_regions good_quality_clip alignments_from_sa_tag
    ClipScoper_t SiteAdder_t BadClipCounter_t ClipScoper_update add_any_sites
    find_nearest_site BadClipCounter_add
    st cfg r cigar_index event_pos tell cigar_pos2 SPLIT length_from_cigar
  = Some st.
Proof.
  intros Hpaired Hmate. unfold process_alignment. rewrite Hpaired.
  rewrite bool_decide_eq_true_2 by done.
  apply Z.eqb_neq in Hmate. by rewrite Hmate.
Qed.

(** C2, as amended: [add_item] only inserts (and returns, [chrom2]
    designating a map of [chrom_scope]).  It keeps [local_chrom];
    [loci] after the call holds the entries of before and the new one;
    the forward scope holds its entries of before and the new ones
    ([forward_items]: two for a deletion, else one); every other map of
    [chrom_scope] is the same, and there are as many maps as before.
    It is [find_other_nodes] that clears: called for a chromosome other
    than [local_chrom] it returns no partner and leaves [local_chrom]
    set to the new chromosome, [loci] and every map of [chrom_scope]
    empty.  [add_to_graph] calls [add_item] after [find_other_nodes], so
    the item of its new node goes into these empty scopes when the
    chromosome differs from [local_chrom]. *)
Theorem chromosome_change_clears (st : Engine ClipScoper_t SiteAdder_t BadClipCounter_t)
    (cfg : Config) (r : AlignedSegment)
    (node_name flag chrom tell cigar_index event_pos chrom2 pos2 : Z)
    (read_enum : ReadEnum_t) (length_from_cigar : Z) (trust_ins_len : bool) :
  chrom ≠ local_chrom (pe_scope st) →
  is_Some (forward_scope_index (pe_scope st) chrom2) →
  find_other_nodes is_reciprocal_overlapping span_position_distance (pe_scope st)
    node_name chrom event_pos chrom2 pos2 read_enum length_from_cigar trust_ins_len
  = Some ([], ScoperFacts.cleared (pe_scope st) chrom)
  ∧ (local_chrom (ScoperFacts.cleared (pe_scope st) chrom) = chrom
     ∧ loci (ScoperFacts.cleared (pe_scope st) chrom) = []
     ∧ Forall (λ scope, scope = []) (chrom_scope (ScoperFacts.cleared (pe_scope st) chrom))
     ∧ length (chrom_scope (ScoperFacts.cleared (pe_scope st) chrom))
       = length (chrom_scope (pe_scope st)))
  ∧ (∃ self', add_item (pe_scope st) node_name chrom event_pos chrom2 pos2 read_enum
                length_from_cigar = Some self'
       ∧ local_chrom self' = local_chrom (pe_scope st)
       ∧ loci self'
         ≡ₚ (event_pos, make_local_val chrom2 pos2 node_name read_enum length_from_cigar)
            :: loci (pe_scope st)
       ∧ length (chrom_scope self') = length (chrom_scope (pe_scope st))
       ∧ ∀ (idx : nat) scope, chrom_scope (pe_scope st) !! idx = Some scope →
           ∃ scope', chrom_scope self' !! idx = Some scope'
             ∧ if bool_decide (forward_scope_index (pe_scope st) chrom2 = Some idx)
               then scope' ≡ₚ ScoperFacts.forward_items node_name chrom event_pos chrom2
                                pos2 read_enum length_from_cigar ++ scope
               else scope' = scope)
  ∧ (∀ st', read_enum ≠ BREAKEND → mm_only cfg = false →
       add_to_graph is_reciprocal_overlapping span_position_distance xxhasher
         ClipScoper_t SiteAdder_t BadClipCounter_t ClipScoper_update find_nearest_site
         st cfg r flag chrom tell cigar_index event_pos chrom2 pos2 read_enum
         length_from_cigar = Some st' →
       add_item (ScoperFacts.cleared (pe_scope st) chrom)
         (Z.of_nat (length (adjList (G st)))) chrom event_pos chrom2 pos2 read_enum
         length_from_cigar = Some (pe_scope st')).
Proof.
  intros Hchrom Hidx.
  split; [by apply ScoperFacts.find_other_nodes_clears|].
  split; [apply ScoperFacts.cleared_empty|].
  split.
  { destruct (ScoperFacts.add_item_returns (pe_scope st) node_name chrom event_pos chrom2
                pos2 read_enum length_from_cigar Hidx) as [self' Hadd].
    exists self'. split; [done|]. by apply ScoperFacts.add_item_only_inserts. }
  intros st' Henum Hmm H. unfold add_to_graph in H. cbn [addNode] in H.
  apply bind_Some in H as (scanner & _ & H).
  rewrite Hmm in H. rewrite (bool_decide_eq_true_2 _ Henum) in H. cbn [andb negb] in H.
  rewrite ScoperFacts.find_other_nodes_clears in H by done.
  cbn [mbind option_bind add_local_edges foldl] in H.
  apply bind_Some in H as (scope' & Hadd & H). rewrite Hadd. f_equal.
  destruct (site_adder st) as [sites|]; [|by injection H as <-].
  destruct (_ || _); [|by injection H as <-].
  destruct (add_site_edges _ _ _ _ _ _ _ _ _) as [G' sites'] in H. by injection H as <-.
Qed.

End Engine.

Import EngineExamples.

(** Without the unmapped mate the same call makes a node: a discordant
    read of a pair becomes node 0 of the graph, with a row in the node
    table, an entry in the template edges and items in the scopes. *)
Lemma discordant_read_makes_node :
  ∃ st,
    run_alignment new_engine paired_config discordant_read (-1) 700 33 (-1) DISCORDANT 0
    = Some st
    ∧ adjList (G st) = [[]]
    ∧ cigar_index (node_to_name st) = [-1]
    ∧ template_edges st !! "q2" = Some [0; 0; 1]
    ∧ length (loci (pe_scope st)) = 1%nat.
Proof. eexists. split; [vm_compute; reflexivity|]. done. Qed.

Lemma split_mate_unmapped_returns_witness :
  run_alignment new_engine paired_config split_mate_unmapped (-1) 700 33 (-1) SPLIT 0
  = Some new_engine.
Proof.
  apply (split_mate_unmapped_returns MapSetUtils.is_reciprocal_overlapping
           ScopeExamples.no_span_match (λ name, Z.of_nat (String.length name))
           (λ _ _, false) (λ _ _ _, false) (λ _ _, true) (λ _ _ _ _, ([], 0))
           unit unit unit (λ c _ _ _ _, (c, [])) (λ _ _ _ _ _ _ _, None)
           (λ s _ _, (s, -1)) (λ b _ _, b)
           new_engine paired_config split_mate_unmapped (-1) 700 33 (-1) 0).
  - reflexivity.
  - vm_compute. discriminate.
Defined.

(** Node 0 is in scope on chromosome 0 when an event of chromosome 1
    comes: [add_to_graph] returns with [local_chrom] 1 and, in [loci]
    and the maps of [chrom_scope], the items of the new node 1 only. *)
Lemma chromosome_change_empties_scopes :
  loci (pe_scope engine_on_chrom_0) = [(1000, make_local_val 0 1000 0 INSERTION 1000)]
  ∧ chrom_scope (pe_scope engine_on_chrom_0) !! 0%nat
    = Some [(1000, make_local_val 0 1000 0 INSERTION 1000)]
  ∧ ∃ st',
      add_to_graph MapSetUtils.is_reciprocal_overlapping ScopeExamples.no_span_match
        (λ name, Z.of_nat (String.length name)) unit unit unit
        (λ c _ _ _ _, (c, [])) (λ s _ _, (s, -1))
        engine_on_chrom_0 paired_config discordant_read 1 1 33 (-1) 500 1 900 DISCORDANT 0
      = Some st'
      ∧ local_chrom (pe_scope st') = 1
      ∧ loci (pe_scope st') = [(500, make_local_val 1 900 1 DISCORDANT 0)]
      ∧ chrom_scope (pe_scope st')
        = [[]; [(900, make_local_val 1 500 1 DISCORDANT 0)]; []; []].
Proof.
  split; [reflexivity|]. split; [reflexivity|].
  eexists. split; [vm_compute; reflexivity|]. done.
Qed.

Lemma chromosome_change_clears_witness :
  find_other_nodes MapSetUtils.is_reciprocal_overlapping ScopeExamples.no_span_match
    (pe_scope engine_on_chrom_0) 1 1 500 1 900 DISCORDANT 0 true
  = Some ([], ScoperFacts.cleared (pe_scope engine_on_chrom_0) 1)
  ∧ (local_chrom (ScoperFacts.cleared (pe_scope engine_on_chrom_0) 1) = 1
     ∧ loci (ScoperFacts.cleared (pe_scope engine_on_chrom_0) 1) = []
     ∧ Forall (λ scope, scope = [])
         (chrom_scope (ScoperFacts.cleared (pe_scope engine_on_chrom_0) 1))
     ∧ length (chrom_scope (ScoperFacts.cleared (pe_scope engine_on_chrom_0) 1))
       = length (chrom_scope (pe_scope engine_on_chrom_0)))
  ∧ (∃ self', add_item (pe_scope engine_on_chrom_0) 1 1 500 1 900 DISCORDANT 0
              = Some self'
       ∧ local_chrom self' = local_chrom (pe_scope engine_on_chrom_0)
       ∧ loci self'
         ≡ₚ (500, make_local_val 1 900 1 DISCORDANT 0) :: loci (pe_scope engine_on_chrom_0)
       ∧ length (chrom_scope self') = length (chrom_scope (pe_scope engine_on_chrom_0))
       ∧ ∀ (idx : nat) scope,
           chrom_scope (pe_scope engine_on_chrom_0) !! idx = Some scope →
           ∃ scope', chrom_scope self' !! idx = Some scope'
             ∧ if bool_decide
                    (forward_scope_index (pe_scope engine_on_chrom_0) 1 = Some idx)
               then scope' ≡ₚ ScoperFacts.forward_items 1 1 500 1 900 DISCORDANT 0 ++ scope
               else scope' = scope)
  ∧ (∀ st', DISCORDANT ≠ BREAKEND → mm_only paired_config = false →
       add_to_graph MapSetUtils.is_reciprocal_overlapping ScopeExamples.no_span_match
         (λ name, Z.of_nat (String.length name)) unit unit unit
         (λ c _ _ _ _, (c, [])) (λ s _ _, (s, -1))
         engine_on_chrom_0 paired_config discordant_read 1 1 33 (-1) 500 1 900 DISCORDANT 0
       = Some st' →
       add_item (ScoperFacts.cleared (pe_scope engine_on_chrom_0) 1)
         (Z.of_nat (length (adjList (G engine_on_chrom_0)))) 1 500 1 900 DISCORDANT 0
       = Some (pe_scope st')).
Proof.
  apply (chromosome_change_clears MapSetUtils.is_reciprocal_overlapping
           ScopeExamples.no_span_match (λ name, Z.of_nat (String.length name))
           unit unit unit (λ c _ _ _ _, (c, [])) (λ s _ _, (s, -1))
           engine_on_chrom_0 paired_config discordant_read 1 1 1 33 (-1) 500 1 900
           DISCORDANT 0 true).
  - vm_compute. discriminate.
  - vm_compute. eauto.
Defined.

End EngineFacts.

Module PartitionFacts.
Import Graph GraphFacts.

#[local] Set Warnings "-clear-no-such-hyp".

Section Wf.

Variable G : Py_SimpleGraph.
Hypothesis Hwf : wf_graphb G = true.

Lemma has_node_seqZ (u : Z) :
  has_node G u = true ↔ u ∈ seqZ 0 (Z.of_nat (length (adjList G))).
Proof.
  unfold has_node. rewrite andb_true_iff, Z.leb_le, Z.ltb_lt, elem_of_seqZ. lia.
Qed.

Lemma wf_node (u : Z) :
  NoDup (neighbors G u)
  ∧ ∀ v w, (v, w) ∈ adj_of G u → (u, w) ∈ adj_of G v.
Proof. by apply GraphBuilt.wf_graphb_iff. Qed.

Lemma assoc_weight_entry (l : list (Z * Z)) (v w : Z) :
  NoDup (fst <$> l) → (v, w) ∈ l → assoc_weight v l = w.
Proof.
  induction l as [|[v' w'] l IH]; intros Hnd Hin; [by apply elem_of_nil in Hin|].
  cbn in Hnd. apply NoDup_cons in Hnd as [Hv' Hnd]. cbn.
  apply elem_of_cons in Hin as [[= -> ->]|Hin].
  - by rewrite Z.eqb_refl.
  - destruct (Z.eqb_spec v' v) as [->|_]; [|by apply IH].
    exfalso. apply Hv'. apply list_elem_of_fmap. by exists (v, w).
Qed.

Lemma neighbor_entry (u v : Z) :
  v ∈ neighbors G u → (v, weight G u v) ∈ adj_of G u.
Proof.
  intros Hv. apply list_elem_of_fmap in Hv as ([v' w] & -> & Hin). cbn.
  unfold weight. rewrite (assoc_weight_entry _ v' w); [done| |done].
  apply wf_node.
Qed.

Lemma strong_sym (u v : Z) : strong G u v → strong G v u.
Proof.
  intros [Hv Hw]. pose proof (neighbor_entry u v Hv) as Hentry.
  apply wf_node in Hentry. split.
  - apply list_elem_of_fmap. by exists (u, weight G u v).
  - unfold weight at 1. rewrite (assoc_weight_entry _ u (weight G u v)); [done| |done].
    apply wf_node.
Qed.

Lemma neighbor_has_node (u v : Z) : v ∈ neighbors G u → has_node G v = true.
Proof.
  intros Hv. apply neighbor_entry, wf_node in Hv.
  destruct (has_node G v) eqn:Hn; [done|].
  rewrite (adj_of_no_node _ _ Hn) in Hv. by apply elem_of_nil in Hv.
Qed.

Lemma connected_sym (u v : Z) : rtc (strong G) u v → rtc (strong G) v u.
Proof.
  induction 1 as [|x y z Hxy _ IH]; [done|].
  eapply rtc_r; [exact IH|]. by apply strong_sym.
Qed.

End Wf.

Section BFS.

Variable G : Py_SimpleGraph.
Hypothesis Hwf : wf_graphb G = true.

(** The set [visited] at the call, closed under the edges followed, and
    a source outside it. *)
Variable seen0 : gset Z.
Variable src : Z.
Hypothesis Hclosed : ∀ x y, x ∈ seen0 → strong G x y → y ∈ seen0.
Hypothesis Hsrc : src ∉ seen0.

Definition reach (x : Z) : Prop := rtc (strong G) src x.

Definition universe : gset Z :=
  {[src]} ∪ list_to_set (seqZ 0 (Z.of_nat (length (adjList G)))).

Lemma seen0_rtc (x y : Z) : x ∈ seen0 → rtc (strong G) x y → y ∈ seen0.
Proof. intros Hx Hxy. induction Hxy as [|x y z Hxy _ IH]; [done|]. apply IH. by eapply Hclosed. Qed.

Lemma reach_not_seen (x : Z) : reach x → x ∉ seen0.
Proof.
  intros Hx Hin. apply Hsrc. apply (seen0_rtc x); [done|]. by apply connected_sym.
Qed.

Lemma neighbor_universe (u v : Z) : v ∈ neighbors G u → v ∈ universe.
Proof.
  intros Hin. pose proof (neighbor_has_node G Hwf u v Hin) as Hnode.
  apply has_node_seqZ in Hnode. unfold universe. set_solver.
Qed.

(** The state between two rounds of the loop, once the source is
    popped. *)
Record between (queue nodes_found : list Z) (visited : gset Z) : Prop := {
  bt_queue : ∀ x, x ∈ queue → reach x ∧ (x ∉ visited) ∧ x ∈ universe;
  bt_nodup : NoDup queue;
  bt_found : ∀ x, x ∈ nodes_found → reach x ∧ (x ∈ visited ∨ x ∈ queue);
  bt_seen : seen0 ⊆ visited;
  bt_visited : ∀ x, x ∈ visited → x ∈ seen0 ∨ reach x;
  bt_edges : ∀ x y, x ∈ visited → x ∉ seen0 → strong G x y → y ∈ visited ∨ y ∈ queue;
  bt_named : ∀ x, x ∈ queue ∨ (x ∈ visited ∧ x ∉ seen0) → x ∈ nodes_found ∨ x = src;
  bt_src : src ∈ visited;
  bt_src_found : (∃ y, strong G src y) → src ∈ nodes_found
}.

(** The state while the neighbours of the popped node [u] are gone
    through. *)
Record during (u : Z) (queue nodes_found : list Z) (visited : gset Z) : Prop := {
  du_node : reach u ∧ (u ∉ visited) ∧ (u ∉ queue) ∧ u ∈ universe;
  du_queue : ∀ x, x ∈ queue → reach x ∧ (x ∉ visited) ∧ x ∈ universe;
  du_nodup : NoDup queue;
  du_found : ∀ x, x ∈ nodes_found → reach x ∧ (x ∈ visited ∨ x ∈ queue ∨ x = u);
  du_seen : seen0 ⊆ visited;
  du_visited : ∀ x, x ∈ visited → x ∈ seen0 ∨ reach x;
  du_edges : ∀ x y, x ∈ visited → x ∉ seen0 → strong G x y →
             y ∈ visited ∨ y ∈ queue ∨ y = u;
  du_named : ∀ x, x ∈ queue ∨ (x ∈ visited ∧ x ∉ seen0) → x ∈ nodes_found ∨ x = src;
  du_node_named : u ∈ nodes_found ∨ u = src;
  du_src : src ∈ visited ∨ (u = src ∧ visited = seen0);
  du_src_found : src ∈ visited → (∃ y, strong G src y) → src ∈ nodes_found
}.

Lemma during_first : during src [] [] seen0.
Proof.
  split; try (intros x Hx; by apply elem_of_nil in Hx).
  - split_and!; [apply rtc_refl|done|apply not_elem_of_nil|unfold universe; set_solver].
  - constructor.
  - done.
  - auto.
  - intros x y Hx Hnx. done.
  - intros x [Hx|[Hx Hnx]]; [by apply elem_of_nil in Hx|done].
  - by right.
  - by right.
  - done.
Qed.

Lemma during_pop (u : Z) (queue nodes_found : list Z) (visited : gset Z) :
  between (u :: queue) nodes_found visited → during u queue nodes_found visited.
Proof.
  intros [Hq Hnd Hf Hs Hv He Hn Hsrc' Hsf].
  apply NoDup_cons in Hnd as [Hu Hnd].
  destruct (Hq u) as (Hru & Hvu & Huu); [left|].
  split; try done.
  - intros x Hx. apply Hq. by right.
  - intros x Hx. destruct (Hf x Hx) as [Hr [?|Hin]]; [auto|].
    apply elem_of_cons in Hin as [->|?]; auto.
  - intros x y Hx Hnx Hxy. destruct (He x y Hx Hnx Hxy) as [?|Hin]; [auto|].
    apply elem_of_cons in Hin as [->|?]; auto.
  - intros x [Hx|Hx]; apply Hn; [left; by right|by right].
  - apply Hn. left. left.
  - by left.
Qed.

(** One neighbour. *)
Lemma BFS_visit_during (u v : Z) (queue nodes_found : list Z) (visited : gset Z) :
  v ∈ neighbors G u → during u queue nodes_found visited →
  ∃ queue' nodes_found',
    BFS_visit G visited u (queue, nodes_found) v = (queue', nodes_found')
    ∧ during u queue' nodes_found' visited
    ∧ queue ⊆ queue' ∧ nodes_found ⊆ nodes_found'
    ∧ (strong G u v → v ∈ visited ∨ v ∈ queue' ∨ v = u)
    ∧ (strong G u v → v ∉ visited → u ∈ nodes_found').
Proof.
  intros Hv Hd. unfold BFS_visit.
  case_bool_decide as Hvis.
  { exists queue, nodes_found. split_and!; try done; auto. }
  destruct (Z.ltb_spec 1 (weight G u v)) as [Hw|Hw]; cycle 1.
  { exists queue, nodes_found. split_and!; try done; intros [_ ?]; lia. }
  assert (Hst : strong G u v) by (split; [done|lia]).
  destruct Hd as [(Hru & Hvu & Hqu & Huu) Hq Hnd Hf Hs Hvd He Hn Hun Hsrc' Hsf].
  set (nf1 := if bool_decide (u ∈ nodes_found) then nodes_found else nodes_found ++ [u]).
  assert (Hnf1 : ∀ x, x ∈ nf1 ↔ x ∈ nodes_found ∨ x = u).
  { intros x. subst nf1. case_bool_decide.
    - split; [auto|]. intros [?| ->]; done.
    - rewrite elem_of_app, list_elem_of_singleton. done. }
  assert (Hrv : reach v) by (eapply rtc_r; [exact Hru|exact Hst]).
  clearbody nf1.
  case_bool_decide as Hvf.
  - exists queue, nf1. split_and!; try done.
    + split; try done.
      * intros x Hx. apply Hnf1 in Hx as [Hx| ->]; [by apply Hf|auto].
      * intros x Hx. rewrite Hnf1. destruct (Hn x Hx); auto.
      * rewrite Hnf1. auto.
      * intros ? ?. rewrite Hnf1. auto.
    + intros x Hx. apply Hnf1. auto.
    + intros _. apply Hnf1 in Hvf as [Hvf| ->]; [|auto].
      destruct (Hf v Hvf) as [_ ?]. done.
    + intros _ _. apply Hnf1. auto.
  - assert (Hvu' : v ≠ u) by (intros ->; apply Hvf, Hnf1; auto).
    assert (Hvq : v ∉ queue).
    { intros Hin. destruct (Hn v (or_introl Hin)) as [Hvn| ->].
      - apply Hvf, Hnf1. auto.
      - destruct Hsrc' as [?|[-> _]]; done. }
    exists (queue ++ [v]), (nf1 ++ [v]). split_and!; try done.
    + split; try done.
      * split_and!; try done. rewrite elem_of_app, list_elem_of_singleton.
        intros [?|?]; [done|congruence].
      * intros x Hx. apply elem_of_app in Hx as [Hx|Hx]; [by apply Hq|].
        apply list_elem_of_singleton in Hx as ->.
        split_and!; [done..|]. by eapply neighbor_universe.
      * apply NoDup_app. split_and!; [done| |apply NoDup_singleton].
        intros x Hx ->%list_elem_of_singleton. done.
      * intros x Hx. rewrite elem_of_app, list_elem_of_singleton.
        apply elem_of_app in Hx as [Hx|Hx].
        -- apply Hnf1 in Hx as [Hx| ->]; [|auto].
           destruct (Hf x Hx) as [? [?|[?|?]]]; auto.
        -- apply list_elem_of_singleton in Hx as ->. auto.
      * intros x y Hx Hnx Hxy. rewrite elem_of_app.
        destruct (He x y Hx Hnx Hxy) as [?|[?|?]]; auto.
      * intros x Hx. rewrite elem_of_app, Hnf1, list_elem_of_singleton.
        destruct Hx as [Hx|Hx].
        -- apply elem_of_app in Hx as [Hx|Hx]; [|apply list_elem_of_singleton in Hx; auto].
           destruct (Hn x (or_introl Hx)); auto.
        -- destruct (Hn x (or_intror Hx)); auto.
      * rewrite elem_of_app, Hnf1. auto.
      * intros ? ?. rewrite elem_of_app, Hnf1. auto.
    + intros x Hx. apply elem_of_app. auto.
    + intros x Hx. rewrite elem_of_app, Hnf1. auto.
    + intros _. rewrite elem_of_app, list_elem_of_singleton. auto.
    + intros _ _. rewrite elem_of_app, Hnf1. auto.
Qed.

(** All the neighbours in a list. *)
Lemma BFS_visit_fold (u : Z) (visited : gset Z) (l : list Z) :
  ∀ queue nodes_found,
    (∀ v, v ∈ l → v ∈ neighbors G u) → during u queue nodes_found visited →
    ∃ queue' nodes_found',
      foldl (BFS_visit G visited u) (queue, nodes_found) l = (queue', nodes_found')
      ∧ during u queue' nodes_found' visited
      ∧ queue ⊆ queue' ∧ nodes_found ⊆ nodes_found'
      ∧ (∀ v, v ∈ l → strong G u v → v ∈ visited ∨ v ∈ queue' ∨ v = u)
      ∧ (∀ v, v ∈ l → strong G u v → v ∉ visited → u ∈ nodes_found').
Proof.
  induction l as [|v l IH]; intros queue nodes_found Hl Hd.
  - exists queue, nodes_found. split_and!; try done; intros v Hv; by apply elem_of_nil in Hv.
  - destruct (BFS_visit_during u v queue nodes_found visited) as
      (q1 & nf1 & Hstep & Hd1 & Hq1 & Hnf1 & Hv1 & Hu1); [apply Hl; left|done|].
    destruct (IH q1 nf1) as (q2 & nf2 & Hfold & Hd2 & Hq2 & Hnf2 & Hv2 & Hu2);
      [intros; apply Hl; by right|done|].
    exists q2, nf2. cbn [foldl]. rewrite Hstep. split_and!; try done.
    + by etrans.
    + by etrans.
    + intros x Hx Hst. apply elem_of_cons in Hx as [->|Hx]; [|by apply Hv2].
      destruct (Hv1 Hst) as [?|[?|?]]; auto.
    + intros x Hx Hst Hnv. apply elem_of_cons in Hx as [->|Hx]; [|by apply (Hu2 x)].
      apply Hnf2. by apply Hu1.
Qed.

(** A whole round. *)
Lemma during_done (u : Z) (queue nodes_found : list Z) (visited : gset Z) :
  during u queue nodes_found visited →
  ∃ queue' nodes_found',
    foldl (BFS_visit G visited u) (queue, nodes_found) (neighbors G u)
    = (queue', nodes_found')
    ∧ between queue' nodes_found' ({[u]} ∪ visited)
    ∧ u ∈ universe ∧ (u ∉ visited).
Proof.
  intros Hd.
  destruct (BFS_visit_fold u visited (neighbors G u) queue nodes_found)
    as (q' & nf' & Hfold & Hd' & Hq' & Hnf' & Hv' & Hu'); [done..|].
  exists q', nf'. split; [done|].
  destruct Hd' as [(Hru & Hvu & Hqu & Huu) Hq Hnd Hf Hs Hvd He Hn Hun Hsrc' Hsf].
  split; [|done]. split; try done.
  - intros x Hx. destruct (Hq x Hx) as (? & ? & ?). split_and!; [done| |done].
    intros [->%elem_of_singleton|?]%elem_of_union; done.
  - intros x Hx. destruct (Hf x Hx) as [? [?|[?| ->]]]; set_solver.
  - set_solver.
  - intros x [->%elem_of_singleton|Hx]%elem_of_union; auto.
  - intros x y [->%elem_of_singleton|Hx]%elem_of_union Hnx Hxy.
    + destruct Hxy as [Hy Hw]. destruct (Hv' y Hy (conj Hy Hw)) as [?|[?| ->]]; set_solver.
    + destruct (He x y Hx Hnx Hxy) as [?|[?| ->]]; set_solver.
  - intros x [Hx|[[->%elem_of_singleton|Hx]%elem_of_union Hnx]]; auto.
  - destruct Hsrc' as [?|[-> _]]; set_solver.
  - intros [y Hy]. destruct Hsrc' as [Hin|[-> ->]]; [by eauto|].
    apply (Hu' y); [apply Hy|done|]. apply reach_not_seen.
    eapply rtc_once. done.
Qed.

Lemma BFS_loop_between (fuel : nat) :
  ∀ queue nodes_found visited,
    between queue nodes_found visited →
    (size (universe ∖ visited) < fuel)%nat →
    ∃ nodes_found' visited',
      BFS_loop fuel G queue nodes_found visited = Some (nodes_found', visited')
      ∧ between [] nodes_found' visited'.
Proof.
  induction fuel as [|fuel IH]; intros queue nodes_found visited Hb Hsize; [lia|].
  cbn [BFS_loop]. destruct queue as [|u queue]; [by eauto|].
  destruct (during_done u queue nodes_found visited (during_pop _ _ _ _ Hb))
    as (q' & nf' & -> & Hb' & Huu & Hvu).
  apply IH; [done|].
  assert (Hlt : universe ∖ ({[u]} ∪ visited) ⊂ universe ∖ visited) by set_solver.
  apply subset_size in Hlt. lia.
Qed.

(** [BFS_local] returns, with the nodes that a path of followed edges
    links to the source: all of them are marked visited, and they are
    the nodes found when the source has such an edge. *)
Lemma BFS_local_reach :
  ∃ nodes_found visited,
    BFS_local G src seen0 = Some (nodes_found, visited)
    ∧ (∀ x, x ∈ visited ↔ x ∈ seen0 ∨ reach x)
    ∧ (∀ x, x ∈ nodes_found → reach x)
    ∧ ((∃ y, strong G src y) → ∀ x, reach x → x ∈ nodes_found).
Proof.
  unfold BFS_local. cbn [Nat.add BFS_loop].
  destruct (during_done src [] [] seen0 during_first) as (q1 & nf1 & -> & Hb1 & _ & _).
  destruct (BFS_loop_between (S (length (adjList G))) q1 nf1 ({[src]} ∪ seen0) Hb1)
    as (nf & vis & Hloop & Hb).
  { assert (Hsub : universe ∖ ({[src]} ∪ seen0)
                   ⊆ list_to_set (seqZ 0 (Z.of_nat (length (adjList G)))))
      by (unfold universe; set_solver).
    apply subseteq_size in Hsub.
    rewrite size_list_to_set in Hsub by apply NoDup_seqZ.
    rewrite length_seqZ in Hsub. lia. }
  exists nf, vis. split; [exact Hloop|].
  destruct Hb as [Hq Hnd Hf Hs Hv He Hn Hsrc' Hsf].
  assert (Hall : ∀ x, reach x → x ∈ vis ∧ x ∉ seen0).
  { intros x Hx. split; [|by apply reach_not_seen].
    revert x Hx. unfold reach. apply rtc_ind_r; [done|]. intros y z Hy Hyz IH.
    destruct (He y z IH (reach_not_seen y Hy) Hyz) as [?|Hin]; [done|].
    by apply elem_of_nil in Hin. }
  split_and!.
  - intros x. split; [apply Hv|]. intros [?|?]; [set_solver|by apply Hall].
  - intros x Hx. by apply Hf.
  - intros Hy x Hx. destruct (Hn x (or_intror (Hall x Hx))) as [?| ->]; auto.
Qed.

End BFS.

Section Partitions.

Variable G : Py_SimpleGraph.
Hypothesis Hwf : wf_graphb G = true.

(** What holds of [seen] and [parts] between two nodes of the outer
    loop of [get_partitions]. *)
Record parted (seen : gset Z) (parts : list (list Z)) : Prop := {
  pt_closed : ∀ x y, x ∈ seen → strong G x y → y ∈ seen;
  pt_part : ∀ P x, P ∈ parts → x ∈ P → x ∈ seen ∧ ∀ y, y ∈ P ↔ rtc (strong G) x y;
  pt_disjoint : ∀ i j P Q x,
    i ≠ j → parts !! i = Some P → parts !! j = Some Q → x ∈ P → x ∉ Q
}.

(** And while the neighbours of [u] are gone through: as long as [u] is
    not seen, no neighbour met so far hangs on a followed edge. *)
Definition scanning (u : Z) (met : list Z) (seen : gset Z) (parts : list (list Z)) : Prop :=
  parted seen parts ∧ (u ∉ seen → ∀ v, v ∈ met → ¬ strong G u v).

Lemma parted_grow (seen : gset Z) (parts : list (list Z)) (u : Z)
    (found : list Z) (seen' : gset Z) :
  parted seen parts → u ∉ seen → (∃ y, strong G u y) →
  (∀ x, x ∈ seen' ↔ x ∈ seen ∨ reach G u x) →
  (∀ x, x ∈ found ↔ reach G u x) →
  parted seen' (parts ++ [found]).
Proof.
  intros [Hc Hp Hd] Hu Hy Hseen' Hfound. split.
  - intros x y Hx Hxy. apply Hseen'. apply Hseen' in Hx as [Hx|Hx].
    + left. by eapply Hc.
    + right. eapply rtc_r; [exact Hx|exact Hxy].
  - intros P x HP Hx. apply elem_of_app in HP as [HP|HP].
    + destruct (Hp P x HP Hx) as [Hin Hiff]. split; [|done]. apply Hseen'. by left.
    + apply list_elem_of_singleton in HP as ->. apply Hfound in Hx.
      split; [apply Hseen'; by right|]. intros y. rewrite Hfound. unfold reach. split.
      * intros Hy'. etrans; [|exact Hy']. by apply connected_sym.
      * intros Hxy. etrans; [exact Hx|exact Hxy].
  - assert (Hnew : ∀ P x, P ∈ parts → x ∈ P → x ∉ found).
    { intros P x HP Hx Hin. apply Hfound in Hin. destruct (Hp P x HP Hx) as [Hs _].
      by apply (reach_not_seen G Hwf seen u Hc Hu x). }
    intros i j P Q x Hij Hi Hj HxP HxQ.
    apply lookup_app_Some in Hi as [Hi|[Hil Hi]], Hj as [Hj|[Hjl Hj]].
    + by apply (Hd i j P Q x).
    + apply list_lookup_singleton_Some in Hj as [_ <-].
      apply (Hnew P x); [by eapply list_elem_of_lookup_2|done..].
    + apply list_lookup_singleton_Some in Hi as [_ <-].
      apply (Hnew Q x); [by eapply list_elem_of_lookup_2|done..].
    + apply list_lookup_singleton_Some in Hi as [Hi _], Hj as [Hj _]. lia.
Qed.

Lemma get_partitions_visit_scanning (u v : Z) (met : list Z) (seen : gset Z)
    (parts : list (list Z)) :
  v ∈ neighbors G u → scanning u met seen parts →
  ∃ seen' parts',
    get_partitions_visit G u (Some (seen, parts)) v = Some (seen', parts')
    ∧ scanning u (met ++ [v]) seen' parts'.
Proof.
  intros Hv [Hpt Hmet]. unfold get_partitions_visit. cbn [mbind option_bind].
  assert (Hext : ∀ seen' parts', parted seen' parts' →
            (u ∉ seen' → ¬ strong G u v) →
            (u ∉ seen' → u ∉ seen) →
            scanning u (met ++ [v]) seen' parts').
  { intros seen' parts' Hpt' Hnv Hmono. split; [done|]. intros Hu x Hx.
    apply elem_of_app in Hx as [Hx|Hx]; [by apply Hmet; auto|].
    apply list_elem_of_singleton in Hx as ->. auto. }
  case_bool_decide as Hseen.
  { exists seen, parts. split; [done|]. apply Hext; [done| |done].
    intros Hu Hst. apply Hu. apply (pt_closed _ _ Hpt v u Hseen).
    by apply strong_sym. }
  destruct (Z.ltb_spec 1 (weight G u v)) as [Hw|Hw]; cycle 1.
  { exists seen, parts. split; [done|]. apply Hext; [done| |done]. intros _ [_ ?]. lia. }
  assert (Hst : strong G u v) by (split; [done|lia]).
  assert (Hu : u ∉ seen).
  { intros Hu. apply Hseen. by apply (pt_closed _ _ Hpt u v). }
  destruct (BFS_local_reach G Hwf seen u (pt_closed _ _ Hpt) Hu)
    as (found & seen' & -> & Hseen' & Hsound & Hcomplete).
  cbn [mbind option_bind].
  assert (Hfound : ∀ x, x ∈ found ↔ reach G u x).
  { intros x. split; [apply Hsound|]. apply Hcomplete. eauto. }
  assert (Hne : found ≠ []).
  { intros ->. by eapply elem_of_nil, Hfound, rtc_refl. }
  rewrite bool_decide_eq_false_2 by done.
  exists seen', (parts ++ [found]). split; [done|].
  assert (Hu' : u ∈ seen') by (apply Hseen'; right; apply rtc_refl).
  apply Hext; [|done..].
  eapply parted_grow; eauto.
Qed.

Lemma get_partitions_visit_fold (u : Z) (l : list Z) :
  ∀ met seen parts,
    (∀ v, v ∈ l → v ∈ neighbors G u) → scanning u met seen parts →
    ∃ seen' parts',
      foldl (get_partitions_visit G u) (Some (seen, parts)) l = Some (seen', parts')
      ∧ scanning u (met ++ l) seen' parts'.
Proof.
  induction l as [|v l IH]; intros met seen parts Hl Hsc.
  - exists seen, parts. by rewrite app_nil_r.
  - destruct (get_partitions_visit_scanning u v met seen parts) as (s1 & p1 & Hstep & Hsc1);
      [apply Hl; left|done|].
    destruct (IH (met ++ [v]) s1 p1) as (s2 & p2 & Hfold & Hsc2);
      [intros; apply Hl; by right|done|].
    exists s2, p2. cbn [foldl]. rewrite Hstep. split; [done|].
    by rewrite <- app_assoc in Hsc2.
Qed.

Lemma get_partitions_node_parted (u : Z) (seen : gset Z) (parts : list (list Z)) :
  parted seen parts →
  ∃ seen' parts',
    get_partitions_node G (Some (seen, parts)) u = Some (seen', parts')
    ∧ parted seen' parts'.
Proof.
  intros Hpt. unfold get_partitions_node. cbn [mbind option_bind].
  case_bool_decide as Hseen; [by eauto|].
  destruct (get_partitions_visit_fold u (neighbors G u) [] seen parts)
    as (s1 & p1 & -> & [Hpt1 Hmet]);
    [done|split; [done|intros _ v Hv; by apply elem_of_nil in Hv]|].
  cbn [mbind option_bind]. eexists _, _. split; [done|].
  destruct Hpt1 as [Hc Hp Hd]. split; [|intros P x HP Hx|done].
  - intros x y Hx Hxy. apply elem_of_union. right.
    apply elem_of_union in Hx as [->%elem_of_singleton|Hx]; [|by eapply Hc].
    destruct (decide (u ∈ s1)) as [Hin|Hnin]; [by eapply Hc|].
    exfalso. by apply (Hmet Hnin y); [apply Hxy|].
  - destruct (Hp P x HP Hx) as [Hin Hiff]. split; [|done].
    apply elem_of_union. by right.
Qed.

Lemma get_partitions_fold (nodes : list Z) :
  ∀ seen parts,
    parted seen parts →
    ∃ seen' parts',
      foldl (get_partitions_node G) (Some (seen, parts)) nodes = Some (seen', parts')
      ∧ parted seen' parts'.
Proof.
  induction nodes as [|u nodes IH]; intros seen parts Hpt; [by eauto|].
  destruct (get_partitions_node_parted u seen parts Hpt) as (s1 & p1 & Hstep & Hpt1).
  cbn [foldl]. rewrite Hstep. by apply IH.
Qed.

End Partitions.

(** C7: on an undirected graph [get_partitions] returns.  Two nodes are
    in one partition only if a path of edges of weight 2 or more links
    them, so no edge of weight 0 or 1 is followed; a partition holds
    every node such a path links to one of its nodes, so it is maximal;
    and two partitions share no node. *)
Theorem get_partitions_components (G : Py_SimpleGraph) (nodes : list Z) :
  wf_graphb G = true →
  ∃ parts,
    get_partitions G nodes = Some parts
    ∧ (∀ P x y, P ∈ parts → x ∈ P → (y ∈ P ↔ rtc (strong G) x y))
    ∧ (∀ i j P Q x,
         i ≠ j → parts !! i = Some P → parts !! j = Some Q → x ∈ P → x ∉ Q).
Proof.
  intros Hwf.
  destruct (get_partitions_fold G Hwf nodes ∅ []) as (seen & parts & Hfold & Hpt).
  { split.
    - intros x y Hx. by apply elem_of_empty in Hx.
    - intros P x HP. by apply elem_of_nil in HP.
    - intros i j P Q x _ Hi. by rewrite lookup_nil in Hi. }
  exists parts. unfold get_partitions. rewrite Hfold. split; [done|].
  destruct Hpt as [_ Hp Hd]. split; [|done].
  intros P x y HP Hx. by apply (Hp P x HP Hx).
Qed.

Lemma get_partitions_components_witness :
  ∃ parts,
    get_partitions Examples.two_pairs [0; 1; 2; 3] = Some parts
    ∧ (∀ P x y, P ∈ parts → x ∈ P → (y ∈ P ↔ rtc (strong Examples.two_pairs) x y))
    ∧ (∀ i j P Q x,
         i ≠ j → parts !! i = Some P → parts !! j = Some Q → x ∈ P → x ∉ Q).
Proof.
  apply (get_partitions_components Examples.two_pairs [0; 1; 2; 3]).
  reflexivity.
Defined.

(** The partitions of the sixth scenario of the specification. *)
Lemma two_pairs_partitions :
  get_partitions Examples.two_pairs [0; 1; 2; 3] = Some [[0; 1]; [2; 3]].
Proof. vm_compute. reflexivity. Qed.

End PartitionFacts.

(** * Further properties *)

Module PackingFacts.
Import Packing.

Lemma pair_to_int64_sum (left right : Z) :
  pair_to_int64 left right = uint32 left * 2 ^ 32 + uint32 right.
Proof.
  unfold pair_to_int64, uint64.
  pose proof (Z.mod_pos_bound left (2 ^ 32) ltac:(lia)) as Hl.
  pose proof (Z.mod_pos_bound right (2 ^ 32) ltac:(lia)) as Hr.
  assert (Hland : Z.land (Z.shiftl (uint32 left) 32) (uint32 right) = 0).
  { apply Z.bits_inj'. intros n Hn. rewrite Z.land_spec, Z.bits_0.
    destruct (Z.ltb_spec n 32).
    - rewrite Z.shiftl_spec_low by lia. reflexivity.
    - unfold uint32 at 2. rewrite (Z.mod_pow2_bits_high right 32 n) by lia.
      apply andb_false_r. }
  fold (uint32 left) in Hl. fold (uint32 right) in Hr.
  rewrite (Z.mod_small (Z.shiftl _ _)) by (rewrite Z.shiftl_mul_pow2 by lia; lia).
  rewrite <- Z.lxor_lor, <- Z.add_nocarry_lxor by exact Hland.
  rewrite Z.shiftl_mul_pow2 by lia. reflexivity.
Qed.

(** X1: unpacking a packed pair gives the two halves back, as [uint32_t]
    values: a position or a node name is recovered when it is between 0
    and [2^32 - 1], and is taken modulo [2^32] otherwise. *)
Theorem unpack_pair (left right : Z) :
  int64_left (pair_to_int64 left right) = left mod 2 ^ 32
  ∧ int64_right (pair_to_int64 left right) = right mod 2 ^ 32.
Proof.
  rewrite pair_to_int64_sum.
  pose proof (Z.mod_pos_bound left (2 ^ 32) ltac:(lia)) as Hl.
  pose proof (Z.mod_pos_bound right (2 ^ 32) ltac:(lia)) as Hr.
  unfold int64_left, int64_right, uint64. fold (uint32 left) in *. fold (uint32 right) in *.
  rewrite (Z.mod_small _ (2 ^ 64)) by lia.
  split.
  - rewrite Z.lor_0_l, Z.shiftr_div_pow2 by lia.
    rewrite Z.div_add_l by lia. rewrite (Z.div_small (uint32 right)) by lia.
    rewrite Z.add_0_r. unfold uint32. apply Z.mod_mod. lia.
  - unfold uint32 at 1. rewrite Z.add_comm, Z.mod_add by lia.
    unfold uint32. apply Z.mod_mod. lia.
Qed.

(** X2: packing the two halves of a 64-bit item builds the item again. *)
Theorem pack_halves (item : Z) :
  pair_to_int64 (int64_left item) (int64_right item) = item mod 2 ^ 64.
Proof.
  rewrite pair_to_int64_sum. unfold int64_left, int64_right, uint64.
  pose proof (Z.mod_pos_bound item (2 ^ 64) ltac:(lia)) as Hi.
  set (x := item mod 2 ^ 64) in *.
  rewrite Z.lor_0_l, Z.shiftr_div_pow2 by lia.
  unfold uint32. rewrite !Z.mod_mod by lia.
  rewrite (Z.mod_small (x / 2 ^ 32)).
  - pose proof (Z.div_mod x (2 ^ 32) ltac:(lia)). lia.
  - split; [apply Z.div_pos; lia|]. apply Z.div_lt_upper_bound; lia.
Qed.

End PackingFacts.

Module MinimizersFacts.
Import Minimizers.

Section Window.

Variable xxhasher : string → Z.
Variables (k m : Z) (s : string).

#[local] Abbreviation h := (hash_at xxhasher m s).

(** [x] is the least hash of the [k] offsets that end at [i], or of
    all the offsets up to [i] when they are fewer. *)
Definition window_min (i x : Z) : Prop :=
  (∃ j, Z.max 0 (i - k + 1) ≤ j ≤ i ∧ h j = x)
  ∧ ∀ j, Z.max 0 (i - k + 1) ≤ j ≤ i → x ≤ h j.

(** The order of the deque: offsets and hashes both go up. *)
Definition rising (p q : Z * Z) : Prop := p.2 < q.2 ∧ p.1 < q.1.

Lemma drop_while_split {A : Type} (test : A → bool) (l : list A) :
  ∃ l1, l = l1 ++ drop_while test l ∧ Forall (λ x, test x = true) l1
        ∧ (∀ x l', drop_while test l = x :: l' → test x = false).
Proof.
  induction l as [|x l (l1 & Hl & Hall & Hhead)]; cbn.
  - exists []. split_and!; [done..|]. intros x l' H. discriminate.
  - destruct (test x) eqn:Hx.
    + exists (x :: l1). split_and!; [by rewrite <- app_comm_cons, <- Hl|by constructor|done].
    + exists []. split_and!; [done..|]. by intros ? ? [= <- _].
Qed.

Lemma pop_back_above_split (hx2 : Z) (w : list (Z * Z)) :
  StronglySorted rising w →
  ∃ w2, w = pop_back_above hx2 w ++ w2
        ∧ Forall (λ p, p.1 < hx2) (pop_back_above hx2 w)
        ∧ Forall (λ p, hx2 ≤ p.1) w2.
Proof.
  intros Hs. unfold pop_back_above.
  destruct (drop_while_split (λ p : Z * Z, hx2 <=? p.1) (reverse w))
    as (l1 & Hl & Hall & Hhead).
  exists (reverse l1).
  assert (Hw : w = reverse (drop_while (λ p : Z * Z, hx2 <=? p.1) (reverse w)) ++ reverse l1).
  { rewrite <- reverse_app, <- Hl. by rewrite reverse_involutive. }
  split_and!; [done| |].
  - destruct (drop_while _ (reverse w)) as [|x l'] eqn:Hd; [constructor|].
    specialize (Hhead x l' eq_refl). cbn in Hhead. apply Z.leb_gt in Hhead.
    rewrite reverse_cons in *. apply Forall_app. split; [|by apply Forall_singleton].
    rewrite Hw in Hs. apply StronglySorted_app_1_l in Hs.
    apply Forall_forall. intros y Hy.
    pose proof (StronglySorted_app_1_elem_of _ _ _ y x Hs Hy) as Hr.
    destruct Hr as [_ Hr]; [by left|]. lia.
  - apply Forall_forall. intros y Hy. rewrite Forall_forall in Hall.
    rewrite elem_of_reverse in Hy. specialize (Hall y Hy). cbn in Hall.
    apply Z.leb_le in Hall. done.
Qed.

Lemma pop_front_old_split (bound : Z) (w : list (Z * Z)) (last : Z * Z) :
  bound < last.2 →
  ∃ w1 w2, w ++ [last] = w1 ++ w2 ∧ pop_front_old bound (w ++ [last]) = Some w2
           ∧ w2 ≠ [] ∧ Forall (λ p, p.2 ≤ bound) w1
           ∧ (∀ p w', w2 = p :: w' → bound < p.2).
Proof.
  intros Hlast. induction w as [|p w (w1 & w2 & Hw & Hpop & Hne & Hall & Hhead)]; cbn.
  - destruct (Z.leb_spec last.2 bound); [lia|].
    exists [], [last]. split_and!; [done..|]. by intros ? ? [= <- _].
  - destruct (Z.leb_spec p.2 bound).
    + exists (p :: w1), w2. split_and!; [by rewrite Hw|done|done|by constructor|done].
    + exists [], (p :: w ++ [last]). split_and!; [done..|]. by intros ? ? [= <- _].
Qed.

(** What holds of the deque and of the set after the rounds [0] to
    [n - 1]. *)
Record scanned (found0 : gset Z) (last_idx : Z) (n : Z) (w : list (Z * Z)) (f : gset Z)
  : Prop := {
  sc_sorted : StronglySorted rising w;
  sc_entry : ∀ p, p ∈ w → p.1 = h p.2 ∧ 0 ≤ p.2 ∧ n - 1 - k < p.2 ≤ n - 1;
  sc_cover : ∀ j, Z.max 0 (n - k) ≤ j ≤ n - 1 → ∃ p, p ∈ w ∧ j ≤ p.2 ∧ p.1 ≤ h j;
  sc_found : ∀ x, x ∈ f ↔
    x ∈ found0 ∨ (0 < n ∧ x = h 0) ∨ (0 ≤ last_idx < n ∧ x = h last_idx)
    ∨ ∃ i, 0 ≤ i < n ∧ window_min i x
}.

Lemma window_step_scanned (found0 : gset Z) (last_idx n : Z) (w : list (Z * Z)) (f : gset Z) :
  0 < k → 0 ≤ n → scanned found0 last_idx n w f →
  ∃ w' f', window_step xxhasher k m s last_idx (Some (w, f)) n = Some (w', f')
           ∧ scanned found0 last_idx (n + 1) w' f'.
Proof.
  intros Hk Hn [Hs He Hc Hf]. unfold window_step. cbn [mbind option_bind].
  fold (h n).
  destruct (pop_back_above_split (h n) w Hs) as (w2 & Hw & Hlow & Hhigh).
  set (w1 := pop_back_above (h n) w) in *. clearbody w1.
  destruct (pop_front_old_split (n - k) w1 (h n, n)) as (wa & wb & Hab & -> & Hne & Hold & Hnew);
    [cbn; lia|].
  cbn [mbind option_bind]. destruct wb as [|front wb]; [done|]. cbn [head mbind option_bind].
  eexists _, _. split; [done|].
  assert (He1 : ∀ p, p ∈ w1 ++ [(h n, n)] → p.1 = h p.2 ∧ 0 ≤ p.2 ∧ p.2 ≤ n).
  { intros p [Hp|Hp%list_elem_of_singleton]%elem_of_app.
    - destruct (He p) as (? & ? & ?); [rewrite Hw; apply elem_of_app; by left|]. lia.
    - subst p. cbn. lia. }
  assert (Hs1 : StronglySorted rising (w1 ++ [(h n, n)])).
  { apply StronglySorted_app_2.
    - intros p q Hp ->%list_elem_of_singleton. rewrite Forall_forall in Hlow.
      specialize (Hlow p Hp). destruct (He p) as (_ & _ & ?);
        [rewrite Hw; apply elem_of_app; by left|]. split; cbn; lia.
    - rewrite Hw in Hs. by apply StronglySorted_app_1_l in Hs.
    - repeat constructor. }
  assert (Hs2 : StronglySorted rising (front :: wb)).
  { rewrite Hab in Hs1. by apply StronglySorted_app_1_r in Hs1. }
  assert (Hfront : n - k < front.2) by (by apply (Hnew front wb)).
  assert (Hin2 : ∀ p, p ∈ front :: wb → p ∈ w1 ++ [(h n, n)] ∧ n - k < p.2).
  { intros p Hp. split; [rewrite Hab; apply elem_of_app; by right|].
    apply elem_of_cons in Hp as [->|Hp]; [done|].
    apply StronglySorted_cons in Hs2 as [Hall _]. rewrite Forall_forall in Hall.
    destruct (Hall p Hp) as [? _]. lia. }
  assert (Hc1 : ∀ j, Z.max 0 (n + 1 - k) ≤ j ≤ n →
                     ∃ p, p ∈ front :: wb ∧ j ≤ p.2 ∧ p.1 ≤ h j).
  { intros j Hj.
    assert (∃ p, p ∈ w1 ++ [(h n, n)] ∧ j ≤ p.2 ∧ p.1 ≤ h j) as (p & Hp & Hjp & Hpj).
    { destruct (decide (j = n)) as [->|Hjn].
      - exists (h n, n). split; [apply elem_of_app; right; by left|]. cbn. lia.
      - destruct (Hc j) as (p & Hp & Hjp & Hpj); [lia|].
        rewrite Hw in Hp. apply elem_of_app in Hp as [Hp|Hp].
        + exists p. split; [apply elem_of_app; by left|done].
        + exists (h n, n). split; [apply elem_of_app; right; by left|].
          rewrite Forall_forall in Hhigh. specialize (Hhigh p Hp). cbn. lia. }
    exists p. split; [|done]. rewrite Hab in Hp. apply elem_of_app in Hp as [Hp|Hp]; [|done].
    rewrite Forall_forall in Hold. specialize (Hold p Hp). lia. }
  assert (Hmin : window_min n front.1).
  { destruct (Hin2 front) as [Hf1 ?]; [by left|]. destruct (He1 front Hf1) as (Hh & ? & ?).
    split.
    - exists front.2. split; [lia|done].
    - intros j Hj. destruct (Hc1 j) as (p & Hp & _ & Hpj); [lia|].
      apply elem_of_cons in Hp as [->|Hp]; [done|].
      apply StronglySorted_cons in Hs2 as [Hall _]. rewrite Forall_forall in Hall.
      destruct (Hall p Hp) as [_ ?]. lia. }
  split.
  - done.
  - intros p Hp. destruct (Hin2 p Hp) as [Hp1 ?]. destruct (He1 p Hp1) as (? & ? & ?).
    split_and!; [done|done|lia|lia].
  - intros j Hj. apply Hc1. lia.
  - intros x.
    assert (Hwin : (∃ i, 0 ≤ i < n + 1 ∧ window_min i x)
                   ↔ (∃ i, 0 ≤ i < n ∧ window_min i x) ∨ window_min n x).
    { split.
      - intros (i & Hi & Hx). destruct (decide (i = n)) as [->|?]; [by right|].
        left. exists i. split; [lia|done].
      - intros [(i & Hi & Hx)|Hx]; [exists i; split; [lia|done]|exists n; split; [lia|done]]. }
    rewrite Hwin. rewrite elem_of_union, elem_of_singleton.
    assert (Hx : x = front.1 ↔ window_min n x).
    { split; [by intros ->|]. intros [(j & Hj & Hjx) Hxlow].
      destruct Hmin as [(j' & Hj' & Hjf) Hflow].
      specialize (Hxlow j' Hj'). specialize (Hflow j Hj). lia. }
    rewrite <- Hx.
    destruct (Z.eqb_spec n 0) as [Hn0|Hn0], (Z.eqb_spec n last_idx) as [Hnl|Hnl]; cbn [orb];
      rewrite ?elem_of_union, ?elem_of_singleton, Hf; subst;
      (split; [intros [?|H]; [tauto|]|intros H]);
      repeat match goal with
             | H : _ ∨ _ |- _ => destruct H as [H|H]
             | H : _ ∧ _ |- _ => destruct H as [? H]
             end; subst; try tauto; try lia.
    all: try (right; right; left; split; [lia|done]).
    all: try (right; left; split; [lia|done]).
    all: try (right; right; right; tauto).
Qed.

Lemma window_fold_scanned (found0 : gset Z) (last_idx : Z) (rounds : nat) :
  0 < k →
  ∃ w f, foldl (window_step xxhasher k m s last_idx) (Some ([], found0))
           (seqZ 0 (Z.of_nat rounds)) = Some (w, f)
         ∧ scanned found0 last_idx (Z.of_nat rounds) w f.
Proof.
  intros Hk. induction rounds as [|rounds (w & f & Hfold & Hsc)].
  - exists [], found0. split; [done|]. split.
    + constructor.
    + intros p Hp. by apply elem_of_nil in Hp.
    + intros j Hj. lia.
    + intros x. split; [tauto|]. intros [?|[[? _]|[[? _]|(i & ? & _)]]]; [done|lia..].
  - rewrite seqZ_S, foldl_app, Hfold. cbn [foldl]. rewrite Z.add_0_l.
    destruct (window_step_scanned found0 last_idx (Z.of_nat rounds) w f)
      as (w' & f' & Hstep & Hsc'); [done|lia|done|].
    exists w', f'. split; [done|]. by rewrite Nat2Z.inj_succ, <- Z.add_1_r.
Qed.

Lemma window_fold_failed (last_idx : Z) (l : list Z) :
  foldl (window_step xxhasher k m s last_idx) None l = None.
Proof. by induction l. Qed.

(** X3: [sliding_window_minimum] finds the minimizers.  For a window of
    [k > 0] offsets and [m >= 0], the call adds to [found] the least
    hash of every window, that is of the [k] offsets that end at [i]
    (fewer at the start) for each offset [i] of an [m]-mer of [s], and
    the hash of the last [m]-mer; nothing else is added, and nothing
    when [s] is shorter than [m]. *)
Theorem sliding_window_minimum_spec (found : gset Z) :
  0 < k → 0 ≤ m →
  let end_ := Z.of_nat (String.length s) - m + 1 in
  ∃ found',
    sliding_window_minimum xxhasher k m s found = Some found'
    ∧ ∀ x, x ∈ found' ↔
        x ∈ found ∨ (0 < end_ ∧ x = h (end_ - 1))
        ∨ ∃ i, 0 ≤ i < end_ ∧ window_min i x.
Proof.
  intros Hk Hm end_. unfold sliding_window_minimum. fold end_.
  destruct (Z.le_gt_cases end_ 0) as [Hend|Hend].
  - rewrite seqZ_nil by done. exists found. split; [done|].
    intros x. split; [tauto|]. intros [?|[[? _]|(i & ? & _)]]; [done|lia..].
  - destruct (window_fold_scanned found (end_ - 1) (Z.to_nat end_) Hk)
      as (w & f & Hfold & [_ _ _ Hf]).
    rewrite Z2Nat.id in Hfold, Hf by lia. rewrite Hfold. exists f. split; [done|].
    intros x. rewrite Hf. split.
    + intros [?|[[_ ->]|[[_ ->]|?]]]; [tauto| |tauto|tauto].
      right. right. exists 0. split; [lia|]. split; [exists 0; split; [lia|done]|].
      intros j Hj. by replace j with 0 by lia.
    + intros [?|[[? ->]|?]]; [tauto| |tauto]. right. right. left. split; [lia|done].
Qed.

(** X4: without a window [sliding_window_minimum] reads the front of an
    empty deque.  When [k] is 0 or less and [s] holds an [m]-mer, the
    first round pops the pair it has just pushed and then asks for
    [window2.front()]. *)
Theorem sliding_window_minimum_no_window (found : gset Z) :
  k ≤ 0 → m ≤ Z.of_nat (String.length s) →
  sliding_window_minimum xxhasher k m s found = None.
Proof.
  intros Hk Hm. unfold sliding_window_minimum.
  rewrite seqZ_cons by lia. cbn [foldl].
  replace (window_step xxhasher k m s _ (Some ([], found)) 0) with (@None (list (Z * Z) * gset Z)).
  - by rewrite window_fold_failed.
  - unfold window_step. cbn [mbind option_bind]. unfold pop_back_above. cbn.
    destruct (Z.leb_spec 0 (0 - k)); [done|lia].
Qed.

End Window.

Lemma sliding_window_minimum_spec_witness :
  ∃ found',
    sliding_window_minimum MoreExamples.first_code 2 1 "CABD" ∅ = Some found'
    ∧ ∀ x, x ∈ found' ↔
        x ∈ (∅ : gset Z) ∨ (0 < 4 ∧ x = hash_at MoreExamples.first_code 1 "CABD" 3)
        ∨ ∃ i, 0 ≤ i < 4 ∧ window_min MoreExamples.first_code 2 1 "CABD" i x.
Proof.
  apply (sliding_window_minimum_spec MoreExamples.first_code 2 1 "CABD" ∅); lia.
Defined.

Lemma sliding_window_minimum_no_window_witness :
  sliding_window_minimum MoreExamples.first_code 0 1 "CABD" ∅ = None.
Proof.
  apply (sliding_window_minimum_no_window MoreExamples.first_code 0 1 "CABD" ∅).
  - lia.
  - cbn. lia.
Defined.

End MinimizersFacts.

Module NodeTableFacts.
Import Graph.

(** The row [NodeToName.append] stores for its seven arguments. *)
Definition stored (row : node_key) : node_key :=
  let '(a, b, c0, d, e, f0, g) := row in
  (a mod 2 ^ 64, b mod 2 ^ 16, c0 mod 2 ^ 32, d mod 2 ^ 16,
   (if e =? -1 then 0 else e) mod 2 ^ 64, f0, g mod 2 ^ 32).

Definition append_row (n : NodeToName) (row : node_key) : NodeToName :=
  let '(a, b, c0, d, e, f0, g) := row in NodeToName_append n a b c0 d e f0 g.

(** The seven vectors have one length. *)
Definition aligned (n : NodeToName) (len : nat) : Prop :=
  length (h n) = len ∧ length (f n) = len ∧ length (p n) = len ∧ length (c n) = len
  ∧ length (t n) = len ∧ length (cigar_index n) = len ∧ length (event_pos n) = len.

Lemma append_row_aligned (n : NodeToName) (len : nat) (row : node_key) :
  aligned n len → aligned (append_row n row) (S len).
Proof.
  destruct row as [[[[[[a b] c0] d] e] f0] g]. unfold aligned. cbn.
  rewrite !length_app. cbn. lia.
Qed.

Lemma getitem_append_row (n : NodeToName) (len : nat) (row : node_key) (idx : Z) :
  aligned n len →
  NodeToName_getitem (append_row n row) idx =
    if idx =? Z.of_nat len then Some (stored row) else NodeToName_getitem n idx.
Proof.
  destruct row as [[[[[[a b] c0] d] e] f0] g].
  intros (H1 & H2 & H3 & H4 & H5 & H6 & H7). unfold NodeToName_getitem. cbn.
  destruct (Z.ltb_spec idx 0) as [Hneg|Hpos].
  { destruct (Z.eqb_spec idx (Z.of_nat len)); [lia|done]. }
  destruct (Z.eqb_spec idx (Z.of_nat len)) as [->|Hne].
  - rewrite Nat2Z.id.
    rewrite !list_lookup_middle by congruence. reflexivity.
  - destruct (decide (Z.to_nat idx < len)%nat) as [Hlt|Hge].
    + rewrite !lookup_app_l by lia. reflexivity.
    + rewrite (lookup_ge_None_2 (h n ++ _)) by (rewrite length_app; cbn; lia).
      rewrite (lookup_ge_None_2 (h n)) by lia. reflexivity.
Qed.

(** X5: the node table is read back as it was written.  After any
    sequence of [append] calls on a new table, [node_to_name[idx]] is the
    row of the call number [idx], each value converted to the width of
    its vector and a [tell] of -1 stored as 0; an index that is negative
    or not below the number of calls reads no row. *)
Theorem getitem_of_appends (rows : list node_key) (idx : Z) :
  NodeToName_getitem (foldl append_row NodeToName_empty rows) idx =
    if idx <? 0 then None else stored <$> rows !! Z.to_nat idx.
Proof.
  assert (Hgen : aligned (foldl append_row NodeToName_empty rows) (length rows)
    ∧ NodeToName_getitem (foldl append_row NodeToName_empty rows) idx =
        if idx <? 0 then None else stored <$> rows !! Z.to_nat idx).
  { induction rows as [|row rows [IHa IHg]] using rev_ind.
    - split; [by repeat split|]. unfold NodeToName_getitem. cbn.
      by destruct (idx <? 0).
    - rewrite foldl_app. cbn [foldl]. split.
      + rewrite length_app, Nat.add_comm. by apply append_row_aligned.
      + rewrite (getitem_append_row _ (length rows)) by done.
        destruct (Z.eqb_spec idx (Z.of_nat (length rows))) as [->|Hne].
        * destruct (Z.ltb_spec (Z.of_nat (length rows)) 0); [lia|].
          by rewrite Nat2Z.id, list_lookup_middle.
        * rewrite IHg. destruct (Z.ltb_spec idx 0); [done|].
          destruct (decide (Z.to_nat idx < length rows)%nat).
          -- by rewrite lookup_app_l.
          -- rewrite !lookup_ge_None_2; [done|rewrite length_app; cbn; lia|lia]. }
  apply Hgen.
Qed.

End NodeTableFacts.

Module SaTagFacts.
Import Graph SaTag.

(** The sum of the lengths of the operations of [cigar] that [keep]
    selects. *)
Definition total (keep : string → bool) (cigar : list (Z * string)) : Z :=
  foldr (λ item acc, if keep item.2 then item.1 + acc else acc) 0 cigar.

Definition on_query (opp : string) : bool :=
  bool_decide (opp = "M"%string) || bool_decide (opp = "I"%string).
Definition on_reference (opp : string) : bool :=
  bool_decide (opp = "M"%string) || bool_decide (opp = "D"%string).

Lemma query_pos_later (cigar : list (Z * string)) (st : query_pos) :
  qp_i st = true →
  let st' := foldl query_pos_step st cigar in
  qp_start st' = qp_start st
  ∧ qp_end st' = qp_end st + total on_query cigar
  ∧ qp_ref_end st' = qp_ref_end st + total on_reference cigar.
Proof.
  revert st. induction cigar as [|[slen opp] cigar IH]; intros st Hi; cbn [foldl].
  - cbn. lia.
  - cbn zeta in IH. unfold query_pos_step at 2 4 6. rewrite Hi. cbn [negb andb].
    unfold total, on_query, on_reference. cbn [foldr fst snd].
    repeat case_bool_decide; subst; try discriminate;
      match goal with
      | |- context [foldl query_pos_step ?s cigar] =>
          destruct (IH s eq_refl) as (-> & -> & ->)
      end; cbn; unfold total, on_query, on_reference; lia.
Qed.

(** X6: what [get_query_pos_from_cigarstring] measures.  The start on the
    query is the length of the first operation when that is S or H
    (or a substring of [SH]), and 0 otherwise; the end on the query is the start plus
    the lengths of the later M and I operations, the end on the reference
    is [pos] plus the lengths of the later M and D operations.  Clips
    after the first operation and the operations N, P, = and X count for
    nothing. *)
Theorem query_pos_closed_form (cigar : list (Z * string)) (pos : Z) :
  get_query_pos_from_cigarstring cigar pos =
    match cigar with
    | [] => (0, 0, pos, pos)
    | (slen, opp) :: rest =>
        if is_clip opp
        then (slen, slen + total on_query rest, pos, pos + total on_reference rest)
        else (0, total on_query cigar, pos, pos + total on_reference cigar)
    end.
Proof.
  unfold get_query_pos_from_cigarstring. destruct cigar as [|[slen opp] rest]; [done|].
  cbn [foldl]. 
  set (st := query_pos_step _ _).
  assert (Hi : qp_i st = true).
  { subst st. unfold query_pos_step. cbn. by repeat case_match. }
  destruct (query_pos_later rest st Hi) as (Hs & He & Hr).
  rewrite Hs, He, Hr. subst st. unfold query_pos_step. cbn [qp_i negb andb].
  destruct (is_clip opp) eqn:Hclip.
  - cbn. f_equal.
  - unfold total, on_query, on_reference. cbn [foldr fst snd].
    repeat case_bool_decide; subst; try discriminate; cbn;
      repeat match goal with |- (_, _) = (_, _) => f_equal end; lia.
Qed.

End SaTagFacts.

Module CigarScanFacts.
Import CigarScan.

(** What an operation adds to [event_pos]: its length, unless it is an
    insertion or a clip. *)
Definition advance (item : Z * Z) : Z :=
  if (item.1 =? 1) || (item.1 =? 4) || (item.1 =? 5) then 0 else item.2.

Definition advanced (cigar : list (Z * Z)) : Z := foldr (λ item acc, advance item + acc) 0 cigar.

(** The event of the operation number [idx] of [cigar], when it has
    one. *)
Definition event_at (min_sv_size r_pos : Z) (cigar : list (Z * Z)) (idx : nat)
    (e : CigarEvent) : Prop :=
  ∃ op len, cigar !! idx = Some (op, len) ∧ (op = 1 ∨ op = 2) ∧ min_sv_size ≤ len
    ∧ e = make_cigar_event op (Z.of_nat idx) (r_pos + advanced (take idx cigar))
            (r_pos + advanced (take idx cigar) + len) len
            (if op =? 1 then Graph.INSERTION else Graph.DELETION).

Lemma advanced_app (l l' : list (Z * Z)) : advanced (l ++ l') = advanced l + advanced l'.
Proof.
  unfold advanced. induction l as [|x l IH]; cbn [app foldr]; [done|]. rewrite IH. lia.
Qed.

Lemma event_at_snoc (min_sv_size r_pos : Z) (cigar : list (Z * Z)) (item : Z * Z)
    (idx : nat) (e : CigarEvent) :
  event_at min_sv_size r_pos (cigar ++ [item]) idx e ↔
    event_at min_sv_size r_pos cigar idx e
    ∨ (idx = length cigar
       ∧ (item.1 = 1 ∨ item.1 = 2) ∧ min_sv_size ≤ item.2
       ∧ e = make_cigar_event item.1 (Z.of_nat idx) (r_pos + advanced cigar)
               (r_pos + advanced cigar + item.2) item.2
               (if item.1 =? 1 then Graph.INSERTION else Graph.DELETION)).
Proof.
  unfold event_at. split.
  - intros (op & len & Hidx & Hop & Hlen & ->).
    apply lookup_app_Some in Hidx as [Hidx|[Hge Hidx]].
    + left. exists op, len. rewrite take_app_le by (apply lookup_lt_Some in Hidx; lia). done.
    + right. apply list_lookup_singleton_Some in Hidx as [Hi ->].
      assert (idx = length cigar) as -> by lia.
      rewrite take_app_length. done.
  - intros [(op & len & Hidx & Hop & Hlen & ->)|(-> & Hop & Hlen & ->)].
    + exists op, len. rewrite lookup_app_l by (by eapply lookup_lt_Some).
      rewrite take_app_le by (apply lookup_lt_Some in Hidx; lia). done.
    + destruct item as [op len]. exists op, len.
      rewrite list_lookup_middle by done. rewrite take_app_length. done.
Qed.

#[local] Ltac split5 := split; [|split; [|split; [|split]]].

Lemma advanced_one (item : Z * Z) : advanced [item] = advance item.
Proof. unfold advanced. cbn. lia. Qed.

(** X7: the events [construct_graph] reads off a CIGAR.  The loop stages
    one event for each insertion (1) and deletion (2) of at least
    [min_sv_size] bases and for nothing else, in the order of the CIGAR.
    The event of operation [idx] starts at [r.pos] plus the lengths of
    the operations before it other than insertions and clips, and ends
    its length further; [event_pos] ends at [r.pos] plus these lengths
    for the whole CIGAR, and [clipped] is set exactly when a soft clip
    of [clip_l] or more bases was met. *)
Theorem scan_cigar_events (min_sv_size clip_l r_pos : Z) (added0 : bool)
    (cigar : list (Z * Z)) :
  let st := scan_cigar min_sv_size clip_l r_pos added0 cigar in
  (∀ e, e ∈ events_to_add st ↔ ∃ idx, event_at min_sv_size r_pos cigar idx e)
  ∧ StronglySorted (λ e e', cigar_index e < cigar_index e') (events_to_add st)
  ∧ scan_event_pos st = r_pos + advanced cigar
  ∧ (clipped st = true ↔ ∃ len, (4, len) ∈ cigar ∧ clip_l ≤ len)
  ∧ added st = added0 || bool_decide (events_to_add st ≠ []).
Proof.
  cbn zeta. unfold scan_cigar.
  induction cigar as [|[op len] cigar (He & Hs & Hp & Hc & Ha)] using rev_ind.
  - cbn. split_and!.
    + intros e. split; [by intros ?%elem_of_nil|]. intros (idx & o & l & H & _). done.
    + constructor.
    + lia.
    + split; [done|]. intros (l & H & _). by apply elem_of_nil in H.
    + by rewrite orb_false_r.
  - unfold Python.enumerate in *. rewrite imap_app, foldl_app. cbn [imap foldl].
    rewrite Nat.add_0_r.
    set (st := foldl _ _ _) in *. clearbody st.
    rewrite advanced_app, advanced_one.
    assert (Hlast : ∀ e, e ∈ events_to_add st → cigar_index e < Z.of_nat (length cigar)).
    { intros e (idx & o & l & Hidx & _ & _ & ->)%He. cbn.
      apply lookup_lt_Some in Hidx. lia. }
    assert (Hpush : (op = 1 ∨ op = 2) → min_sv_size ≤ len →
      let ev := make_cigar_event op (Z.of_nat (length cigar)) (scan_event_pos st)
                  (scan_event_pos st + len) len
                  (if op =? 1 then Graph.INSERTION else Graph.DELETION) in
      (∀ e, e ∈ events_to_add st ++ [ev]
            ↔ ∃ idx, event_at min_sv_size r_pos (cigar ++ [(op, len)]) idx e)
      ∧ StronglySorted (λ e e', cigar_index e < cigar_index e') (events_to_add st ++ [ev])).
    { intros Hop Hlen ev. split.
      - intros e. rewrite elem_of_app, list_elem_of_singleton, He.
        setoid_rewrite event_at_snoc. cbn [fst snd]. rewrite <- Hp. split.
        + intros [(idx & H)| ->]; [exists idx; by left|].
          exists (length cigar). right. done.
        + intros (idx & [H|(-> & _ & _ & ->)]); [left; by exists idx|by right].
      - apply StronglySorted_app_2; [|done|repeat constructor].
        intros e e' Hin ->%list_elem_of_singleton. cbn. by apply Hlast. }
    assert (Hskip : ¬ ((op = 1 ∨ op = 2) ∧ min_sv_size ≤ len) →
      ∀ e, e ∈ events_to_add st
           ↔ ∃ idx, event_at min_sv_size r_pos (cigar ++ [(op, len)]) idx e).
    { intros Hno e. rewrite He. setoid_rewrite event_at_snoc. cbn [fst snd]. split.
      - intros (idx & H). exists idx. by left.
      - intros (idx & [H|(_ & Hop & Hlen & _)]); [by exists idx|tauto]. }
    assert (Hclip : (∃ len0, (4, len0) ∈ cigar ++ [(op, len)] ∧ clip_l ≤ len0)
                    ↔ (∃ len0, (4, len0) ∈ cigar ∧ clip_l ≤ len0) ∨ (op = 4 ∧ clip_l ≤ len)).
    { split.
      - intros (l & [H|H%list_elem_of_singleton]%elem_of_app & Hl); [left; eauto|].
        right. by simplify_eq.
      - intros [(l & H & Hl)|[-> Hl]].
        + exists l. split; [apply elem_of_app; by left|done].
        + exists len. split; [apply elem_of_app; right; by left|done]. }
    assert (Hadd : ∀ ev, bool_decide (events_to_add st ++ [ev] ≠ []) = true).
    { intros ev. apply bool_decide_eq_true_2. by destruct (events_to_add st). }
    rewrite Hclip, <- Hc. clear Hclip. unfold advance, scan_step. cbn [fst snd].
    destruct (Z.eqb_spec op 1) as [->|H1]; [|destruct (Z.eqb_spec op 2) as [->|H2]].
    + cbn [orb]. destruct (Z.leb_spec min_sv_size len) as [Hl|Hl].
      * destruct Hpush as [He' Hs']; [by left|done|]. cbn [events_to_add scan_event_pos
          clipped added]. rewrite Hadd, orb_true_r.
        split5; [done|done|lia| |done]. split; [by left|]. intros [?|[? _]]; [done|lia].
      * split5; [apply Hskip; intros [[?|?] ?]; lia|done|lia| |done].
        split; [by left|]. intros [?|[? _]]; [done|lia].
    + cbn [orb Z.eqb Pos.eqb]. destruct (Z.leb_spec min_sv_size len) as [Hl|Hl].
      * destruct Hpush as [He' Hs']; [by right|done|]. cbn [events_to_add scan_event_pos
          clipped added]. rewrite Hadd, orb_true_r.
        split5; [done|done|lia| |done]. split; [by left|]. intros [?|[? _]]; [done|lia].
      * cbn [events_to_add scan_event_pos clipped added].
        split5; [apply Hskip; intros [[?|?] ?]; lia|done|lia| |done].
        split; [by left|]. intros [?|[? _]]; [done|lia].
    + destruct (Z.eqb_spec op 4) as [->|H4]; cbn [orb negb andb].
      * destruct (Z.leb_spec clip_l len) as [Hl|Hl];
          cbn [events_to_add scan_event_pos clipped added].
        -- split5; [apply Hskip; intros [[?|?] ?]; lia|done|lia| |done]. split; [by right|done].
        -- split5; [apply Hskip; intros [[?|?] ?]; lia|done|lia| |done].
           split; [by left|]. intros [?|[_ ?]]; [done|lia].
      * destruct (Z.eqb_spec op 5) as [->|H5]; cbn [orb negb andb];
          cbn [events_to_add scan_event_pos clipped added];
          (split5; [apply Hskip; intros [[?|?] ?]; lia|done|lia| |done]);
          (split; [by left|]; intros [?|[? _]]; [done|lia]).
Qed.

End CigarScanFacts.

Module IntervalsFacts.
Import Intervals.

Section Merge.

Context {C : Type} `{EqDecision C}.
Variable C_lt : C → C → Prop.
Context `{!RelDecision C_lt}.

(** Python's [<] on the names is a strict total order. *)
Hypothesis C_lt_irrefl : ∀ x, ¬ C_lt x x.
Hypothesis C_lt_trans : ∀ x y z, C_lt x y → C_lt y z → C_lt x z.
Hypothesis C_lt_total : ∀ x y, C_lt x y ∨ x = y ∨ C_lt y x.

#[local] Abbreviation interval := (@interval C).
#[local] Abbreviation chrom := (@chrom C).
#[local] Abbreviation lo := (@lo C).
#[local] Abbreviation hi := (@hi C).
#[local] Abbreviation pad_interval := (@pad_interval C).
#[local] Abbreviation merge_step := (@merge_step C _).
#[local] Abbreviation key_lt := (key_lt C_lt).
#[local] Abbreviation sorted := (sorted C_lt).
#[local] Abbreviation sorted_insert := (Python.sorted_insert key_lt).
#[local] Abbreviation merge_intervals := (merge_intervals C_lt).

(** [b] may stand behind [a] in a sorted list. *)
Definition ordered (a b : interval) : Prop := key_lt b a = false.

Lemma key_lt_trans (a b c : interval) :
  key_lt a b = true → key_lt b c = true → key_lt a c = true.
Proof.
  unfold Intervals.key_lt. intros Hab Hbc.
  destruct (decide (chrom a = chrom b)) as [Eab|Nab],
    (decide (chrom b = chrom c)) as [Ebc|Nbc],
    (decide (chrom a = chrom c)) as [Eac|Nac].
  - lia.
  - destruct Nac. by rewrite Eab.
  - destruct Nbc. by rewrite <- Eab.
  - by rewrite Eab.
  - destruct Nab. by rewrite Eac.
  - by rewrite <- Ebc.
  - apply bool_decide_eq_true in Hab, Hbc. rewrite Eac in Hab.
    destruct (C_lt_irrefl (chrom b)). by apply (C_lt_trans _ (chrom c)).
  - apply bool_decide_eq_true in Hab, Hbc. apply bool_decide_eq_true.
    by apply (C_lt_trans _ (chrom b)).
Qed.

Lemma ordered_lo (a b : interval) : ordered a b → chrom a = chrom b → lo a ≤ lo b.
Proof.
  unfold ordered, Intervals.key_lt. intros Hab Heq.
  destruct (decide (chrom b = chrom a)); [lia|congruence].
Qed.

Lemma ordered_chrom (a b : interval) : ordered a b → ¬ C_lt (chrom b) (chrom a).
Proof.
  unfold ordered, Intervals.key_lt. intros Hab Hlt.
  destruct (decide (chrom b = chrom a)) as [Heq|Hne].
  - rewrite Heq in Hlt. by apply (C_lt_irrefl (chrom a)).
  - by apply bool_decide_eq_false in Hab.
Qed.

Lemma sorted_insert_perm (x : interval) (l : list interval) : sorted_insert x l ≡ₚ x :: l.
Proof.
  induction l as [|y l IH]; cbn; [done|]. destruct (key_lt x y); [done|].
  rewrite IH. apply Permutation_swap.
Qed.

Lemma sorted_perm (l : list interval) : sorted l ≡ₚ l.
Proof.
  unfold Intervals.sorted.
  assert (Hgen : ∀ acc, foldl (λ acc x, sorted_insert x acc) acc l ≡ₚ acc ++ l).
  { induction l as [|x l IH]; intros acc; cbn; [by rewrite app_nil_r|].
    rewrite IH, sorted_insert_perm. by rewrite <- Permutation_middle. }
  apply (Hgen []).
Qed.

Lemma sorted_insert_ordered (x : interval) (l : list interval) :
  StronglySorted ordered l → StronglySorted ordered (sorted_insert x l).
Proof.
  induction 1 as [|y l Hl IH Hy]; cbn.
  - repeat constructor.
  - destruct (key_lt x y) eqn:Hxy.
    + constructor; [by constructor|]. constructor.
      * unfold ordered. destruct (key_lt y x) eqn:Hyx; [|done].
        pose proof (key_lt_trans _ _ _ Hxy Hyx) as Hxx.
        unfold Intervals.key_lt in Hxx. destruct (decide (chrom x = chrom x)); [lia|done].
      * apply Forall_forall. intros z Hz. rewrite Forall_forall in Hy. specialize (Hy z Hz).
        unfold ordered in *. destruct (key_lt z x) eqn:Hzx; [|done].
        by rewrite (key_lt_trans _ _ _ Hzx Hxy) in Hy.
    + constructor; [done|]. rewrite sorted_insert_perm. by constructor.
Qed.

Lemma sorted_ordered (l : list interval) : StronglySorted ordered (sorted l).
Proof.
  unfold Intervals.sorted.
  assert (Hgen : ∀ acc, StronglySorted ordered acc →
            StronglySorted ordered (foldl (λ acc x, sorted_insert x acc) acc l)).
  { induction l as [|x l IH]; intros acc Hacc; cbn; [done|].
    by apply IH, sorted_insert_ordered. }
  apply Hgen. constructor.
Qed.

Lemma pad_interval_ordered (pad : Z) (l : list interval) :
  StronglySorted ordered l → StronglySorted ordered (pad_interval pad <$> l).
Proof.
  induction 1 as [|y l Hl IH Hy]; cbn; constructor; [done|].
  apply Forall_fmap. eapply Forall_impl; [exact Hy|]. intros z Hz. cbn.
  unfold ordered, Intervals.key_lt, pad_interval in *. cbn in *.
  destruct (decide (chrom z = chrom y)); [|done].
  repeat case_match; lia.
Qed.

(** What one round of the loop does, by the last interval merged. *)
Lemma merge_step_nil (higher : interval) : merge_step [] higher = [higher].
Proof. done. Qed.

Lemma merge_step_snoc (merged : list interval) (lower higher : interval) :
  merge_step (merged ++ [lower]) higher =
    if bool_decide (chrom higher = chrom lower) && (lo higher <=? hi lower)
    then merged ++ [(chrom lower, lo lower, Z.max (hi higher) (hi lower))]
    else merged ++ [lower; higher].
Proof.
  unfold merge_step. rewrite last_snoc.
  case_bool_decide as Hne; case_bool_decide as Heq; try done; cbn [andb].
  - by rewrite <- app_assoc.
  - destruct (lo higher <=? hi lower).
    + replace (pred (length (merged ++ [lower]))) with (length merged)
        by (rewrite length_app; cbn; lia).
      rewrite insert_app_r_alt by apply Nat.le_refl. by rewrite Nat.sub_diag.
    + by rewrite <- app_assoc.
Qed.

(** The intervals of [merged] come from the part of the input read so
    far, in its order and with their own chromosome and start; two
    neighbours among them on one chromosome are apart. *)
Definition key (iv : interval) : C * Z := (chrom iv, lo iv).

Definition apart (merged : list interval) : Prop :=
  ∀ i a b, merged !! i = Some a → merged !! S i = Some b → chrom a = chrom b → hi a < lo b.

Lemma apart_snoc (merged : list interval) (a b : interval) :
  apart (merged ++ [a]) → (chrom a = chrom b → hi a < lo b) → apart (merged ++ [a; b]).
Proof.
  intros Hap Hab i x y Hx Hy Heq.
  destruct (decide (i < length merged)%nat) as [Hlt|Hge].
  - apply (Hap i x y); [|  |done].
    + rewrite lookup_app_l in Hx by done. by rewrite lookup_app_l.
    + destruct (decide (S i < length merged)%nat).
      * rewrite lookup_app_l in Hy by done. by rewrite lookup_app_l.
      * assert (S i = length merged) as Hi by lia.
        rewrite Hi in Hy |- *. rewrite list_lookup_middle in Hy by done.
        rewrite (list_lookup_middle merged [] a) by done. done.
  - destruct (decide (i = length merged)) as [->|Hne].
    + rewrite list_lookup_middle in Hx by done.
      rewrite (lookup_app_r merged) in Hy by lia.
      replace (S (length merged) - length merged)%nat with 1%nat in Hy by lia.
      cbn in Hy. simplify_eq. by apply Hab.
    + rewrite lookup_app_r in Hy by lia.
      destruct (S i - length merged)%nat as [|[|k]] eqn:Hk; [lia|lia|].
      by cbn in Hy.
Qed.

Lemma apart_replace (merged : list interval) (a a' : interval) :
  apart (merged ++ [a]) → chrom a' = chrom a → lo a' = lo a → apart (merged ++ [a']).
Proof.
  intros Hap Hc Hl i x y Hx Hy Heq.
  destruct (decide (S i < length merged)%nat) as [Hlt|Hge].
  - apply (Hap i x y); [| |done].
    + rewrite lookup_app_l in Hx by lia. by rewrite lookup_app_l by lia.
    + rewrite lookup_app_l in Hy by lia. by rewrite lookup_app_l by lia.
  - destruct (decide (S i = length merged)) as [Hi|Hne].
    + rewrite Hi in Hy. rewrite list_lookup_middle in Hy by done. simplify_eq.
      rewrite Hl. apply (Hap i x a); [| |congruence].
      * rewrite lookup_app_l in Hx by lia. by rewrite lookup_app_l by lia.
      * rewrite Hi. by rewrite list_lookup_middle.
    + apply lookup_lt_Some in Hy. rewrite length_app in Hy. cbn in Hy. lia.
Qed.

Lemma merge_step_keeps (merged : list interval) (done_ : list interval) (higher : interval) :
  key <$> merged `sublist_of` key <$> done_ → apart merged →
  key <$> merge_step merged higher `sublist_of` key <$> (done_ ++ [higher])
  ∧ apart (merge_step merged higher).
Proof.
  intros Hsub Hap. destruct merged as [|lower merged _] using rev_ind.
  - rewrite merge_step_nil. split.
    + rewrite fmap_app. cbn. apply sublist_inserts_l. done.
    + intros [|i] a b Ha Hb; by cbn in *.
  - rewrite merge_step_snoc.
    destruct (bool_decide (chrom higher = chrom lower) && (lo higher <=? hi lower)) eqn:Htest.
    + split.
      * rewrite !fmap_app in *. cbn in *. apply sublist_inserts_r.
        by replace (key (chrom lower, lo lower, Z.max (hi higher) (hi lower))) with (key lower).
      * by apply (apart_replace merged lower).
    + split.
      * rewrite !fmap_app in *. cbn in *.
        replace [key lower; key higher] with ([key lower] ++ [key higher]) by done.
        rewrite app_assoc. by apply sublist_app.
      * apply apart_snoc; [done|]. intros Heq.
        rewrite bool_decide_eq_true_2 in Htest by done. cbn in Htest. lia.
Qed.

Lemma merge_fold_keeps (rest merged done_ : list interval) :
  key <$> merged `sublist_of` key <$> done_ → apart merged →
  key <$> foldl merge_step merged rest `sublist_of` key <$> (done_ ++ rest)
  ∧ apart (foldl merge_step merged rest).
Proof.
  revert merged done_. induction rest as [|higher rest IH]; intros merged done_ Hsub Hap.
  - by rewrite app_nil_r.
  - cbn [foldl]. destruct (merge_step_keeps merged done_ higher Hsub Hap) as [Hsub' Hap'].
    replace (done_ ++ higher :: rest) with ((done_ ++ [higher]) ++ rest)
      by (by rewrite <- app_assoc).
    by apply IH.
Qed.

Lemma ordered_key (a b a' b' : interval) :
  key a = key a' → key b = key b' → ordered a b → ordered a' b'.
Proof.
  unfold key, ordered, Intervals.key_lt. intros [= Ha1 Ha2] [= Hb1 Hb2].
  rewrite Ha1, Ha2, Hb1, Hb2. done.
Qed.

Lemma sublist_key_ordered (l1 l2 : list interval) :
  key <$> l1 `sublist_of` key <$> l2 → StronglySorted ordered l2 → StronglySorted ordered l1.
Proof.
  revert l1. induction l2 as [|y l2 IH]; intros l1 Hsub Hs.
  - cbn in Hsub. apply sublist_nil_r in Hsub. apply fmap_nil_inv in Hsub. subst. constructor.
  - apply StronglySorted_inv in Hs as [Hs Hy]. destruct l1 as [|x l1]; [constructor|].
    cbn in Hsub. apply sublist_cons_r in Hsub as [Hsub|(l' & Heq & Hsub)].
    + by apply IH.
    + assert (key x = key y ∧ l' = key <$> l1) as [Hxy ->] by (split; congruence).
      constructor; [by apply IH|].
      apply Forall_forall. intros z Hz.
      assert (key z ∈ key <$> l2) as Hin.
      { eapply elem_of_sublist; [|exact Hsub]. by apply list_elem_of_fmap_2. }
      apply list_elem_of_fmap in Hin as (z' & Hkz & Hz').
      rewrite Forall_forall in Hy. specialize (Hy z' Hz').
      by apply (ordered_key y z' x z).
Qed.

Lemma merge_intervals_shape (intervals : list interval) (pad : Z) :
  StronglySorted ordered (merge_intervals intervals true pad)
  ∧ apart (merge_intervals intervals true pad).
Proof.
  unfold Intervals.merge_intervals. cbn zeta.
  set (s := if pad =? 0 then _ else _).
  assert (Hs : StronglySorted ordered s).
  { subst s. destruct (pad =? 0); [|apply pad_interval_ordered]; apply sorted_ordered. }
  destruct (merge_fold_keeps s [] []) as [Hsub Hap].
  - done.
  - intros i a b Ha. by rewrite lookup_nil in Ha.
  - cbn in Hsub. split; [|done]. by apply (sublist_key_ordered _ s).
Qed.

(** X8: the result of [merge_intervals] with [srt=True] holds separate
    intervals in order.  Of two of its intervals the later one is never
    on a lower chromosome, and when both are on one chromosome the
    earlier one ends before the later one starts, whatever [pad] is. *)
Theorem merge_intervals_disjoint (intervals : list interval) (pad : Z)
    (i j : nat) (a b : interval) :
  merge_intervals intervals true pad !! i = Some a →
  merge_intervals intervals true pad !! j = Some b →
  (i < j)%nat →
  ¬ C_lt (chrom b) (chrom a) ∧ (chrom a = chrom b → hi a < lo b).
Proof.
  destruct (merge_intervals_shape intervals pad) as [Hs Hap].
  revert Hs Hap. generalize (merge_intervals intervals true pad). intros l Hs Hap Ha Hb Hij.
  assert (Hord : ∀ i j x y, (i < j)%nat → l !! i = Some x → l !! j = Some y → ordered x y).
  { clear -Hs. induction Hs as [|z l Hl IH Hz]; intros i j x y Hij Hx Hy; [by destruct i|].
    destruct j as [|j]; [lia|]. cbn in Hy. destruct i as [|i].
    - cbn in Hx. simplify_eq. rewrite Forall_forall in Hz. apply Hz.
      by eapply list_elem_of_lookup_2.
    - cbn in Hx. apply (IH i j); [lia|done..]. }
  split; [apply ordered_chrom; by apply (Hord i j)|].
  intros Heq.
  destruct (lookup_lt_is_Some_2 l (S i)) as [m Hm].
  { apply lookup_lt_Some in Hb. lia. }
  assert (Hcm : chrom m = chrom a).
  { pose proof (Hord i (S i) a m ltac:(lia) Ha Hm) as H1.
    destruct (decide (S i = j)) as [<-|Hne]; [congruence|].
    pose proof (Hord (S i) j m b ltac:(lia) Hm Hb) as H2.
    apply ordered_chrom in H1, H2. rewrite <- Heq in H2.
    destruct (C_lt_total (chrom m) (chrom a)) as [?|[?|?]]; done. }
  pose proof (Hap i a m Ha Hm (eq_sym Hcm)) as Hlt.
  destruct (decide (S i = j)) as [<-|Hne]; [by simplify_eq|].
  pose proof (Hord (S i) j m b ltac:(lia) Hm Hb) as H2.
  apply ordered_lo in H2; [lia|congruence].
Qed.

(** A position [x] of chromosome [c] lies in an interval of the list. *)
Definition covers (l : list interval) (c : C) (x : Z) : Prop :=
  ∃ iv, iv ∈ l ∧ chrom iv = c ∧ lo iv ≤ x ≤ hi iv.

Lemma covers_app (l1 l2 : list interval) (c : C) (x : Z) :
  covers (l1 ++ l2) c x ↔ covers l1 c x ∨ covers l2 c x.
Proof.
  unfold covers. setoid_rewrite elem_of_app. split.
  - intros (iv & [?|?] & ?); [left|right]; by exists iv.
  - intros [(iv & ? & ?)|(iv & ? & ?)]; exists iv; tauto.
Qed.

Lemma covers_one (iv : interval) (c : C) (x : Z) :
  covers [iv] c x ↔ chrom iv = c ∧ lo iv ≤ x ≤ hi iv.
Proof.
  unfold covers. setoid_rewrite list_elem_of_singleton. split.
  - by intros (? & -> & ?).
  - intros ?. by exists iv.
Qed.

Lemma covers_perm (l1 l2 : list interval) (c : C) (x : Z) :
  l1 ≡ₚ l2 → covers l1 c x ↔ covers l2 c x.
Proof. intros Hp. unfold covers. by setoid_rewrite Hp. Qed.

Lemma merge_fold_covers (rest merged done_ : list interval) (c : C) (x : Z) :
  StronglySorted ordered (done_ ++ rest) →
  key <$> merged `sublist_of` key <$> done_ →
  (covers merged c x ↔ covers done_ c x) →
  covers (foldl merge_step merged rest) c x ↔ covers (done_ ++ rest) c x.
Proof.
  revert merged done_. induction rest as [|higher rest IH]; intros merged done_ Hs Hsub Hcov.
  - by rewrite app_nil_r.
  - cbn [foldl].
    replace (done_ ++ higher :: rest) with ((done_ ++ [higher]) ++ rest) in *
      by (by rewrite <- app_assoc).
    apply IH; [done| |].
    + destruct merged as [|lower merged _] using rev_ind.
      * rewrite merge_step_nil, fmap_app. by apply sublist_inserts_l.
      * rewrite merge_step_snoc. case_match.
        -- rewrite !fmap_app in *. cbn in *. by apply sublist_inserts_r.
        -- rewrite !fmap_app in *. cbn in *.
           replace [key lower; key higher] with ([key lower] ++ [key higher]) by done.
           rewrite app_assoc. by apply sublist_app.
    + rewrite (covers_app done_). rewrite <- Hcov. clear Hcov IH.
      destruct merged as [|lower merged _] using rev_ind.
      * rewrite merge_step_nil. split; [by right|].
        intros [(iv & Hin & _)|?]; [by apply elem_of_nil in Hin|done].
      * rewrite merge_step_snoc.
        destruct (bool_decide (chrom higher = chrom lower) && (lo higher <=? hi lower))
          eqn:Htest.
        -- apply andb_prop in Htest as [Hc Hl]. apply bool_decide_eq_true in Hc.
           apply Z.leb_le in Hl.
           assert (Hlo : lo lower ≤ lo higher).
           { assert (key lower ∈ key <$> done_) as Hin.
             { eapply elem_of_sublist; [|exact Hsub]. rewrite fmap_app. cbn.
               apply elem_of_app. right. by left. }
             apply list_elem_of_fmap in Hin as (e & Hke & He).
             apply StronglySorted_app_1_l in Hs.
             assert (ordered e higher) as Hord.
             { apply (StronglySorted_app_1_elem_of _ _ _ _ _ Hs He). by left. }
             injection Hke as Hk1 Hk2. fold (chrom lower) (chrom e) in Hk1.
             fold (lo lower) (lo e) in Hk2. rewrite Hk2.
             apply ordered_lo; [done|congruence]. }
           rewrite !covers_app, !covers_one. cbn. rewrite Hc.
           split; [intros [?|[? ?]]|intros [[?|[? ?]]|[? ?]]]; try tauto.
           ++ destruct (decide (x ≤ hi lower)); [left; right|right]; split; try done; lia.
           ++ right. split; [done|]. lia.
           ++ right. split; [done|]. lia.
        -- replace (merged ++ [lower; higher]) with ((merged ++ [lower]) ++ [higher])
             by (by rewrite <- app_assoc).
           by rewrite (covers_app (merged ++ [lower])).
Qed.

(** X9: [merge_intervals] with [srt=True] keeps what the intervals cover.
    A position of a chromosome lies in an interval of the result exactly
    when it lies in one of the given intervals, widened by [pad] on both
    sides (the start not below 0) when [pad] is not 0.  The intervals
    are closed: [start <= x <= end]. *)
Theorem merge_intervals_covers (intervals : list interval) (pad : Z) (c : C) (x : Z) :
  covers (merge_intervals intervals true pad) c x
  ↔ covers (if pad =? 0 then intervals else pad_interval pad <$> intervals) c x.
Proof.
  unfold Intervals.merge_intervals. cbn zeta.
  set (s := if pad =? 0 then sorted intervals else _).
  assert (Hs : StronglySorted ordered s).
  { subst s. destruct (pad =? 0); [|apply pad_interval_ordered]; apply sorted_ordered. }
  rewrite (merge_fold_covers s [] [] c x); [|done|done|done].
  cbn. subst s. destruct (pad =? 0).
  - apply covers_perm, sorted_perm.
  - apply covers_perm. by rewrite sorted_perm.
Qed.

End Merge.

End IntervalsFacts.

Module IntervalsCases.
Import Intervals IntervalsFacts.

Lemma merge_intervals_disjoint_witness :
  ¬ (chrom (2, 3, 5) < chrom (1, 1, 5)) ∧ (chrom (1, 1, 5) = chrom (2, 3, 5) → hi (1, 1, 5) < lo (2, 3, 5)).
Proof.
  apply (merge_intervals_disjoint Z.lt Z.lt_irrefl Z.lt_trans Z.lt_trichotomy
           MoreExamples.docstring_intervals 0 0 1 (1, 1, 5) (2, 3, 5)).
  - vm_compute. reflexivity.
  - vm_compute. reflexivity.
  - lia.
Defined.

Lemma merge_intervals_covers_witness :
  covers (merge_intervals Z.lt MoreExamples.docstring_intervals true 0) 1 5
  ↔ covers (if 0 =? 0 then MoreExamples.docstring_intervals else pad_interval 0 <$> MoreExamples.docstring_intervals) 1 5.
Proof.
  apply (merge_intervals_covers Z.lt Z.lt_irrefl Z.lt_trans MoreExamples.docstring_intervals 0 1 5).
Defined.
End IntervalsCases.

Module ScanFacts.
Import CFloat Coverage ScanExamples.

(** The bin index [_add_to_bin_buffer] computes for a record. *)
Definition bin_pos (x : AlignedSegment * Z) : Z := int_div100 (pos x.1).

(** A call for a usable record: what becomes of the current bin, of
    its index and of the staged batches. *)
Lemma add_to_bin_buffer_bin (s s' : GenomeScanner) (a : AlignedSegment) (tell : Z) :
  unusable a = false → _add_to_bin_buffer s a tell = Some s' →
  (int_div100 (pos a) = current_pos s ∧ current_pos s' = current_pos s
   ∧ staged_reads s' = staged_reads s
   ∧ (current_bin s' = [] ∨ current_bin s' = current_bin s ++ [(a, tell)]))
  ∨ (int_div100 (pos a) ≠ current_pos s ∧ current_pos s' = int_div100 (pos a)
     ∧ current_bin s' = [(a, tell)]
     ∧ (staged_reads s' = staged_reads s
        ∨ (current_bin s ≠ [] ∧ staged_reads s' = staged_reads s ++ [current_bin s]))).
Proof.
  unfold _add_to_bin_buffer. intros -> H.
  apply bind_Some in H as (s1 & H1 & H).
  assert (Hs1 : current_bin s1 = current_bin s ∧ staged_reads s1 = staged_reads s
                ∧ current_pos s1 = current_pos s).
  { destruct (depth_d s !! rname a); [by injection H1 as <-|].
    destruct (_ <? 0); [done|]. by injection H1 as <-. }
  destruct Hs1 as (Hb & Hst & Hcp).
  set (s2 := if negb (current_chrom s1 =? rname a) then _ else _) in H.
  assert (Hs2 : current_bin s2 = current_bin s ∧ staged_reads s2 = staged_reads s
                ∧ current_pos s2 = current_pos s ∧ current_chrom s2 = rname a).
  { subst s2. destruct (Z.eqb_spec (current_chrom s1) (rname a)) as [Heq|Hne]; cbn [negb].
    - by destruct (current_cov_array s1).
    - done. }
  clearbody s2. destruct Hs2 as (Hb2 & Hst2 & Hcp2 & Hcc2).
  apply bind_Some in H as (key & _ & H).
  apply bind_Some in H as (arr & _ & H).
  apply bind_Some in H as ([cov arr'] & _ & H).
  cbn [set_depth current_bin staged_reads overlap_regions current_chrom current_pos
       max_cov reads_dropped] in H.
  rewrite Hb2, Hst2, Hcp2, Hcc2, Z.eqb_refl in H. cbn [andb] in H.
  destruct (Z.eqb_spec (int_div100 (pos a)) (current_pos s)) as [Heq|Hne].
  - left. repeat case_match; simplify_eq; cbn [set_bin current_bin staged_reads current_pos];
      split_and!; try done; try (by left); try (by right).
    all: left.
    all: match goal with H : (0 <? Z.of_nat (length ?l)) = false |- _ =>
           destruct l eqn:?; [congruence|cbn in H; apply Z.ltb_ge in H; lia] end.
  - right. repeat case_match; simplify_eq; cbn [set_bin current_bin staged_reads current_pos];
      split_and!; try done; try (by left).
    all: right; split; [|done]; intros Hnil.
    all: match goal with H : _ && _ = true |- _ =>
           rewrite ?Hb, ?Hb2 in H; rewrite Hnil in H; by cbn in H end.
Qed.

(** X10: a change of chromosome alone does not start a new batch.  The
    test [rname == self.current_chrom] comes after the assignment
    [self.current_chrom = rname], so for every usable record whose bin
    index [int(pos / 100)] is [current_pos] the call stages nothing and
    either appends the record to the current bin or drops it with the
    bin, on whatever chromosome the records of the bin are. *)
Theorem same_bin_index_joins_bin (s s' : GenomeScanner) (a : AlignedSegment) (tell : Z) :
  unusable a = false → int_div100 (pos a) = current_pos s →
  _add_to_bin_buffer s a tell = Some s' →
  staged_reads s' = staged_reads s
  ∧ (current_bin s' = current_bin s ++ [(a, tell)] ∨ current_bin s' = []).
Proof.
  intros Hu Hbin Hs'.
  destruct (add_to_bin_buffer_bin s s' a tell Hu Hs') as [(_ & _ & Hst & Hcb)|(Hne & _)].
  - split; [done|]. tauto.
  - done.
Qed.

Lemma same_bin_index_joins_bin_witness :
  ∃ s s',
    Examples.feed (Examples.new_scanner 4) 500 1 = Some s
    ∧ current_chrom s = 0
    ∧ _add_to_bin_buffer s (read_on 1 550) 9 = Some s'
    ∧ staged_reads s' = staged_reads s
    ∧ (current_bin s' = current_bin s ++ [(read_on 1 550, 9)] ∨ current_bin s' = []).
Proof.
  eexists _, _. split; [vm_compute; reflexivity|]. split; [reflexivity|].
  split; [vm_compute; reflexivity|].
  eapply (same_bin_index_joins_bin _ _ (read_on 1 550) 9).
  - reflexivity.
  - vm_compute. reflexivity.
  - vm_compute. reflexivity.
Defined.

(** The records the scanner holds, in the order it will hand them out. *)
Definition content (s : GenomeScanner) : list (AlignedSegment * Z) :=
  concat (staged_reads s) ++ current_bin s.

Lemma add_to_bin_buffer_content (s s' : GenomeScanner) (a : AlignedSegment) (tell : Z) :
  _add_to_bin_buffer s a tell = Some s' →
  content s' `sublist_of` content s ++ [(a, tell)].
Proof.
  intros Hs'. destruct (unusable a) eqn:Hu.
  { unfold _add_to_bin_buffer in Hs'. rewrite Hu in Hs'. injection Hs' as <-.
    by apply sublist_inserts_r. }
  unfold content.
  destruct (add_to_bin_buffer_bin s s' a tell Hu Hs')
    as [(_ & _ & -> & [-> | ->])|(_ & _ & -> & [-> | [_ ->]])].
  - rewrite app_nil_r. apply sublist_inserts_r, sublist_inserts_r. done.
  - by rewrite app_assoc.
  - rewrite <- app_assoc. apply sublist_app; [done|]. by apply sublist_inserts_l.
  - rewrite concat_app. cbn. rewrite app_nil_r. by rewrite <- !app_assoc.
Qed.

(** X11: the scan of the whole genome hands the records out in the order
    of the input, each one at most once.  The batches yielded by
    [_get_reads], one after the other, are a subsequence of the records
    the scanner held at the start followed by the records of the
    input. *)
Theorem get_reads_in_input_order (input : list (AlignedSegment * Z)) (s : GenomeScanner)
    (out : list (list (AlignedSegment * Z))) :
  _get_reads s input = Some out →
  concat out `sublist_of` content s ++ input.
Proof.
  revert s out. induction input as [|[aln tell] input IH]; intros s out; cbn [_get_reads].
  - intros [= <-]. rewrite app_nil_r, concat_app. unfold content.
    apply sublist_app; [done|]. destruct (0 <? _)%nat eqn:Hlen; cbn.
    + by rewrite app_nil_r.
    + apply sublist_nil_l.
  - intros H. apply bind_Some in H as (s' & Hs' & H).
    apply bind_Some in H as (out' & Hout & [= <-]).
    rewrite concat_app. unfold content at 1. rewrite <- app_assoc.
    apply sublist_app; [done|].
    etrans; [apply (IH _ _ Hout)|].
    replace (current_bin s ++ (aln, tell) :: input)
      with ((current_bin s ++ [(aln, tell)]) ++ input) by (by rewrite <- app_assoc).
    apply sublist_app; [|done].
    apply (add_to_bin_buffer_content _ _ _ _ Hs').
Qed.

Lemma get_reads_in_input_order_witness :
  ∃ out,
    _get_reads (Examples.new_scanner 4) [(read_on 0 500, 1); (read_on 0 650, 2)] = Some out
    ∧ concat out `sublist_of`
        content (Examples.new_scanner 4) ++ [(read_on 0 500, 1); (read_on 0 650, 2)].
Proof.
  eexists. split; [vm_compute; reflexivity|].
  apply (get_reads_in_input_order [(read_on 0 500, 1); (read_on 0 650, 2)]
           (Examples.new_scanner 4)).
  vm_compute. reflexivity.
Defined.

(** The batches of the scanner are whole: no staged batch is empty, the
    records of a batch have one bin index and the records of the current
    bin have the index [current_pos]. *)
Definition one_bin (batch : list (AlignedSegment * Z)) : Prop :=
  batch ≠ [] ∧ ∀ x y, x ∈ batch → y ∈ batch → bin_pos x = bin_pos y.

Record binned (s : GenomeScanner) : Prop := {
  binned_staged : Forall one_bin (staged_reads s);
  binned_current : Forall (λ x, bin_pos x = current_pos s) (current_bin s)
}.

Lemma binned_one_bin (s : GenomeScanner) :
  binned s → current_bin s ≠ [] → one_bin (current_bin s).
Proof.
  intros [_ Hc] Hne. split; [done|]. intros x y Hx Hy.
  rewrite Forall_forall in Hc. by rewrite (Hc x Hx), (Hc y Hy).
Qed.

Lemma add_to_bin_buffer_binned (s s' : GenomeScanner) (a : AlignedSegment) (tell : Z) :
  binned s → _add_to_bin_buffer s a tell = Some s' → binned s'.
Proof.
  intros Hs Hs'. destruct (unusable a) eqn:Hu.
  { unfold _add_to_bin_buffer in Hs'. rewrite Hu in Hs'. by injection Hs' as <-. }
  destruct (add_to_bin_buffer_bin s s' a tell Hu Hs')
    as [(Hbin & Hcp & Hst & Hcb)|(_ & Hcp & Hcb & Hst)].
  - split; [rewrite Hst; apply Hs|]. rewrite Hcp. destruct Hcb as [-> | ->]; [done|].
    apply Forall_app. split; [apply Hs|]. by apply Forall_singleton.
  - split.
    + destruct Hst as [-> | [Hne ->]]; [apply Hs|].
      apply Forall_app. split; [apply Hs|]. apply Forall_singleton.
      by apply binned_one_bin.
    + rewrite Hcb, Hcp. by apply Forall_singleton.
Qed.

(** X12: every batch of the whole-genome scan is one bin.  When the
    scanner starts with whole batches (as a new scanner does), each
    batch [_get_reads] yields holds at least one record and its records
    all have the same bin index [int(pos / 100)]. *)
Theorem get_reads_batches_one_bin (input : list (AlignedSegment * Z)) (s : GenomeScanner)
    (out : list (list (AlignedSegment * Z))) :
  binned s → _get_reads s input = Some out → Forall one_bin out.
Proof.
  revert s out. induction input as [|[aln tell] input IH]; intros s out Hs; cbn [_get_reads].
  - intros [= <-]. apply Forall_app. split; [apply Hs|].
    destruct (current_bin s) as [|x bin] eqn:Hbin; cbn; [done|].
    apply Forall_singleton. rewrite <- Hbin. apply binned_one_bin; [done|]. by rewrite Hbin.
  - intros H. apply bind_Some in H as (s' & Hs' & H).
    apply bind_Some in H as (out' & Hout & [= <-]).
    apply Forall_app. split; [apply Hs|].
    apply (IH s'); [|done].
    apply (add_to_bin_buffer_binned (set_staged s []) s' aln tell); [|done].
    split; [done|apply Hs].
Qed.

Lemma get_reads_batches_one_bin_witness :
  ∃ out,
    _get_reads (Examples.new_scanner 4) [(read_on 0 500, 1); (read_on 0 650, 2)] = Some out
    ∧ Forall one_bin out.
Proof.
  eexists. split; [vm_compute; reflexivity|].
  apply (get_reads_batches_one_bin [(read_on 0 500, 1); (read_on 0 650, 2)]
           (Examples.new_scanner 4)).
  - split; cbn; constructor.
  - vm_compute. reflexivity.
Defined.

Lemma add_to_buffer_size (s s' : GenomeScanner) (r : AlignedSegment) (n1 tell : Z) :
  tell ≠ -1 → add_to_buffer s r n1 tell = Some s' →
  buff_size s' = buff_size s ∧ no_tell s' = no_tell s
  ∧ (if first s =? 1
     then first s' = 0 ∧ Z.of_nat (size (read_buffer s')) ≤ Z.of_nat (size (read_buffer s)) + 1
     else first s' = first s
          ∧ Z.of_nat (size (read_buffer s'))
            ≤ Z.max (Z.of_nat (size (read_buffer s))) (buff_size s)).
Proof.
  intros Htell. unfold add_to_buffer.
  assert (Hins : Z.of_nat (size (<[n1:=r]> (read_buffer s)))
                 ≤ Z.of_nat (size (read_buffer s)) + 1).
  { destruct (read_buffer s !! n1) eqn:Hn1.
    - rewrite map_size_insert_Some by done. lia.
    - rewrite map_size_insert_None by done. lia. }
  destruct (Z.eqb_spec (first s) 1) as [Hf|Hf]; cbn [orb].
  - intros [= <-]. cbn. done.
  - destruct (Z.eqb_spec tell (-1)); [done|]. cbn [orb].
    destruct (Z.ltb_spec (Z.of_nat (size (read_buffer s))) (buff_size s)).
    + intros [= <-]. cbn. split_and!; try done. lia.
    + destruct (no_tell s) eqn:Hnt; [done|]. intros [= <-]. split_and!; try done. lia.
Qed.

(** X13: the read buffer stays within its size.  After any calls of
    [add_to_buffer] whose [tell] is not -1, as in the scan of the whole
    genome, the buffer holds at most [buff_size] records, or one more
    than it held at first if that is larger; and when the input is not
    a stream ([no_tell] false) no call raises [BufferError]: a record
    that finds the buffer full is left out. *)
Theorem read_buffer_bounded (calls : list (AlignedSegment * Z * Z)) (s : GenomeScanner) :
  Forall (λ call, call.2 ≠ -1) calls →
  (∀ s', add_all_to_buffer s calls = Some s' →
     Z.of_nat (size (read_buffer s'))
     ≤ Z.max (Z.of_nat (size (read_buffer s)) + 1) (buff_size s))
  ∧ (no_tell s = false → is_Some (add_all_to_buffer s calls)).
Proof.
  intros Hcalls.
  assert (Hgen : ∀ s0 : GenomeScanner,
    (∀ s', add_all_to_buffer s0 calls = Some s' →
       Z.of_nat (size (read_buffer s'))
       ≤ (if first s0 =? 1 then Z.max (Z.of_nat (size (read_buffer s0)) + 1) (buff_size s0)
          else Z.max (Z.of_nat (size (read_buffer s0))) (buff_size s0)))
    ∧ (no_tell s0 = false → is_Some (add_all_to_buffer s0 calls))).
  { induction Hcalls as [|[[r n1] tell] calls Htell _ IH]; intros s0; cbn [add_all_to_buffer].
    - split; [|done]. intros s' [= <-]. destruct (first s0 =? 1); lia.
    - cbn in Htell. split.
      + intros s' H. apply bind_Some in H as (s1 & Hs1 & H).
        destruct (add_to_buffer_size _ _ _ _ _ Htell Hs1) as (Hbs & _ & Hsz).
        destruct (IH s1) as [IH1 _]. specialize (IH1 s' H). rewrite Hbs in IH1.
        revert Hsz. destruct (Z.eqb_spec (first s0) 1) as [Hf|Hf]; intros [Hf1 Hsz].
        * rewrite Hf1 in IH1. cbn in IH1. lia.
        * rewrite Hf1 in IH1. destruct (Z.eqb_spec (first s0) 1); [done|]. lia.
      + intros Hnt.
        assert (is_Some (add_to_buffer s0 r n1 tell)) as [s1 Hs1].
        { unfold add_to_buffer. rewrite Hnt. by repeat case_match. }
        rewrite Hs1. cbn. apply IH.
        destruct (add_to_buffer_size _ _ _ _ _ Htell Hs1) as (_ & -> & _). done. }
  destruct (Hgen s) as [H1 H2]. split; [|done].
  intros s' Hs'. specialize (H1 s' Hs'). destruct (first s =? 1); lia.
Qed.

Lemma read_buffer_bounded_witness :
  (∀ s', add_all_to_buffer (Examples.new_scanner 4)
           [(read_on 0 500, 0, 5); (read_on 0 650, 1, 6)] = Some s' →
     Z.of_nat (size (read_buffer s'))
     ≤ Z.max (Z.of_nat (size (read_buffer (Examples.new_scanner 4))) + 1)
         (buff_size (Examples.new_scanner 4)))
  ∧ (no_tell (Examples.new_scanner 4) = false →
     is_Some (add_all_to_buffer (Examples.new_scanner 4)
                [(read_on 0 500, 0, 5); (read_on 0 650, 1, 6)])).
Proof.
  apply (read_buffer_bounded [(read_on 0 500, 0, 5); (read_on 0 650, 1, 6)]
           (Examples.new_scanner 4)).
  repeat constructor; cbn; lia.
Defined.

End ScanFacts.

Module InsertEdgeFacts.
Import Coverage.

(** X14: [get_insert_params] raises when no insert size lies above the
    median, as when all the sizes are equal or the list is empty: the
    upper MAD is then the median of an empty list, which [median]
    indexes. *)
Theorem get_insert_params_no_upper_half (pow_half : Q → Q) (L : list Z) (mads : Z) :
  L = [] ∨ (∃ med, median (inject_Z <$> sort L) = Some med
                   ∧ Forall (λ x, (inject_Z x <= med)%Q) L) →
  unscaled_upper_mad L = None ∧ get_insert_params pow_half L mads = None.
Proof.
  intros Hle.
  assert (Hmad : unscaled_upper_mad L = None).
  { destruct Hle as [->|(med & Hmed & Hle)]; [done|].
    unfold unscaled_upper_mad. rewrite Hmed. cbn [mbind option_bind].
    destruct (filter (λ x, med < x)%Q (inject_Z <$> sort L)) as [|y above] eqn:Hf; [done|].
    assert (Hy : y ∈ filter (λ x, med < x)%Q (inject_Z <$> sort L)) by (rewrite Hf; left).
    apply list_elem_of_filter in Hy as [Hlt Hy].
    apply list_elem_of_fmap in Hy as (x & -> & Hx).
    rewrite InsertFacts.sort_elem_of in Hx. rewrite Forall_forall in Hle.
    specialize (Hle x Hx). by apply Qle_not_lt in Hle. }
  split; [done|]. unfold get_insert_params, trim_outliers. by rewrite Hmad.
Qed.

Lemma get_insert_params_no_upper_half_witness :
  unscaled_upper_mad [300; 300; 300] = None
  ∧ get_insert_params (λ var, var) [300; 300; 300] 8 = None.
Proof.
  apply (get_insert_params_no_upper_half (λ var, var) [300; 300; 300] 8).
  right. exists 300%Q. split; [vm_compute; reflexivity|].
  repeat constructor; vm_compute; discriminate.
Defined.

End InsertEdgeFacts.

Module ScopeSearch.
Import CFloat Graph.

Section Scoper.

Variable is_reciprocal_overlapping : Z → Z → Z → Z → bool.
Variable span_position_distance :
  Z → Z → Z → Z → spec_float → spec_float → ReadEnum_t → bool → Z → Z → bool → bool.

#[local] Abbreviation find_other_nodes := (find_other_nodes is_reciprocal_overlapping span_position_distance).
#[local] Abbreviation search := (search is_reciprocal_overlapping span_position_distance).
#[local] Abbreviation examine_forward := (examine_forward is_reciprocal_overlapping span_position_distance).
#[local] Abbreviation examine_backward := (examine_backward is_reciprocal_overlapping span_position_distance).
#[local] Abbreviation forward_walk := (forward_walk is_reciprocal_overlapping span_position_distance).
#[local] Abbreviation backward_walk := (backward_walk is_reciprocal_overlapping span_position_distance).
#[local] Abbreviation push_found2 := (push_found2 span_position_distance).

Lemma lower_bound_below (m : multimap) (k : Z) :
  Forall (λ pp, pp.1 < k) (take (lower_bound m k) m).
Proof.
  induction m as [|qq m IH]; cbn; [done|].
  destruct (Z.ltb_spec qq.1 k); cbn; [|done]. by constructor.
Qed.

Lemma find_other_nodes_chrom_scope (self self' : PairedEndScoper)
    (node_name current_chrom current_pos chrom2 pos2 : Z) (read_enum : ReadEnum_t)
    (length_from_cigar : Z) (trust_ins_len : bool) (other_nodes : list Z) :
  current_chrom = local_chrom self →
  find_other_nodes self node_name current_chrom current_pos chrom2 pos2 read_enum
    length_from_cigar trust_ins_len = Some (other_nodes, self') →
  chrom_scope self' = chrom_scope self ∧ local_chrom self' = local_chrom self.
Proof.
  intros -> H. unfold Graph.find_other_nodes in H.
  apply bind_Some in H as (idx & _ & H).
  rewrite Z.eqb_refl in H. cbn [negb] in H.
  destruct (loci self) as [|pp m] eqn:Hloci.
  - by injection H as _ <-.
  - apply bind_Some in H as (forward_scope & _ & H). by injection H as _ <-.
Qed.

(** X15: on the chromosome it is on, [find_other_nodes] changes nothing
    but [loci].  When [current_chrom] is [local_chrom] the call leaves
    [local_chrom] and every forward scope of [chrom_scope] as they were,
    and erases from [loci] only leading entries, all of them at
    positions below [current_pos - clst_dist]: the forward scopes keep
    their entries until the chromosome changes. *)
Theorem find_other_nodes_keeps_scopes (self self' : PairedEndScoper)
    (node_name current_chrom current_pos chrom2 pos2 : Z) (read_enum : ReadEnum_t)
    (length_from_cigar : Z) (trust_ins_len : bool) (other_nodes : list Z) :
  current_chrom = local_chrom self →
  find_other_nodes self node_name current_chrom current_pos chrom2 pos2 read_enum
    length_from_cigar trust_ins_len = Some (other_nodes, self') →
  chrom_scope self' = chrom_scope self ∧ local_chrom self' = local_chrom self
  ∧ ∃ k, loci self' = drop k (loci self)
         ∧ Forall (λ pp, pp.1 < current_pos - clst_dist self) (take k (loci self)).
Proof.
  intros -> H. unfold Graph.find_other_nodes in H.
  apply bind_Some in H as (idx & _ & H).
  rewrite Z.eqb_refl in H. cbn [negb] in H.
  destruct (loci self) as [|pp m] eqn:Hloci.
  - injection H as _ <-. split_and!; [done..|]. exists O. by rewrite Hloci.
  - apply bind_Some in H as (forward_scope & _ & H). injection H as _ <-.
    cbn [set_scopes chrom_scope local_chrom loci clst_dist].
    split_and!; [done..|].
    exists (lower_bound (pp :: m) (current_pos - clst_dist self)).
    split; [done|]. apply lower_bound_below.
Qed.

Section Walk.

Variable self : PairedEndScoper.
Variables (node_name current_chrom current_pos chrom2 pos2 : Z).
Variable read_enum : ReadEnum_t.
Variable length_from_cigar : Z.
Variable trust_ins_len : bool.

(** The two buckets grew by at most [e] and [f] nodes from [w] to [w']. *)
Definition grew (e f : nat) (w w' : walk) : Prop :=
  (length (found_exact w') ≤ length (found_exact w) + e)%nat
  ∧ (length (found2 w') ≤ length (found2 w) + f)%nat.

Lemma grew_trans (e1 f1 e2 f2 : nat) (w1 w2 w3 : walk) :
  grew e1 f1 w1 w2 → grew e2 f2 w2 w3 → grew (e1 + e2) (f1 + f2) w1 w3.
Proof. unfold grew. lia. Qed.

Lemma grew_more (e f e' f' : nat) (w w' : walk) :
  grew e f w w' → (e ≤ e')%nat → (f ≤ f')%nat → grew e' f' w w'.
Proof. unfold grew. lia. Qed.

Lemma push_found2_grew (w : walk) (sep' : Z) (vitem : Z * LocalVal) :
  grew 0 1 w (push_found2 self current_pos pos2 read_enum length_from_cigar trust_ins_len
                w sep' vitem).
Proof.
  unfold grew, Graph.push_found2. cbn. destruct (spd _ _ _ _ _ _ _ _); rewrite ?length_app; cbn; lia.
Qed.

Lemma examine_forward_grew (w : walk) (vitem : Z * LocalVal) :
  grew 1 1 w (examine_forward self node_name current_chrom current_pos chrom2 pos2 read_enum
                length_from_cigar trust_ins_len w vitem).
Proof.
  unfold Graph.examine_forward.
  repeat case_match;
    try (eapply grew_more; [apply push_found2_grew|lia|lia]);
    unfold grew; cbn; rewrite ?length_app; cbn; lia.
Qed.

Lemma examine_backward_grew (w : walk) (vitem : Z * LocalVal) :
  grew 2 1 w (examine_backward self node_name current_chrom current_pos chrom2 pos2 read_enum
                length_from_cigar trust_ins_len w vitem).
Proof.
  unfold Graph.examine_backward.
  repeat case_match;
    try (eapply grew_more; [apply push_found2_grew|lia|lia]);
    unfold grew; cbn; rewrite ?length_app; cbn; lia.
Qed.

Lemma forward_walk_grew (n : nat) (forward_scope : multimap) (it : nat) (w : walk) :
  grew n n w (forward_walk self node_name current_chrom current_pos chrom2 pos2 read_enum
                length_from_cigar trust_ins_len n forward_scope it w).
Proof.
  revert it w. induction n as [|n IH]; intros it w; cbn [Graph.forward_walk].
  { unfold grew. lia. }
  destruct (forward_scope !! it) as [vitem|]; [|unfold grew; lia].
  destruct (ins_del_mismatch _ _).
  { eapply grew_more; [apply IH|lia|lia]. }
  pose proof (examine_forward_grew w vitem) as Hw.
  repeat case_match; try (eapply grew_more; [exact Hw|lia|lia]).
  apply (grew_trans 1 1 n n _ _ _ Hw (IH _ _)).
Qed.

Lemma backward_walk_grew (n : nat) (forward_scope : multimap) (it : nat) (w : walk) :
  grew (2 * n) n w
    (backward_walk self node_name current_chrom current_pos chrom2 pos2 read_enum
       length_from_cigar trust_ins_len n forward_scope it w).
Proof.
  revert it w. induction n as [|n IH]; intros it w; cbn [Graph.backward_walk].
  { unfold grew. lia. }
  destruct (forward_scope !! it) as [vitem|]; [|unfold grew; lia].
  destruct (ins_del_mismatch _ _).
  { eapply grew_more; [apply IH|lia|lia]. }
  pose proof (examine_backward_grew w vitem) as Hw.
  repeat case_match; try (eapply grew_more; [exact Hw|lia|lia]).
  eapply grew_more; [apply (grew_trans 2 1 (2 * n) n _ _ _ Hw (IH _ _))|lia|lia].
Qed.

Lemma search_grew (forward_scope : multimap) :
  let w := search self node_name current_chrom current_pos chrom2 pos2 read_enum
             length_from_cigar trust_ins_len forward_scope in
  (length (found_exact w) ≤ 12)%nat ∧ (length (found2 w) ≤ 12)%nat.
Proof.
  unfold Graph.search.
  set (w0 := {| sep := 0; found_exact := []; found2 := [] |}).
  set (w1 := if bool_decide _ then _ else w0).
  assert (Hw1 : grew 6 6 w0 w1).
  { subst w1. case_bool_decide; [apply forward_walk_grew|unfold grew; lia]. }
  clearbody w1. cbn zeta. unfold grew in Hw1. cbn in Hw1.
  destruct (found_exact w1) as [|x fe] eqn:Hfe.
  - case_bool_decide.
    + match goal with |- context [backward_walk ?a ?b ?c ?d ?e ?f ?g ?h ?i 6 ?fs ?it w1] =>
        pose proof (backward_walk_grew 6 fs it w1) as Hb end.
      unfold grew in Hb. rewrite Hfe in Hb. cbn [length] in Hb. lia.
    + rewrite Hfe. cbn. lia.
  - rewrite Hfe. cbn in *. lia.
Qed.

End Walk.

(** X16: a call of [find_other_nodes] returns at most twelve node names.
    Each of the two walks looks at no more than six entries of the
    forward scope; an entry adds one name to a bucket, and in the walk
    towards lower positions up to two to the exact bucket. *)
Theorem find_other_nodes_at_most_12 (self self' : PairedEndScoper)
    (node_name current_chrom current_pos chrom2 pos2 : Z) (read_enum : ReadEnum_t)
    (length_from_cigar : Z) (trust_ins_len : bool) (other_nodes : list Z) :
  find_other_nodes self node_name current_chrom current_pos chrom2 pos2 read_enum
    length_from_cigar trust_ins_len = Some (other_nodes, self') →
  (length other_nodes ≤ 12)%nat.
Proof.
  unfold Graph.find_other_nodes. intros H.
  apply bind_Some in H as (idx & _ & H).
  set (s1 := if negb _ then _ else self) in H. clearbody s1.
  destruct (loci s1); [injection H as <- _; cbn; lia|].
  apply bind_Some in H as (forward_scope & _ & H). injection H as <- _.
  match goal with |- context [found_exact (Graph.search ?a ?b ?s ?n ?cc ?cp ?c2 ?p2 ?re ?len ?t ?fs)] =>
    pose proof (search_grew s n cc cp c2 p2 re len t fs) as [He Hf] end.
  cbn zeta in He, Hf.
  by destruct (found_exact _).
Qed.

End Scoper.

Lemma find_other_nodes_keeps_scopes_witness :
  ∃ other_nodes self',
    Graph.find_other_nodes MapSetUtils.is_reciprocal_overlapping ScopeExamples.no_span_match
      (ScopeExamples.one_insertion 1000) 1 0 1600 0 1600 INSERTION 0 true
    = Some (other_nodes, self')
    ∧ chrom_scope self' = chrom_scope (ScopeExamples.one_insertion 1000)
    ∧ local_chrom self' = local_chrom (ScopeExamples.one_insertion 1000)
    ∧ ∃ k, loci self' = drop k (loci (ScopeExamples.one_insertion 1000))
           ∧ Forall (λ pp, pp.1 < 1600 - clst_dist (ScopeExamples.one_insertion 1000))
               (take k (loci (ScopeExamples.one_insertion 1000))).
Proof.
  eexists _, _. split; [vm_compute; reflexivity|].
  eapply (find_other_nodes_keeps_scopes MapSetUtils.is_reciprocal_overlapping
           ScopeExamples.no_span_match (ScopeExamples.one_insertion 1000) _
           1 0 1600 0 1600 INSERTION 0 true _).
  - reflexivity.
  - vm_compute. reflexivity.
Defined.

Lemma find_other_nodes_at_most_12_witness :
  ∃ other_nodes self',
    Graph.find_other_nodes MapSetUtils.is_reciprocal_overlapping ScopeExamples.no_span_match
      (ScopeExamples.one_insertion 1000) 1 0 1010 0 1010 INSERTION 0 true
    = Some (other_nodes, self')
    ∧ (length other_nodes ≤ 12)%nat.
Proof.
  eexists _, _. split; [vm_compute; reflexivity|].
  eapply (find_other_nodes_at_most_12 MapSetUtils.is_reciprocal_overlapping
           ScopeExamples.no_span_match (ScopeExamples.one_insertion 1000) _
           1 0 1010 0 1010 INSERTION 0 true _).
  vm_compute. reflexivity.
Defined.

End ScopeSearch.

Module ScopeLookup.
Import CFloat Graph.

Section Scoper.

Variable is_reciprocal_overlapping : Z → Z → Z → Z → bool.
Variable span_position_distance :
  Z → Z → Z → Z → spec_float → spec_float → ReadEnum_t → bool → Z → Z → bool → bool.

#[local] Abbreviation find_other_nodes := (find_other_nodes is_reciprocal_overlapping span_position_distance).
#[local] Abbreviation search := (search is_reciprocal_overlapping span_position_distance).
#[local] Abbreviation examine_forward := (examine_forward is_reciprocal_overlapping span_position_distance).
#[local] Abbreviation forward_walk := (forward_walk is_reciprocal_overlapping span_position_distance).

Section Walk.

Variable self : PairedEndScoper.
Variables (node_name current_chrom current_pos chrom2 pos2 : Z).
Variable read_enum : ReadEnum_t.
Variable length_from_cigar : Z.
Variable trust_ins_len : bool.

Lemma examine_forward_mono (w : walk) (vitem : Z * LocalVal) (x : Z) :
  x ∈ found_exact w →
  x ∈ found_exact (examine_forward self node_name current_chrom current_pos chrom2 pos2
                     read_enum length_from_cigar trust_ins_len w vitem).
Proof.
  intros Hx. unfold Graph.examine_forward, Graph.push_found2.
  repeat case_match; cbn; rewrite ?elem_of_app; auto.
Qed.

Lemma forward_walk_mono (n : nat) (forward_scope : multimap) (x : Z) :
  ∀ (it : nat) (w : walk),
    x ∈ found_exact w →
    x ∈ found_exact (forward_walk self node_name current_chrom current_pos chrom2 pos2
                       read_enum length_from_cigar trust_ins_len n forward_scope it w).
Proof.
  induction n as [|n IH]; intros it w Hx; cbn [Graph.forward_walk]; [done|].
  destruct (forward_scope !! it) as [vitem|]; [|done].
  destruct (ins_del_mismatch _ _); [by apply IH|].
  pose proof (examine_forward_mono w vitem x Hx) as Hx'.
  repeat case_match; auto.
Qed.

(** The walk meets an entry that an event with the coordinates of the
    query left in the forward scope. *)
Variable other : Z.
Variable other_chrom2 : Z.
Hypothesis other_differs : other ≠ node_name.
Hypothesis in_reach : 0 < max_dist self.
Hypothesis overlapping :
  current_chrom ≠ chrom2 ∨ is_reciprocal_overlapping current_pos pos2 pos2 current_pos = true.
Hypothesis same_span : 0 < length_from_cigar → span_close length_from_cigar length_from_cigar = true.

Lemma examine_forward_same (w : walk) :
  examine_forward self node_name current_chrom current_pos chrom2 pos2 read_enum
    length_from_cigar trust_ins_len w
    (pos2, make_local_val other_chrom2 current_pos other read_enum length_from_cigar)
  = {| sep := 0; found_exact := found_exact w ++ [other]; found2 := found2 w |}.
Proof.
  unfold Graph.examine_forward. cbn [fst snd make_local_val Graph.node_name Graph.pos2
    Graph.length_from_cigar].
  rewrite bool_decide_eq_true_2 by done.
  assert (negb (current_chrom =? chrom2)
          || is_reciprocal_overlapping current_pos pos2 pos2 current_pos = true) as ->.
  { destruct overlapping as [Hne| ->]; [|apply orb_true_r].
    apply Z.eqb_neq in Hne. by rewrite Hne. }
  rewrite !Z.sub_diag. change (Z.abs 0) with 0.
  apply Z.ltb_lt in in_reach. rewrite in_reach. cbn [andb].
  change (0 <? 35) with true. cbn match.
  destruct (Z.ltb_spec 0 length_from_cigar) as [Hlen|Hlen]; cbn [andb]; [|done].
  by rewrite same_span.
Qed.

Lemma ins_del_mismatch_same : ins_del_mismatch read_enum read_enum = false.
Proof. by destruct read_enum. Qed.

Lemma forward_walk_hit (n : nat) (forward_scope : multimap) (it : nat) (w : walk) :
  forward_scope !! it
  = Some (pos2, make_local_val other_chrom2 current_pos other read_enum length_from_cigar) →
  other ∈ found_exact (forward_walk self node_name current_chrom current_pos chrom2 pos2
                         read_enum length_from_cigar trust_ins_len (S n) forward_scope it w).
Proof.
  intros Hit. cbn [Graph.forward_walk]. rewrite Hit.
  cbn [snd make_local_val Graph.read_enum]. rewrite ins_del_mismatch_same.
  rewrite examine_forward_same. cbn [sep].
  assert (other ∈ found_exact w ++ [other]) as Hin.
  { apply elem_of_app. right. by left. }
  repeat case_match; try done. by apply forward_walk_mono.
Qed.

End Walk.

Lemma mm_insert_not_nil (pp : Z * LocalVal) (m : multimap) : mm_insert pp m ≠ [].
Proof. destruct m as [|qq m]; cbn; [done|]. by destruct (_ <? _). Qed.

(** The call on the chromosome the scoper is on, [loci] not empty. *)
Lemma find_other_nodes_same_chrom (self : PairedEndScoper) (idx : nat)
    (forward_scope : multimap)
    (node_name current_chrom current_pos chrom2 pos2 : Z) (read_enum : ReadEnum_t)
    (length_from_cigar : Z) (trust_ins_len : bool) :
  current_chrom = local_chrom self → loci self ≠ [] →
  forward_scope_index self chrom2 = Some idx →
  chrom_scope self !! idx = Some forward_scope →
  let self' := set_scopes self (local_chrom self)
                 (drop (lower_bound (loci self) (current_pos - clst_dist self)) (loci self))
                 (chrom_scope self) in
  let w := search self' node_name current_chrom current_pos chrom2 pos2 read_enum
             length_from_cigar trust_ins_len forward_scope in
  find_other_nodes self node_name current_chrom current_pos chrom2 pos2 read_enum
    length_from_cigar trust_ins_len
  = Some (match found_exact w with [] => found2 w | _ => found_exact w end, self').
Proof.
  intros -> Hloci Hidx Hscope. unfold Graph.find_other_nodes.
  rewrite Hidx. cbn [mbind option_bind]. rewrite Z.eqb_refl. cbn [negb].
  destruct (loci self) as [|pp m] eqn:Hm; [done|].
  cbn [chrom_scope set_scopes]. rewrite Hscope. reflexivity.
Qed.

(** X17: an event put in scope is found by the next event like it.  Let
    [add_item] record node [other] on the chromosome the scoper is on,
    in a forward scope that was empty.  A query of [find_other_nodes]
    for another node with the same positions, type and length then
    returns [other], provided [max_dist] is positive and the two tests
    the source makes on such a pair pass: the reciprocal overlap (asked
    only when both ends are on one chromosome) and, for a positive
    length, the span ratio of the length with itself. *)
Theorem add_item_then_found (self : PairedEndScoper) (idx : nat)
    (other node_name current_chrom current_pos chrom2 pos2 : Z) (read_enum : ReadEnum_t)
    (length_from_cigar : Z) (trust_ins_len : bool) :
  forward_scope_index self chrom2 = Some idx →
  chrom_scope self !! idx = Some (A:=multimap) [] →
  current_chrom = local_chrom self →
  other ≠ node_name →
  0 < max_dist self →
  current_chrom ≠ chrom2 ∨ is_reciprocal_overlapping current_pos pos2 pos2 current_pos = true →
  (0 < length_from_cigar → span_close length_from_cigar length_from_cigar = true) →
  ∃ self1 self2 other_nodes,
    add_item self other current_chrom current_pos chrom2 pos2 read_enum length_from_cigar
    = Some self1
    ∧ find_other_nodes self1 node_name current_chrom current_pos chrom2 pos2 read_enum
        length_from_cigar trust_ins_len = Some (other_nodes, self2)
    ∧ other ∈ other_nodes.
Proof.
  intros Hidx Hscope Hchrom Hne Hmax Hover Hspan.
  set (v1 := make_local_val chrom2 pos2 other read_enum length_from_cigar).
  set (v2 := make_local_val current_chrom current_pos other read_enum length_from_cigar).
  set (fs := mm_insert (pos2, v2)
               (if bool_decide (read_enum = DELETION) then mm_insert (current_pos, v1) []
                else [])).
  set (self1 := set_scopes self (local_chrom self) (mm_insert (current_pos, v1) (loci self))
                  (<[idx := fs]> (chrom_scope self))).
  eexists self1, _, _. split.
  { unfold add_item. rewrite Hidx. cbn [mbind option_bind]. rewrite Hscope.
    cbn [mbind option_bind]. reflexivity. }
  split.
  { apply find_other_nodes_same_chrom with (idx := idx) (forward_scope := fs).
    - done.
    - apply mm_insert_not_nil.
    - unfold forward_scope_index in *. cbn [chrom_scope self1 set_scopes].
      by rewrite length_insert.
    - cbn [chrom_scope self1 set_scopes]. apply list_lookup_insert_eq.
      by eapply lookup_lt_Some. }
  match goal with |- other ∈ match found_exact ?w with _ => _ end =>
    assert (Hw : other ∈ found_exact w);
      [|revert Hw; destruct (found_exact w); [by intros ?%elem_of_nil|done]] end.
  set (self2 := set_scopes self1 _ _ _).
  assert (Hmax1 : 0 < max_dist self2) by done.
  clearbody self2.
  unfold Graph.search.
  set (w0 := {| sep := 0; found_exact := []; found2 := [] |}).
  assert (Hfw : other ∈ found_exact
            (if bool_decide (lower_bound fs pos2 ≠ length fs)
             then forward_walk self2 node_name (local_chrom self) current_pos chrom2 pos2
                    read_enum length_from_cigar trust_ins_len 6 fs (lower_bound fs pos2) w0
             else w0)).
  { rewrite <- Hchrom.
    subst fs. destruct (decide (read_enum = DELETION)) as [Hdel|Hdel].
    - (* a deletion leaves two entries *)
      rewrite !(bool_decide_eq_true_2 (read_enum = DELETION)) by done.
      cbn [mm_insert fst]. destruct (Z.ltb_spec pos2 current_pos) as [Hlt|Hge].
      + cbn [lower_bound fst]. rewrite Z.ltb_irrefl. rewrite bool_decide_eq_true_2 by done.
        by apply (forward_walk_hit self2 node_name current_chrom current_pos chrom2 pos2
                    read_enum length_from_cigar trust_ins_len other current_chrom).
      + cbn [lower_bound fst]. rewrite Z.ltb_irrefl.
        destruct (Z.ltb_spec current_pos pos2) as [Hlt|Hge'].
        * rewrite bool_decide_eq_true_2 by done.
          by apply (forward_walk_hit self2 node_name current_chrom current_pos chrom2 pos2
                      read_enum length_from_cigar trust_ins_len other current_chrom).
        * assert (current_pos = pos2) as Heq by lia.
          rewrite bool_decide_eq_true_2 by done.
          subst v1. rewrite <- Heq at 2.
          apply (forward_walk_hit self2 node_name current_chrom current_pos chrom2 pos2
                   read_enum length_from_cigar trust_ins_len other chrom2); try done.
          cbn. by rewrite Heq.
    - rewrite !(bool_decide_eq_false_2 (read_enum = DELETION)) by done.
      cbn [mm_insert lower_bound fst]. rewrite Z.ltb_irrefl.
      rewrite bool_decide_eq_true_2 by done.
      by apply (forward_walk_hit self2 node_name current_chrom current_pos chrom2 pos2
                  read_enum length_from_cigar trust_ins_len other current_chrom). }
  rewrite <- Hchrom in *.
  match goal with H : other ∈ found_exact ?w |- _ => destruct (found_exact w) eqn:Hfe end.
  - by apply elem_of_nil in Hfw.
  - rewrite Hfe. done.
Qed.

End Scoper.

Lemma add_item_then_found_witness :
  ∃ self1 self2 other_nodes,
    add_item MoreExamples.on_chrom_0 0 0 1000 0 1500 DELETION 500 = Some self1
    ∧ Graph.find_other_nodes MapSetUtils.is_reciprocal_overlapping
        ScopeExamples.no_span_match self1 1 0 1000 0 1500 DELETION 500 true
      = Some (other_nodes, self2)
    ∧ 0 ∈ other_nodes.
Proof.
  apply (add_item_then_found MapSetUtils.is_reciprocal_overlapping
           ScopeExamples.no_span_match MoreExamples.on_chrom_0 0 0 1 0 1000 0 1500 DELETION 500 true).
  - reflexivity.
  - reflexivity.
  - reflexivity.
  - discriminate.
  - reflexivity.
  - right. vm_compute. reflexivity.
  - intros _. vm_compute. reflexivity.
Defined.

End ScopeLookup.

Module TemplatesFacts.
Import Graph GraphFacts Templates.

Lemma assoc_weight_app (y : Z) (l l' : list (Z * Z)) :
  assoc_weight y (l ++ l') = if bool_decide (y ∈ l.*1) then assoc_weight y l
                             else assoc_weight y l'.
Proof.
  induction l as [|[v w] l IH]; cbn.
  - rewrite bool_decide_eq_false_2; [done|apply not_elem_of_nil].
  - destruct (Z.eqb_spec v y) as [->|Hne].
    + rewrite bool_decide_eq_true_2; [done|left].
    + rewrite IH. apply (f_equal (λ b : bool, if b then _ else _)).
      apply bool_decide_ext. rewrite elem_of_cons. intuition congruence.
Qed.

(** An edge of weight below 2 between two nodes that were not linked
    changes no edge that the partitioning follows. *)
Lemma strong_addEdge (G : Py_SimpleGraph) (u v w x y : Z) :
  hasEdge G u v = false → w < 2 → strong (addEdge G u v w) x y ↔ strong G x y.
Proof.
  intros Hedge Hw.
  destruct (has_node G u && has_node G v) eqn:Hnodes.
  2: { rewrite addEdge_unchanged; [done|]. by rewrite Hnodes, orb_true_r. }
  apply andb_true_iff in Hnodes as [Hu Hv].
  unfold strong, weight, neighbors. rewrite adj_of_addEdge by done.
  rewrite assoc_weight_app, fmap_app, elem_of_app.
  set (new := _ ++ _).
  assert (Hnew : ∀ z, assoc_weight z new < 2).
  { intros z. subst new. repeat case_bool_decide; cbn; repeat case_match; lia. }
  case_bool_decide as Hin.
  - tauto.
  - specialize (Hnew y). split; [lia|tauto].
Qed.

Lemma length_addEdge (G : Py_SimpleGraph) (u v w : Z) :
  length (adjList (addEdge G u v w)) = length (adjList G).
Proof.
  unfold addEdge. repeat case_match; cbn; rewrite ?length_alter; done.
Qed.

(** The graph [G'] has the nodes of [G] and the same edges of weight 2
    and more. *)
Definition same_strong (G G' : Py_SimpleGraph) : Prop :=
  length (adjList G') = length (adjList G) ∧ ∀ x y, strong G' x y ↔ strong G x y.

Lemma same_strong_refl (G : Py_SimpleGraph) : same_strong G G.
Proof. by split. Qed.

Lemma same_strong_trans (G1 G2 G3 : Py_SimpleGraph) :
  same_strong G1 G2 → same_strong G2 G3 → same_strong G1 G3.
Proof.
  intros [Hl1 Hs1] [Hl2 Hs2]. split; [congruence|].
  intros x y. by rewrite Hs2, Hs1.
Qed.

Lemma same_strong_link (G : Py_SimpleGraph) (u v : Z) :
  same_strong G (if hasEdge G u v then G else addEdge G u v 1).
Proof.
  destruct (hasEdge G u v) eqn:Hedge; [apply same_strong_refl|].
  split; [apply length_addEdge|]. intros x y. by apply strong_addEdge.
Qed.

Lemma join_step_same (G : Py_SimpleGraph) (primary : option Z) (uv : align * align) :
  same_strong G (join_step (G, primary) uv).1.
Proof. destruct uv as [[[? u] ?] [[? v] ?]]. cbn. apply same_strong_link. Qed.

Lemma join_fold_same (pairs : list (align * align)) (G : Py_SimpleGraph) (primary : option Z) :
  same_strong G (foldl join_step (G, primary) pairs).1.
Proof.
  revert G primary. induction pairs as [|uv pairs IH]; intros G primary; cbn [foldl].
  - apply same_strong_refl.
  - pose proof (join_step_same G primary uv) as Hstep.
    destruct (join_step (G, primary) uv) as [G1 primary1]. cbn in Hstep.
    by apply (same_strong_trans _ G1).
Qed.

Lemma join_aligns_same (G : Py_SimpleGraph) (aligns : list align) :
  same_strong G (join_aligns G aligns).1.
Proof.
  unfold join_aligns. destruct aligns as [|[[? node] flag] [|y aligns]];
    [apply same_strong_refl..|].
  match goal with |- context [foldl join_step (G, None) ?pairs] =>
    pose proof (join_fold_same pairs G None) as Hfold;
    destruct (foldl join_step (G, None) pairs) as [G1 primary1] end.
  done.
Qed.

Lemma add_template_same (G G' : Py_SimpleGraph) (arr : list Z) :
  add_template G arr = Some G' → same_strong G G'.
Proof.
  unfold add_template. intros H. apply bind_Some in H as (aligns & _ & H).
  pose proof (join_aligns_same G (filter (λ x, Z.land x.2 64 ≠ 0) aligns)) as H1.
  destruct (join_aligns G _) as [G1 primary1]. cbn in H1.
  pose proof (join_aligns_same G1 (filter (λ x, Z.land x.2 64 = 0) aligns)) as H2.
  destruct (join_aligns G1 _) as [G2 primary2]. cbn in H2.
  injection H as <-. apply (same_strong_trans _ G1); [done|].
  apply (same_strong_trans _ G2); [done|].
  destruct primary1 as [p1|], primary2 as [p2|]; try apply same_strong_refl.
  apply same_strong_link.
Qed.



(** The tables [TemplateEdges.add] builds. *)
Inductive filled : gmap string (list Z) → Prop :=
  | filled_new : filled ∅
  | filled_add t name flag node query_start :
      filled t → filled (TemplateEdges_add t name flag node query_start).

Lemma slices_snoc (arr : list Z) (a b c0 : Z) :
  is_Some (slices arr) → is_Some (slices (arr ++ [a; b; c0])).
Proof.
  revert arr. fix IH 1. intros [|x [|y [|z arr]]]; cbn; try (by intros [? ?]).
  intros H. destruct (slices arr) as [l|] eqn:Hl; [|by destruct H].
  destruct (IH arr) as [l' Hl']; [by rewrite Hl|]. rewrite Hl'. done.
Qed.

Lemma filled_slices (t : gmap string (list Z)) (name : string) (arr : list Z) :
  filled t → t !! name = Some arr → is_Some (slices arr).
Proof.
  intros Ht. revert name arr. induction Ht as [|t name' flag node qs Ht IH]; intros name arr.
  - by rewrite lookup_empty.
  - unfold TemplateEdges_add. destruct (decide (name' = name)) as [->|Hne].
    + rewrite lookup_insert_eq. intros [= <-]. apply slices_snoc.
      destruct (t !! name) as [arr'|] eqn:Harr; cbn; [by apply (IH name)|done].
    + rewrite lookup_insert_ne by done. apply IH.
Qed.

Lemma add_template_returns (G : Py_SimpleGraph) (arr : list Z) :
  is_Some (slices arr) → is_Some (add_template G arr).
Proof.
  intros [aligns Harr]. unfold add_template. rewrite Harr. cbn [mbind option_bind].
  destruct (join_aligns G _) as [G1 primary1]. by destruct (join_aligns G1 _) as [G2 primary2].
Qed.

(** X19: [add_template_edges] does not fail on what [TemplateEdges.add]
    stored.  Every array of a table built by [add] holds whole triples,
    so no [arr[ii + 2]] leaves an array, whatever graph the edges are
    added to and in whatever order the templates are visited. *)
Theorem add_template_edges_returns (t : gmap string (list Z)) (items : list (string * list Z))
    (G : Py_SimpleGraph) :
  filled t → items ≡ₚ map_to_list t → is_Some (add_template_edges G items).
Proof.
  intros Ht Hitems.
  assert (Hall : Forall (λ item, is_Some (slices item.2)) items).
  { apply Forall_forall. intros [name arr] Hin. rewrite Hitems in Hin.
    apply elem_of_map_to_list in Hin. by apply (filled_slices t name). }
  clear Hitems Ht. unfold add_template_edges. revert G.
  induction Hall as [|[name arr] items [aligns Harr] _ IH]; intros G; cbn [foldl]; [done|].
  cbn [mbind option_bind snd].
  destruct (add_template_returns G arr) as [G1 ->]; [by exists aligns|]. apply IH.
Qed.

Lemma add_template_edges_returns_witness :
  is_Some (add_template_edges Examples.two_pairs
             [("q"%string, [0; 1; 65; 0; 3; 129]); ("r"%string, [0; 2; 65])]).
Proof.
  apply (add_template_edges_returns
           (TemplateEdges_add
              (TemplateEdges_add (TemplateEdges_add ∅ "q" 65 1 0) "r" 65 2 0) "q" 129 3 0)).
  - repeat constructor.
  - vm_compute. reflexivity.
Defined.

End TemplatesFacts.

Module SitesFacts.
Import Graph Sites.

Lemma drop_behind_all (pos cluster_dist : Z) (s : list Site) :
  ∀ p, s ≠ [] → site_start p < pos - cluster_dist →
       Forall (λ q, site_start q < pos - cluster_dist) (tail s) →
       drop_behind pos cluster_dist p s = None.
Proof.
  induction s as [|p0 s IH]; intros p Hne Hp Hall; [done|].
  cbn [drop_behind]. apply Z.ltb_lt in Hp. rewrite Hp. cbn [length andb Nat.ltb Nat.leb].
  destruct s as [|p' s']; [done|]. cbn [tail] in Hall.
  apply Forall_cons in Hall as [Hp' Hall]. by apply IH.
Qed.

(** X20: [add_any_sites] raises [IndexError] when every site still queued
    for the chromosome starts before [pos - cluster_dist].  The first
    loop then pops the last site and reads [s[0]] from the empty
    deque. *)
Theorem add_any_sites_all_behind (self : SiteAdder) (chrom pos : Z) (G : Py_SimpleGraph)
    (pe_scope : PairedEndScoper) (node_to_name : NodeToName) (cluster_dist : Z)
    (s : list Site) :
  sites_queue self !! chrom = Some s → s ≠ [] → 0 ≤ cluster_dist →
  Forall (λ p, site_start p < pos - cluster_dist) s →
  add_any_sites self chrom pos G pe_scope node_to_name cluster_dist = None.
Proof.
  intros Hs Hne Hcd Hall. unfold add_any_sites. rewrite Hs.
  destruct s as [|p s']; [done|]. apply Forall_cons in Hall as [Hp Hall].
  destruct (Z.ltb_spec (pos + cluster_dist) (site_start p)); [lia|].
  by rewrite drop_behind_all.
Qed.

Lemma add_any_sites_all_behind_witness :
  add_any_sites SiteExamples.one_site 1 5000 empty_graph ScopeExamples.new_scoper
    NodeToName_empty 500 = None.
Proof.
  apply (add_any_sites_all_behind SiteExamples.one_site 1 5000 empty_graph
           ScopeExamples.new_scoper NodeToName_empty 500 [SiteExamples.deletion_at 1 100]).
  - reflexivity.
  - discriminate.
  - lia.
  - repeat constructor.
Defined.

Lemma mm_insert_keeps (pp : Z * LocalVal) (m : multimap) : m ⊆ mm_insert pp m.
Proof.
  intros x Hx. induction m as [|qq m IH]; [by apply elem_of_nil in Hx|].
  cbn. apply elem_of_cons in Hx as [->|Hx]; destruct (pp.1 <? qq.1);
    rewrite ?elem_of_cons; auto.
Qed.

(** Every entry of the scopes of [pe] is in the scopes of [pe']. *)
Definition scopes_kept (pe pe' : PairedEndScoper) : Prop :=
  loci pe ⊆ loci pe'
  ∧ ∀ idx scope, chrom_scope pe !! idx = Some scope →
                 ∃ scope', chrom_scope pe' !! idx = Some scope' ∧ scope ⊆ scope'.

Lemma scopes_kept_refl (pe : PairedEndScoper) : scopes_kept pe pe.
Proof. split; [done|]. intros idx scope H. by exists scope. Qed.

Lemma scopes_kept_trans (pe1 pe2 pe3 : PairedEndScoper) :
  scopes_kept pe1 pe2 → scopes_kept pe2 pe3 → scopes_kept pe1 pe3.
Proof.
  intros [Hl1 Hs1] [Hl2 Hs2]. split; [by etrans|].
  intros idx scope H. destruct (Hs1 idx scope H) as (scope' & H' & Hsub).
  destruct (Hs2 idx scope' H') as (scope'' & H'' & Hsub'). exists scope''. split; [done|].
  by etrans.
Qed.

Lemma add_item_kept (pe pe' : PairedEndScoper)
    (node_name current_chrom current_pos chrom2 pos2 : Z) (read_enum : ReadEnum_t)
    (length_from_cigar : Z) :
  add_item pe node_name current_chrom current_pos chrom2 pos2 read_enum length_from_cigar
  = Some pe' →
  scopes_kept pe pe'.
Proof.
  unfold add_item. intros H. apply bind_Some in H as (idx & _ & H).
  apply bind_Some in H as (forward_scope & Hfs & [= <-]). split.
  - cbn. apply mm_insert_keeps.
  - intros idx' scope Hscope. cbn [chrom_scope set_scopes].
    destruct (decide (idx = idx')) as [<-|Hne].
    + rewrite list_lookup_insert_eq by (by eapply lookup_lt_Some).
      eexists. split; [done|]. rewrite Hfs in Hscope. injection Hscope as <-.
      etrans; [|apply mm_insert_keeps]. case_bool_decide; [apply mm_insert_keeps|done].
    + rewrite list_lookup_insert_ne by done. by exists scope.
Qed.

(** The zero row [add_any_sites] writes for a site. *)
Definition zero_row : node_key := (0, 0, 0, 0, 0, 0, 0).

(** What a call added: the sites [added], in this order, each as a node
    of its own with a zero row. *)
Record added_sites (chrom : Z) (added : list Site) (w w' : world) : Prop := {
  added_nodes : adjList w'.1.1.2 = adjList w.1.1.2 ++ replicate (length added) [];
  added_rows : w'.2 = foldl (λ n _, NodeToName_append n 0 0 0 0 0 0 0) w.2 added;
  added_count : count w'.1.1.1 = count w.1.1.1 + Z.of_nat (length added);
  added_index : ∀ k : Z,
    sites_index w'.1.1.1 !! k =
      let first := Z.of_nat (length (adjList w.1.1.2)) in
      if bool_decide (first ≤ k < first + Z.of_nat (length added))
      then added !! Z.to_nat (k - first)
      else sites_index w.1.1.1 !! k;
  added_kept : scopes_kept w.1.2 w'.1.2;
  added_chrom : added ≠ [] → local_chrom w'.1.2 = chrom;
  added_same : added = [] → w' = w
}.

Lemma added_sites_none (chrom : Z) (w : world) : added_sites chrom [] w w.
Proof.
  split; cbn; try done.
  - by rewrite app_nil_r.
  - lia.
  - intros k. rewrite bool_decide_eq_false_2; [done|lia].
  - apply scopes_kept_refl.
Qed.

Lemma add_to_scope_fields (self : SiteAdder) (site : Site) :
  sites_index (add_to_scope self site) = sites_index self
  ∧ count (add_to_scope self site) = count self.
Proof. unfold add_to_scope. by destruct (_ =? _). Qed.

Lemma add_site_added (chrom : Z) (site : Site) (w w' : world) :
  add_site chrom site w = Some w' → added_sites chrom [site] w w'.
Proof.
  destruct w as [[[self G] pe] n]. unfold add_site.
  destruct (site_event site) as [read_enum len]. cbn [addNode].
  intros H. apply bind_Some in H as (pe1 & Hadd & [= <-]).
  match goal with |- context [add_to_scope ?sa site] =>
    destruct (add_to_scope_fields sa site) as [Hidx Hcount] end.
  split; cbn [fst snd length replicate foldl].
  - done.
  - done.
  - rewrite Hcount. cbn. lia.
  - intros k. rewrite Hidx. cbn [sites_index].
    case_bool_decide as Hk.
    + assert (k = Z.of_nat (length (adjList G))) as -> by lia.
      rewrite Z.sub_diag. cbn. apply lookup_insert_eq.
    + apply lookup_insert_ne. lia.
  - apply add_item_kept in Hadd. destruct Hadd as [Hl Hs]. split; [done|]. apply Hs.
  - done.
  - done.
Qed.

Lemma added_sites_app (chrom : Z) (l1 l2 : list Site) (w1 w2 w3 : world) :
  added_sites chrom l1 w1 w2 → added_sites chrom l2 w2 w3 →
  added_sites chrom (l1 ++ l2) w1 w3.
Proof.
  intros [Hn1 Hr1 Hc1 Hi1 Hk1 Hch1 Hs1] [Hn2 Hr2 Hc2 Hi2 Hk2 Hch2 Hnil]. split.
  - rewrite Hn2, Hn1, length_app, replicate_add. by rewrite app_assoc.
  - by rewrite Hr2, Hr1, foldl_app.
  - rewrite Hc2, Hc1, length_app. lia.
  - intros k. rewrite Hi2, Hi1. cbn zeta. rewrite Hn1, !length_app, length_replicate.
    repeat case_bool_decide; try lia.
    + rewrite lookup_app_r by lia. f_equal. lia.
    + by rewrite lookup_app_l by lia.
    + done.
  - by apply (scopes_kept_trans _ w2.1.2).
  - intros Hne. destruct l2 as [|s2 l2]; [|by apply Hch2].
    rewrite Hnil by done. apply Hch1. by rewrite app_nil_r in Hne.
  - intros [-> ->]%app_eq_nil. by rewrite Hnil, Hs1.
Qed.

Lemma add_in_reach_added (chrom pos cluster_dist : Z) (s : list Site) :
  ∀ (p : Site) (w w' : world) (rest : list Site),
    head s = Some p →
    add_in_reach chrom pos cluster_dist p s w = Some (rest, w') →
    ∃ added, s = added ++ rest ∧ added_sites chrom added w w'
             ∧ Forall (λ q, Z.abs (site_start q - pos) < cluster_dist) added.
Proof.
  induction s as [|p0 s IH]; intros p w w' rest Hhead; [done|].
  cbn in Hhead. injection Hhead as ->. cbn [add_in_reach].
  destruct (Z.ltb_spec (Z.abs (site_start p - pos)) cluster_dist) as [Hreach|Hfar];
    cbn [length andb Nat.ltb Nat.leb].
  2: { intros [= <- <-]. exists []. split_and!; [done|apply added_sites_none|done]. }
  intros H. apply bind_Some in H as (w1 & Hsite & H).
  apply add_site_added in Hsite.
  destruct s as [|p' s'].
  - injection H as <- <-. exists [p]. split_and!; [done|done|by constructor].
  - destruct (IH p' w1 w' rest eq_refl H) as (added & Hs & Hadded & Hall).
    exists (p :: added). split_and!.
    + by rewrite Hs.
    + by apply (added_sites_app chrom [p] added w w1 w').
    + by constructor.
Qed.

Lemma drop_behind_split (pos cluster_dist : Z) (s : list Site) :
  ∀ (p p' : Site) (s' : list Site),
    head s = Some p →
    drop_behind pos cluster_dist p s = Some (p', s') →
    ∃ behind, s = behind ++ s' ∧ head s' = Some p'
              ∧ Forall (λ q, site_start q < pos - cluster_dist) behind.
Proof.
  induction s as [|p0 s IH]; intros p p' s' Hhead; [done|].
  cbn in Hhead. injection Hhead as ->. cbn [drop_behind].
  destruct (Z.ltb_spec (site_start p) (pos - cluster_dist)) as [Hbehind|Hnot];
    cbn [length andb Nat.ltb Nat.leb].
  2: { intros [= <- <-]. by exists []. }
  destruct s as [|p1 s1]; [done|]. intros H.
  destruct (IH p1 p' s' eq_refl H) as (behind & Hs & Hhead' & Hall).
  exists (p :: behind). split_and!; [by rewrite Hs|done|by constructor].
Qed.

Lemma add_any_sites_world (self self' : SiteAdder) (chrom pos : Z) (G G' : Py_SimpleGraph)
    (pe_scope pe_scope' : PairedEndScoper) (node_to_name node_to_name' : NodeToName)
    (cluster_dist : Z) :
  add_any_sites self chrom pos G pe_scope node_to_name cluster_dist
  = Some (self', G', pe_scope', node_to_name') →
  ∃ behind added rest self1,
    default [] (sites_queue self !! chrom) = behind ++ added ++ rest
    ∧ default [] (sites_queue self' !! chrom) = rest
    ∧ Forall (λ q, site_start q < pos - cluster_dist) behind
    ∧ Forall (λ q, Z.abs (site_start q - pos) < cluster_dist) added
    ∧ added_sites chrom added (self, G, pe_scope, node_to_name)
        (self1, G', pe_scope', node_to_name')
    ∧ sites_index self' = sites_index self1 ∧ count self' = count self1.
Proof.
  unfold add_any_sites. intros H.
  assert (Hsame : Some (self, G, pe_scope, node_to_name)
                  = Some (self', G', pe_scope', node_to_name') →
            ∃ behind added rest self1,
              default [] (sites_queue self !! chrom) = behind ++ added ++ rest
              ∧ default [] (sites_queue self' !! chrom) = rest
              ∧ Forall (λ q, site_start q < pos - cluster_dist) behind
              ∧ Forall (λ q, Z.abs (site_start q - pos) < cluster_dist) added
              ∧ added_sites chrom added (self, G, pe_scope, node_to_name)
                  (self1, G', pe_scope', node_to_name')
              ∧ sites_index self' = sites_index self1 ∧ count self' = count self1).
  { intros [= <- <- <- <-]. exists [], [], (default [] (sites_queue self !! chrom)), self.
    split_and!; try done. apply added_sites_none. }
  destruct (sites_queue self !! chrom) as [s|] eqn:Hq; [|by apply Hsame].
  destruct s as [|p s0]; [by apply Hsame|].
  destruct (pos + cluster_dist <? site_start p); [by apply Hsame|]. clear Hsame.
  apply bind_Some in H as ([p1 s1] & Hdrop & H).
  apply bind_Some in H as ([rest [[[self1 G1] pe1] n1]] & Hreach & [= <- <- <- <-]).
  destruct (drop_behind_split pos cluster_dist (p :: s0) p p1 s1 eq_refl Hdrop)
    as (behind & Hs & Hhead & Hbehind).
  destruct (add_in_reach_added _ _ _ _ _ _ _ _ Hhead Hreach) as (added & Hs1 & Hadded & Hall).
  exists behind, added, rest, self1. split_and!; try done.
  - cbn. by rewrite Hs, Hs1.
  - cbn. by rewrite lookup_insert_eq.
Qed.

(** The longest prefix of [l] whose elements all pass the test. *)
Fixpoint leading {A} (test : A → bool) (l : list A) : list A :=
  match l with
  | [] => []
  | x :: l => if test x then x :: leading test l else []
  end.

(** The call returns before its loops: no deque for the chromosome, an
    empty deque, or a first site more than [cluster_dist] ahead of
    [pos]. *)
Definition returns_early (self : SiteAdder) (chrom pos cluster_dist : Z) : bool :=
  match sites_queue self !! chrom with
  | Some (p :: _) => pos + cluster_dist <? site_start p
  | _ => true
  end.

(** The sites at the front of the deque that start before
    [pos - cluster_dist], and the sites that follow them and start less
    than [cluster_dist] from [pos]. *)
Definition sites_behind (self : SiteAdder) (chrom pos cluster_dist : Z) : list Site :=
  if returns_early self chrom pos cluster_dist then []
  else leading (λ q, site_start q <? pos - cluster_dist)
         (default [] (sites_queue self !! chrom)).

Definition sites_in_reach (self : SiteAdder) (chrom pos cluster_dist : Z) : list Site :=
  if returns_early self chrom pos cluster_dist then []
  else leading (λ q, Z.abs (site_start q - pos) <? cluster_dist)
         (drop (length (sites_behind self chrom pos cluster_dist))
            (default [] (sites_queue self !! chrom))).

Lemma drop_behind_leading (pos cluster_dist : Z) (s : list Site) :
  ∀ (p p' : Site) (s' : list Site),
    head s = Some p →
    drop_behind pos cluster_dist p s = Some (p', s') →
    s = leading (λ q, site_start q <? pos - cluster_dist) s ++ s' ∧ head s' = Some p'.
Proof.
  induction s as [|p0 s IH]; intros p p' s' Hhead; [done|].
  cbn in Hhead. injection Hhead as ->. cbn [drop_behind leading].
  destruct (site_start p <? pos - cluster_dist); cbn [length andb Nat.ltb Nat.leb].
  2: { by intros [= <- <-]. }
  destruct s as [|p1 s1]; [done|]. intros H.
  destruct (IH p1 p' s' eq_refl H) as [Hs Hhead']. split; [|done].
  cbn [app]. by rewrite <- Hs.
Qed.

Lemma add_in_reach_leading (chrom pos cluster_dist : Z) (s : list Site) :
  ∀ (p : Site) (w w' : world) (rest : list Site),
    head s = Some p →
    add_in_reach chrom pos cluster_dist p s w = Some (rest, w') →
    s = leading (λ q, Z.abs (site_start q - pos) <? cluster_dist) s ++ rest
    ∧ added_sites chrom (leading (λ q, Z.abs (site_start q - pos) <? cluster_dist) s) w w'.
Proof.
  induction s as [|p0 s IH]; intros p w w' rest Hhead; [done|].
  cbn in Hhead. injection Hhead as ->. cbn [add_in_reach leading].
  destruct (Z.abs (site_start p - pos) <? cluster_dist); cbn [length andb Nat.ltb Nat.leb].
  2: { intros [= <- <-]. split; [done|apply added_sites_none]. }
  intros H. apply bind_Some in H as (w1 & Hsite & H).
  apply add_site_added in Hsite.
  destruct s as [|p' s'].
  - injection H as <- <-. by split.
  - destruct (IH p' w1 w' rest eq_refl H) as [Hs Hadded]. split.
    + cbn [app]. by rewrite <- Hs.
    + by apply (added_sites_app chrom [p] _ w w1 w').
Qed.

Lemma add_any_sites_cut (self self' : SiteAdder) (chrom pos : Z) (G G' : Py_SimpleGraph)
    (pe_scope pe_scope' : PairedEndScoper) (node_to_name node_to_name' : NodeToName)
    (cluster_dist : Z) :
  add_any_sites self chrom pos G pe_scope node_to_name cluster_dist
  = Some (self', G', pe_scope', node_to_name') →
  ∃ self1,
    default [] (sites_queue self !! chrom)
    = sites_behind self chrom pos cluster_dist
      ++ sites_in_reach self chrom pos cluster_dist
      ++ default [] (sites_queue self' !! chrom)
    ∧ added_sites chrom (sites_in_reach self chrom pos cluster_dist)
        (self, G, pe_scope, node_to_name) (self1, G', pe_scope', node_to_name')
    ∧ sites_index self' = sites_index self1 ∧ count self' = count self1.
Proof.
  unfold add_any_sites, sites_in_reach, sites_behind, returns_early. intros H.
  destruct (sites_queue self !! chrom) as [s|] eqn:Hq.
  2: { injection H as <- <- <- <-. exists self. rewrite Hq.
       split_and!; [done|apply added_sites_none|done|done]. }
  destruct s as [|p s0].
  { injection H as <- <- <- <-. exists self. rewrite Hq.
    split_and!; [done|apply added_sites_none|done|done]. }
  destruct (pos + cluster_dist <? site_start p).
  { injection H as <- <- <- <-. exists self. rewrite Hq.
    split_and!; [done|apply added_sites_none|done|done]. }
  apply bind_Some in H as ([p1 s1] & Hdrop & H).
  apply bind_Some in H as ([rest [[[self1 G1] pe1] n1]] & Hreach & [= <- <- <- <-]).
  destruct (drop_behind_leading pos cluster_dist (p :: s0) p p1 s1 eq_refl Hdrop)
    as [Hs Hhead].
  destruct (add_in_reach_leading _ _ _ _ _ _ _ _ Hhead Hreach) as [Hs1 Hadded].
  cbn [default from_option id].
  assert (Hdrop' : drop (length (leading (λ q, site_start q <? pos - cluster_dist) (p :: s0)))
                     (p :: s0) = s1).
  { rewrite Hs at 2. by rewrite drop_app_length. }
  rewrite Hdrop'. exists self1. split_and!; [|done|done|done].
  cbn [sites_queue set_queue]. rewrite lookup_insert_eq. cbn [default from_option id].
  by rewrite <- Hs1.
Qed.

(** X21: what a call of [add_any_sites] that returns has done.  The deque
    of the chromosome is cut in three: [sites_behind], the longest run of
    leading sites that start before [pos - cluster_dist], is dropped;
    [sites_in_reach], the longest run of sites after them that start
    less than [cluster_dist] from [pos], is added; the rest stays
    queued.  Both runs are empty for a call that returns before its
    loops.  Each added site becomes a new node of the graph without
    edges, with a row of zeros in the node table and an entry in
    [sites_index] under its node id, and [count] grows by their number:
    node ids, rows and sites stay in step.  The scoper is the same when
    no site is added, else its [local_chrom] is [chrom]. *)
Theorem add_any_sites_adds (self self' : SiteAdder) (chrom pos : Z) (G G' : Py_SimpleGraph)
    (pe_scope pe_scope' : PairedEndScoper) (node_to_name node_to_name' : NodeToName)
    (cluster_dist : Z) :
  add_any_sites self chrom pos G pe_scope node_to_name cluster_dist
  = Some (self', G', pe_scope', node_to_name') →
  let behind := sites_behind self chrom pos cluster_dist in
  let added := sites_in_reach self chrom pos cluster_dist in
  default [] (sites_queue self !! chrom)
  = behind ++ added ++ default [] (sites_queue self' !! chrom)
  ∧ adjList G' = adjList G ++ replicate (length added) []
  ∧ node_to_name' = foldl (λ n _, NodeToName_append n 0 0 0 0 0 0 0) node_to_name added
  ∧ count self' = count self + Z.of_nat (length added)
  ∧ (∀ k : Z,
       sites_index self' !! k =
         let first := Z.of_nat (length (adjList G)) in
         if bool_decide (first ≤ k < first + Z.of_nat (length added))
         then added !! Z.to_nat (k - first)
         else sites_index self !! k)
  ∧ (added = [] → pe_scope' = pe_scope)
  ∧ (added ≠ [] → local_chrom pe_scope' = chrom).
Proof.
  intros H behind added.
  destruct (add_any_sites_cut _ _ _ _ _ _ _ _ _ _ _ H) as (self1 & Hq & Hadded & Hidx & Hcount).
  destruct Hadded as [Hn Hr Hc Hi _ Hchrom Hsame]. cbn [fst snd] in *.
  split; [done|]. split; [done|]. split; [done|]. split; [by rewrite Hcount|].
  split; [intros k; by rewrite Hidx|]. split; [|done].
  intros Hnil. specialize (Hsame Hnil). by injection Hsame.
Qed.

Lemma add_any_sites_adds_witness :
  ∃ self' G' pe_scope' node_to_name',
    add_any_sites SiteExamples.three_sites 1 5000 empty_graph ScopeExamples.new_scoper
      NodeToName_empty 500 = Some (self', G', pe_scope', node_to_name')
    ∧ sites_behind SiteExamples.three_sites 1 5000 500 = [SiteExamples.deletion_at 1 100]
    ∧ sites_in_reach SiteExamples.three_sites 1 5000 500 = [SiteExamples.deletion_at 1 4900]
    ∧ default [] (sites_queue self' !! 1) = [SiteExamples.deletion_at 1 9000]
    ∧ let behind := sites_behind SiteExamples.three_sites 1 5000 500 in
      let added := sites_in_reach SiteExamples.three_sites 1 5000 500 in
      default [] (sites_queue SiteExamples.three_sites !! 1)
      = behind ++ added ++ default [] (sites_queue self' !! 1)
      ∧ adjList G' = adjList empty_graph ++ replicate (length added) []
      ∧ node_to_name'
        = foldl (λ n _, NodeToName_append n 0 0 0 0 0 0 0) NodeToName_empty added
      ∧ count self' = count SiteExamples.three_sites + Z.of_nat (length added)
      ∧ (∀ k : Z,
           sites_index self' !! k =
             let first := Z.of_nat (length (adjList empty_graph)) in
             if bool_decide (first ≤ k < first + Z.of_nat (length added))
             then added !! Z.to_nat (k - first)
             else sites_index SiteExamples.three_sites !! k)
      ∧ (added = [] → pe_scope' = ScopeExamples.new_scoper)
      ∧ (added ≠ [] → local_chrom pe_scope' = 1).
Proof.
  eexists _, _, _, _. split; [vm_compute; reflexivity|].
  split; [vm_compute; reflexivity|]. split; [vm_compute; reflexivity|].
  split; [vm_compute; reflexivity|].
  eapply (add_any_sites_adds SiteExamples.three_sites _ 1 5000 empty_graph _
            ScopeExamples.new_scoper _ NodeToName_empty _ 500).
  vm_compute. reflexivity.
Defined.

Section Scoper.

Variable is_reciprocal_overlapping : Z → Z → Z → Z → bool.
Variable span_position_distance :
  Z → Z → Z → Z → spec_float → spec_float → ReadEnum_t → bool → Z → Z → bool → bool.

(** X22: after a site was put in scope, the scopes are not cleared for
    the read.  A call of [add_any_sites] that adds a site sets
    [local_chrom] to the chromosome of the read, so the call of
    [find_other_nodes] that follows for this read finds the chromosome
    unchanged: every entry the forward scopes held before the two
    calls, from whatever chromosome, is still in them. *)
Theorem site_keeps_old_scopes (self self' : SiteAdder) (chrom pos : Z) (G G' : Py_SimpleGraph)
    (pe_scope pe_scope' pe_scope'' : PairedEndScoper)
    (node_to_name node_to_name' : NodeToName) (cluster_dist : Z)
    (node_name current_pos chrom2 pos2 : Z) (read_enum : ReadEnum_t)
    (length_from_cigar : Z) (trust_ins_len : bool) (other_nodes : list Z) :
  add_any_sites self chrom pos G pe_scope node_to_name cluster_dist
  = Some (self', G', pe_scope', node_to_name') →
  count self' ≠ count self →
  find_other_nodes is_reciprocal_overlapping span_position_distance pe_scope' node_name
    chrom current_pos chrom2 pos2 read_enum length_from_cigar trust_ins_len
  = Some (other_nodes, pe_scope'') →
  ∀ idx scope, chrom_scope pe_scope !! idx = Some scope →
    ∃ scope', chrom_scope pe_scope'' !! idx = Some scope' ∧ scope ⊆ scope'.
Proof.
  intros Hadd Hcount Hfind.
  destruct (add_any_sites_world _ _ _ _ _ _ _ _ _ _ _ Hadd)
    as (behind & added & rest & self1 & _ & _ & _ & _ & Hadded & _ & Hcount').
  destruct Hadded as [_ _ Hc _ [_ Hkept] Hchrom _]. cbn [fst snd] in *.
  assert (Hne : added ≠ []) by (intros ->; cbn in Hc; lia).
  destruct (ScopeSearch.find_other_nodes_chrom_scope _ _ _ _ _ _ _ _ _ _ _ _ _
              (eq_sym (Hchrom Hne)) Hfind) as [-> _].
  apply Hkept.
Qed.

End Scoper.

Lemma site_keeps_old_scopes_witness :
  ∃ self' G' pe_scope' node_to_name' other_nodes pe_scope'',
    add_any_sites SiteExamples.three_sites 1 5000 empty_graph
      (ScopeExamples.one_insertion 1000) NodeToName_empty 500
    = Some (self', G', pe_scope', node_to_name')
    ∧ find_other_nodes MapSetUtils.is_reciprocal_overlapping ScopeExamples.no_span_match
        pe_scope' 7 1 5000 1 5300 DELETION 300 true
      = Some (other_nodes, pe_scope'')
    ∧ ∀ idx scope, chrom_scope (ScopeExamples.one_insertion 1000) !! idx = Some scope →
        ∃ scope', chrom_scope pe_scope'' !! idx = Some scope' ∧ scope ⊆ scope'.
Proof.
  eexists _, _, _, _, _, _. split; [vm_compute; reflexivity|].
  split; [vm_compute; reflexivity|].
  eapply (site_keeps_old_scopes MapSetUtils.is_reciprocal_overlapping
            ScopeExamples.no_span_match SiteExamples.three_sites _ 1 5000 empty_graph _
            (ScopeExamples.one_insertion 1000) _ _ NodeToName_empty _ 500
            7 5000 1 5300 DELETION 300 true _).
  - vm_compute. reflexivity.
  - vm_compute. discriminate.
  - vm_compute. reflexivity.
Defined.

End SitesFacts.

Module SiteSearchFacts.
Import Graph Sites SiteSearch.

(** The order the [SortedList] keeps its sites in. *)
Definition by_start (a b : Site) : Prop := site_start a ≤ site_start b.

Lemma bisect_left_before (scope : list Site) (start : Z) :
  Forall (λ q, site_start q < start) (take (bisect_left scope start) scope).
Proof.
  induction scope as [|q scope IH]; cbn; [done|].
  destruct (Z.ltb_spec (site_start q) start); cbn; [by constructor|done].
Qed.

Lemma bisect_left_at (scope : list Site) (start : Z) (q : Site) :
  scope !! bisect_left scope start = Some q → start ≤ site_start q.
Proof.
  induction scope as [|q' scope IH]; cbn; [done|].
  destruct (Z.ltb_spec (site_start q') start); cbn; [done|]. by intros [= <-].
Qed.

Lemma bisect_left_length (scope : list Site) (start : Z) :
  (bisect_left scope start ≤ length scope)%nat.
Proof.
  induction scope as [|q scope IH]; cbn; [done|]. destruct (_ <? _); cbn; lia.
Qed.

Lemma elem_of_drop_after (scope : list Site) (n : nat) (bound : Z) (q : Site) :
  Forall (λ q, site_start q < bound) (take n scope) → bound ≤ site_start q →
  q ∈ scope → q ∈ drop n scope.
Proof.
  intros Hall Hq Hin. rewrite <- (take_drop n scope) in Hin.
  apply elem_of_app in Hin as [Hin|Hin]; [|done].
  rewrite Forall_forall in Hall. specialize (Hall q Hin). lia.
Qed.

(** X23: [find_nearest_site] looks to the right first.  When a site in
    scope starts at [pos] or after it, the call returns the node of the
    first such site if that starts at most 50 after [pos], and -1 if it
    starts later: a site that starts before [pos] is not returned then,
    however near it is. *)
Theorem find_nearest_site_looks_right (self self' : SiteAdder) (chrom pos node : Z)
    (q : Site) :
  StronglySorted by_start (scope self) →
  q ∈ scope self → pos ≤ site_start q →
  find_nearest_site self chrom pos = Some (self', node) →
  (node = -1
   ∧ ∀ q', q' ∈ scope self → pos ≤ site_start q' → pos + 50 < site_start q')
  ∨ ∃ p, p ∈ scope self ∧ pos ≤ site_start p ≤ pos + 50
         ∧ (∀ q', q' ∈ scope self → pos ≤ site_start q' → site_start p ≤ site_start q')
         ∧ site_node p (sites_index_r self) = Some node.
Proof.
  intros Hs Hq Hpos. unfold find_nearest_site.
  destruct (Nat.eqb_spec (length (scope self)) 0) as [Hlen|_].
  { apply nil_length_inv in Hlen. rewrite Hlen in Hq. by apply elem_of_nil in Hq. }
  set (n := Z.of_nat (bisect_left (scope self) (pos - 500)) - 1).
  set (self1 := if 0 <? n then _ else self).
  assert (∃ d, scope self1 = drop d (scope self)
               ∧ (∀ q', q' ∈ scope self → pos ≤ site_start q' → q' ∈ scope self1)
               ∧ sites_index_r self1 = sites_index_r self) as (d & Hd & Hkeep & Hr1).
  { subst self1. destruct (0 <? n); [|exists O; by rewrite drop_0].
    exists (Z.to_nat n). cbn. split_and!; [done| |done]. intros q' Hq' Hpos'.
    apply (elem_of_drop_after _ _ (pos - 500)); [|lia|done].
    pose proof (bisect_left_before (scope self) (pos - 500)) as Hb.
    apply (Forall_take _ (Z.to_nat n)) in Hb. rewrite take_take in Hb.
    replace (Z.to_nat n `min` bisect_left (scope self) (pos - 500))%nat
      with (Z.to_nat n) in Hb by lia. done. }
  assert (Hs1 : StronglySorted by_start (scope self1)).
  { rewrite Hd. rewrite <- (take_drop d (scope self)) in Hs.
    by apply StronglySorted_app_1_r in Hs. }
  assert (Hsub : ∀ p, p ∈ scope self1 → p ∈ scope self).
  { intros p Hp. rewrite Hd in Hp. by eapply subseteq_drop. }
  clearbody self1. clear n.
  set (left_index := bisect_left (scope self1) pos).
  assert (Hlt : (left_index < length (scope self1))%nat).
  { pose proof (bisect_left_length (scope self1) pos) as Hle.
    destruct (decide (left_index = length (scope self1))) as [Heq|]; [|lia].
    pose proof (bisect_left_before (scope self1) pos) as Hb. fold left_index in Hb.
    rewrite Heq, take_ge in Hb by done. rewrite Forall_forall in Hb.
    specialize (Hb q (Hkeep q Hq Hpos)). lia. }
  destruct (lookup_lt_is_Some_2 _ _ Hlt) as [left_p Hleft].
  pose proof (bisect_left_at _ _ _ Hleft) as Hleft_pos.
  assert (Hfirst : ∀ q', q' ∈ scope self → pos ≤ site_start q' →
                         site_start left_p ≤ site_start q').
  { intros q' Hq' Hpos'. apply Hkeep in Hq'; [|done].
    apply list_elem_of_lookup in Hq' as [j Hj].
    destruct (decide (j < left_index)%nat) as [Hjl|Hjl].
    - pose proof (bisect_left_before (scope self1) pos) as Hb. fold left_index in Hb.
      rewrite Forall_forall in Hb. specialize (Hb q').
      assert (q' ∈ take left_index (scope self1)) as Hin.
      { apply list_elem_of_lookup. exists j. by rewrite lookup_take_lt. }
      specialize (Hb Hin). lia.
    - destruct (decide (j = left_index)) as [->|Hne]; [by simplify_eq|].
      rewrite <- (take_drop_middle _ _ _ Hleft) in Hs1.
      apply StronglySorted_app_1_r in Hs1. apply StronglySorted_cons in Hs1 as [Hall _].
      rewrite Forall_forall in Hall. apply Hall.
      apply list_elem_of_lookup. exists (j - S left_index)%nat.
      rewrite lookup_drop. rewrite <- Hj. f_equal. lia. }
  assert (Hp : ∀ p, (if (left_index =? length (scope self1))%nat
                     then scope self1 !! (left_index - 1)%nat
                     else if negb (left_index =? length (scope self1) - 1)%nat then
                       left_p ← scope self1 !! left_index;
                       right_p ← scope self1 !! (left_index + 1)%nat;
                       Some (if Z.abs (site_start left_p - pos)
                                <=? Z.abs (site_start right_p - pos)
                             then left_p else right_p)
                     else scope self1 !! left_index) = Some p → p = left_p).
  { intros p. destruct (Nat.eqb_spec left_index (length (scope self1))); [lia|].
    destruct (Nat.eqb_spec left_index (length (scope self1) - 1)); cbn [negb];
      [rewrite Hleft; by intros [= <-]|].
    rewrite Hleft. cbn [mbind option_bind].
    destruct (scope self1 !! (left_index + 1)%nat) as [right_p|] eqn:Hright; [|done].
    cbn [mbind option_bind]. intros [= <-].
    assert (site_start left_p ≤ site_start right_p) as Hlr.
    { rewrite <- (take_drop_middle _ _ _ Hleft) in Hs1.
      apply StronglySorted_app_1_r in Hs1. apply StronglySorted_cons in Hs1 as [Hall _].
      rewrite Forall_forall in Hall. apply Hall.
      apply list_elem_of_lookup. exists O. rewrite lookup_drop. rewrite <- Hright.
      f_equal. lia. }
    destruct (Z.leb_spec (Z.abs (site_start left_p - pos)) (Z.abs (site_start right_p - pos)));
      [done|lia]. }
  intros H. apply bind_Some in H as (p & Hpsel & H). apply Hp in Hpsel as ->.
  destruct (Z.leb_spec (Z.abs (site_start left_p - pos)) 50) as [Hnear|Hfar].
  - apply bind_Some in H as (node' & Hnode & [= _ <-]). right. exists left_p.
    split_and!; [|done|lia|done|by rewrite <- Hr1].
    apply Hsub. by eapply list_elem_of_lookup_2.
  - injection H as _ <-. left. split; [done|]. intros q' Hq' Hpos'.
    specialize (Hfirst q' Hq' Hpos'). lia.
Qed.

Lemma find_nearest_site_looks_right_witness :
  find_nearest_site SiteExamples.two_in_scope 1 1000 = Some (SiteExamples.two_in_scope, -1)
  ∧ ((-1 = -1
      ∧ ∀ q', q' ∈ scope SiteExamples.two_in_scope → 1000 ≤ site_start q' →
              1000 + 50 < site_start q')
     ∨ ∃ p, p ∈ scope SiteExamples.two_in_scope ∧ 1000 ≤ site_start p ≤ 1000 + 50
            ∧ (∀ q', q' ∈ scope SiteExamples.two_in_scope → 1000 ≤ site_start q' →
                     site_start p ≤ site_start q')
            ∧ site_node p (sites_index_r SiteExamples.two_in_scope) = Some (-1)).
Proof.
  split; [reflexivity|].
  apply (find_nearest_site_looks_right SiteExamples.two_in_scope SiteExamples.two_in_scope
           1 1000 (-1) (SiteExamples.deletion_at 1 1100)).
  - repeat constructor; unfold by_start; cbn; lia.
  - right. left.
  - cbn. lia.
  - reflexivity.
Defined.

End SiteSearchFacts.

Module EngineRows.
Import CFloat Graph Sites.

Section Engine.

Variable is_reciprocal_overlapping : Z → Z → Z → Z → bool.
Variable span_position_distance :
  Z → Z → Z → Z → spec_float → spec_float → ReadEnum_t → bool → Z → Z → bool → bool.
Variable xxhasher : string → Z.
Variable cigar_clip : AlignedSegment → Z → bool.
Variable overlap_regions : Z → Z → Z → bool.
Variable good_quality_clip : AlignedSegment → Z → bool.
Variable alignments_from_sa_tag :
  AlignedSegment → Z → bool → Z → list query_align * Z.
Variables ClipScoper_t BadClipCounter_t : Type.
Variable ClipScoper_update :
  ClipScoper_t → AlignedSegment → Z → Z → Z → ClipScoper_t * list Z.
Variable find_nearest_site : SiteAdder → Z → Z → SiteAdder * Z.
Variable BadClipCounter_add : BadClipCounter_t → Z → Z → BadClipCounter_t.

#[local] Abbreviation Engine := (Engine ClipScoper_t SiteAdder BadClipCounter_t).
#[local] Abbreviation add_to_graph :=
  (add_to_graph is_reciprocal_overlapping span_position_distance xxhasher
     ClipScoper_t SiteAdder BadClipCounter_t ClipScoper_update find_nearest_site).
#[local] Abbreviation process_alignment :=
  (process_alignment is_reciprocal_overlapping span_position_distance xxhasher cigar_clip
     overlap_regions good_quality_clip alignments_from_sa_tag
     ClipScoper_t SiteAdder BadClipCounter_t ClipScoper_update add_any_sites
     find_nearest_site BadClipCounter_add).

(** Every node of the graph has its row in the node table. *)
Definition in_step (st : Engine) : Prop :=
  NodeTableFacts.aligned (node_to_name st) (length (adjList (G st))).

Lemma length_add_local_edges (other_nodes : list Z) (G : Py_SimpleGraph) (node_name : Z) :
  length (adjList (add_local_edges G node_name other_nodes)) = length (adjList G).
Proof.
  unfold add_local_edges. revert G.
  induction other_nodes as [|v other_nodes IH]; intros G; cbn [foldl]; [done|].
  rewrite IH. destruct (hasEdge G node_name v); [done|apply TemplatesFacts.length_addEdge].
Qed.

Lemma length_add_site_edges (G : Py_SimpleGraph) (sites : SiteAdder)
    (node_name chrom event_pos chrom2 pos2 : Z) :
  length (adjList (add_site_edges SiteAdder find_nearest_site G sites node_name chrom
                     event_pos chrom2 pos2).1)
  = length (adjList G).
Proof.
  unfold add_site_edges. destruct (find_nearest_site sites chrom event_pos) as [sites1 b1].
  destruct (find_nearest_site sites1 chrom2 pos2) as [sites2 b2]. cbn [fst].
  repeat case_match; rewrite ?TemplatesFacts.length_addEdge; done.
Qed.

(** What [add_to_graph] does to the graph's nodes and to the table. *)
Lemma add_to_graph_node (st st' : Engine) (cfg : Config) (r : AlignedSegment)
    (flag chrom tell cigar_index event_pos chrom2 pos2 : Z) (read_enum : ReadEnum_t)
    (length_from_cigar : Z) :
  add_to_graph st cfg r flag chrom tell cigar_index event_pos chrom2 pos2 read_enum
    length_from_cigar = Some st' →
  length (adjList (G st')) = S (length (adjList (G st)))
  ∧ node_to_name st'
    = NodeToName_append (node_to_name st) (xxhasher (qname r)) flag (pos r) chrom tell
        cigar_index event_pos.
Proof.
  unfold Graph.add_to_graph. cbn [addNode]. intros H.
  apply bind_Some in H as (scanner & _ & H).
  apply bind_Some in H as ([[G1 pe1] clip1] & HG1 & H).
  apply bind_Some in H as (pe2 & _ & H).
  assert (Hlen1 : length (adjList G1) = S (length (adjList (G st)))).
  { destruct (bool_decide (read_enum ≠ BREAKEND) && negb (mm_only cfg)) in HG1.
    - apply bind_Some in HG1 as ([other_nodes pe] & _ & [= <- _ _]).
      rewrite length_add_local_edges. cbn. rewrite length_app. cbn. lia.
    - destruct (negb (chrom =? chrom2) && negb (clip_l cfg =? -1)) in HG1.
      + unfold cluster_clipped in HG1.
        destruct (ClipScoper_update _ _ _ _ _) as [clip2 clustered].
        injection HG1 as <- _ _. rewrite length_add_local_edges. cbn.
        rewrite length_app. cbn. lia.
      + injection HG1 as <- _ _. cbn. rewrite length_app. cbn. lia. }
  destruct (site_adder st) as [sites|].
  - destruct (_ || _).
    + pose proof (length_add_site_edges G1 sites (Z.of_nat (length (adjList (G st))))
                    chrom event_pos chrom2 pos2) as Hlen2.
      destruct (add_site_edges _ _ _ _ _ _ _ _ _) as [G2 sites2]. cbn [fst] in Hlen2.
      injection H as <-. cbn. split; [congruence|done].
    + injection H as <-. cbn. done.
  - injection H as <-. cbn. done.
Qed.

(** X24: the node [add_to_graph] makes can be looked up in the node
    table.  When every node had its row before the call, the call adds
    one node, whose id is the old number of nodes, and [node_to_name] of
    that id is the row of the call: the hash of the read name, the flag,
    [r.pos], the chromosome, [tell] (0 for -1), the CIGAR index and the
    event position, each in the width of its vector; the rows of the
    older nodes are as before. *)
Theorem add_to_graph_row (st st' : Engine) (cfg : Config) (r : AlignedSegment)
    (flag chrom tell cigar_index event_pos chrom2 pos2 : Z) (read_enum : ReadEnum_t)
    (length_from_cigar : Z) :
  in_step st →
  add_to_graph st cfg r flag chrom tell cigar_index event_pos chrom2 pos2 read_enum
    length_from_cigar = Some st' →
  let node_name := Z.of_nat (length (adjList (G st))) in
  length (adjList (G st')) = S (length (adjList (G st)))
  ∧ in_step st'
  ∧ NodeToName_getitem (node_to_name st') node_name
    = Some (NodeTableFacts.stored
              (xxhasher (qname r), flag, pos r, chrom, tell, cigar_index, event_pos))
  ∧ ∀ idx, idx ≠ node_name →
      NodeToName_getitem (node_to_name st') idx = NodeToName_getitem (node_to_name st) idx.
Proof.
  intros Hstep H. destruct (add_to_graph_node _ _ _ _ _ _ _ _ _ _ _ _ _ H) as [Hlen Hrows].
  cbn zeta. split; [done|].
  pose proof (NodeTableFacts.getitem_append_row (node_to_name st) (length (adjList (G st)))
                (xxhasher (qname r), flag, pos r, chrom, tell, cigar_index, event_pos)) as Hget.
  cbn [NodeTableFacts.append_row] in Hget. rewrite <- Hrows in Hget.
  split_and!.
  - unfold in_step. rewrite Hlen, Hrows.
    apply (NodeTableFacts.append_row_aligned _ _
             (xxhasher (qname r), flag, pos r, chrom, tell, cigar_index, event_pos) Hstep).
  - rewrite Hget by done. by rewrite Z.eqb_refl.
  - intros idx Hne. rewrite Hget by done. by apply Z.eqb_neq in Hne as ->.
Qed.

Lemma add_to_graph_in_step (st st' : Engine) (cfg : Config) (r : AlignedSegment)
    (flag chrom tell cigar_index event_pos chrom2 pos2 : Z) (read_enum : ReadEnum_t)
    (length_from_cigar : Z) :
  in_step st →
  add_to_graph st cfg r flag chrom tell cigar_index event_pos chrom2 pos2 read_enum
    length_from_cigar = Some st' →
  in_step st'.
Proof.
  intros Hstep H. destruct (add_to_graph_node _ _ _ _ _ _ _ _ _ _ _ _ _ H) as [Hlen Hrows].
  unfold in_step. rewrite Hlen, Hrows.
  apply (NodeTableFacts.append_row_aligned _ _
           (xxhasher (qname r), flag, pos r, chrom, tell, cigar_index, event_pos) Hstep).
Qed.

Lemma zero_rows_aligned (added : list Site) (n : NodeToName) (len : nat) :
  NodeTableFacts.aligned n len →
  NodeTableFacts.aligned (foldl (λ n _, NodeToName_append n 0 0 0 0 0 0 0) n added)
    (len + length added).
Proof.
  revert n len. induction added as [|site added IH]; intros n len Hn; cbn [foldl length].
  - by rewrite Nat.add_0_r.
  - rewrite Nat.add_succ_r. apply (IH _ (S len)).
    apply (NodeTableFacts.append_row_aligned n len (0, 0, 0, 0, 0, 0, 0) Hn).
Qed.

(** X25: [process_alignment] keeps the node table in step with the graph.
    When every node has its row before the call, with or without sites,
    every node has its row after it: the sites [add_any_sites] adds get
    their rows of zeros and each node [add_to_graph] makes gets its
    row. *)
Theorem process_alignment_in_step (st st' : Engine) (cfg : Config) (r : AlignedSegment)
    (cigar_index event_pos tell cigar_pos2 : Z) (read_enum : ReadEnum_t)
    (length_from_cigar : Z) :
  in_step st →
  process_alignment st cfg r cigar_index event_pos tell cigar_pos2 read_enum
    length_from_cigar = Some st' →
  in_step st' ∧ (length (adjList (G st)) ≤ length (adjList (G st')))%nat.
Proof.
  intros Hstep. unfold Graph.process_alignment.
  destruct (_ && _ && _); [by intros [= <-]|].
  intros H. apply bind_Some in H as (st1 & Hsites & H).
  assert (Hst1 : in_step st1 ∧ (length (adjList (G st)) ≤ length (adjList (G st1)))%nat).
  { unfold call_add_any_sites in Hsites. destruct (site_adder st) as [sites|].
    - apply bind_Some in Hsites as ([[[sites' G'] pe'] n'] & Hadd & [= <-]).
      destruct (SitesFacts.add_any_sites_world _ _ _ _ _ _ _ _ _ _ _ Hadd)
        as (behind & added & rest & self1 & _ & _ & _ & _ & Hadded & _).
      destruct Hadded as [Hn Hr _ _ _ _ _]. cbn [fst snd] in *.
      unfold in_step. cbn [G node_to_name]. rewrite Hn, Hr, length_app, length_replicate.
      split; [by apply zero_rows_aligned|lia].
    - by injection Hsites as <-. }
  destruct Hst1 as [Hstep1 Hle1].
  assert (Hbad : ∀ b, in_step (set_bad_clip_counter ClipScoper_t SiteAdder BadClipCounter_t st1 b)
                      ∧ G (set_bad_clip_counter ClipScoper_t SiteAdder BadClipCounter_t st1 b)
                        = G st1) by done.
  assert (Hgraph : ∀ (s s' : Engine) flag chrom tell cigar_index event_pos chrom2 pos2
                     read_enum length_from_cigar,
            in_step s →
            add_to_graph s cfg r flag chrom tell cigar_index event_pos chrom2 pos2 read_enum
              length_from_cigar = Some s' →
            in_step s' ∧ (length (adjList (G s)) ≤ length (adjList (G s')))%nat).
  { intros s s' ? ? ? ? ? ? ? ? ? Hs Hs'. split; [by eapply add_to_graph_in_step|].
    destruct (add_to_graph_node _ _ _ _ _ _ _ _ _ _ _ _ _ Hs') as [-> _]. lia. }
  destruct (_ || _).
  - (* paired *)
    unfold process_paired in H.
    set (st2 := if good_quality_clip r 15 then st1 else _) in H.
    assert (Hst2 : in_step st2 ∧ G st2 = G st1) by (subst st2; by destruct (good_quality_clip r 15)).
    clearbody st2. destruct Hst2 as [Hstep2 HG2].
    apply bind_Some in H as (split & _ & H).
    destruct split as [[[[[[ep c] p2] c2] ci] re]|];
      [|injection H as <-; split; [done|]; rewrite HG2; lia].
    destruct (_ && _ && _ && _); [injection H as <-; split; [done|]; rewrite HG2; lia|].
    destruct (if _ && _ && _ then _ else _) as [c2' p2'].
    apply bind_Some in H as ([c2'' p2''] & _ & H).
    destruct (Hgraph _ _ _ _ _ _ _ _ _ _ _ Hstep2 H) as [? Hle2]. split; [done|].
    rewrite HG2 in Hle2. lia.
  - unfold process_single in H.
    destruct (bool_decide (read_enum = SPLIT)).
    + destruct (bool_decide (is_Some (sa r))); [|injection H as <-; split; [done|lia]].
      destruct (alignments_from_sa_tag _ _ _ _) as [all_aligns index].
      apply bind_Some in H as (event & _ & H).
      destruct (bool_decide (length all_aligns = 1%nat)); [injection H as <-; split; [done|lia]|].
      apply bind_Some in H as (st2 & Hst2 & H).
      assert (Hstep2 : in_step st2 ∧ (length (adjList (G st1)) ≤ length (adjList (G st2)))%nat).
      { destruct (index <? _); [|by injection Hst2 as <-].
        apply bind_Some in Hst2 as (b & _ & Hst2).
        destruct (connect_right _ _ _ _ _ _) as [[[[ep c] p2] c2] e].
        by eapply Hgraph. }
      destruct Hstep2 as [Hstep2 Hle2].
      destruct (0 <? index); [|injection H as <-; split; [done|lia]].
      apply bind_Some in H as (b & _ & H). apply bind_Some in H as (ct & _ & H).
      destruct (connect_left _ _ _ _ _ _) as [[[[ep c] p2] c2] e].
      destruct (Hgraph _ _ _ _ _ _ _ _ _ _ _ Hstep2 H) as [? ?]. split; [done|lia].
    + destruct (2 <=? _); [|injection H as <-; split; [done|lia]].
      apply bind_Some in H as (p2 & _ & H).
      destruct (Hgraph _ _ _ _ _ _ _ _ _ _ _ Hstep1 H) as [? ?]. split; [done|lia].
Qed.

End Engine.

Lemma add_to_graph_row_witness :
  ∃ st',
    MoreExamples.add_event MoreExamples.engine_with_site EngineExamples.paired_config EngineExamples.discordant_read
      1 0 5 (-1) 700 0 1000 DISCORDANT 0 = Some st'
    ∧ length (adjList (G st')) = 1%nat
    ∧ in_step unit unit st'
    ∧ NodeToName_getitem (node_to_name st') 0 = Some (2, 1, 700, 0, 5, -1, 700)
    ∧ ∀ idx, idx ≠ 0 →
        NodeToName_getitem (node_to_name st') idx = NodeToName_getitem NodeToName_empty idx.
Proof.
  eexists. split; [vm_compute; reflexivity|].
  apply (add_to_graph_row MapSetUtils.is_reciprocal_overlapping ScopeExamples.no_span_match
           (λ name, Z.of_nat (String.length name)) unit unit
           (λ c _ _ _ _, (c, [])) (λ s _ _, (s, -1))
           MoreExamples.engine_with_site _ EngineExamples.paired_config EngineExamples.discordant_read
           1 0 5 (-1) 700 0 1000 DISCORDANT 0).
  - repeat split.
  - vm_compute. reflexivity.
Defined.

Lemma process_alignment_in_step_witness :
  ∃ st',
    MoreExamples.run_alignment MoreExamples.engine_with_site EngineExamples.paired_config EngineExamples.discordant_read
      (-1) 700 5 0 DISCORDANT 0 = Some st'
    ∧ length (adjList (G st')) = 2%nat
    ∧ in_step unit unit st'
    ∧ (length (adjList (G MoreExamples.engine_with_site)) ≤ length (adjList (G st')))%nat.
Proof.
  eexists. split; [vm_compute; reflexivity|]. split; [reflexivity|].
  apply (process_alignment_in_step MapSetUtils.is_reciprocal_overlapping
           ScopeExamples.no_span_match (λ name, Z.of_nat (String.length name))
           (λ _ _, false) (λ _ _ _, false) (λ _ _, true) (λ _ _ _ _, ([], 0)) unit unit
           (λ c _ _ _ _, (c, [])) (λ s _ _, (s, -1)) (λ b _ _, b)
           MoreExamples.engine_with_site _ EngineExamples.paired_config EngineExamples.discordant_read
           (-1) 700 5 0 DISCORDANT 0).
  - repeat split.
  - vm_compute. reflexivity.
Defined.

End EngineRows.

Module PartitionCover.
Import Graph.

Section Cover.

Variable G : Py_SimpleGraph.
Hypothesis Hwf : wf_graphb G = true.

(** What [get_partitions] keeps besides [PartitionFacts.parted]: a seen
    node on a followed edge is in a partition, and a partition holds
    only nodes on a followed edge. *)
Record covered (seen : gset Z) (parts : list (list Z)) : Prop := {
  cv_seen : ∀ x, x ∈ seen → (∃ y, strong G x y) → ∃ P, P ∈ parts ∧ x ∈ P;
  cv_edge : ∀ P x, P ∈ parts → x ∈ P → ∃ y, strong G x y
}.

Lemma reached_on_edge (u v x : Z) :
  strong G u v → rtc (strong G) u x → ∃ y, strong G x y.
Proof.
  intros Huv Hux. revert v Huv. induction Hux as [|a b c Hab _ IH]; intros v Huv; [by eauto|].
  apply (IH a). by apply PartitionFacts.strong_sym.
Qed.

Lemma get_partitions_visit_covered (u v : Z) (met : list Z) (seen : gset Z)
    (parts : list (list Z)) :
  v ∈ neighbors G u → PartitionFacts.scanning G u met seen parts → covered seen parts →
  ∃ seen' parts',
    get_partitions_visit G u (Some (seen, parts)) v = Some (seen', parts')
    ∧ PartitionFacts.scanning G u (met ++ [v]) seen' parts'
    ∧ (covered seen' parts' ∧ seen ⊆ seen').
Proof.
  intros Hv Hsc [Hs He].
  destruct (PartitionFacts.get_partitions_visit_scanning G Hwf u v met seen parts Hv Hsc)
    as (s1 & p1 & Heq & Hsc1).
  exists s1, p1. split; [done|split; [done|]].
  destruct Hsc as [Hpt _].
  unfold get_partitions_visit in Heq. cbn [mbind option_bind] in Heq.
  case_bool_decide as Hseen; [by simplify_eq|].
  destruct (Z.ltb_spec 1 (weight G u v)) as [Hw|Hw]; [|by simplify_eq].
  assert (Hst : strong G u v) by (split; [done|lia]).
  assert (Hu : u ∉ seen).
  { intros Hu. apply Hseen. by apply (PartitionFacts.pt_closed _ _ _ Hpt u v). }
  destruct (PartitionFacts.BFS_local_reach G Hwf seen u
              (PartitionFacts.pt_closed _ _ _ Hpt) Hu)
    as (found & seen' & Hbfs & Hseen' & Hsound & Hcomplete).
  rewrite Hbfs in Heq. cbn [mbind option_bind] in Heq.
  assert (Hne : found ≠ []).
  { intros ->. eapply elem_of_nil, Hcomplete; [by eauto|apply rtc_refl]. }
  rewrite bool_decide_eq_false_2 in Heq by done. simplify_eq.
  split; [|intros x Hx; apply Hseen'; by left]. split.
  - intros x Hx Hy. apply Hseen' in Hx as [Hx|Hx].
    + destruct (Hs x Hx Hy) as (P & HP & HxP). exists P. split; [|done].
      apply elem_of_app. by left.
    + exists found. split; [apply elem_of_app; right; by apply list_elem_of_singleton|].
      apply Hcomplete; by eauto.
  - intros P x HP Hx. apply elem_of_app in HP as [HP|HP]; [by eapply He|].
    apply list_elem_of_singleton in HP as ->.
    apply (reached_on_edge u v x Hst). by apply Hsound.
Qed.

Lemma get_partitions_visit_fold_covered (u : Z) (l : list Z) :
  ∀ met seen parts,
    (∀ v, v ∈ l → v ∈ neighbors G u) →
    PartitionFacts.scanning G u met seen parts → covered seen parts →
    ∃ seen' parts',
      foldl (get_partitions_visit G u) (Some (seen, parts)) l = Some (seen', parts')
      ∧ PartitionFacts.scanning G u (met ++ l) seen' parts'
      ∧ (covered seen' parts' ∧ seen ⊆ seen').
Proof.
  induction l as [|v l IH]; intros met seen parts Hl Hsc Hcv.
  - exists seen, parts. by rewrite app_nil_r.
  - destruct (get_partitions_visit_covered u v met seen parts)
      as (s1 & p1 & Hstep & Hsc1 & Hcv1 & Hsub1); [apply Hl; left|done..|].
    destruct (IH (met ++ [v]) s1 p1) as (s2 & p2 & Hfold & Hsc2 & Hcv2 & Hsub2);
      [intros; apply Hl; by right|done..|].
    exists s2, p2. cbn [foldl]. rewrite Hstep. split; [done|].
    rewrite <- app_assoc in Hsc2. split_and!; [done..|by etrans].
Qed.

Lemma get_partitions_node_covered (u : Z) (seen : gset Z) (parts : list (list Z)) :
  PartitionFacts.parted G seen parts → covered seen parts →
  ∃ seen' parts',
    get_partitions_node G (Some (seen, parts)) u = Some (seen', parts')
    ∧ PartitionFacts.parted G seen' parts' ∧ covered seen' parts'
    ∧ u ∈ seen' ∧ seen ⊆ seen'.
Proof.
  intros Hpt Hcv.
  destruct (PartitionFacts.get_partitions_node_parted G Hwf u seen parts Hpt)
    as (s2 & p2 & Heq & Hpt2).
  exists s2, p2. split_and!; [done..| | |];
    unfold get_partitions_node in Heq; cbn [mbind option_bind] in Heq;
    case_bool_decide as Hseen; try (by simplify_eq);
    (destruct (get_partitions_visit_fold_covered u (neighbors G u) [] seen parts)
       as (s1 & p1 & Hfold & [Hpt1 Hmet] & [Hs He] & Hsub);
       [done|split; [done|intros _ v Hv; by apply elem_of_nil in Hv]|done|]);
    rewrite Hfold in Heq; cbn [mbind option_bind] in Heq; simplify_eq.
  - split; [|done]. intros x Hx Hy.
    apply elem_of_union in Hx as [->%elem_of_singleton|Hx]; [|by apply Hs].
    destruct (decide (u ∈ s1)) as [Hin|Hnin]; [by apply Hs|].
    exfalso. destruct Hy as [y Hy]. by apply (Hmet Hnin y); [apply Hy|].
  - set_solver.
  - set_solver.
Qed.

Lemma get_partitions_fold_covered (nodes : list Z) :
  ∀ seen parts,
    PartitionFacts.parted G seen parts → covered seen parts →
    ∃ seen' parts',
      foldl (get_partitions_node G) (Some (seen, parts)) nodes = Some (seen', parts')
      ∧ covered seen' parts' ∧ seen ⊆ seen' ∧ ∀ u, u ∈ nodes → u ∈ seen'.
Proof.
  induction nodes as [|u nodes IH]; intros seen parts Hpt Hcv.
  { exists seen, parts. split_and!; [done..|]. intros u Hu. by apply elem_of_nil in Hu. }
  destruct (get_partitions_node_covered u seen parts Hpt Hcv)
    as (s1 & p1 & Hstep & Hpt1 & Hcv1 & Hu1 & Hsub1).
  destruct (IH s1 p1 Hpt1 Hcv1) as (s2 & p2 & Hfold & Hcv2 & Hsub2 & Hall).
  exists s2, p2. cbn [foldl]. rewrite Hstep. split_and!; [done..|by etrans|].
  intros x [->|Hx]%elem_of_cons; [by apply Hsub2|by apply Hall].
Qed.

End Cover.

(** X26: on an undirected graph, every node handed to [get_partitions]
    that has an edge of weight 2 or more is in one of the partitions
    returned, and every node of a partition has such an edge: the nodes
    left out are exactly those that only edges of weight 0 or 1 reach. *)
Theorem get_partitions_covers (G : Py_SimpleGraph) (nodes : list Z) (parts : list (list Z)) :
  wf_graphb G = true →
  get_partitions G nodes = Some parts →
  (∀ u, u ∈ nodes → (∃ v, strong G u v) → ∃ P, P ∈ parts ∧ u ∈ P)
  ∧ (∀ P x, P ∈ parts → x ∈ P → ∃ y, strong G x y).
Proof.
  intros Hwf Hparts.
  destruct (get_partitions_fold_covered G Hwf nodes ∅ [])
    as (seen & parts' & Hfold & [Hs He] & _ & Hall).
  { split.
    - intros x y Hx. by apply elem_of_empty in Hx.
    - intros P x HP. by apply elem_of_nil in HP.
    - intros i j P Q x _ Hi. by rewrite lookup_nil in Hi. }
  { split.
    - intros x Hx. by apply elem_of_empty in Hx.
    - intros P x HP. by apply elem_of_nil in HP. }
  unfold get_partitions in Hparts. rewrite Hfold in Hparts. cbn in Hparts.
  injection Hparts as <-. split; [|exact He].
  intros u Hu Hv. apply Hs; [by apply Hall|done].
Qed.

Lemma get_partitions_covers_witness :
  (∀ u, u ∈ [0; 1; 2; 3] → (∃ v, strong Examples.two_pairs u v) →
     ∃ P, P ∈ [[0; 1]; [2; 3]] ∧ u ∈ P)
  ∧ (∀ P x, P ∈ [[0; 1]; [2; 3]] → x ∈ P → ∃ y, strong Examples.two_pairs x y).
Proof.
  apply (get_partitions_covers Examples.two_pairs [0; 1; 2; 3] [[0; 1]; [2; 3]]).
  - reflexivity.
  - vm_compute. reflexivity.
Defined.

End PartitionCover.

Module SupportBetweenFacts.
Import Graph SupportBetween.

(** [l], as a value of [self_counts]: no entry is made for no node. *)
Definition entry_of (l : list Z) : option (list Z) :=
  match l with
  | [] => None
  | _ => Some l
  end.

Section Counting.

Variable G : Py_SimpleGraph.
Hypothesis Hwf : wf_graphb G = true.
Variable parts : list (list Z).
Variable p2i : gmap Z Z.

(** [p2i] holds the nodes of the partitions, each with the index of its
    partition. *)
Hypothesis Hp2i : ∀ n k,
  p2i !! n = Some k ↔ ∃ i P, k = Z.of_nat i ∧ parts !! i = Some P ∧ n ∈ P.

(** [c] is a neighbour of [n], [n] is in the partition [a] and [c] in a
    later partition [b]. *)
Definition cross (n c a b : Z) : Prop :=
  p2i !! n = Some a ∧ p2i !! c = Some b ∧ a < b ∧ c ∈ neighbors G n.

(** [child] is in another partition than [i]. *)
Definition out (i child : Z) : bool :=
  match p2i !! child with
  | Some j => negb (j =? i)
  | None => false
  end.

Definition has_out (i node : Z) : bool := existsb (out i) (neighbors G node).

(** The nodes of [p] that go to [self_counts[i]]. *)
Definition within (i : Z) (p : list Z) : list Z := filter (λ n, has_out i n = false) p.

(** [counts] holds the links of the pairs [(n, c)] that [V] selects. *)
Record counted (V : Z → Z → Prop) (m : gmap (Z * Z) (gset Z * gset Z)) : Prop := {
  ct_keys : ∀ a b, is_Some (m !! (a, b)) ↔ ∃ n c, V n c ∧ cross n c a b;
  ct_left : ∀ a b A B x, m !! (a, b) = Some (A, B) → x ∈ A ↔ ∃ c, V x c ∧ cross x c a b;
  ct_right : ∀ a b A B x, m !! (a, b) = Some (A, B) → x ∈ B ↔ ∃ n, V n x ∧ cross n x a b
}.

Lemma neighbors_sym (u v : Z) : v ∈ neighbors G u → u ∈ neighbors G v.
Proof.
  intros Hv. apply (PartitionFacts.neighbor_entry G Hwf) in Hv.
  apply (PartitionFacts.wf_node G Hwf) in Hv. apply list_elem_of_fmap. by exists (u, weight G u v).
Qed.

Lemma cross_fun (n c a b a' b' : Z) : cross n c a b → cross n c a' b' → a = a' ∧ b = b'.
Proof. intros (? & ? & _) (? & ? & _). split; congruence. Qed.

Lemma counted_ext (V V' : Z → Z → Prop) (m : gmap (Z * Z) (gset Z * gset Z)) :
  (∀ n c a b, cross n c a b → V n c ↔ V' n c) → counted V m → counted V' m.
Proof.
  intros Hext [Hk Hl Hr]. split.
  - intros a b. rewrite Hk. split; intros (n & c & HV & Hc); exists n, c;
      (split; [by apply (Hext n c a b)|done]).
  - intros a b A B x Hm. rewrite (Hl a b A B x Hm).
    split; intros (c & HV & Hc); exists c; (split; [by apply (Hext x c a b)|done]).
  - intros a b A B x Hm. rewrite (Hr a b A B x Hm).
    split; intros (n & HV & Hc); exists n; (split; [by apply (Hext n x a b)|done]).
Qed.

Lemma counted_add (V : Z → Z → Prop) (m : gmap (Z * Z) (gset Z * gset Z)) (n c a b : Z) :
  counted V m → cross n c a b →
  counted (λ x y, V x y ∨ (x = n ∧ y = c))
    (<[(a, b) := ({[n]} ∪ (default (∅, ∅) (m !! (a, b))).1,
                  {[c]} ∪ (default (∅, ∅) (m !! (a, b))).2)]> m).
Proof.
  intros [Hk Hl Hr] Hnc.
  assert (Hold : ∀ x,
    (x ∈ (default (∅, ∅) (m !! (a, b))).1 ↔ ∃ c', V x c' ∧ cross x c' a b)
    ∧ (x ∈ (default (∅, ∅) (m !! (a, b))).2 ↔ ∃ n', V n' x ∧ cross n' x a b)).
  { intros x. destruct (m !! (a, b)) as [[A B]|] eqn:Hm; cbn.
    - split; [by apply (Hl a b A B)|by apply (Hr a b A B)].
    - assert (Hno : ¬ ∃ n' c', V n' c' ∧ cross n' c' a b).
      { rewrite <- Hk, Hm. by intros [? ?]. }
      split; (split; [by intros ?%elem_of_empty|]); intros (y & ? & ?); destruct Hno; eauto. }
  split.
  - intros a' b'. destruct (decide ((a, b) = (a', b'))) as [[= <- <-]|Hne].
    + rewrite lookup_insert_eq. split; [|by eauto]. intros _. exists n, c. by auto.
    + rewrite lookup_insert_ne by done. rewrite Hk. split.
      * intros (n' & c' & ? & ?). exists n', c'. by auto.
      * intros (n' & c' & [?|[-> ->]] & Hc); [by eauto|].
        destruct (cross_fun _ _ _ _ _ _ Hnc Hc) as [-> ->]. done.
  - intros a' b' A B x. destruct (decide ((a, b) = (a', b'))) as [[= <- <-]|Hne].
    + rewrite lookup_insert_eq. intros [= <- <-]. rewrite elem_of_union, elem_of_singleton.
      rewrite (proj1 (Hold x)). split.
      * intros [->|(c' & ? & ?)]; [exists c; by auto|exists c'; by auto].
      * intros (c' & [?|[-> ->]] & ?); [right; by eauto|by left].
    + rewrite lookup_insert_ne by done. intros Hm. rewrite (Hl a' b' A B x Hm). split.
      * intros (c' & ? & ?). exists c'. by auto.
      * intros (c' & [?|[-> ->]] & Hc); [by eauto|].
        destruct (cross_fun _ _ _ _ _ _ Hnc Hc) as [-> ->]. done.
  - intros a' b' A B x. destruct (decide ((a, b) = (a', b'))) as [[= <- <-]|Hne].
    + rewrite lookup_insert_eq. intros [= <- <-]. rewrite elem_of_union, elem_of_singleton.
      rewrite (proj2 (Hold x)). split.
      * intros [->|(n' & ? & ?)]; [exists n; by auto|exists n'; by auto].
      * intros (n' & [?|[-> ->]] & ?); [right; by eauto|by left].
    + rewrite lookup_insert_ne by done. intros Hm. rewrite (Hr a' b' A B x Hm). split.
      * intros (n' & ? & ?). exists n'. by auto.
      * intros (n' & [?|[-> ->]] & Hc); [by eauto|].
        destruct (cross_fun _ _ _ _ _ _ Hnc Hc) as [-> ->]. done.
Qed.

(** What holds of the tables while the partition [i] is gone through:
    the pairs seen are those of the earlier partitions, and the pairs of
    this round those that start at [i]. *)
Record round (i : Z) (s : tally) : Prop := {
  rd_seen : ∀ t, t ∈ seen_t s → t.1 < i;
  rd_prev : ∀ a b, a < i → is_Some (counts s !! (a, b)) → (a, b) ∈ seen_t s;
  rd_current : ∀ t, t ∈ current_t s ↔ is_Some (counts s !! t) ∧ t.1 = i
}.

(** The links counted so far: those of the earlier partitions, and the
    pairs [V] selects. *)
Definition so_far (i : Z) (V : Z → Z → Prop) (n c : Z) : Prop :=
  (∃ a, p2i !! n = Some a ∧ a < i) ∨ V n c.

Lemma visit_child_round (i node child : Z) (cs : list Z) (s : tally) (any : bool) :
  p2i !! node = Some i → child ∈ neighbors G node →
  ∀ V0 : Z → Z → Prop,
  round i s →
  counted (so_far i (λ n c, V0 n c ∨ (n = node ∧ c ∈ cs))) (counts s) →
  let st' := visit_child p2i i node (s, any) child in
  round i st'.1
  ∧ counted (so_far i (λ n c, V0 n c ∨ (n = node ∧ c ∈ cs ++ [child]))) (counts st'.1)
  ∧ self_counts st'.1 = self_counts s
  ∧ st'.2 = any || out i child.
Proof.
  intros Hnode Hchild V0 Hrd Hct. cbn zeta. unfold visit_child, out.
  assert (Hsame : (∀ a b, ¬ cross node child a b) →
    counted (so_far i (λ n c, V0 n c ∨ (n = node ∧ c ∈ cs ++ [child]))) (counts s)).
  { intros Hno. revert Hct. apply counted_ext. intros n c a b Hc. unfold so_far.
    rewrite elem_of_app, list_elem_of_singleton.
    split; [tauto|]. intros [?|[?|[-> [?| ->]]]]; [tauto..|]. by destruct (Hno a b). }
  destruct (p2i !! child) as [j|] eqn:Hj.
  2: { split_and!; [done| |done|by rewrite orb_false_r].
       apply Hsame. intros a b (_ & ? & _). congruence. }
  destruct (Z.eqb_spec j i) as [->|Hji]; cbn [negb].
  { split_and!; [done| |done|by rewrite orb_false_r].
    apply Hsame. intros a b (? & ? & ? & _). assert (a = b) by congruence. lia. }
  destruct (Z.ltb_spec j i) as [Hlt|Hge].
  - assert (Hseen : (j, i) ∈ seen_t s).
    { apply (rd_prev _ _ Hrd); [done|]. apply (ct_keys _ _ Hct). exists child, node.
      split; [left; by eauto|]. split_and!; [done..|]. by apply neighbors_sym. }
    rewrite bool_decide_eq_true_2 by done. cbn [fst snd].
    split_and!; [done| |done|by rewrite orb_true_r].
    apply Hsame. intros a b (? & ? & ? & _). assert (a = i ∧ b = j) as [-> ->]
      by (split; congruence). lia.
  - assert (Hnew : (i, j) ∉ seen_t s).
    { intros Hin. apply (rd_seen _ _ Hrd) in Hin. cbn in Hin. lia. }
    rewrite bool_decide_eq_false_2 by done. cbn [fst snd counts self_counts seen_t current_t].
    assert (Hc : cross node child i j) by (split_and!; [done..|lia|done]).
    split_and!; [|  |done|by rewrite orb_true_r].
    + destruct Hrd as [H1 H2 H3]. split; cbn [counts seen_t current_t].
      * done.
      * intros a b Ha. rewrite lookup_insert_ne by (intros [= -> ->]; lia). by apply H2.
      * intros t. rewrite elem_of_union, elem_of_singleton, H3.
        destruct (decide (t = (i, j))) as [->|Hne].
        -- rewrite lookup_insert_eq. cbn. split; [by eauto|tauto].
        -- rewrite lookup_insert_ne by done. split; [intros [?|?]; [done|tauto]|tauto].
    + pose proof (counted_add _ _ _ _ _ _ Hct Hc) as Hadd. revert Hadd.
      apply counted_ext. intros n c a b _. unfold so_far.
      rewrite elem_of_app, list_elem_of_singleton. tauto.
Qed.

Lemma visit_children_round (i node : Z) (V0 : Z → Z → Prop) (l : list Z) :
  p2i !! node = Some i → (∀ c, c ∈ l → c ∈ neighbors G node) →
  ∀ cs s any,
  round i s →
  counted (so_far i (λ n c, V0 n c ∨ (n = node ∧ c ∈ cs))) (counts s) →
  let st' := foldl (visit_child p2i i node) (s, any) l in
  round i st'.1
  ∧ counted (so_far i (λ n c, V0 n c ∨ (n = node ∧ c ∈ cs ++ l))) (counts st'.1)
  ∧ self_counts st'.1 = self_counts s
  ∧ st'.2 = any || existsb (out i) l.
Proof.
  intros Hnode. induction l as [|child l IH]; intros Hl cs s any Hrd Hct; cbn [foldl existsb].
  - rewrite app_nil_r, orb_false_r. done.
  - destruct (visit_child_round i node child cs s any Hnode (Hl child ltac:(left)) V0 Hrd Hct)
      as (Hrd1 & Hct1 & Hsc1 & Hany1).
    destruct (visit_child p2i i node (s, any) child) as [s1 any1]. cbn [fst snd] in *.
    destruct (IH (λ c Hc, Hl c ltac:(by right)) (cs ++ [child]) s1 any1 Hrd1 Hct1)
      as (Hrd2 & Hct2 & Hsc2 & Hany2).
    rewrite <- app_assoc in Hct2. split_and!; [done..|congruence|].
    rewrite Hany2, Hany1. by rewrite orb_assoc.
Qed.

Lemma visit_node_round (i node : Z) (done : list Z) (s : tally) :
  p2i !! node = Some i →
  round i s → counted (so_far i (λ n c, n ∈ done)) (counts s) →
  let s' := visit_node G p2i i s node in
  round i s'
  ∧ counted (so_far i (λ n c, n ∈ done ++ [node])) (counts s')
  ∧ self_counts s'
    = if has_out i node then self_counts s
      else <[i := default [] (self_counts s !! i) ++ [node]]> (self_counts s).
Proof.
  intros Hnode Hrd Hct. cbn zeta. unfold visit_node.
  destruct (visit_children_round i node (λ n c, n ∈ done) (neighbors G node) Hnode
              (λ c Hc, Hc) [] s false Hrd) as (Hrd1 & Hct1 & Hsc1 & Hany1).
  { revert Hct. apply counted_ext. intros n c a b _. unfold so_far.
    split; [tauto|]. intros [?|[?|[_ ?%elem_of_nil]]]; tauto. }
  destruct (foldl _ _ _) as [s1 any1]. cbn [fst snd app] in *. rewrite orb_false_l in Hany1.
  fold (has_out i node) in Hany1. rewrite <- Hany1.
  assert (Hct2 : counted (so_far i (λ n c, n ∈ done ++ [node])) (counts s1)).
  { revert Hct1. apply counted_ext. intros n c a b (_ & _ & _ & Hc). unfold so_far.
    rewrite elem_of_app, list_elem_of_singleton. split; [tauto|].
    intros [?|[?| ->]]; tauto. }
  destruct any1; cbn [counts self_counts seen_t current_t]; [done|].
  split_and!; [|done|by rewrite Hsc1]. by destruct Hrd1.
Qed.

Lemma within_snoc (i node : Z) (done : list Z) :
  within i (done ++ [node])
  = within i done ++ (if has_out i node then [] else [node]).
Proof.
  unfold within. rewrite filter_app. f_equal.
  destruct (has_out i node) eqn:Hout.
  - rewrite filter_cons_False by (by rewrite Hout). done.
  - rewrite filter_cons_True by done. done.
Qed.

Lemma visit_nodes_round (i : Z) (p : list Z) :
  (∀ n, n ∈ p → p2i !! n = Some i) →
  ∀ done s,
  round i s → counted (so_far i (λ n c, n ∈ done)) (counts s) →
  self_counts s !! i = entry_of (within i done) →
  let s' := foldl (visit_node G p2i i) s p in
  round i s'
  ∧ counted (so_far i (λ n c, n ∈ done ++ p)) (counts s')
  ∧ self_counts s' !! i = entry_of (within i (done ++ p))
  ∧ ∀ k, k ≠ i → self_counts s' !! k = self_counts s !! k.
Proof.
  induction p as [|node p IH]; intros Hp done s Hrd Hct Hsc; cbn [foldl].
  - rewrite app_nil_r. done.
  - destruct (visit_node_round i node done s (Hp node ltac:(left)) Hrd Hct)
      as (Hrd1 & Hct1 & Hsc1).
    set (s1 := visit_node G p2i i s node) in *. clearbody s1.
    assert (Hi : self_counts s1 !! i = entry_of (within i (done ++ [node]))).
    { rewrite Hsc1, within_snoc. destruct (has_out i node).
      - by rewrite app_nil_r.
      - rewrite lookup_insert_eq, Hsc.
        assert (default [] (entry_of (within i done)) = within i done) as ->
          by (by destruct (within i done)).
        by destruct (within i done). }
    destruct (IH (λ n Hn, Hp n ltac:(by right)) (done ++ [node]) s1 Hrd1 Hct1 Hi)
      as (Hrd2 & Hct2 & Hsc2 & Hk2).
    rewrite <- app_assoc in Hct2, Hsc2. split_and!; [done..|].
    intros k Hk. rewrite (Hk2 k Hk), Hsc1.
    destruct (has_out i node); [done|]. by rewrite lookup_insert_ne.
Qed.

(** What holds of the tables before the partition number [i]. *)
Record upto (i : nat) (s : tally) : Prop := {
  up_counted : counted (so_far (Z.of_nat i) (λ _ _, False)) (counts s);
  up_seen : ∀ t, t ∈ seen_t s → t.1 < Z.of_nat i;
  up_prev : ∀ a b, a < Z.of_nat i → is_Some (counts s !! (a, b)) → (a, b) ∈ seen_t s;
  up_self : ∀ k, self_counts s !! k
                 = if bool_decide (0 ≤ k < Z.of_nat i)
                   then entry_of (within k (default [] (parts !! Z.to_nat k)))
                   else None
}.

Lemma visit_part_upto (i : nat) (p : list Z) (s : tally) :
  parts !! i = Some p → upto i s → upto (S i) (visit_part G p2i s (Z.of_nat i, p)).
Proof.
  intros Hi [Hct Hseen Hprev Hself]. unfold visit_part.
  set (s0 := {| counts := counts s; self_counts := self_counts s; seen_t := seen_t s;
                current_t := ∅ |}).
  assert (Hp : ∀ n, n ∈ p → p2i !! n = Some (Z.of_nat i)).
  { intros n Hn. apply Hp2i. by exists i, p. }
  assert (Hkeys : ∀ a b, is_Some (counts s !! (a, b)) → a < Z.of_nat i).
  { intros a b (n & c & [(a' & Ha' & Hlt)|[]] & Hc & _)%(ct_keys _ _ Hct). congruence. }
  destruct (visit_nodes_round (Z.of_nat i) p Hp [] s0) as (Hrd1 & Hct1 & Hsc1 & Hk1).
  { split; cbn [counts seen_t current_t s0]; [done..|].
    intros [a b]. split; [by intros ?%elem_of_empty|]. cbn. intros [Hs ->].
    apply Hkeys in Hs. lia. }
  { revert Hct. apply counted_ext. intros n c a b _. unfold so_far.
    split; [tauto|]. intros [?|?%elem_of_nil]; tauto. }
  { cbn [self_counts s0]. rewrite Hself. rewrite bool_decide_eq_false_2 by lia. done. }
  cbn [app] in *. set (s1 := foldl _ s0 p) in *. clearbody s1.
  destruct Hrd1 as [H1 H2 H3]. split; cbn [counts self_counts seen_t].
  - revert Hct1. apply counted_ext. intros n c a b (Hn & _). unfold so_far. split.
    + intros [(a' & ? & ?)|Hin]; left; [exists a'; split; [done|lia]|].
      exists (Z.of_nat i). split; [by apply Hp|lia].
    + intros [(a' & Ha' & Hlt)|[]].
      destruct (decide (a' < Z.of_nat i)); [left; by eauto|]. right.
      assert (a' = Z.of_nat i) as -> by lia.
      apply Hp2i in Ha' as (i' & P & Hii & HP & Hin).
      apply Nat2Z.inj in Hii as <-. by simplify_eq.
  - intros t [Ht|Ht]%elem_of_union; [apply H1 in Ht; lia|]. apply H3 in Ht as [_ ->]. lia.
  - intros a b Ha Hs. apply elem_of_union.
    destruct (decide (a < Z.of_nat i)); [left; by apply H2|]. right.
    apply H3. split; [done|]. cbn. lia.
  - intros k. destruct (decide (k = Z.of_nat i)) as [->|Hk].
    + rewrite Hsc1, bool_decide_eq_true_2 by lia. by rewrite Nat2Z.id, Hi.
    + rewrite (Hk1 k Hk). cbn [self_counts s0]. rewrite Hself.
      apply (f_equal (λ b : bool, if b then _ else _)). apply bool_decide_ext. lia.
Qed.

Lemma visit_parts_upto (suffix : list (list Z)) :
  ∀ (prefix : list (list Z)) (s : tally),
    parts = prefix ++ suffix → upto (length prefix) s →
    upto (length parts)
      (foldl (visit_part G p2i) s
         (imap (λ i x, (Z.of_nat (length prefix + i), x)) suffix)).
Proof.
  induction suffix as [|p suffix IH]; intros prefix s Hparts Hup; cbn [imap foldl].
  - rewrite Hparts, app_nil_r. done.
  - rewrite Nat.add_0_r.
    assert (Hi : parts !! length prefix = Some p) by (by rewrite Hparts, list_lookup_middle).
    pose proof (visit_part_upto (length prefix) p s Hi Hup) as Hup1.
    specialize (IH (prefix ++ [p]) (visit_part G p2i s (Z.of_nat (length prefix), p))).
    rewrite length_app in IH. cbn [length] in IH. rewrite Nat.add_1_r in IH.
    specialize (IH ltac:(by rewrite <- app_assoc) Hup1).
    erewrite imap_ext; [exact IH|]. intros j x _. cbn. f_equal. lia.
Qed.

Lemma visit_all_upto :
  upto (length parts)
    (foldl (visit_part G p2i)
       {| counts := ∅; self_counts := ∅; seen_t := ∅; current_t := ∅ |}
       (Python.enumerate parts)).
Proof.
  apply (visit_parts_upto parts [] _ eq_refl). split; cbn.
  - split.
    + intros a b. rewrite lookup_empty. split; [by intros [? ?]|].
      intros (n & c & [(a' & Ha' & ?)|[]] & _).
      apply Hp2i in Ha' as (i' & _ & -> & _). lia.
    + intros a b A B x. by rewrite lookup_empty.
    + intros a b A B x. by rewrite lookup_empty.
  - intros t. by intros ?%elem_of_empty.
  - intros a b _. rewrite lookup_empty. by intros [? ?].
  - intros k. rewrite lookup_empty. rewrite bool_decide_eq_false_2 by lia. done.
Qed.

End Counting.

(** No node is in two of the partitions, as for the partitions
    [get_partitions] returns. *)
Definition disjoint (parts : list (list Z)) : Prop :=
  ∀ i j P Q x, i ≠ j → parts !! i = Some P → parts !! j = Some Q → x ∈ P → x ∉ Q.

Lemma insert_fold_lookup (p : list Z) (v n : Z) :
  ∀ m : gmap Z Z,
    foldl (λ m node, <[node := v]> m) m p !! n
    = if bool_decide (n ∈ p) then Some v else m !! n.
Proof.
  induction p as [|x p IH]; intros m; cbn [foldl].
  - rewrite bool_decide_eq_false_2; [done|apply not_elem_of_nil].
  - rewrite IH. case_bool_decide as Hp.
    + rewrite bool_decide_eq_true_2; [done|by right].
    + destruct (decide (n = x)) as [->|Hne].
      * rewrite lookup_insert_eq. rewrite bool_decide_eq_true_2; [done|by left].
      * rewrite lookup_insert_ne by done.
        rewrite bool_decide_eq_false_2; [done|]. by intros [?|?]%elem_of_cons.
Qed.

Lemma fill_fold_lookup (suffix : list (list Z)) :
  ∀ (prefix : list (list Z)) (m : gmap Z Z) n,
    let m' := foldl (λ p2i ip, foldl (λ p2i node, <[node := ip.1]> p2i) p2i ip.2) m
                (imap (λ i x, (Z.of_nat (length prefix + i), x)) suffix) in
    (∀ k, m' !! n = Some k →
       m !! n = Some k
       ∨ ∃ i P, k = Z.of_nat (length prefix + i) ∧ suffix !! i = Some P ∧ n ∈ P)
    ∧ (is_Some (m !! n) ∨ (∃ P, P ∈ suffix ∧ n ∈ P) → is_Some (m' !! n)).
Proof.
  induction suffix as [|p suffix IH]; intros prefix m n; cbn [imap foldl].
  - split; [by left|]. intros [?|(P & ?%elem_of_nil & _)]; done.
  - cbn zeta in IH. cbn [fst snd]. rewrite Nat.add_0_r.
    set (m1 := foldl _ m p).
    assert (Hm1 : m1 !! n = if bool_decide (n ∈ p) then Some (Z.of_nat (length prefix))
                            else m !! n) by apply insert_fold_lookup.
    clearbody m1.
    destruct (IH (prefix ++ [p]) m1 n) as [Hs Hd].
    rewrite (imap_ext _ (λ i x, (Z.of_nat (length (prefix ++ [p]) + i), x)))
      by (intros; cbn; rewrite length_app; cbn; do 2 f_equal; lia).
    split.
    + intros k Hk. destruct (Hs k Hk) as [Hin|(i & P & -> & HP & Hn)].
      * rewrite Hm1 in Hin. case_bool_decide; [|by left].
        injection Hin as <-. right. exists O, p. rewrite Nat.add_0_r. done.
      * right. exists (S i), P. rewrite length_app. cbn.
        split; [f_equal; lia|done].
    + intros H. apply Hd. rewrite Hm1.
      destruct H as [H|(P & [->|HP]%elem_of_cons & Hn)].
      * left. by case_bool_decide.
      * left. by rewrite bool_decide_eq_true_2.
      * right. by eauto.
Qed.

Lemma fill_p2i_sound (parts : list (list Z)) (n k : Z) :
  fill_p2i parts !! n = Some k → ∃ i P, k = Z.of_nat i ∧ parts !! i = Some P ∧ n ∈ P.
Proof.
  destruct (fill_fold_lookup parts [] ∅ n) as [Hs _]. cbn in Hs.
  fold (Python.enumerate parts) in Hs. fold (fill_p2i parts) in Hs.
  intros Hk. destruct (Hs k Hk) as [Hin|?]; [by rewrite lookup_empty in Hin|done].
Qed.

Lemma fill_p2i_spec (parts : list (list Z)) (n k : Z) :
  disjoint parts →
  fill_p2i parts !! n = Some k ↔ ∃ i P, k = Z.of_nat i ∧ parts !! i = Some P ∧ n ∈ P.
Proof.
  intros Hdis. destruct (fill_fold_lookup parts [] ∅ n) as [_ Hd]. cbn in Hd.
  fold (Python.enumerate parts) in Hd. fold (fill_p2i parts) in Hd.
  split; [apply fill_p2i_sound|]. intros (i & P & -> & HP & Hn).
  destruct Hd as [k' Hk'].
  { right. exists P. split; [by eapply list_elem_of_lookup_2|done]. }
  destruct (fill_p2i_sound parts n k' Hk') as (i' & P' & -> & HP' & Hn').
  destruct (decide (i = i')) as [->|Hne]; [done|].
  by destruct (Hdis i i' P P' n Hne HP HP' Hn).
Qed.

(** The tables of a call with two or more disjoint partitions. *)
Lemma count_support_between_tables (G : Py_SimpleGraph) (parts : list (list Z))
    (min_support : Z) :
  wf_graphb G = true → disjoint parts → (2 ≤ length parts)%nat →
  counted G (fill_p2i parts) (λ _ _, True) (count_support_between G parts min_support).1
  ∧ ∀ i P, parts !! i = Some P →
      (count_support_between G parts min_support).2 !! Z.of_nat i
      = entry_of (within G (fill_p2i parts) (Z.of_nat i) P).
Proof.
  intros Hwf Hdis Hlen.
  assert (Hp2i : ∀ n k, fill_p2i parts !! n = Some k
                        ↔ ∃ i P, k = Z.of_nat i ∧ parts !! i = Some P ∧ n ∈ P)
    by (intros; by apply fill_p2i_spec).
  pose proof (visit_all_upto G Hwf parts (fill_p2i parts) Hp2i) as [Hct _ _ Hself].
  assert (Heq : count_support_between G parts min_support
                = (counts (foldl (visit_part G (fill_p2i parts))
                     {| counts := ∅; self_counts := ∅; seen_t := ∅; current_t := ∅ |}
                     (Python.enumerate parts)),
                   self_counts (foldl (visit_part G (fill_p2i parts))
                     {| counts := ∅; self_counts := ∅; seen_t := ∅; current_t := ∅ |}
                     (Python.enumerate parts)))).
  { unfold count_support_between. destruct parts as [|p [|q parts]]; cbn in Hlen; [lia..|done]. }
  rewrite Heq. cbn [fst snd]. split.
  - revert Hct. apply counted_ext. intros n c a b (Hn & _). unfold so_far.
    split; [done|]. intros _. left. exists a. split; [done|].
    apply Hp2i in Hn as (i & P & -> & HP & _). apply lookup_lt_Some in HP. lia.
  - intros i P HP. rewrite Hself. rewrite bool_decide_eq_true_2.
    + by rewrite Nat2Z.id, HP.
    + apply lookup_lt_Some in HP. lia.
Qed.

Lemma has_out_spec (G : Py_SimpleGraph) (p2i : gmap Z Z) (i n : Z) :
  has_out G p2i i n = true ↔ ∃ c j, c ∈ neighbors G n ∧ p2i !! c = Some j ∧ j ≠ i.
Proof.
  unfold has_out. rewrite existsb_exists. unfold out. split.
  - intros (c & Hc%list_elem_of_In & Hout). destruct (p2i !! c) as [j|] eqn:Hj; [|done].
    exists c, j. split_and!; [done..|]. intros ->. by rewrite Z.eqb_refl in Hout.
  - intros (c & j & Hc & Hj & Hne). exists c. split; [by apply list_elem_of_In|].
    rewrite Hj. by apply negb_true_iff, Z.eqb_neq.
Qed.

(** [node] has a neighbour in another partition than number [i]. *)
Definition linked_out (G : Py_SimpleGraph) (parts : list (list Z)) (i : nat) (node : Z)
  : Prop :=
  ∃ c j Q, c ∈ neighbors G node ∧ j ≠ i ∧ parts !! j = Some Q ∧ c ∈ Q.

Lemma has_out_linked (G : Py_SimpleGraph) (parts : list (list Z)) (i : nat) (n : Z) :
  disjoint parts →
  has_out G (fill_p2i parts) (Z.of_nat i) n = true ↔ linked_out G parts i n.
Proof.
  intros Hdis. rewrite has_out_spec. unfold linked_out. split.
  - intros (c & k & Hc & Hk & Hne). apply fill_p2i_spec in Hk as (j & Q & -> & HQ & Hin); [|done].
    exists c, j, Q. split_and!; [done| |done..]. intros ->. done.
  - intros (c & j & Q & Hc & Hne & HQ & Hin). exists c, (Z.of_nat j).
    split_and!; [done| |lia]. apply fill_p2i_spec; [done|]. by exists j, Q.
Qed.

(** X27: what [count_support_between] counts between partitions.  For
    two or more disjoint partitions of an undirected graph, [counts] has
    a key [(i, j)] exactly for the partitions [i < j] that an edge
    links, whatever the weight of the edge; its first set holds the
    nodes of partition [i] that have a neighbour in partition [j] and
    its second set the nodes of partition [j] that have a neighbour in
    partition [i]. *)
Theorem count_support_between_links (G : Py_SimpleGraph) (parts : list (list Z))
    (min_support : Z) :
  wf_graphb G = true → disjoint parts → (2 ≤ length parts)%nat →
  (∀ a b A B, (count_support_between G parts min_support).1 !! (a, b) = Some (A, B) →
     ∃ i j P Q, a = Z.of_nat i ∧ b = Z.of_nat j ∧ (i < j)%nat
       ∧ parts !! i = Some P ∧ parts !! j = Some Q
       ∧ (∃ n c, n ∈ P ∧ c ∈ Q ∧ c ∈ neighbors G n)
       ∧ (∀ x, x ∈ A ↔ x ∈ P ∧ ∃ c, c ∈ Q ∧ c ∈ neighbors G x)
       ∧ (∀ x, x ∈ B ↔ x ∈ Q ∧ ∃ n, n ∈ P ∧ x ∈ neighbors G n))
  ∧ (∀ i j P Q n c, (i < j)%nat → parts !! i = Some P → parts !! j = Some Q →
       n ∈ P → c ∈ Q → c ∈ neighbors G n →
       is_Some ((count_support_between G parts min_support).1 !! (Z.of_nat i, Z.of_nat j))).
Proof.
  intros Hwf Hdis Hlen.
  destruct (count_support_between_tables G parts min_support Hwf Hdis Hlen) as [[Hk Hl Hr] _].
  assert (Hin : ∀ n i P, parts !! i = Some P →
            (fill_p2i parts !! n = Some (Z.of_nat i) ↔ n ∈ P)).
  { intros n i P HP. rewrite fill_p2i_spec by done. split.
    - intros (i' & P' & Hi & HP' & Hn). apply Nat2Z.inj in Hi as <-. by simplify_eq.
    - intros Hn. by exists i, P. }
  split.
  - intros a b A B Hab.
    destruct (proj1 (Hk a b)) as (n & c & _ & Hn & Hc & Hlt & Hnc); [by rewrite Hab|].
    apply fill_p2i_spec in Hn as (i & P & -> & HP & HnP); [|done].
    apply fill_p2i_spec in Hc as (j & Q & -> & HQ & HcQ); [|done].
    exists i, j, P, Q. split; [done|]. split; [done|]. split; [lia|].
    split; [done|]. split; [done|]. split; [by exists n, c|]. split.
    + intros x. rewrite (Hl _ _ A B x Hab). unfold cross. split.
      * intros (c' & _ & Hx & Hc' & _ & Hnb). split; [by apply (Hin x i P)|].
        exists c'. split; [by apply (Hin c' j Q)|done].
      * intros (Hx & c' & Hc' & Hnb). exists c'. split; [done|].
        split_and!; [by apply (Hin x i P)|by apply (Hin c' j Q)|done..].
    + intros x. rewrite (Hr _ _ A B x Hab). unfold cross. split.
      * intros (n' & _ & Hn' & Hx & _ & Hnb). split; [by apply (Hin x j Q)|].
        exists n'. split; [by apply (Hin n' i P)|done].
      * intros (Hx & n' & Hn' & Hnb). exists n'. split; [done|].
        split_and!; [by apply (Hin n' i P)|by apply (Hin x j Q)|done..].
  - intros i j P Q n c Hij HP HQ Hn Hc Hnb. apply Hk. exists n, c. split; [done|].
    split_and!; [by apply (Hin n i P)|by apply (Hin c j Q)|lia|done].
Qed.

(** X28: what [count_support_between] counts within a partition.  For
    two or more disjoint partitions of an undirected graph,
    [self_counts[i]] holds, in their order, the nodes of partition [i]
    none of whose neighbours is in another partition; there is no entry
    for a partition without such a node, and none for any other key. *)
Theorem count_support_between_within (G : Py_SimpleGraph) (parts : list (list Z))
    (min_support : Z) :
  wf_graphb G = true → disjoint parts → (2 ≤ length parts)%nat →
  (∀ k l, (count_support_between G parts min_support).2 !! k = Some l →
     ∃ i P, k = Z.of_nat i ∧ parts !! i = Some P ∧ l ≠ [] ∧ l `sublist_of` P
       ∧ ∀ n, n ∈ l ↔ n ∈ P ∧ ¬ linked_out G parts i n)
  ∧ (∀ i P n, parts !! i = Some P → n ∈ P → ¬ linked_out G parts i n →
       ∃ l, (count_support_between G parts min_support).2 !! Z.of_nat i = Some l ∧ n ∈ l).
Proof.
  intros Hwf Hdis Hlen.
  assert (Hmem : ∀ i P n, n ∈ within G (fill_p2i parts) (Z.of_nat i) P
                          ↔ n ∈ P ∧ ¬ linked_out G parts i n).
  { intros i P n. unfold within. rewrite list_elem_of_filter.
    rewrite <- (has_out_linked G parts i n Hdis).
    destruct (has_out _ _ _ _); intuition congruence. }
  split.
  - intros k l Hl.
    assert (∃ i P, k = Z.of_nat i ∧ parts !! i = Some P) as (i & P & -> & HP).
    { unfold count_support_between in Hl.
      destruct parts as [|p [|q parts']] eqn:Hparts; cbn in Hlen; [lia..|].
      cbn [snd] in Hl. rewrite <- Hparts in *.
      assert (Hp2i : ∀ n k, fill_p2i parts !! n = Some k
                            ↔ ∃ i P, k = Z.of_nat i ∧ parts !! i = Some P ∧ n ∈ P)
        by (intros; by apply fill_p2i_spec).
      pose proof (visit_all_upto G Hwf parts (fill_p2i parts) Hp2i) as [_ _ _ Hself].
      rewrite Hself in Hl. case_bool_decide as Hk; [|done].
      destruct (lookup_lt_is_Some_2 parts (Z.to_nat k)) as [P HP]; [lia|].
      exists (Z.to_nat k), P. split; [lia|done]. }
    destruct (count_support_between_tables G parts min_support Hwf Hdis Hlen) as [_ Hs].
    rewrite (Hs i P HP) in Hl. exists i, P. split_and!; [done..| | |].
    + intros ->. by destruct (within _ _ _ _).
    + assert (l = within G (fill_p2i parts) (Z.of_nat i) P) as ->
        by (destruct (within _ _ _ _); cbn in Hl; by simplify_eq).
      apply sublist_filter.
    + assert (l = within G (fill_p2i parts) (Z.of_nat i) P) as ->
        by (destruct (within _ _ _ _); cbn in Hl; by simplify_eq).
      apply Hmem.
  - intros i P n HP Hn Halone.
    destruct (count_support_between_tables G parts min_support Hwf Hdis Hlen) as [_ Hs].
    rewrite (Hs i P HP). assert (Hin : n ∈ within G (fill_p2i parts) (Z.of_nat i) P)
      by (by apply Hmem).
    destruct (within _ _ _ _) as [|x l] eqn:Hw; [by apply elem_of_nil in Hin|].
    by exists (x :: l).
Qed.

(** X29: [count_support_between] loses no node.  For two or more disjoint
    partitions of an undirected graph, every node of every partition is
    in [self_counts] of its partition or in a set of [counts] for its
    partition and another one. *)
Theorem count_support_between_keeps_nodes (G : Py_SimpleGraph) (parts : list (list Z))
    (min_support : Z) (i : nat) (P : list Z) (n : Z) :
  wf_graphb G = true → disjoint parts → (2 ≤ length parts)%nat →
  parts !! i = Some P → n ∈ P →
  (∃ l, (count_support_between G parts min_support).2 !! Z.of_nat i = Some l ∧ n ∈ l)
  ∨ (∃ j A B, (count_support_between G parts min_support).1 !! (Z.of_nat i, Z.of_nat j)
              = Some (A, B) ∧ n ∈ A)
  ∨ (∃ j A B, (count_support_between G parts min_support).1 !! (Z.of_nat j, Z.of_nat i)
              = Some (A, B) ∧ n ∈ B).
Proof.
  intros Hwf Hdis Hlen HP Hn.
  destruct (count_support_between_tables G parts min_support Hwf Hdis Hlen) as [[Hk Hl Hr] Hs].
  assert (Hni : fill_p2i parts !! n = Some (Z.of_nat i)).
  { apply fill_p2i_spec; [done|]. by exists i, P. }
  destruct (has_out G (fill_p2i parts) (Z.of_nat i) n) eqn:Hout.
  - right. apply has_out_spec in Hout as (c & k & Hc & Hck & Hne).
    pose proof Hck as Hck'. apply fill_p2i_spec in Hck' as (j & Q & -> & HQ & HcQ); [|done].
    destruct (decide (i < j)%nat) as [Hlt|Hge].
    + left. assert (Hx : cross G (fill_p2i parts) n c (Z.of_nat i) (Z.of_nat j))
        by (split_and!; [done..|lia|done]).
      destruct (proj2 (Hk (Z.of_nat i) (Z.of_nat j))) as [[A B] Hab]; [by exists n, c|].
      exists j, A, B. split; [done|]. apply (Hl _ _ A B n Hab). by exists c.
    + right. assert (Hx : cross G (fill_p2i parts) c n (Z.of_nat j) (Z.of_nat i)).
      { split_and!; [done..|lia|]. by apply (neighbors_sym G Hwf). }
      destruct (proj2 (Hk (Z.of_nat j) (Z.of_nat i))) as [[A B] Hab]; [by exists c, n|].
      exists j, A, B. split; [done|]. apply (Hr _ _ A B n Hab). by exists c.
  - left. rewrite (Hs i P HP).
    assert (Hin : n ∈ within G (fill_p2i parts) (Z.of_nat i) P)
      by (unfold within; by apply list_elem_of_filter).
    destruct (within _ _ _ _) as [|x l] eqn:Hw; [by apply elem_of_nil in Hin|].
    by exists (x :: l).
Qed.

Lemma two_partitions_disjoint : disjoint [[0; 1]; [2; 3]].
Proof.
  intros i j P Q x Hij Hi Hj HP HQ.
  destruct i as [|[|i]], j as [|[|j]]; try done; cbn in Hi, Hj; simplify_eq;
    repeat (apply elem_of_cons in HP as [->|HP]); try (by apply elem_of_nil in HP);
    repeat (apply elem_of_cons in HQ as [HQ|HQ]); try done; by apply elem_of_nil in HQ.
Qed.

Lemma count_support_between_links_witness :
  (∀ a b A B,
     (count_support_between Examples.two_pairs [[0; 1]; [2; 3]] 3).1 !! (a, b) = Some (A, B) →
     ∃ i j P Q, a = Z.of_nat i ∧ b = Z.of_nat j ∧ (i < j)%nat
       ∧ [[0; 1]; [2; 3]] !! i = Some P ∧ [[0; 1]; [2; 3]] !! j = Some Q
       ∧ (∃ n c, n ∈ P ∧ c ∈ Q ∧ c ∈ neighbors Examples.two_pairs n)
       ∧ (∀ x, x ∈ A ↔ x ∈ P ∧ ∃ c, c ∈ Q ∧ c ∈ neighbors Examples.two_pairs x)
       ∧ (∀ x, x ∈ B ↔ x ∈ Q ∧ ∃ n, n ∈ P ∧ x ∈ neighbors Examples.two_pairs n))
  ∧ (∀ i j P Q n c, (i < j)%nat →
       [[0; 1]; [2; 3]] !! i = Some P → [[0; 1]; [2; 3]] !! j = Some Q →
       n ∈ P → c ∈ Q → c ∈ neighbors Examples.two_pairs n →
       is_Some ((count_support_between Examples.two_pairs [[0; 1]; [2; 3]] 3).1
                  !! (Z.of_nat i, Z.of_nat j))).
Proof.
  apply (count_support_between_links Examples.two_pairs [[0; 1]; [2; 3]] 3).
  - reflexivity.
  - exact two_partitions_disjoint.
  - cbn. lia.
Defined.

Lemma count_support_between_within_witness :
  (∀ k l, (count_support_between Examples.two_pairs [[0; 1]; [2; 3]] 3).2 !! k = Some l →
     ∃ i P, k = Z.of_nat i ∧ [[0; 1]; [2; 3]] !! i = Some P ∧ l ≠ [] ∧ l `sublist_of` P
       ∧ ∀ n, n ∈ l ↔ n ∈ P ∧ ¬ linked_out Examples.two_pairs [[0; 1]; [2; 3]] i n)
  ∧ (∀ i P n, [[0; 1]; [2; 3]] !! i = Some P → n ∈ P →
       ¬ linked_out Examples.two_pairs [[0; 1]; [2; 3]] i n →
       ∃ l, (count_support_between Examples.two_pairs [[0; 1]; [2; 3]] 3).2 !! Z.of_nat i
            = Some l ∧ n ∈ l).
Proof.
  apply (count_support_between_within Examples.two_pairs [[0; 1]; [2; 3]] 3).
  - reflexivity.
  - exact two_partitions_disjoint.
  - cbn. lia.
Defined.

Lemma count_support_between_keeps_nodes_witness :
  (∃ l, (count_support_between Examples.two_pairs [[0; 1]; [2; 3]] 3).2 !! Z.of_nat 0
        = Some l ∧ 1 ∈ l)
  ∨ (∃ j A B, (count_support_between Examples.two_pairs [[0; 1]; [2; 3]] 3).1
                !! (Z.of_nat 0, Z.of_nat j) = Some (A, B) ∧ 1 ∈ A)
  ∨ (∃ j A B, (count_support_between Examples.two_pairs [[0; 1]; [2; 3]] 3).1
                !! (Z.of_nat j, Z.of_nat 0) = Some (A, B) ∧ 1 ∈ B).
Proof.
  apply (count_support_between_keeps_nodes Examples.two_pairs [[0; 1]; [2; 3]] 3 0 [0; 1] 1).
  - reflexivity.
  - exact two_partitions_disjoint.
  - cbn. lia.
  - reflexivity.
  - right. left.
Defined.

End SupportBetweenFacts.

Module BreakComponentFacts.
Import Graph BreakComponent.

Lemma foldl_invariant {A B : Type} (I : A → Prop) (step : A → B → A) (l : list B) :
  ∀ a, (∀ a x, x ∈ l → I a → I (step a x)) → I a → I (foldl step a l).
Proof.
  induction l as [|x l IH]; intros a Hstep Ha; cbn [foldl]; [done|].
  apply IH; [intros; apply Hstep; [by right|done]|]. apply Hstep; [by left|done].
Qed.

Lemma bump_keys {K : Type} `{EqDecision K} (Q : K → Prop) (k : K) (d : list (K * Z)) :
  Forall (λ kv, Q kv.1) d → Q k → Forall (λ kv, Q kv.1) (bump k d).
Proof.
  intros Hd Hk. unfold bump. case_bool_decide.
  - apply Forall_fmap. eapply Forall_impl; [exact Hd|]. intros [k' v] Hk'. cbn.
    by destruct (decide _).
  - apply Forall_app. split; [done|]. by apply Forall_singleton.
Qed.

(** The count of the pair reaches [min_support]. *)
Definition enough (min_support : Z) (item : (Z * Z) * Z) : Prop := min_support ≤ item.2.

#[global] Instance enough_dec min_support item : Decision (enough min_support item).
Proof. unfold enough. apply _. Defined.

Section Merging.

Variable G : Py_SimpleGraph.
Variable parts : list (list Z).

(** An index of [parts]. *)
Definition valid (a : Z) : Prop := 0 ≤ a < Z.of_nat (length parts).

Definition keys_valid (s : tally) : Prop :=
  Forall (λ item, valid item.1.1 ∧ valid item.1.2) (counts s)
  ∧ Forall (λ item, valid item.1) (self_counts s).

Lemma visit_child_keys (i child : Z) (s : tally) :
  valid i → keys_valid s →
  keys_valid (visit_child (SupportBetween.fill_p2i parts) i s child).
Proof.
  intros Hi [Hc Hs]. unfold visit_child.
  destruct (SupportBetween.fill_p2i parts !! child) as [j|] eqn:Hj; [|done].
  assert (Hvj : valid j).
  { apply SupportBetweenFacts.fill_p2i_sound in Hj as (k & P & -> & HP & _).
    apply lookup_lt_Some in HP. unfold valid. lia. }
  destruct (j =? i); cbn [negb].
  - split; [done|]. cbn. by apply (bump_keys valid).
  - case_bool_decide; [done|]. split; [|done]. cbn.
    apply (bump_keys (λ t, valid t.1 ∧ valid t.2)); [done|]. by destruct (j <? i).
Qed.

Lemma visit_part_keys (i : Z) (p : list Z) (s : tally) :
  valid i → keys_valid s →
  keys_valid (visit_part G (SupportBetween.fill_p2i parts) s (i, p)).
Proof.
  intros Hi Hs. unfold visit_part.
  assert (Hfold : keys_valid
    (foldl (λ s node, foldl (visit_child (SupportBetween.fill_p2i parts) i) s (neighbors G node))
       {| counts := counts s; self_counts := self_counts s; seen_t := seen_t s;
          current_t := ∅ |} p)).
  { apply (foldl_invariant keys_valid); [|done]. intros s1 node _ Hs1.
    apply (foldl_invariant keys_valid); [|done]. intros s2 child _ Hs2.
    by apply visit_child_keys. }
  done.
Qed.

Lemma count_links_keys : keys_valid (count_links G parts).
Proof.
  unfold count_links. apply (foldl_invariant keys_valid).
  - intros s [i p] Hin Hs. apply visit_part_keys; [|done].
    unfold Python.enumerate in Hin. apply list_elem_of_lookup in Hin as [k Hk].
    rewrite list_lookup_imap in Hk. destruct (parts !! k) eqn:Hpk; [|done].
    injection Hk as <- _. apply lookup_lt_Some in Hpk. unfold valid. lia.
  - split; constructor.
Qed.

(** The arrays of [st] are those of [parts], each with what was added
    behind it. *)
Definition holds_parts (st : merging) : Prop :=
  ∀ r P, parts !! r = Some P → ∃ S, store st !! r = Some S ∧ P ⊆ S.

(** From [st] to [st'] the arrays have only grown. *)
Definition grown (st st' : merging) : Prop :=
  ∀ r S, store st !! r = Some S → ∃ S', store st' !! r = Some S' ∧ S ⊆ S'.

Lemma merge_pairs_grow (min_support : Z) (l : list ((Z * Z) * Z)) :
  Forall (λ item, valid item.1.1 ∧ valid item.1.2) l →
  ∀ st, holds_parts st →
  ∃ st',
    foldl (merge_pair min_support) (Some st) l = Some st'
    ∧ holds_parts st' ∧ (grown st st' ∧ length (store st') = length (store st))
    ∧ jobs st' = jobs st ++ ((λ item, Z.to_nat item.1.1) <$> filter (enough min_support) l)
    ∧ ∀ u v sup, ((u, v), sup) ∈ l → min_support ≤ sup →
        ∃ S Pv, store st' !! Z.to_nat u = Some S ∧ parts !! Z.to_nat v = Some Pv ∧ Pv ⊆ S.
Proof.
  induction 1 as [|[[u v] sup] l [Hu Hv] _ IH]; intros st Hst; cbn [foldl].
  - exists st. split_and!; [done|done| |done|by rewrite app_nil_r|].
    + intros r S HS. by exists S.
    + intros ? ? ? ?%elem_of_nil. done.
  - cbn [merge_pair mbind option_bind]. unfold valid in Hu, Hv. cbn [fst snd] in Hu, Hv.
    destruct (Z.leb_spec min_support sup) as [Hsup|Hsup].
    + destruct (Z.ltb_spec u 0); [lia|]. destruct (Z.ltb_spec v 0); [lia|]. cbn [orb].
      destruct (lookup_lt_is_Some_2 parts (Z.to_nat u)) as [Pu HPu]; [lia|].
      destruct (lookup_lt_is_Some_2 parts (Z.to_nat v)) as [Pv HPv]; [lia|].
      destruct (Hst _ _ HPu) as (b & Hb & Hbsub). destruct (Hst _ _ HPv) as (pv & Hpv & Hpvsub).
      rewrite Hb, Hpv. cbn [mbind option_bind].
      set (st1 := {| f := _; store := _; jobs := _ |}).
      assert (Hg1 : grown st st1).
      { intros r S HS. cbn [store st1]. destruct (decide (r = Z.to_nat u)) as [->|Hne].
        - rewrite list_lookup_insert_eq by (by eapply lookup_lt_Some).
          exists (b ++ pv). split; [done|]. simplify_eq. intros x Hx. apply elem_of_app. by left.
        - rewrite list_lookup_insert_ne by done. by exists S. }
      assert (Hst1 : holds_parts st1).
      { intros r P HP. destruct (Hst r P HP) as (S & HS & Hsub).
        destruct (Hg1 r S HS) as (S' & HS' & Hsub'). exists S'. split; [done|]. by etrans. }
      destruct (IH st1 Hst1) as (st' & Hfold & Hst' & [Hg Hlen] & Hjobs & Hall).
      exists st'. split_and!; [done|done| | | |].
      * intros r S HS. destruct (Hg1 r S HS) as (S1 & HS1 & Hsub1).
        destruct (Hg r S1 HS1) as (S' & HS' & Hsub'). exists S'. split; [done|]. by etrans.
      * rewrite Hlen. cbn [store st1]. by rewrite length_insert.
      * rewrite Hjobs. cbn [jobs st1]. rewrite filter_cons_True by done.
        cbn [fmap list_fmap fst]. by rewrite <- app_assoc.
      * intros u' v' sup' [[= -> -> ->]|Hin]%elem_of_cons Hsup'; [|by eapply Hall].
        destruct (Hg (Z.to_nat u) (b ++ pv)) as (S' & HS' & Hsub').
        { cbn [store st1]. apply list_lookup_insert_eq. by eapply lookup_lt_Some. }
        exists S', Pv. split_and!; [done..|]. intros x Hx. apply Hsub', elem_of_app. right.
        by apply Hpvsub.
    + destruct (IH st Hst) as (st' & Hfold & Hst' & [Hg Hlen] & Hjobs & Hall).
      exists st'. split_and!; [done..| |].
      * rewrite Hjobs. rewrite filter_cons_False by (unfold enough; cbn; lia). done.
      * intros u' v' sup' [[= -> -> ->]|Hin]%elem_of_cons Hsup'; [lia|by eapply Hall].
Qed.

Lemma keep_parts_store (min_support : Z) (l : list (Z * Z)) :
  Forall (λ item, valid item.1) l →
  ∀ st, length (store st) = length parts →
  ∃ st' later,
    foldl (keep_part min_support) (Some st) l = Some st'
    ∧ store st' = store st ∧ jobs st' = jobs st ++ later.
Proof.
  induction 1 as [|[k v] l Hk _ IH]; intros st Hlen; cbn [foldl].
  - exists st, []. by rewrite app_nil_r.
  - cbn [keep_part mbind option_bind]. unfold valid in Hk. cbn [fst] in Hk.
    destruct (_ && _).
    + destruct (Z.ltb_spec k 0); [lia|].
      destruct (lookup_lt_is_Some_2 (store st) (Z.to_nat k)) as [S ->]; [lia|].
      cbn [mbind option_bind].
      destruct (IH {| f := f st; store := store st; jobs := jobs st ++ [Z.to_nat k] |})
        as (st' & later & Hfold & Hstore & Hjobs); [done|].
      exists st', (Z.to_nat k :: later). split_and!; [done..|].
      rewrite Hjobs. cbn [jobs]. by rewrite <- app_assoc.
    + destruct (IH st Hlen) as (st' & later & ? & ? & ?). by exists st', later.
Qed.

End Merging.

(** X30: the jobs of [break_large_component] share arrays.  When
    [get_partitions] finds two or more partitions the call returns one
    job for each pair of partitions [(u, v)] whose count reaches
    [min_support], before the jobs of single partitions, and that job is
    the array of partition [u] itself, which [b.extend] has lengthened
    in place: at the return it holds the nodes of [u] and of every
    partition paired with [u], so two pairs with the same first
    partition give one array twice. *)
Theorem break_large_component_shares (G : Py_SimpleGraph) (component : list Z)
    (min_support : Z) (parts : list (list Z)) :
  get_partitions G component = Some parts → (2 ≤ length parts)%nat →
  ∃ store jobs later,
    break_large_component G component min_support = Some (Jobs store jobs)
    ∧ jobs = ((λ item, Z.to_nat item.1.1)
                <$> filter (enough min_support) (counts (count_links G parts))) ++ later
    ∧ ∀ u v sup, ((u, v), sup) ∈ counts (count_links G parts) → min_support ≤ sup →
        ∃ S Pu Pv, store !! Z.to_nat u = Some S
          ∧ parts !! Z.to_nat u = Some Pu ∧ parts !! Z.to_nat v = Some Pv
          ∧ Pu ⊆ S ∧ Pv ⊆ S.
Proof.
  intros Hparts Hlen. unfold break_large_component. rewrite Hparts. cbn [mbind option_bind].
  destruct (count_links_keys G parts) as [Hck Hsk].
  destruct (merge_pairs_grow parts min_support (counts (count_links G parts)) Hck
              {| f := ∅; store := parts; jobs := [] |})
    as (st1 & Hfold1 & Hst1 & [Hg1 Hlen1] & Hjobs1 & Hall1).
  { intros r P HP. by exists P. }
  destruct (keep_parts_store parts min_support (self_counts (count_links G parts)) Hsk st1)
    as (st2 & later & Hfold2 & Hstore2 & Hjobs2); [done|].
  exists (store st2), (jobs st2), later.
  destruct parts as [|p [|q parts']] eqn:Hp; cbn in Hlen; [lia..|]. rewrite <- Hp in *.
  rewrite Hfold1. cbn [mbind option_bind]. rewrite Hfold2. cbn [mbind option_bind].
  split_and!; [done| |].
  - rewrite Hjobs2, Hjobs1. done.
  - intros u v sup Hin Hsup. destruct (Hall1 u v sup Hin Hsup) as (S & Pv & HS & HPv & Hsub).
    rewrite Forall_forall in Hck. destruct (Hck _ Hin) as [[? ?] _]. cbn in *.
    destruct (lookup_lt_is_Some_2 parts (Z.to_nat u)) as [Pu HPu]; [lia|].
    destruct (Hst1 _ _ HPu) as (S' & HS' & Hsub').
    exists S, Pu, Pv. rewrite Hstore2. split_and!; [done..| |done]. by simplify_eq.
Qed.

Lemma break_large_component_shares_witness :
  break_large_component MoreExamples.three_pairs [0; 1; 2; 3; 4; 5] 1
  = Some (Jobs [[0; 1; 2; 3; 4; 5]; [2; 3]; [4; 5]] [0; 0]%nat)
  ∧ job_arrays [[0; 1; 2; 3; 4; 5]; [2; 3]; [4; 5]] [0; 0]%nat
    = [[0; 1; 2; 3; 4; 5]; [0; 1; 2; 3; 4; 5]]
  ∧ ∃ store jobs later,
      break_large_component MoreExamples.three_pairs [0; 1; 2; 3; 4; 5] 1
      = Some (Jobs store jobs)
      ∧ jobs = ((λ item, Z.to_nat item.1.1)
                  <$> filter (enough 1)
                        (counts (count_links MoreExamples.three_pairs
                                   [[0; 1]; [2; 3]; [4; 5]]))) ++ later
      ∧ ∀ u v sup,
          ((u, v), sup) ∈ counts (count_links MoreExamples.three_pairs
                                    [[0; 1]; [2; 3]; [4; 5]]) → 1 ≤ sup →
          ∃ S Pu Pv, store !! Z.to_nat u = Some S
            ∧ [[0; 1]; [2; 3]; [4; 5]] !! Z.to_nat u = Some Pu
            ∧ [[0; 1]; [2; 3]; [4; 5]] !! Z.to_nat v = Some Pv
            ∧ Pu ⊆ S ∧ Pv ⊆ S.
Proof.
  split; [vm_compute; reflexivity|]. split; [reflexivity|].
  apply (break_large_component_shares MoreExamples.three_pairs [0; 1; 2; 3; 4; 5] 1
           [[0; 1]; [2; 3]; [4; 5]]).
  - vm_compute. reflexivity.
  - cbn. lia.
Defined.

End BreakComponentFacts.
